(** * Vega dataflow: view accessors, selections, hierarchy transforms

    A shallow embedding of the JavaScript sources
    - [vega-view]       [scale(name)]                      (view accessor),
    - [vega-selections] [testPoint], [selectionTest],
    - [vega-hierarchy]  [nest], [Nest], [Stratify], [TreeLinks],
                        [HierarchyLayout] and [Pack], [Partition], [Tree],
                        [Treemap],
    together with the parts of [vega-dataflow] (pulses, tuple identities,
    operator ranks) that these sources call.

    Conventions.  A JavaScript [throw] is the [Throw] constructor of
    [result]; [vega-util]'s [error(message)] is [throw Error(message)].
    Mutable objects live in an explicit store and are named by their
    address; a function that mutates returns the store it leaves behind,
    also when it throws. *)

From Stdlib Require Import ZArith String List Bool Lia Sorted.
From stdpp Require Import base option list gmap strings pretty.

Set Warnings "-register-all,-clear-no-such-hyp".

Open Scope string_scope.
Open Scope list_scope.
Open Scope nat_scope.

(** ** Results of JavaScript calls *)

Inductive result (A : Type) : Type :=
| Ok (a : A)
| Throw (msg : string).
Arguments Ok {A} a.
Arguments Throw {A} msg.

Definition is_throw {A} (r : result A) : bool :=
  match r with Throw _ => true | Ok _ => false end.

(** [vega-util] [error]: [throw Error(message)]. *)
Definition error {A} (message : string) : result A := Throw message.

(** ** vega-view: the [scale] accessor *)

Module View.

Section Scale.
(** What a scale operator holds; opaque to the accessor. *)
Variable ScaleValue : Type.

Record Operator := { value : ScaleValue; rank : nat }.

(** [view._runtime]: the own properties of [scales], keyed by name. *)
Record Runtime := { scales : gmap string Operator }.

Record View := { _runtime : Runtime }.

(** [vega-util] [hasOwnProperty(object, property)]:
    [Object.prototype.hasOwnProperty.call(object, property)]. *)
Definition hasOwnProperty {V} (object : gmap string V) (property : string) : bool :=
  bool_decide (is_Some (object !! property)).

(** [export function scale(name)], called with [this] a view.  The view is
    returned alongside the outcome: the accessor writes nothing. *)
Definition scale (name : string) (this : View) : result ScaleValue * View :=
  let scales := scales (_runtime this) in
  if negb (hasOwnProperty scales name)
  then (error ("Unrecognized scale or projection: " +:+ name), this)
  else match scales !! name with
       | Some op => (Ok (value op), this)
       | None => (Throw "TypeError: Cannot read properties of undefined (reading 'value')", this)
       end.

Lemma hasOwnProperty_lookup {V} (object : gmap string V) property :
  hasOwnProperty object property = true ↔ is_Some (object !! property).
Proof. unfold hasOwnProperty. apply bool_decide_eq_true. Qed.

(** C8.  [scale(name)] raises exactly when [name] is not a key of the
    runtime's scales map; when it is a key, the accessor returns that
    operator's current value; in both cases the view (its scales map and
    every operator's value) is what it was. *)
Theorem scale_raises_iff_unknown (name : string) (this : View) :
  (is_throw (fst (scale name this)) = true ↔ scales (_runtime this) !! name = None)
  ∧ (∀ op, scales (_runtime this) !! name = Some op →
           fst (scale name this) = Ok (value op))
  ∧ snd (scale name this) = this.
Proof.
  unfold scale, hasOwnProperty.
  destruct (scales (_runtime this) !! name) as [op|] eqn:Hlk.
  - rewrite bool_decide_eq_true_2 by eauto. simpl.
    repeat split; try congruence; intros; simplify_eq; done.
  - rewrite bool_decide_eq_false_2 by (intros [? ?]; congruence). simpl.
    repeat split; intros; congruence.
Qed.
End Scale.

End View.

(** ** vega-selections: [testPoint] and [selectionTest] *)

Module Selection.

Definition Intersect : string := "intersect".
Definition TYPE_ENUM : string := "E".
Definition TYPE_RANGE_INC : string := "R".
Definition TYPE_RANGE_EXC : string := "R-E".
Definition TYPE_RANGE_LE : string := "R-LE".
Definition TYPE_RANGE_RE : string := "R-RE".

(** What [selectionTest] returns: a boolean, or the number [n] when
    [n && intersect] stops at [n = 0]. *)
Inductive Ret : Type :=
| RBool (b : bool)
| RNum (n : nat).

(** JavaScript truthiness of a returned value. *)
Definition truthy (r : Ret) : bool :=
  match r with
  | RBool b => b
  | RNum n => negb (Nat.eqb n 0)
  end.

(** [n && intersect]. *)
Definition js_and_num (n : nat) (b : bool) : Ret :=
  if Nat.eqb n 0 then RNum n else RBool b.

Section WithValues.
(** The tuple under test and the JavaScript values held by its fields and by
    the [values] of a selection entry. *)
Variable Datum : Type.
Variable JsVal : Type.
Variable undefined : JsVal.

(** [vega-util]: [field(name)] applied to a datum, [isDate], [isArray],
    [toNumber], and [inrange(value, range, left, right)] where an omitted
    flag is [None]. *)
Variable field : string → Datum → JsVal.
Variable isDate : JsVal → bool.
Variable isArray : JsVal → bool.
Variable toNumber : JsVal → JsVal.
Variable inrange : JsVal → JsVal → option bool → option bool → bool.

(** The language's own operations on values: [v[0]] (a [TypeError] when [v]
    is [null] or [undefined]), [v.map(f)], [v.indexOf(x)] and [x !== y]. *)
Variable js_index0 : JsVal → result JsVal.
Variable js_map : (JsVal → JsVal) → JsVal → JsVal.
Variable js_indexOf : JsVal → JsVal → Z.
Variable js_strict_neq : JsVal → JsVal → bool.

(** A field definition [{field, channel, type}]; [getter(f)] installs
    [vegaUtil.field(f.field)] as [f.getter] (or reuses the one it installed
    before) and returns it. *)
Record FieldDef := { f_field : string; f_type : string }.

Definition getter (f : FieldDef) : Datum → JsVal := field (f_field f).

(** A selection tuple [{unit, fields, values}]. *)
Record Entry := { unit : string; fields : list FieldDef; values : list JsVal }.

(** [values[i]]: [undefined] past the end. *)
Definition js_nth (values : list JsVal) (i : nat) : JsVal :=
  nth i values undefined.

(** [values[i] = x]: an assignment past the end extends the array, the
    skipped slots reading as [undefined]. *)
Definition js_set (values : list JsVal) (i : nat) (x : JsVal) : list JsVal :=
  if Nat.ltb i (length values) then <[i := x]> values
  else values ++ replicate (i - length values)%nat undefined ++ [x].

(** The body of [testPoint]'s loop from index [i] on, over the remaining
    field definitions.  [values] is the entry's array, written in place by
    the date coercions, and is returned as the loop leaves it. *)
Fixpoint testPoint_from (datum : Datum) (fs : list FieldDef) (i : nat)
    (values : list JsVal) : result bool * list JsVal :=
  match fs with
  | [] => (Ok true, values)
  | f :: fs' =>
    let dval := getter f datum in
    let dval := if isDate dval then toNumber dval else dval in
    let values :=
      if isDate (js_nth values i) then js_set values i (toNumber (js_nth values i))
      else values in
    match js_index0 (js_nth values i) with
    | Throw e => (Throw e, values)
    | Ok v0 =>
      let values :=
        if isDate v0 then js_set values i (js_map toNumber (js_nth values i))
        else values in
      let vi := js_nth values i in
      let miss :=
        if String.eqb (f_type f) TYPE_ENUM then
          if isArray vi then (js_indexOf vi dval <? 0)%Z else js_strict_neq dval vi
        else if String.eqb (f_type f) TYPE_RANGE_INC then
          negb (inrange dval vi None None)
        else if String.eqb (f_type f) TYPE_RANGE_RE then
          negb (inrange dval vi (Some true) (Some false))
        else if String.eqb (f_type f) TYPE_RANGE_EXC then
          negb (inrange dval vi (Some false) (Some false))
        else if String.eqb (f_type f) TYPE_RANGE_LE then
          negb (inrange dval vi (Some false) (Some true))
        else false in
      if miss then (Ok false, values)
      else testPoint_from datum fs' (S i) values
    end
  end.

(** [function testPoint(datum, entry)]: the outcome and the entry as the call
    leaves it. *)
Definition testPoint (datum : Datum) (entry : Entry) : result bool * Entry :=
  let r := testPoint_from datum (fields entry) 0 (values entry) in
  (fst r, {| unit := unit entry; fields := fields entry; values := snd r |}).

(** The unit index: a [Map] from unit name to [{count}]. *)
Definition UnitIndex : Type := gmap string nat.

(** A selection store [data]: [data.values.value] and, when present,
    [data['index:unit'].value]. *)
Record Store := { entries : list Entry; unitIdx : option UnitIndex }.

(** The loop of [selectionTest] over the entries not yet visited.  [n] is
    [entries.length]; [miss] is the per-unit counter object ([-1] once a unit
    has matched).  The entries come back as the calls to [testPoint] left
    them. *)
Fixpoint selectionTest_from (datum : Datum) (unitIdx : option UnitIndex)
    (intersect : bool) (n : nat) (miss : gmap string Z) (es : list Entry)
    : result Ret * list Entry :=
  match es with
  | [] => (Ok (js_and_num n intersect), [])
  | entry :: es' =>
    match unitIdx, intersect with
    | Some idx, true =>
      let count := default 0%Z (miss !! unit entry) in
      if (count =? -1)%Z then
        let r := selectionTest_from datum unitIdx intersect n miss es' in
        (fst r, entry :: snd r)
      else
        match testPoint datum entry with
        | (Throw e, entry') => (Throw e, entry' :: es')
        | (Ok b, entry') =>
          let count' := if b then (-1)%Z else (count + 1)%Z in
          let miss := <[unit entry := count']> miss in
          if b && Nat.eqb (size idx) 1 then (Ok (RBool true), entry' :: es')
          else if negb b then
            match idx !! unit entry with
            | None => (Throw "TypeError: Cannot read properties of undefined (reading 'count')",
                       entry' :: es')
            | Some c =>
              if (count' =? Z.of_nat c)%Z then (Ok (RBool false), entry' :: es')
              else
                let r := selectionTest_from datum unitIdx intersect n miss es' in
                (fst r, entry' :: snd r)
            end
          else
            let r := selectionTest_from datum unitIdx intersect n miss es' in
            (fst r, entry' :: snd r)
        end
    | _, _ =>
      match testPoint datum entry with
      | (Throw e, entry') => (Throw e, entry' :: es')
      | (Ok b, entry') =>
        if xorb intersect b then (Ok (RBool b), entry' :: es')
        else
          let r := selectionTest_from datum unitIdx intersect n miss es' in
          (fst r, entry' :: snd r)
      end
    end
  end.

(** [function selectionTest(name, datum, op)] with [this.context.data] the
    stores by name.  A missing store reads as no entries and no unit index;
    the name is looked up among the stores only, not among the properties
    that [Object.prototype] lends to every object. *)
Definition selectionTest (data : gmap string Store) (name : string)
    (datum : Datum) (op : string) : result Ret * list Entry :=
  let store := data !! name in
  let entries := match store with Some d => entries d | None => [] end in
  let unitIdx := match store with Some d => unitIdx d | None => None end in
  let intersect := String.eqb op Intersect in
  selectionTest_from datum unitIdx intersect (length entries) ∅ entries.

(** [testPoint] returned [b] on this entry. *)
Definition tests (datum : Datum) (b : bool) (entry : Entry) : Prop :=
  fst (testPoint datum entry) = Ok b.



Lemma truthy_js_and_num n b : truthy (js_and_num n b) = negb (Nat.eqb n 0) && b.
Proof. unfold js_and_num. destruct (Nat.eqb n 0) eqn:E; simpl; [by rewrite E|done]. Qed.






(** *** Entries that [testPoint] cannot match, or cannot miss *)

(** The field types [testPoint] knows. *)
Definition known_types : list string :=
  [TYPE_ENUM; TYPE_RANGE_INC; TYPE_RANGE_EXC; TYPE_RANGE_LE; TYPE_RANGE_RE].

Lemma js_set_length values i x :
  i < length values → length (js_set values i x) = length values.
Proof.
  intros Hi. unfold js_set. apply Nat.ltb_lt in Hi. rewrite Hi.
  apply length_insert.
Qed.

Lemma testPoint_from_short datum e fs :
  isDate undefined = false → js_index0 undefined = Throw e →
  ∀ i values, i ≤ length values → length values < i + length fs →
  fst (testPoint_from datum fs i values) ≠ Ok true.
Proof.
  intros Hdate Hidx. induction fs as [|f fs IH]; intros i values Hle Hlt.
  - simpl in Hlt. lia.
  - cbn [testPoint_from]. unfold js_nth.
    destruct (decide (i = length values)) as [->|Hne].
    + rewrite (nth_overflow values) by lia. rewrite Hdate.
      rewrite (nth_overflow values) by lia. by rewrite Hidx.
    + assert (i < length values) as Hi by lia.
      set (values1 := if isDate (nth i values undefined) then _ else values).
      assert (length values1 = length values) as Hlen1.
      { subst values1. destruct (isDate (nth i values undefined));
          [by apply js_set_length|done]. }
      destruct (js_index0 (nth i values1 undefined)) as [v0|e']; [|done].
      set (values2 := if isDate v0 then _ else values1).
      assert (length values2 = length values) as Hlen2.
      { subst values2. destruct (isDate v0); [|done].
        rewrite js_set_length; [done|lia]. }
      destruct (if String.eqb (f_type f) TYPE_ENUM then _ else _); [done|].
      apply IH; try done; simpl in Hlt; lia.
Qed.

(** X3.  An entry that holds fewer values than field definitions is never
    matched: [testPoint] returns [false] at a field that misses before the
    values run out, and otherwise throws at the first field without a value,
    where [values[i][0]] reads a property of [undefined]. *)
Theorem testPoint_missing_values (datum : Datum) (entry : Entry) (e : string) :
  isDate undefined = false → js_index0 undefined = Throw e →
  length (values entry) < length (fields entry) →
  fst (testPoint datum entry) ≠ Ok true.
Proof.
  intros Hdate Hidx Hlt. unfold testPoint. cbn [fst].
  apply (testPoint_from_short datum e); try done; lia.
Qed.

(** X4.  A field definition whose [type] is none of ['E'], ['R'], ['R-E'],
    ['R-LE'], ['R-RE'] is not tested at all: an entry whose field definitions
    all have such a type is never missed, whatever the datum holds. *)
Theorem testPoint_unknown_types (datum : Datum) (entry : Entry) :
  Forall (λ f, f_type f ∉ known_types) (fields entry) →
  fst (testPoint datum entry) ≠ Ok false.
Proof.
  unfold testPoint. cbn [fst]. generalize 0 (values entry).
  induction (fields entry) as [|f fs IH]; intros i values Hall; [done|].
  apply Forall_cons in Hall as [Hf Hall]. cbn [testPoint_from].
  destruct (js_index0 _) as [v0|e']; [|done].
  assert (∀ t, t ∈ known_types → String.eqb (f_type f) t = false) as Hne.
  { intros t Ht. apply String.eqb_neq. by intros <-. }
  rewrite !Hne by (unfold known_types; set_solver).
  by apply IH.
Qed.

(** *** With a unit index: union within a unit, intersection across units *)

(** [testPoint] accepted the entry. *)
Definition hit (datum : Datum) (entry : Entry) : bool :=
  match fst (testPoint datum entry) with Ok true => true | _ => false end.

(** One of the entries of unit [u] was accepted. *)
Definition matchedb (datum : Datum) (u : string) (es : list Entry) : bool :=
  existsb (λ e, String.eqb (unit e) u && hit datum e) es.

(** The number of entries of unit [u]. *)
Definition unit_count (u : string) (es : list Entry) : nat :=
  length (filter (λ e, unit e = u) es).

(** The unit index of a list of entries: each unit that occurs, with the
    number of its entries. *)
Definition indexes (idx : UnitIndex) (es : list Entry) : Prop :=
  ∀ u, idx !! u = if Nat.eqb (unit_count u es) 0 then None else Some (unit_count u es).

(** What the counters hold once the entries [done] have been visited. *)
Definition miss_of (datum : Datum) (done : list Entry) (u : string) : option Z :=
  if matchedb datum u done then Some (-1)%Z
  else if Nat.eqb (unit_count u done) 0 then None
  else Some (Z.of_nat (unit_count u done)).

Lemma unit_count_app u l1 l2 :
  unit_count u (l1 ++ l2) = unit_count u l1 + unit_count u l2.
Proof. unfold unit_count. by rewrite filter_app, length_app. Qed.

Lemma unit_count_single u e :
  unit_count u [e] = if String.eqb (unit e) u then 1 else 0.
Proof.
  unfold unit_count. rewrite filter_cons, filter_nil.
  destruct (String.eqb_spec (unit e) u).
  - by rewrite decide_True.
  - by rewrite decide_False.
Qed.

Lemma matchedb_app datum u l1 l2 :
  matchedb datum u (l1 ++ l2) = matchedb datum u l1 || matchedb datum u l2.
Proof. unfold matchedb. apply existsb_app. Qed.

Lemma matchedb_single datum u e :
  matchedb datum u [e] = String.eqb (unit e) u && hit datum e.
Proof. unfold matchedb. simpl. by rewrite orb_false_r. Qed.

Lemma matchedb_no_entry datum u es : unit_count u es = 0 → matchedb datum u es = false.
Proof.
  induction es as [|e es IH]; [done|].
  change (e :: es) with ([e] ++ es).
  rewrite unit_count_app, matchedb_app, unit_count_single, matchedb_single.
  destruct (String.eqb (unit e) u); [done|]. simpl. exact IH.
Qed.

Lemma matchedb_Exists datum u es :
  matchedb datum u es = true ↔ Exists (λ e, unit e = u ∧ tests datum true e) es.
Proof.
  unfold matchedb. rewrite existsb_exists, Exists_exists. unfold hit, tests.
  split; intros (e & Hin & He); exists e.
  - apply list_elem_of_In in Hin. split; [done|].
    apply andb_true_iff in He as [Hu Hh]. apply String.eqb_eq in Hu.
    split; [done|]. by destruct (fst (testPoint datum e)) as [[]|].
  - split; [by apply list_elem_of_In|]. destruct He as [-> ->].
    by rewrite String.eqb_refl.
Qed.

Lemma size_one_lookup (idx : gmap string nat) u u' c c' :
  size idx = 1 → idx !! u = Some c → idx !! u' = Some c' → u = u'.
Proof.
  intros Hsize Hu Hu'. destruct (decide (u = u')) as [|Hne]; [done|].
  assert (size (delete u idx) = 0) as Hempty
    by (rewrite map_size_delete_Some, Hsize by eauto; done).
  apply map_size_empty_inv in Hempty.
  assert (delete u idx !! u' = Some c') as Hd by (by rewrite lookup_delete_ne).
  rewrite Hempty in Hd. by rewrite lookup_empty in Hd.
Qed.

(** The loop under [intersect] with a unit index that counts the entries. *)
Lemma selectionTest_from_units datum idx all : ∀ es done miss,
  indexes idx all → all = done ++ es →
  Forall (λ e, ∃ b, tests datum b e) es →
  (∀ u, miss !! u = miss_of datum done u) →
  (∀ u, matchedb datum u done = false → unit_count u done ≠ 0 →
        unit_count u done < unit_count u all) →
  ∃ v, fst (selectionTest_from datum (Some idx) true (length all) miss es) = Ok v
       ∧ (truthy v = true ↔
          all ≠ [] ∧ ∀ u, unit_count u all ≠ 0 → matchedb datum u all = true).
Proof.
  induction es as [|e es IH]; intros done miss Hidx Hall Htests Hmiss Halive.
  - rewrite app_nil_r in Hall. subst done. cbn [selectionTest_from fst].
    eexists. split; [done|]. rewrite truthy_js_and_num, andb_true_r, negb_true_iff.
    rewrite Nat.eqb_neq. split.
    + intros Hn. split; [by intros ->|]. intros u Hu.
      destruct (matchedb datum u all) eqn:Hm; [done|].
      specialize (Halive u Hm Hu). lia.
    + intros [Hne _]. by destruct all.
  - apply Forall_cons in Htests as [[b Hb] Htests].
    assert (all = (done ++ [e]) ++ es) as Hall' by (by rewrite <- app_assoc).
    assert (unit_count (unit e) all ≠ 0) as Hpos.
    { rewrite Hall', !unit_count_app, unit_count_single, String.eqb_refl. lia. }
    assert (unit_count (unit e) done + 1 ≤ unit_count (unit e) all) as Hprefix.
    { rewrite Hall', !unit_count_app, unit_count_single, String.eqb_refl. lia. }
    cbn [selectionTest_from]. rewrite (Hmiss (unit e)).
    destruct (matchedb datum (unit e) done) eqn:Hm.
    + (* this unit has matched already: the entry is skipped *)
      assert (miss_of datum done (unit e) = Some (-1)%Z) as ->
        by (unfold miss_of; by rewrite Hm).
      simpl. destruct (IH (done ++ [e]) miss) as (v & Hv & Hiff); try done.
      * intros u. rewrite Hmiss. unfold miss_of.
        rewrite matchedb_app, unit_count_app, matchedb_single, unit_count_single.
        destruct (String.eqb_spec (unit e) u) as [<-|Hne].
        -- by rewrite Hm.
        -- by rewrite andb_false_l, orb_false_r, Nat.add_0_r.
      * intros u. rewrite matchedb_app, unit_count_app, matchedb_single,
          unit_count_single.
        destruct (String.eqb_spec (unit e) u) as [<-|Hne].
        -- by rewrite Hm.
        -- rewrite andb_false_l, orb_false_r, Nat.add_0_r. apply Halive.
      * exists v. by rewrite Hv.
    + set (count := default 0%Z (miss_of datum done (unit e))).
      assert (count = Z.of_nat (unit_count (unit e) done)) as Hcount.
      { subst count. unfold miss_of. rewrite Hm.
        destruct (Nat.eqb_spec (unit_count (unit e) done) 0) as [->|]; done. }
      assert ((count =? -1)%Z = false) as -> by (apply Z.eqb_neq; lia).
      unfold tests in Hb. destruct (testPoint datum e) as [r e'] eqn:Htp.
      simpl in Hb. subst r.
      assert (hit datum e = b) as Hhit by (unfold hit; rewrite Htp; by destruct b).
      assert (idx !! unit e = Some (unit_count (unit e) all)) as Hlk.
      { rewrite Hidx. by destruct (Nat.eqb_spec (unit_count (unit e) all) 0). }
      assert (∀ u, <[unit e := if b then (-1)%Z else (count + 1)%Z]> miss !! u
                   = miss_of datum (done ++ [e]) u) as Hmiss'.
      { intros u. unfold miss_of.
        rewrite matchedb_app, unit_count_app, matchedb_single, unit_count_single, Hhit.
        destruct (String.eqb_spec (unit e) u) as [<-|Hne].
        - rewrite lookup_insert_eq, Hm. simpl. destruct b; [done|].
          destruct (Nat.eqb_spec (unit_count (unit e) done + 1) 0); [lia|].
          f_equal. lia.
        - rewrite lookup_insert_ne by done. rewrite Hmiss. unfold miss_of.
          by rewrite andb_false_l, orb_false_r, Nat.add_0_r. }
      destruct b; cbn [andb negb].
      * (* a match *)
        destruct (Nat.eqb_spec (size idx) 1) as [Hone|Hmany].
        -- cbn [fst]. eexists. split; [done|]. simpl. split; [|done]. intros _.
           split; [by destruct done; subst all|]. intros u Hu.
           assert (u = unit e) as ->.
           { eapply size_one_lookup; [done| |exact Hlk].
             rewrite Hidx. by destruct (Nat.eqb_spec (unit_count u all) 0). }
           rewrite Hall', !matchedb_app, matchedb_single, String.eqb_refl, Hhit.
           simpl. by rewrite orb_true_r.
        -- destruct (IH (done ++ [e])
                        (<[unit e := (-1)%Z]> miss)) as (v & Hv & Hiff); try done.
           ++ intros u. rewrite matchedb_app, unit_count_app, matchedb_single,
                unit_count_single, Hhit.
              destruct (String.eqb_spec (unit e) u) as [<-|Hne].
              ** simpl. by rewrite orb_true_r.
              ** rewrite andb_false_l, orb_false_r, Nat.add_0_r. apply Halive.
           ++ exists v. by rewrite Hv.
      * (* a miss *)
        rewrite Hlk.
        destruct (Z.eqb_spec (count + 1) (Z.of_nat (unit_count (unit e) all)))
          as [Hlast|Hmore].
        -- cbn [fst]. eexists. split; [done|]. simpl. split; [done|].
           intros [_ Hunits]. specialize (Hunits (unit e) Hpos).
           rewrite Hall', !matchedb_app, matchedb_single, Hhit, Hm in Hunits.
           rewrite andb_false_r in Hunits. simpl in Hunits.
           rewrite matchedb_no_entry in Hunits; [done|].
           rewrite Hall', !unit_count_app, unit_count_single, String.eqb_refl in Hlast.
           lia.
        -- destruct (IH (done ++ [e])
                        (<[unit e := (count + 1)%Z]> miss)) as (v & Hv & Hiff); try done.
           ++ intros u. rewrite matchedb_app, unit_count_app, matchedb_single,
                unit_count_single, Hhit.
              destruct (String.eqb_spec (unit e) u) as [<-|Hne].
              ** intros _ _. lia.
              ** rewrite andb_false_l, orb_false_r, Nat.add_0_r. apply Halive.
           ++ exists v. by rewrite Hv.
Qed.

(** *** Testing a datum twice *)

Lemma js_nth_set values i x j :
  js_nth (js_set values i x) j = if Nat.eqb j i then x else js_nth values j.
Proof.
  unfold js_set, js_nth. rewrite !nth_lookup.
  destruct (Nat.ltb_spec i (length values)) as [Hin|Hout].
  - destruct (Nat.eqb_spec j i) as [->|Hne].
    + by rewrite list_lookup_insert_eq.
    + by rewrite list_lookup_insert_ne.
  - destruct (Nat.eqb_spec j i) as [->|Hne].
    + rewrite lookup_app_r by lia. rewrite lookup_app_r; rewrite length_replicate; [|lia].
      by rewrite Nat.sub_diag.
    + destruct (Nat.lt_ge_cases j (length values)) as [Hj|Hj].
      * by rewrite lookup_app_l.
      * rewrite lookup_app_r by lia. rewrite (lookup_ge_None_2 values) by lia.
        destruct (Nat.lt_ge_cases j i) as [Hji|Hji].
        -- rewrite lookup_app_l by (rewrite length_replicate; lia).
           rewrite lookup_replicate_2 by lia. done.
        -- rewrite lookup_ge_None_2; [done|].
           rewrite length_app, length_replicate. simpl. lia.
Qed.

(** The loop from index [i] on leaves the values before [i] alone. *)
Lemma testPoint_from_before datum fs : ∀ i values j,
  j < i → js_nth (snd (testPoint_from datum fs i values)) j = js_nth values j.
Proof.
  induction fs as [|f fs IH]; intros i values j Hj; [done|].
  cbn [testPoint_from].
  set (values1 := if isDate (js_nth values i) then _ else values).
  assert (js_nth values1 j = js_nth values j) as H1.
  { subst values1. destruct (isDate (js_nth values i)); [|done].
    rewrite js_nth_set. by destruct (Nat.eqb_spec j i); [lia|]. }
  destruct (js_index0 (js_nth values1 i)) as [v0|e]; [|done].
  set (values2 := if isDate v0 then _ else values1).
  assert (js_nth values2 j = js_nth values j) as H2.
  { subst values2. destruct (isDate v0); [|done].
    rewrite js_nth_set. by destruct (Nat.eqb_spec j i); [lia|]. }
  destruct (if String.eqb (f_type f) TYPE_ENUM then _ else _); [done|].
  rewrite IH by lia. done.
Qed.

(** A value that the date coercions leave alone. *)
Definition settled (v : JsVal) : Prop :=
  isDate v = false ∧ ∃ v0, js_index0 v = Ok v0 ∧ isDate v0 = false.

(** The test of one field definition against a value. *)
Definition misses (f : FieldDef) (dval vi : JsVal) : bool :=
  if String.eqb (f_type f) TYPE_ENUM then
    if isArray vi then (js_indexOf vi dval <? 0)%Z else js_strict_neq dval vi
  else if String.eqb (f_type f) TYPE_RANGE_INC then
    negb (inrange dval vi None None)
  else if String.eqb (f_type f) TYPE_RANGE_RE then
    negb (inrange dval vi (Some true) (Some false))
  else if String.eqb (f_type f) TYPE_RANGE_EXC then
    negb (inrange dval vi (Some false) (Some false))
  else if String.eqb (f_type f) TYPE_RANGE_LE then
    negb (inrange dval vi (Some false) (Some true))
  else false.

Lemma testPoint_from_settled datum f fs i values :
  settled (js_nth values i) →
  testPoint_from datum (f :: fs) i values
  = if misses f (if isDate (getter f datum) then toNumber (getter f datum)
                 else getter f datum) (js_nth values i)
    then (Ok false, values)
    else testPoint_from datum fs (S i) values.
Proof.
  intros (Hd & v0 & Hv0 & Hd0). cbn [testPoint_from]. rewrite Hd, Hv0, Hd0. done.
Qed.

Section Settles.
(** What [toNumber] returns is no date; a date made a number, and an array
    whose dates are made numbers, have no date for first element. *)
Hypothesis number_no_date : ∀ v, isDate (toNumber v) = false.
Hypothesis number_first : ∀ v,
  isDate v = true → ∃ v0, js_index0 (toNumber v) = Ok v0 ∧ isDate v0 = false.
Hypothesis mapped_first : ∀ v v0,
  js_index0 v = Ok v0 → isDate v0 = true →
  isDate (js_map toNumber v) = false
  ∧ ∃ w, js_index0 (js_map toNumber v) = Ok w ∧ isDate w = false.

Lemma testPoint_from_settles datum fs : ∀ i values,
  testPoint_from datum fs i (snd (testPoint_from datum fs i values))
  = testPoint_from datum fs i values.
Proof.
  induction fs as [|f fs IH]; intros i values; [done|].
  assert (∀ values2, settled (js_nth values2 i) →
            testPoint_from datum (f :: fs) i values2
            = (if misses f (if isDate (getter f datum) then toNumber (getter f datum)
                            else getter f datum) (js_nth values2 i)
               then (Ok false, values2)
               else testPoint_from datum fs (S i) values2) →
            testPoint_from datum (f :: fs) i
              (snd (testPoint_from datum (f :: fs) i values2))
            = testPoint_from datum (f :: fs) i values2) as Hsettled.
  { intros values2 Hs Hstep. rewrite Hstep.
    destruct (misses f _ (js_nth values2 i)) eqn:Hmiss.
    - exact Hstep.
    - rewrite testPoint_from_settled.
      + rewrite testPoint_from_before by lia. rewrite Hmiss. apply IH.
      + by rewrite testPoint_from_before by lia. }
  assert (∀ values2, settled (js_nth values2 i) →
            testPoint_from datum (f :: fs) i values
            = testPoint_from datum (f :: fs) i values2 →
            testPoint_from datum (f :: fs) i
              (snd (testPoint_from datum (f :: fs) i values))
            = testPoint_from datum (f :: fs) i values) as Hvia.
  { intros values2 Hs Heq. rewrite Heq. apply Hsettled; [done|].
    by apply testPoint_from_settled. }
  destruct (isDate (js_nth values i)) eqn:Hd.
  - (* a date, made a number *)
    destruct (number_first _ Hd) as (v0 & Hv0 & Hd0).
    assert (settled (js_nth (js_set values i (toNumber (js_nth values i))) i)) as Hs.
    { split; rewrite js_nth_set, Nat.eqb_refl; [apply number_no_date|eauto]. }
    apply (Hvia _ Hs). rewrite (testPoint_from_settled _ _ _ _ _ Hs).
    cbn [testPoint_from]. rewrite Hd. rewrite !js_nth_set, Nat.eqb_refl.
    rewrite Hv0, Hd0. unfold misses. by rewrite ?js_nth_set, ?Nat.eqb_refl.
  - destruct (js_index0 (js_nth values i)) as [v0|e] eqn:Hv0.
    + destruct (isDate v0) eqn:Hd0.
      * (* an array of dates, made numbers *)
        destruct (mapped_first _ _ Hv0 Hd0) as (Hdw & w & Hw & Hdw0).
        assert (settled (js_nth (js_set values i (js_map toNumber (js_nth values i))) i))
          as Hs.
        { split; rewrite js_nth_set, Nat.eqb_refl; [done|eauto]. }
        apply (Hvia _ Hs). rewrite (testPoint_from_settled _ _ _ _ _ Hs).
        cbn [testPoint_from]. rewrite Hd, Hv0, Hd0. done.
      * apply Hsettled; [by split; eauto|]. apply testPoint_from_settled.
        by split; eauto.
    + cbn [testPoint_from]. rewrite Hd, Hv0. cbn [snd testPoint_from].
      by rewrite Hd, Hv0.
Qed.

End Settles.

(** X27.  [testPoint] writes the dates it makes numbers into the entry, and
    does so once: testing the same datum again on the entry as the first
    call left it gives the same outcome and leaves the entry as it is. *)
Theorem testPoint_settles (datum : Datum) (entry : Entry) :
  (∀ v, isDate (toNumber v) = false) →
  (∀ v, isDate v = true → ∃ v0, js_index0 (toNumber v) = Ok v0 ∧ isDate v0 = false) →
  (∀ v v0, js_index0 v = Ok v0 → isDate v0 = true →
     isDate (js_map toNumber v) = false
     ∧ ∃ w, js_index0 (js_map toNumber v) = Ok w ∧ isDate w = false) →
  testPoint datum (snd (testPoint datum entry)) = testPoint datum entry.
Proof.
  intros H1 H2 H3. unfold testPoint. cbn [fields values unit snd].
  by rewrite (testPoint_from_settles H1 H2 H3).
Qed.

(** *** A unit index under an [op] other than ['intersect'] *)



End WithValues.

(** A small universe of values to run the model on: [null] and integers. *)
Inductive Sample : Type :=
| SNull
| SInt (n : Z).

Definition sample_neq (x y : Sample) : bool :=
  match x, y with
  | SNull, SNull => false
  | SInt a, SInt b => negb (a =? b)%Z
  | _, _ => true
  end.

Definition sample_index0 (v : Sample) : result Sample :=
  match v with
  | SNull => Throw "TypeError: Cannot read properties of null (reading '0')"
  | SInt _ => Ok SNull
  end.




(** A point entry on field ["a"] that has lost its value, and one whose field
    type is misspelt. *)
Definition entry_without_value : Entry Sample :=
  {| unit := "u"; fields := [ {| f_field := "a"; f_type := TYPE_ENUM |} ]; values := [] |}.

Definition entry_misspelt_type : Entry Sample :=
  {| unit := "u"; fields := [ {| f_field := "a"; f_type := "e" |} ];
     values := [SInt 3] |}.

Lemma testPoint_missing_values_witness :
  fst (testPoint Z Sample SNull (λ _ d, SInt d) (λ _, false) (λ _, false)
         (λ v, v) (λ _ _ _ _, false) sample_index0 (λ _ v, v) (λ _ _, (-1)%Z)
         sample_neq 3%Z entry_without_value) ≠ Ok true.
Proof.
  apply (testPoint_missing_values Z Sample SNull (λ _ d, SInt d) (λ _, false)
           (λ _, false) (λ v, v) (λ _ _ _ _, false) sample_index0 (λ _ v, v)
           (λ _ _, (-1)%Z) sample_neq 3%Z entry_without_value
           "TypeError: Cannot read properties of null (reading '0')").
  - reflexivity.
  - reflexivity.
  - simpl. lia.
Defined.

Lemma testPoint_unknown_types_witness :
  fst (testPoint Z Sample SNull (λ _ d, SInt d) (λ _, false) (λ _, false)
         (λ v, v) (λ _ _ _ _, false) sample_index0 (λ _ v, v) (λ _ _, (-1)%Z)
         sample_neq 4%Z entry_misspelt_type) ≠ Ok false.
Proof.
  apply (testPoint_unknown_types Z Sample SNull (λ _ d, SInt d) (λ _, false)
           (λ _, false) (λ v, v) (λ _ _ _ _, false) sample_index0 (λ _ v, v)
           (λ _ _, (-1)%Z) sample_neq 4%Z entry_misspelt_type).
  apply Forall_cons. split; [|apply Forall_nil_2].
  unfold known_types. simpl. intros Hin.
  repeat (apply elem_of_cons in Hin as [Hin|Hin]; [discriminate Hin|]).
  by apply elem_of_nil in Hin.
Defined.

(** A universe with dates: numbers and dates, and arrays of them. *)
Inductive Stamp : Type :=
| SNum (z : Z)
| SDate (ms : Z).

Inductive Dated : Type :=
| DUndefined
| DScalar (x : Stamp)
| DArray (l : list Stamp).

Definition dated_isDate (v : Dated) : bool :=
  match v with DScalar (SDate _) => true | _ => false end.

Definition stamp_number (x : Stamp) : Z :=
  match x with SNum z => z | SDate ms => ms end.

Definition dated_toNumber (v : Dated) : Dated :=
  match v with DScalar x => DScalar (SNum (stamp_number x)) | _ => v end.

Definition dated_index0 (v : Dated) : result Dated :=
  match v with
  | DUndefined => Throw "TypeError: Cannot read properties of undefined (reading '0')"
  | DScalar _ => Ok DUndefined
  | DArray [] => Ok DUndefined
  | DArray (x :: _) => Ok (DScalar x)
  end.

Definition dated_map (g : Dated → Dated) (v : Dated) : Dated :=
  match v with
  | DArray l => DArray (map (λ x, match g (DScalar x) with DScalar y => y | _ => x end) l)
  | _ => v
  end.

Definition dated_inrange (v r : Dated) (left right : option bool) : bool :=
  match v, r with
  | DScalar (SNum z), DArray [SNum lo; SNum hi] => ((lo <=? z) && (z <=? hi))%Z
  | _, _ => false
  end.

(** An interval entry on field ["t"] whose bounds are dates. *)
Definition entry_with_dates : Entry Dated :=
  {| unit := "u"; fields := [ {| f_field := "t"; f_type := TYPE_RANGE_INC |} ];
     values := [DArray [SDate 1; SDate 5]] |}.

(** The first test makes the bounds numbers and accepts the datum. *)
Example testPoint_coerces_dates :
  testPoint Z Dated DUndefined (λ _ d, DScalar (SNum d)) dated_isDate (λ _, false)
    dated_toNumber dated_inrange dated_index0 dated_map (λ _ _, (-1)%Z) (λ _ _, true)
    3%Z entry_with_dates
  = (Ok true, {| unit := "u"; fields := fields Dated entry_with_dates;
                 values := [DArray [SNum 1; SNum 5]] |}).
Proof. reflexivity. Qed.

Lemma testPoint_settles_witness :
  testPoint Z Dated DUndefined (λ _ d, DScalar (SNum d)) dated_isDate (λ _, false)
    dated_toNumber dated_inrange dated_index0 dated_map (λ _ _, (-1)%Z) (λ _ _, true)
    3%Z
    (snd (testPoint Z Dated DUndefined (λ _ d, DScalar (SNum d)) dated_isDate
            (λ _, false) dated_toNumber dated_inrange dated_index0 dated_map
            (λ _ _, (-1)%Z) (λ _ _, true) 3%Z entry_with_dates))
  = testPoint Z Dated DUndefined (λ _ d, DScalar (SNum d)) dated_isDate (λ _, false)
      dated_toNumber dated_inrange dated_index0 dated_map (λ _ _, (-1)%Z) (λ _ _, true)
      3%Z entry_with_dates.
Proof.
  apply (testPoint_settles Z Dated DUndefined (λ _ d, DScalar (SNum d)) dated_isDate
           (λ _, false) dated_toNumber dated_inrange dated_index0 dated_map
           (λ _ _, (-1)%Z) (λ _ _, true) 3%Z entry_with_dates).
  - intros [|[z|ms]|l]; reflexivity.
  - intros [|[z|ms]|l] Hd; try discriminate Hd. exists DUndefined. by split.
  - intros [|x|[|[z|ms] l]] v0 Hv0 Hd; simpl in Hv0; simplify_eq; try discriminate Hd.
    split; [reflexivity|]. eexists. split; reflexivity.
Defined.



End Selection.

(** ** vega-dataflow: the store, tuple identities and pulses *)

Module Dataflow.

(** Addresses of the mutable objects: data records (tuples and the objects
    transforms generate), arrays, pulses, tree roots and operators. *)
Definition ref : Type := nat.
Definition loc : Type := nat.
Definition pid : Type := nat.
Definition treeref : Type := nat.
Definition opid : Type := nat.

(** The pulse flags the transforms pass around. *)
Inductive Flag : Type := ADD | REM | MOD | SOURCE | NO_SOURCE.

#[global] Instance Flag_eq_dec : EqDecision Flag.
Proof. solve_decision. Defined.

Definition Flags : Type := list Flag.

Definition has (f : Flag) (flags : Flags) : bool := bool_decide (f ∈ flags).

Definition ADD_REM : Flags := [ADD; REM].

(** Modelled from the spec: the numeric flag constants of [Pulse] are not in
    the sources at hand; section 4.2 names ADD, REM, MOD, SOURCE "or their
    union ALL". *)
Definition ALL : Flags := [ADD; REM; MOD; SOURCE].

(** Modelled from the spec: section 3, Pulse: "[fields]: set of field names
    touched (or a sentinel meaning all fields)". *)
Inductive Fields : Type :=
| AllFields
| FieldSet (names : gset string).

(** The value an operator holds: nothing yet, a tree, or an array. *)
Inductive OpValue : Type :=
| VNull
| VTree (t : treeref)
| VArr (l : loc).

(** A JavaScript array of records, with the [root] property the tree
    transforms hang on a pulse's source array ([VNull] when it has none). *)
Record Arr := { elems : list ref; root : OpValue }.

(** Modelled from the spec: the [Pulse] class is not in the sources at hand;
    section 3, Pulse: [add], [rem], [mod], [fields], a source reference and a
    stamp.  The sequences are arrays in the store, so that two pulses can
    share one array. *)
Record Pulse := {
  add : loc;
  rem : loc;
  mod_ : loc;
  source : option loc;
  fields : Fields;
  stamp : nat
}.

Section Store.
(** What a tree root and a record property hold is left to the transforms. *)
Context {TreeObj PropVal : Type}.

Record State := {
  arrays : gmap loc Arr;
  pulses : gmap pid Pulse;
  trees : gmap treeref TreeObj;
  (** the tuple identity of each ingested record, and the next one to mint *)
  tids : gmap ref nat;
  next_tid : nat;
  (** the records allocated so far *)
  objs : gset ref;
  (** the [source] and [target] of each link record *)
  links : gmap ref (ref * ref);
  (** the fields the layouts write on records *)
  props : gmap (ref * string) PropVal;
  (** each operator's [value] *)
  values : gmap opid OpValue
}.

Definition set_arrays (f : gmap loc Arr → gmap loc Arr) (s : State) : State :=
  {| arrays := f (arrays s); pulses := pulses s; trees := trees s; tids := tids s;
     next_tid := next_tid s; objs := objs s; links := links s; props := props s;
     values := values s |}.

Definition set_pulses (f : gmap pid Pulse → gmap pid Pulse) (s : State) : State :=
  {| arrays := arrays s; pulses := f (pulses s); trees := trees s; tids := tids s;
     next_tid := next_tid s; objs := objs s; links := links s; props := props s;
     values := values s |}.

Definition set_trees (f : gmap treeref TreeObj → gmap treeref TreeObj) (s : State) : State :=
  {| arrays := arrays s; pulses := pulses s; trees := f (trees s); tids := tids s;
     next_tid := next_tid s; objs := objs s; links := links s; props := props s;
     values := values s |}.

Definition set_objs (f : gset ref → gset ref) (s : State) : State :=
  {| arrays := arrays s; pulses := pulses s; trees := trees s; tids := tids s;
     next_tid := next_tid s; objs := f (objs s); links := links s; props := props s;
     values := values s |}.

Definition set_links (f : gmap ref (ref * ref) → gmap ref (ref * ref)) (s : State) : State :=
  {| arrays := arrays s; pulses := pulses s; trees := trees s; tids := tids s;
     next_tid := next_tid s; objs := objs s; links := f (links s); props := props s;
     values := values s |}.

Definition set_props (f : gmap (ref * string) PropVal → gmap (ref * string) PropVal)
    (s : State) : State :=
  {| arrays := arrays s; pulses := pulses s; trees := trees s; tids := tids s;
     next_tid := next_tid s; objs := objs s; links := links s; props := f (props s);
     values := values s |}.

Definition set_values (f : gmap opid OpValue → gmap opid OpValue) (s : State) : State :=
  {| arrays := arrays s; pulses := pulses s; trees := trees s; tids := tids s;
     next_tid := next_tid s; objs := objs s; links := links s; props := props s;
     values := f (values s) |}.

(** *** Computations over the store that may throw *)

Definition M (A : Type) : Type := State → result A * State.

Definition ret {A} (a : A) : M A := λ s, (Ok a, s).

Definition bind {A B} (m : M A) (k : A → M B) : M B :=
  λ s, match m s with
       | (Ok a, s') => k a s'
       | (Throw e, s') => (Throw e, s')
       end.

Definition throw {A} (message : string) : M A := λ s, (error message, s).

Definition get : M State := λ s, (Ok s, s).

Definition modify (f : State → State) : M unit := λ s, (Ok tt, f s).

(** *** Arrays *)

(** A new array. *)
Definition new_array (a : Arr) : M loc :=
  λ s, let l := fresh (dom (arrays s)) in (Ok l, set_arrays <[l := a]> s).

(** The array at [l]; an address that holds no array reads as [[]]. *)
Definition array_at (s : State) (l : loc) : Arr :=
  default {| elems := []; root := VNull |} (arrays s !! l).

Definition read_array (l : loc) : M Arr := λ s, (Ok (array_at s l), s).

(** [a.push(x)]. *)
Definition push (l : loc) (x : ref) : M unit :=
  modify (λ s, set_arrays
    <[l := {| elems := elems (array_at s l) ++ [x]; root := root (array_at s l) |}]> s).

(** [a.slice()]: a new array with the same elements; own properties such as
    [root] are not copied. *)
Definition slice (l : loc) : M loc :=
  λ s, new_array {| elems := elems (array_at s l); root := VNull |} s.

(** [a.root = t]. *)
Definition set_root (l : loc) (t : OpValue) : M unit :=
  modify (λ s, set_arrays <[l := {| elems := elems (array_at s l); root := t |}]> s).

(** *** Operators and trees *)

(** [this.value]; an operator that holds nothing reads as [null]. *)
Definition value_of (s : State) (this : opid) : OpValue :=
  default VNull (values s !! this).

Definition read_value (this : opid) : M OpValue := λ s, (Ok (value_of s this), s).

(** [this.value = v]. *)
Definition write_value (this : opid) (v : OpValue) : M unit :=
  modify (set_values <[this := v]>).

(** Modelled from the spec: the [Transform] constructor is not in the sources
    at hand; section 3, Operator: "created when a computation node is
    registered with the graph", holding [value], here the initial one. *)
Definition new_operator (init : OpValue) : M opid :=
  λ s, let o := fresh (dom (values s)) in (Ok o, set_values <[o := init]> s).

(** A new tree root. *)
Definition new_tree (t : TreeObj) : M treeref :=
  λ s, let r := fresh (dom (trees s)) in (Ok r, set_trees <[r := t]> s).

(** Running a computation that does not touch the store. *)
Definition lift {A} (r : result A) : M A := λ s, (r, s).

(** [for (x of l) f(x)]: the first throw ends the loop. *)
Fixpoint for_each {X} (f : X → M unit) (l : list X) : M unit :=
  match l with
  | [] => ret tt
  | x :: l' => bind (f x) (λ _, for_each f l')
  end.

(** *** Tuple identities *)

(** Modelled from the spec: [tupleid] is not in the sources at hand; section
    4.1: "[tupleid(record)] returns the identity or an explicit unset
    sentinel". *)
Definition tupleid (s : State) (t : ref) : option nat := tids s !! t.

(** Modelled from the spec: [isTuple] is not in the sources at hand; a record
    is a tuple once it carries an identity (section 3, Tuple). *)
Definition isTuple (s : State) (t : ref) : bool := bool_decide (is_Some (tids s !! t)).

(** Modelled from the spec: [ingest] is not in the sources at hand; section
    4.1: "[ingest(record)] assigns a new identity if the record has none, and
    returns the record; identities are never reused". *)
Definition ingest (t : ref) : M ref :=
  λ s, match tids s !! t with
       | Some _ => (Ok t, s)
       | None =>
         (Ok t,
          {| arrays := arrays s; pulses := pulses s; trees := trees s;
             tids := <[t := next_tid s]> (tids s); next_tid := S (next_tid s);
             objs := objs s; links := links s; props := props s;
             values := values s |})
       end.

(** A new record, with no identity yet. *)
Definition new_object : M ref :=
  λ s, let r := fresh (objs s ∪ dom (tids s)) in (Ok r, set_objs (λ o, {[r]} ∪ o) s).

(** *** Pulses *)

Definition new_pulse (p : Pulse) : M pid :=
  λ s, let i := fresh (dom (pulses s)) in (Ok i, set_pulses <[i := p]> s).

(** Reading a pulse through its address. *)
Definition read_pulse (p : pid) : M Pulse :=
  λ s, match pulses s !! p with
       | Some P => (Ok P, s)
       | None => (Throw "TypeError: Cannot read properties of undefined", s)
       end.

Definition write_pulse (p : pid) (P : Pulse) : M unit :=
  modify (set_pulses <[p := P]>).

(** Modelled from the spec: [Pulse.fork] is not in the sources at hand;
    section 4.2: "produce a new pulse sharing the same stamp and source
    reference, selectively carrying over add/rem/mod/fields based on requested
    flags".  A sequence that is not carried over starts as a new empty array;
    [NO_SOURCE] asks for a pulse without source. *)
Definition fork (flags : Flags) (p : pid) : M pid :=
  bind (read_pulse p) (λ P,
  bind (if has ADD flags then ret (add P) else new_array {| elems := []; root := VNull |}) (λ a,
  bind (if has REM flags then ret (rem P) else new_array {| elems := []; root := VNull |}) (λ r,
  bind (if has MOD flags then ret (mod_ P) else new_array {| elems := []; root := VNull |}) (λ m,
  new_pulse {| add := a; rem := r; mod_ := m;
               source := if has NO_SOURCE flags then None else source P;
               fields := fields P; stamp := stamp P |})))).

(** Modelled from the spec: [Pulse.clone] is not in the sources at hand;
    section 4.2: "deep-enough copy to let a consumer locally mutate
    add/rem/mod sequences without corrupting the original".  Every sequence of
    the copy, the source included, is an array of its own. *)
Definition clone (p : pid) : M pid :=
  bind (read_pulse p) (λ P,
  bind (slice (add P)) (λ a,
  bind (slice (rem P)) (λ r,
  bind (slice (mod_ P)) (λ m,
  bind (match source P with
        | Some src => bind (slice src) (λ l, ret (Some l))
        | None => ret None
        end) (λ src,
  new_pulse {| add := a; rem := r; mod_ := m; source := src;
               fields := fields P; stamp := stamp P |}))))).

(** Modelled from the spec: [Pulse.materialize] is not in the sources at
    hand; section 4.2: "forces source to reflect the current full tuple set".
    Sequences are stored in full here, so the pulse is returned as it is. *)
Definition materialize (flags : Flags) (p : pid) : M pid := ret p.

(** Modelled from the spec: [Pulse.changed] is not in the sources at hand;
    section 4.2: a pulse with no add/rem/mod signals no change.  The pulse
    has changed when one of the selected sequences is not empty. *)
Definition changed (flags : Flags) (P : Pulse) (s : State) : bool :=
  (has ADD flags && negb (Nat.eqb (length (elems (array_at s (add P)))) 0))
  || (has REM flags && negb (Nat.eqb (length (elems (array_at s (rem P)))) 0))
  || (has MOD flags && negb (Nat.eqb (length (elems (array_at s (mod_ P)))) 0)).

(** Modelled from the spec: [Pulse.modified] is not in the sources at hand;
    section 3: [mod] holds the tuples whose field values changed and [fields]
    the field names touched.  One of the given fields is modified when the
    pulse has modified tuples and touches that field. *)
Definition modified (names : list string) (P : Pulse) (s : State) : bool :=
  negb (Nat.eqb (length (elems (array_at s (mod_ P)))) 0)
  && match fields P with
     | AllFields => true
     | FieldSet touched => existsb (λ f, bool_decide (f ∈ touched)) names
     end.

(** Applying a callback, which updates its own state [S], to each element. *)
Definition visitArray {S} (array : list ref) (fn : ref → S → S) (acc : S) : S :=
  foldl (λ a t, fn t a) acc array.

(** Modelled from the spec: [Pulse.visit] is not in the sources at hand;
    section 4.2: "applies fn over the selected sequences (ADD, REM, MOD,
    SOURCE, or their union ALL) in a fixed order: removals, then additions,
    then modifications, then (if requested) the full source". *)
Definition visit {S} (flags : Flags) (fn : ref → S → S) (P : Pulse) (s : State)
    (acc : S) : S :=
  let acc := if has REM flags then visitArray (elems (array_at s (rem P))) fn acc else acc in
  let acc := if has ADD flags then visitArray (elems (array_at s (add P))) fn acc else acc in
  let acc := if has MOD flags then visitArray (elems (array_at s (mod_ P))) fn acc else acc in
  if has SOURCE flags then
    match source P with
    | Some src => visitArray (elems (array_at s src)) fn acc
    | None => acc
    end
  else acc.

(** The sequence [flags] selects, empty when it does not. *)
Definition selected (f : Flag) (flags : Flags) (l : list ref) : list ref :=
  if has f flags then l else [].

(** The elements of the source of a pulse; none when it has no source. *)
Definition source_elems (P : Pulse) (s : State) : list ref :=
  match source P with Some src => elems (array_at s src) | None => [] end.

(** The callback that records, in order, the records it is called on. *)
Definition record_call (t : ref) (log : list ref) : list ref := log ++ [t].

(** *** Reasoning about computations *)

(** From a store that satisfies [I], the computation [m] ends in a store that
    satisfies [I], whether it returns or throws, and what it returns
    satisfies [Q]. *)
Definition spec {A} (I : State → Prop) (m : M A) (Q : A → Prop) : Prop :=
  ∀ s, I s → I (snd (m s)) ∧ ∀ a, fst (m s) = Ok a → Q a.

(** The computation [m] always returns. *)
Definition returns {A} (m : M A) : Prop := ∀ s, ∃ a, fst (m s) = Ok a.

Lemma bind_run {A B} (m : M A) (k : A → M B) s :
  bind m k s = match m s with
               | (Ok a, s') => k a s'
               | (Throw e, s') => (Throw e, s')
               end.
Proof. reflexivity. Qed.

Lemma spec_ret {A} I (a : A) (Q : A → Prop) : Q a → spec I (ret a) Q.
Proof. intros HQ s HI. split; [done|]. by intros ? [= <-]. Qed.

Lemma spec_throw {A} I e (Q : A → Prop) : spec I (throw e) Q.
Proof. intros s HI. split; [done|]. intros ? [=]. Qed.

Lemma spec_lift {A} I (r : result A) (Q : A → Prop) :
  (∀ a, r = Ok a → Q a) → spec I (lift r) Q.
Proof. intros HQ s HI. split; [done|]. simpl. auto. Qed.

Lemma spec_get I (Q : State → Prop) : (∀ s, Q s) → spec I get Q.
Proof. intros HQ s HI. split; [done|]. by intros ? [= <-]. Qed.

Lemma spec_bind {A B} I (m : M A) (k : A → M B) (Q1 : A → Prop) (Q : B → Prop) :
  spec I m Q1 → (∀ a, Q1 a → spec I (k a) Q) → spec I (bind m k) Q.
Proof.
  intros Hm Hk s HI. rewrite bind_run. destruct (Hm s HI) as [HI1 HQ1].
  destruct (m s) as [[a|e] s1]; simpl in *.
  - by apply Hk; [apply HQ1|].
  - split; [done|]. intros ? [=].
Qed.

Lemma spec_weaken {A} I (m : M A) (Q1 Q : A → Prop) :
  spec I m Q1 → (∀ a, Q1 a → Q a) → spec I m Q.
Proof. intros Hm HQ s HI. destruct (Hm s HI) as [? ?]. split; auto. Qed.

Lemma spec_modify I (f : State → State) (Q : unit → Prop) :
  (∀ s, I s → I (f s)) → Q tt → spec I (modify f) Q.
Proof. intros Hf HQ s HI. split; [by apply Hf|]. by intros [] _. Qed.

Lemma spec_for_each {X} I (f : X → M unit) (l : list X) :
  (∀ x, x ∈ l → spec I (f x) (λ _, True)) → spec I (for_each f l) (λ _, True).
Proof.
  induction l as [|x l IH]; intros Hf; simpl.
  - by apply spec_ret.
  - apply spec_bind with (Q1 := λ _, True).
    + apply Hf. by left.
    + intros _ _. apply IH. intros y Hy. apply Hf. by right.
Qed.

Lemma returns_ret {A} (a : A) : returns (ret a).
Proof. intros s. by exists a. Qed.

Lemma returns_modify (f : State → State) : returns (modify f).
Proof. intros s. by exists tt. Qed.

Lemma returns_bind {A B} (m : M A) (k : A → M B) :
  returns m → (∀ a, returns (k a)) → returns (bind m k).
Proof.
  intros Hm Hk s. rewrite bind_run. destruct (Hm s) as [a Ha].
  destruct (m s) as [[a'|e] s1]; simpl in *; [|done]. apply Hk.
Qed.

Lemma returns_for_each {X} (f : X → M unit) (l : list X) :
  (∀ x, returns (f x)) → returns (for_each f l).
Proof.
  intros Hf. induction l as [|x l IH]; simpl.
  - apply returns_ret.
  - apply returns_bind; [apply Hf|]. intros _. apply IH.
Qed.

(** As [spec], with a postcondition that also reads the store left behind. *)
Definition spec_st {A} (I : State → Prop) (m : M A) (Q : A → State → Prop) : Prop :=
  ∀ s, I s → I (snd (m s)) ∧ ∀ a, fst (m s) = Ok a → Q a (snd (m s)).

Lemma spec_st_bind {A B} I (m : M A) (k : A → M B) (Q1 : A → Prop)
    (Q : B → State → Prop) :
  spec I m Q1 → (∀ a, Q1 a → spec_st I (k a) Q) → spec_st I (bind m k) Q.
Proof.
  intros Hm Hk s HI. rewrite bind_run. destruct (Hm s HI) as [HI1 HQ1].
  destruct (m s) as [[a|e] s1]; simpl in *.
  - by apply Hk; [apply HQ1|].
  - split; [done|]. intros ? [=].
Qed.

Lemma spec_bind_st {A B} I (m : M A) (k : A → M B) (Q1 : A → State → Prop)
    (Q : B → Prop) :
  spec_st I m Q1 →
  (∀ a s, I s → Q1 a s → I (snd (k a s)) ∧ ∀ b, fst (k a s) = Ok b → Q b) →
  spec I (bind m k) Q.
Proof.
  intros Hm Hk s HI. rewrite bind_run. destruct (Hm s HI) as [HI1 HQ1].
  destruct (m s) as [[a|e] s1]; simpl in *.
  - by apply Hk; [|apply HQ1].
  - split; [done|]. intros ? [=].
Qed.

Lemma spec_st_weaken {A} I (m : M A) (Q1 Q : A → State → Prop) :
  spec_st I m Q1 → (∀ a s, Q1 a s → Q a s) → spec_st I m Q.
Proof. intros Hm HQ s HI. destruct (Hm s HI) as [? ?]. split; auto. Qed.

(** The value a computation returns, when it returns, is [a]. *)
Definition result_is {A} (a : A) (m : M A) : Prop :=
  ∀ s a', fst (m s) = Ok a' → a' = a.

Lemma result_is_ret {A} (a : A) : result_is a (ret a).
Proof. by intros s a' [= <-]. Qed.

Lemma result_is_throw {A} (a : A) e : result_is a (throw e).
Proof. intros s a' [=]. Qed.

Lemma result_is_bind {A B} (b : B) (m : M A) (k : A → M B) :
  (∀ a, result_is b (k a)) → result_is b (bind m k).
Proof.
  intros Hk s b'. rewrite bind_run. destruct (m s) as [[a|e] s1]; simpl; [|done].
  apply Hk.
Qed.

(** *** What was in the store stays as it was *)

(** Every array and every pulse of [s0] is in [s] as it was in [s0]. *)
Definition kept (s0 s : State) : Prop :=
  (∀ l, l ∈ dom (arrays s0) → arrays s !! l = arrays s0 !! l)
  ∧ (∀ p, p ∈ dom (pulses s0) → pulses s !! p = pulses s0 !! p).

Lemma kept_refl s : kept s s.
Proof. by split. Qed.

Lemma kept_dom_arrays s0 s l : kept s0 s → l ∈ dom (arrays s0) → l ∈ dom (arrays s).
Proof.
  intros [Ha _] Hl. apply elem_of_dom. rewrite (Ha l Hl). by apply elem_of_dom.
Qed.

Lemma kept_dom_pulses s0 s p : kept s0 s → p ∈ dom (pulses s0) → p ∈ dom (pulses s).
Proof.
  intros [_ Hp] Hl. apply elem_of_dom. rewrite (Hp p Hl). by apply elem_of_dom.
Qed.

(** A computation that writes neither arrays nor pulses. *)
Lemma spec_kept_untouched {A} s0 (m : M A) :
  (∀ s, arrays (snd (m s)) = arrays s ∧ pulses (snd (m s)) = pulses s) →
  spec (kept s0) m (λ _, True).
Proof.
  intros Hm s [Ha Hp]. destruct (Hm s) as [Ea Ep]. split; [|done].
  split; intros x Hx; [rewrite Ea|rewrite Ep]; auto.
Qed.

Lemma spec_kept_write_array s0 (l : loc) (a : State → Arr) :
  l ∉ dom (arrays s0) →
  spec (kept s0) (modify (λ s, set_arrays <[l := a s]> s)) (λ _, True).
Proof.
  intros Hl s [Ha Hp]. split; [|done]. split; simpl; [|done].
  intros l' Hl'. rewrite lookup_insert_ne by (intros ->; done). auto.
Qed.

Lemma spec_kept_push s0 l x : l ∉ dom (arrays s0) → spec (kept s0) (push l x) (λ _, True).
Proof. intros Hl. unfold push. by apply spec_kept_write_array. Qed.

Lemma spec_kept_set_root s0 l v :
  l ∉ dom (arrays s0) → spec (kept s0) (set_root l v) (λ _, True).
Proof. intros Hl. unfold set_root. by apply spec_kept_write_array. Qed.

Lemma spec_kept_new_array s0 a :
  spec (kept s0) (new_array a) (λ l, l ∉ dom (arrays s0)).
Proof.
  intros s HI. pose proof (is_fresh (dom (arrays s))) as Hfresh.
  assert (fresh (dom (arrays s)) ∉ dom (arrays s0)) as Hnew.
  { intros Hin. apply Hfresh. by eapply kept_dom_arrays. }
  split; simpl.
  - destruct HI as [Ha Hp]. split; simpl; [|done].
    intros l' Hl'. rewrite lookup_insert_ne by (intros <-; done). auto.
  - by intros ? [= <-].
Qed.

Lemma spec_kept_slice s0 l : spec (kept s0) (slice l) (λ l', l' ∉ dom (arrays s0)).
Proof. unfold slice. intros s. apply spec_kept_new_array. Qed.

Lemma spec_kept_new_pulse s0 P :
  spec_st (kept s0) (new_pulse P)
          (λ p s, (p ∉ dom (pulses s0)) ∧ pulses s !! p = Some P).
Proof.
  intros s HI. pose proof (is_fresh (dom (pulses s))) as Hfresh.
  assert (fresh (dom (pulses s)) ∉ dom (pulses s0)) as Hnew.
  { intros Hin. apply Hfresh. by eapply kept_dom_pulses. }
  split; simpl.
  - destruct HI as [Ha Hp]. split; simpl; [done|].
    intros p' Hp'. rewrite lookup_insert_ne by (intros <-; done). auto.
  - intros ? [= <-]. split; [done|]. by rewrite lookup_insert_eq.
Qed.

Lemma spec_kept_write_pulse s0 p P :
  p ∉ dom (pulses s0) → spec (kept s0) (write_pulse p P) (λ _, True).
Proof.
  intros Hp s [Ha Hps]. split; [|done]. split; simpl; [done|].
  intros p' Hp'. rewrite lookup_insert_ne by (intros ->; done). auto.
Qed.

Lemma spec_kept_read_pulse s0 p :
  spec (kept s0) (read_pulse p) (λ _, True).
Proof.
  apply spec_kept_untouched. intros s. unfold read_pulse.
  by destruct (pulses s !! p).
Qed.

(** Reading a pulse right after a computation that left it in the store. *)
Lemma spec_kept_then_read {B} s0 (m : M pid) (k : pid → Pulse → M B)
    (F : pid → Pulse → Prop) (Q : B → Prop) :
  spec_st (kept s0) m (λ out s, ∃ O, pulses s !! out = Some O ∧ F out O) →
  (∀ out O, F out O → spec (kept s0) (k out O) Q) →
  spec (kept s0) (bind m (λ out, bind (read_pulse out) (k out))) Q.
Proof.
  intros Hm Hk. eapply spec_bind_st; [exact Hm|].
  intros out s HI (O & HO & HF). rewrite bind_run. unfold read_pulse. rewrite HO.
  by apply Hk.
Qed.

(** The pulse [fork] or [clone] makes from [P]: which of its sequences are
    new arrays. *)
Definition forked_from (s0 : State) (flags : Flags) (out : pid) (O : Pulse) : Prop :=
  (out ∉ dom (pulses s0))
  ∧ (has ADD flags = false → add O ∉ dom (arrays s0))
  ∧ (has REM flags = false → rem O ∉ dom (arrays s0))
  ∧ (has MOD flags = false → mod_ O ∉ dom (arrays s0)).

Definition cloned_from (s0 : State) (out : pid) (O : Pulse) : Prop :=
  (out ∉ dom (pulses s0))
  ∧ (add O ∉ dom (arrays s0)) ∧ (rem O ∉ dom (arrays s0)) ∧ (mod_ O ∉ dom (arrays s0))
  ∧ ∀ l, source O = Some l → l ∉ dom (arrays s0).

Lemma spec_kept_fork s0 flags p :
  spec_st (kept s0) (fork flags p)
          (λ out s, ∃ O, pulses s !! out = Some O ∧ forked_from s0 flags out O).
Proof.
  unfold fork.
  eapply spec_st_bind; [apply spec_kept_read_pulse|]. intros P _.
  eapply spec_st_bind with (Q1 := λ a, has ADD flags = false → a ∉ dom (arrays s0)).
  { destruct (has ADD flags).
    - by apply spec_ret.
    - eapply spec_weaken; [apply spec_kept_new_array|]. auto. }
  intros a Ha.
  eapply spec_st_bind with (Q1 := λ a, has REM flags = false → a ∉ dom (arrays s0)).
  { destruct (has REM flags).
    - by apply spec_ret.
    - eapply spec_weaken; [apply spec_kept_new_array|]. auto. }
  intros r Hr.
  eapply spec_st_bind with (Q1 := λ a, has MOD flags = false → a ∉ dom (arrays s0)).
  { destruct (has MOD flags).
    - by apply spec_ret.
    - eapply spec_weaken; [apply spec_kept_new_array|]. auto. }
  intros m Hm.
  eapply spec_st_weaken; [apply spec_kept_new_pulse|].
  intros out s [Hfresh Hlk]. eexists. split; [exact Hlk|]. by repeat split.
Qed.

Lemma spec_kept_clone s0 p :
  spec_st (kept s0) (clone p)
          (λ out s, ∃ O, pulses s !! out = Some O ∧ cloned_from s0 out O).
Proof.
  unfold clone.
  eapply spec_st_bind; [apply spec_kept_read_pulse|]. intros P _.
  eapply spec_st_bind; [apply spec_kept_slice|]. intros a Ha.
  eapply spec_st_bind; [apply spec_kept_slice|]. intros r Hr.
  eapply spec_st_bind; [apply spec_kept_slice|]. intros m Hm.
  eapply spec_st_bind with (Q1 := λ o, ∀ l, o = Some l → l ∉ dom (arrays s0)).
  { destruct (source P) as [src|].
    - eapply spec_bind; [apply spec_kept_slice|]. intros l Hl.
      apply spec_ret. by intros ? [= <-].
    - apply spec_ret. intros ? [=]. }
  intros src Hsrc.
  eapply spec_st_weaken; [apply spec_kept_new_pulse|].
  intros out s [Hfresh Hlk]. eexists. split; [exact Hlk|]. by repeat split.
Qed.

(** *** Assertions before and after *)

(** From a store that satisfies [Pre], the computation either returns a value
    and a store that satisfy [Post], or throws and leaves a store that
    satisfies [Err]. *)
Definition triple {A} (Pre : State → Prop) (m : M A) (Post : A → State → Prop)
    (Err : State → Prop) : Prop :=
  ∀ s, Pre s → match fst (m s) with
               | Ok a => Post a (snd (m s))
               | Throw _ => Err (snd (m s))
               end.

Lemma triple_bind {A B} Pre (m : M A) (k : A → M B) Mid Post Err :
  triple Pre m Mid Err → (∀ a, triple (Mid a) (k a) Post Err) →
  triple Pre (bind m k) Post Err.
Proof.
  intros Hm Hk s Hpre. rewrite bind_run. specialize (Hm s Hpre).
  destruct (m s) as [[a|e] s1]; simpl in *; [by apply Hk|done].
Qed.

Lemma triple_ret {A} (Pre : State → Prop) (a : A) (Post : A → State → Prop) Err :
  (∀ s, Pre s → Post a s) → triple Pre (ret a) Post Err.
Proof. intros HP s Hpre. simpl. auto. Qed.

Lemma triple_throw {A} (Pre : State → Prop) e (Post : A → State → Prop)
    (Err : State → Prop) :
  (∀ s, Pre s → Err s) → triple Pre (throw e) Post Err.
Proof. intros HP s Hpre. simpl. auto. Qed.

Lemma triple_get (Pre : State → Prop) Err :
  triple Pre get (λ s' s, s' = s ∧ Pre s) Err.
Proof. intros s Hpre. simpl. auto. Qed.

Lemma triple_modify (Pre : State → Prop) (f : State → State)
    (Post : unit → State → Prop) Err :
  (∀ s, Pre s → Post tt (f s)) → triple Pre (modify f) Post Err.
Proof. intros HP s Hpre. simpl. auto. Qed.

Lemma triple_pre {A} (K : Prop) (Pre : State → Prop) (m : M A) Post Err :
  (∀ s, Pre s → K) → (K → triple Pre m Post Err) → triple Pre m Post Err.
Proof. intros HK Hm s Hpre. apply Hm; [by eapply HK|done]. Qed.

Lemma triple_weaken {A} (Pre Pre' : State → Prop) (m : M A)
    (Post Post' : A → State → Prop) (Err Err' : State → Prop) :
  triple Pre m Post Err → (∀ s, Pre' s → Pre s) →
  (∀ a s, Post a s → Post' a s) → (∀ s, Err s → Err' s) →
  triple Pre' m Post' Err'.
Proof.
  intros Hm Hpre Hpost Herr s Hs. specialize (Hm s (Hpre s Hs)).
  destruct (fst (m s)); auto.
Qed.

(** Nothing visible happened between [s0] and [s]: the operators' values,
    the trees, and the arrays and pulses of [s0] are as they were. *)
Definition quiet (s0 s : State) : Prop :=
  values s = values s0 ∧ trees s = trees s0 ∧ kept s0 s.

(** The array at [l] exists and has no element. *)
Definition empty_at (l : loc) (s : State) : Prop :=
  elems (array_at s l) = [] ∧ l ∈ dom (arrays s).

Lemma quiet_refl s : quiet s s.
Proof. split; [done|]. split; [done|]. apply kept_refl. Qed.

Lemma quiet_new_array s0 s a :
  quiet s0 s → quiet s0 (set_arrays <[fresh (dom (arrays s)) := a]> s).
Proof.
  intros (Hv & Ht & Hk). split; [done|]. split; [done|].
  destruct (spec_kept_new_array s0 a s Hk) as [Hk' _]. exact Hk'.
Qed.

Lemma quiet_new_pulse s0 s P :
  quiet s0 s → quiet s0 (set_pulses <[fresh (dom (pulses s)) := P]> s).
Proof.
  intros (Hv & Ht & Hk). split; [done|]. split; [done|].
  destruct (spec_kept_new_pulse s0 P s Hk) as [Hk' _]. exact Hk'.
Qed.

Lemma quiet_set_root s0 s l v :
  l ∉ dom (arrays s0) → quiet s0 s →
  quiet s0 (set_arrays <[l := {| elems := elems (array_at s l); root := v |}]> s).
Proof.
  intros Hl (Hv & Ht & Hk). split; [done|]. split; [done|].
  destruct (spec_kept_set_root s0 l v Hl s Hk) as [Hk' _]. exact Hk'.
Qed.

Lemma quiet_write_pulse s0 s p P :
  p ∉ dom (pulses s0) → quiet s0 s → quiet s0 (set_pulses <[p := P]> s).
Proof.
  intros Hp (Hv & Ht & Hk). split; [done|]. split; [done|].
  destruct (spec_kept_write_pulse s0 p P Hp s Hk) as [Hk' _]. exact Hk'.
Qed.

Lemma quiet_array_at s0 s l :
  quiet s0 s → l ∈ dom (arrays s0) → array_at s l = array_at s0 l.
Proof. intros (_ & _ & [Ha _]) Hl. unfold array_at. by rewrite (Ha l Hl). Qed.

Lemma empty_at_new_array l s a :
  empty_at l s → empty_at l (set_arrays <[fresh (dom (arrays s)) := a]> s).
Proof.
  intros [He Hd]. pose proof (is_fresh (dom (arrays s))) as Hfresh.
  assert (fresh (dom (arrays s)) ≠ l) as Hne by (intros Heq; by rewrite Heq in Hfresh).
  unfold empty_at, array_at in *. simpl. rewrite lookup_insert_ne by done.
  split; [done|]. rewrite dom_insert_L. set_solver.
Qed.

Lemma empty_at_set_root l s l' v :
  empty_at l s →
  empty_at l (set_arrays <[l' := {| elems := elems (array_at s l'); root := v |}]> s).
Proof.
  intros [He Hd]. unfold empty_at, array_at in *. simpl.
  destruct (decide (l' = l)) as [->|Hne].
  - rewrite lookup_insert_eq. simpl. split; [done|]. rewrite dom_insert_L. set_solver.
  - rewrite lookup_insert_ne by done. split; [done|]. rewrite dom_insert_L. set_solver.
Qed.

Lemma empty_at_slice s l :
  elems (array_at s l) = [] →
  empty_at (fresh (dom (arrays s)))
    (set_arrays <[fresh (dom (arrays s)) :=
                   {| elems := elems (array_at s l); root := VNull |}]> s).
Proof.
  intros He. unfold empty_at, array_at at 1. simpl. rewrite lookup_insert_eq. simpl.
  split; [done|]. rewrite dom_insert_L. set_solver.
Qed.

Lemma visitArray_app {S} (l1 l2 : list ref) (fn : ref → S → S) (acc : S) :
  visitArray (l1 ++ l2) fn acc = visitArray l2 fn (visitArray l1 fn acc).
Proof. unfold visitArray. apply foldl_app. Qed.

Lemma visitArray_record (l : list ref) (log : list ref) :
  visitArray l record_call log = log ++ l.
Proof.
  revert log. induction l as [|t l IH]; intros log.
  - by rewrite app_nil_r.
  - change (visitArray (t :: l) record_call log)
      with (visitArray l record_call (record_call t log)).
    rewrite IH. unfold record_call. by rewrite <- app_assoc.
Qed.

(** A visit is one pass over the selected sequences laid end to end. *)
Lemma visit_visitArray {S} (flags : Flags) (fn : ref → S → S) (P : Pulse) (s : State)
    (acc : S) :
  visit flags fn P s acc =
    visitArray (selected REM flags (elems (array_at s (rem P)))
                ++ selected ADD flags (elems (array_at s (add P)))
                ++ selected MOD flags (elems (array_at s (mod_ P)))
                ++ selected SOURCE flags (source_elems P s)) fn acc.
Proof.
  unfold visit, selected, source_elems. rewrite !visitArray_app.
  destruct (has REM flags), (has ADD flags), (has MOD flags), (has SOURCE flags),
    (source P); reflexivity.
Qed.

(** C6.  One call of [visit] invokes the callback over the removals the
    flags select, then the additions, then the modifications, then the source
    when requested, each in its own order and nothing else; recorded call by
    call, a visit of all four is the removals followed by the additions, the
    modifications and the source. *)
Theorem visit_order {S} (flags : Flags) (fn : ref → S → S) (P : Pulse) (s : State)
    (acc : S) :
  visit flags fn P s acc =
    visitArray (selected REM flags (elems (array_at s (rem P)))
                ++ selected ADD flags (elems (array_at s (add P)))
                ++ selected MOD flags (elems (array_at s (mod_ P)))
                ++ selected SOURCE flags (source_elems P s)) fn acc
  ∧ visit flags record_call P s [] =
      selected REM flags (elems (array_at s (rem P)))
      ++ selected ADD flags (elems (array_at s (add P)))
      ++ selected MOD flags (elems (array_at s (mod_ P)))
      ++ selected SOURCE flags (source_elems P s)
  ∧ visit ALL record_call P s [] =
      elems (array_at s (rem P)) ++ elems (array_at s (add P))
      ++ elems (array_at s (mod_ P)) ++ source_elems P s.
Proof.
  split; [apply visit_visitArray|]. split.
  - rewrite visit_visitArray, visitArray_record. reflexivity.
  - rewrite visit_visitArray, visitArray_record. reflexivity.
Qed.

End Store.

Arguments State : clear implicits.
Arguments M : clear implicits.

End Dataflow.

(** ** JavaScript plain objects *)

Module JsObject.

(** The properties every object literal inherits from [Object.prototype].
    Each one reads as a function, or, for [__proto__], as the prototype
    object itself: never as [undefined], and never as an array. *)
Definition object_prototype_keys : list string :=
  [ "constructor"; "hasOwnProperty"; "isPrototypeOf"; "propertyIsEnumerable";
    "toLocaleString"; "toString"; "valueOf"; "__defineGetter__";
    "__defineSetter__"; "__lookupGetter__"; "__lookupSetter__"; "__proto__" ].

Definition inherited (k : string) : bool := bool_decide (k ∈ object_prototype_keys).

(** Own properties, in the order they were created. *)
Definition Obj (V : Type) : Type := list (string * V).

Fixpoint own {V} (o : Obj V) (k : string) : option V :=
  match o with
  | [] => None
  | (k', v) :: o' => if String.eqb k' k then Some v else own o' k
  end.

(** What [o[k]] finds. *)
Inductive Found (V : Type) : Type :=
| Own (v : V)
| Inherited
| Absent.
Arguments Own {V} v.
Arguments Inherited {V}.
Arguments Absent {V}.

Definition get {V} (o : Obj V) (k : string) : Found V :=
  match own o k with
  | Some v => Own v
  | None => if inherited k then Inherited else Absent
  end.

Fixpoint replace {V} (o : Obj V) (k : string) (v : V) : Obj V :=
  match o with
  | [] => []
  | (k', v') :: o' => if String.eqb k' k then (k', v) :: o' else (k', v') :: replace o' k v
  end.

(** [o[k] = v]: an own property keeps its place, a new one goes last;
    assigning [__proto__] runs the inherited setter and creates nothing. *)
Definition set {V} (o : Obj V) (k : string) (v : V) : Obj V :=
  match own o k with
  | Some _ => replace o k v
  | None => if String.eqb k "__proto__" then o else o ++ [(k, v)]
  end.

Definition digit (c : Ascii.ascii) : option N :=
  let n := Ascii.N_of_ascii c in
  if ((48 <=? n) && (n <=? 57))%N then Some (n - 48)%N else None.

Fixpoint parse_digits (s : string) (acc : N) : option N :=
  match s with
  | EmptyString => Some acc
  | String c s' =>
    match digit c with
    | Some d => parse_digits s' (10 * acc + d)%N
    | None => None
    end
  end.

(** An array index: the canonical decimal form of an integer below
    [2^32 - 1]. *)
Definition array_index (k : string) : option N :=
  match k with
  | EmptyString => None
  | _ =>
    match parse_digits k 0%N with
    | Some n => if (n <? 4294967295)%N && String.eqb (pretty n) k then Some n else None
    | None => None
    end
  end.

Fixpoint insert_by_index {V} (n : N) (kv : string * V) (l : list (N * (string * V)))
    : list (N * (string * V)) :=
  match l with
  | [] => [(n, kv)]
  | (m, kv') :: l' =>
    if (n <? m)%N then (n, kv) :: l else (m, kv') :: insert_by_index n kv l'
  end.

(** [for (k in o)]: array indices in ascending order, then the other keys
    in creation order. *)
Definition for_in {V} (o : Obj V) : list (string * V) :=
  let indexed :=
    foldr (λ kv acc, match array_index (fst kv) with
                     | Some n => insert_by_index n kv acc
                     | None => acc
                     end) [] o in
  map snd indexed
  ++ filter (λ kv, array_index (fst kv) = None) o.

(** *** Facts about own properties *)

Lemma own_None {V} (o : Obj V) k : own o k = None ↔ k ∉ map fst o.
Proof.
  induction o as [|[k' v] o IH]; simpl.
  - split; [intros _; apply not_elem_of_nil|done].
  - destruct (String.eqb_spec k' k) as [->|Hne].
    + split; [done|]. intros Hn. exfalso. apply Hn. by left.
    + rewrite IH. split.
      * intros Hn [->|Hin]%elem_of_cons; done.
      * intros Hn Hin. apply Hn. by right.
Qed.

Lemma own_elem {V} (o : Obj V) k v : own o k = Some v → (k, v) ∈ o.
Proof.
  induction o as [|[k' v'] o IH]; simpl; [done|].
  destruct (String.eqb_spec k' k) as [->|Hne].
  - intros [= ->]. by left.
  - intros Hown. right. by apply IH.
Qed.

Lemma elem_own {V} (o : Obj V) k v :
  NoDup (map fst o) → (k, v) ∈ o → own o k = Some v.
Proof.
  induction o as [|[k' v'] o IH]; simpl; [by intros _ ?%elem_of_nil|].
  intros [Hk Hnd]%NoDup_cons [[= -> ->]|Hin]%elem_of_cons.
  - by rewrite String.eqb_refl.
  - destruct (String.eqb_spec k' k) as [->|Hne]; [|by apply IH].
    exfalso. apply Hk. apply list_elem_of_fmap. by exists (k, v).
Qed.

Lemma keys_replace {V} (o : Obj V) k v : map fst (replace o k v) = map fst o.
Proof.
  induction o as [|[k' v'] o IH]; simpl; [done|].
  destruct (String.eqb k' k); simpl; [done|]. by rewrite IH.
Qed.

Lemma own_replace {V} (o : Obj V) k v k' :
  own (replace o k v) k' =
  if String.eqb k k' then (match own o k with Some _ => Some v | None => None end)
  else own o k'.
Proof.
  induction o as [|[k0 v0] o IH]; simpl.
  - by destruct (String.eqb k k').
  - destruct (String.eqb_spec k0 k) as [->|Hne]; simpl.
    + destruct (String.eqb_spec k k') as [->|Hne']; [done|]. done.
    + rewrite IH. destruct (String.eqb_spec k0 k') as [->|Hne'].
      * destruct (String.eqb_spec k k') as [->|?]; [done|done].
      * done.
Qed.

(** Assigning a key that is not [__proto__], or that is already an own
    property. *)
Lemma own_set {V} (o : Obj V) k v k' :
  k ≠ "__proto__" →
  own (set o k v) k' = if String.eqb k k' then Some v else own o k'.
Proof.
  intros Hk. unfold set. destruct (own o k) as [v0|] eqn:Hown.
  - rewrite own_replace, Hown. done.
  - destruct (String.eqb_spec k "__proto__") as [->|_]; [done|].
    induction o as [|[k0 v0] o IH]; simpl in *.
    + done.
    + destruct (String.eqb_spec k0 k) as [->|Hne]; [done|].
      rewrite (IH Hown). destruct (String.eqb_spec k0 k') as [->|Hne'].
      * destruct (String.eqb_spec k k') as [->|?]; [done|done].
      * done.
Qed.

Lemma keys_set_new {V} (o : Obj V) k v :
  k ≠ "__proto__" → own o k = None → set o k v = o ++ [(k, v)].
Proof.
  intros Hk Hown. unfold set. rewrite Hown.
  by destruct (String.eqb_spec k "__proto__").
Qed.

Lemma NoDup_keys_set {V} (o : Obj V) k v :
  NoDup (map fst o) → NoDup (map fst (set o k v)).
Proof.
  intros Hnd. unfold set. destruct (own o k) as [v0|] eqn:Hown.
  - by rewrite keys_replace.
  - destruct (String.eqb k "__proto__"); [done|].
    rewrite map_app. simpl. apply NoDup_app. split; [done|].
    split; [|apply NoDup_singleton].
    intros x Hx ->%list_elem_of_singleton. by apply own_None in Hown.
Qed.

Lemma insert_by_index_Permutation {V} n (kv : string * V) l :
  insert_by_index n kv l ≡ₚ (n, kv) :: l.
Proof.
  induction l as [|[m kv'] l IH]; simpl; [done|].
  destruct (n <? m)%N; [done|]. rewrite IH. apply Permutation_swap.
Qed.

(** [for (k in o)] visits each own property once. *)
Lemma for_in_Permutation {V} (o : Obj V) : for_in o ≡ₚ o.
Proof.
  unfold for_in, Obj in *.
  assert (∀ l : list (string * V),
    map snd (foldr (λ kv acc, match array_index (fst kv) with
                              | Some n => insert_by_index n kv acc
                              | None => acc
                              end) [] l)
    ≡ₚ filter (λ kv, array_index (fst kv) ≠ None) l) as Hidx.
  { induction l as [|kv l IH]; [done|].
    rewrite filter_cons. cbn [foldr].
    destruct (array_index (fst kv)) as [n|] eqn:Hn.
    - rewrite decide_True by done. rewrite insert_by_index_Permutation.
      cbn [map snd]. by rewrite IH.
    - rewrite decide_False by (intros Hne; by apply Hne). exact IH. }
  rewrite Hidx.
  induction o as [|kv o IH]; [done|].
  rewrite !filter_cons. destruct (array_index (fst kv)) as [n|] eqn:Hn.
  - rewrite decide_True, decide_False by (done || (intros Hne; by apply Hne)).
    cbn [app]. by rewrite IH.
  - rewrite decide_False, decide_True by (done || (intros Hne; by apply Hne)).
    rewrite <- Permutation_middle. by rewrite IH.
Qed.

(** *** The order of [for (k in o)] *)

(** Two keys that are array indices, the first no larger than the second. *)
Definition index_le (a b : string) : Prop :=
  match array_index a, array_index b with
  | Some m, Some n => (m ≤ n)%N
  | _, _ => False
  end.

Lemma array_index_pretty k n : array_index k = Some n → k = pretty n.
Proof.
  unfold array_index. destruct k as [|c k]; [done|].
  destruct (parse_digits _ _) as [m|]; [|done].
  destruct (m <? 4294967295)%N; [|done]. simpl.
  destruct (String.eqb_spec (pretty m) (String c k)) as [Heq|]; [|done].
  by intros [= <-].
Qed.

Lemma insert_by_index_sorted {V} n (kv : string * V) l :
  StronglySorted (λ x y, (fst x ≤ fst y)%N) l →
  StronglySorted (λ x y, (fst x ≤ fst y)%N) (insert_by_index n kv l).
Proof.
  induction l as [|[m kv'] l IH]; intros Hs; simpl.
  - constructor; [constructor|constructor].
  - apply StronglySorted_inv in Hs as [Hs Hall].
    destruct (N.ltb_spec n m) as [Hlt|Hge].
    + constructor; [by constructor|]. constructor; [simpl; lia|].
      eapply Forall_impl; [exact Hall|]. simpl. intros; lia.
    + constructor; [by apply IH|].
      rewrite insert_by_index_Permutation. constructor; [simpl; lia|done].
Qed.

(** [for (k in o)] visits the keys that are array indices first, in
    ascending order, and then the other keys in the order of creation. *)
Lemma for_in_keys {V} (o : Obj V) :
  ∃ idx, map fst (for_in o) = idx ++ filter (λ k, array_index k = None) (map fst o)
         ∧ idx ≡ₚ filter (λ k, array_index k ≠ None) (map fst o)
         ∧ StronglySorted index_le idx.
Proof.
  unfold for_in, Obj in *.
  set (indexed := foldr _ [] o).
  assert (Forall (λ x, array_index (fst (snd x)) = Some (fst x)) indexed
          ∧ StronglySorted (λ x y, (fst x ≤ fst y)%N) indexed
          ∧ map (λ x, fst (snd x)) indexed
            ≡ₚ filter (λ k, array_index k ≠ None) (map fst o)) as (Hidx & Hsorted & Hperm).
  { subst indexed. induction o as [|kv o IH].
    - split; [constructor|]. split; [constructor|done].
    - destruct IH as (Hidx & Hsorted & Hperm). cbn [foldr map].
      rewrite filter_cons. destruct (array_index (fst kv)) as [n|] eqn:Hn.
      + rewrite decide_True by done. split; [|split].
        * rewrite insert_by_index_Permutation. by constructor.
        * by apply insert_by_index_sorted.
        * rewrite insert_by_index_Permutation. cbn [map fst snd]. by rewrite Hperm.
      + rewrite decide_False by (intros Hne; by apply Hne). done. }
  exists (map (λ x, fst (snd x)) indexed). split; [|split; [done|]].
  - rewrite map_app, map_map. f_equal.
    clear. induction o as [|kv o IH]; [done|].
    cbn [map]. rewrite !filter_cons. destruct (decide _); cbn [map]; by rewrite IH.
  - clear Hperm. induction indexed as [|[n kv] l IH]; [constructor|].
    apply StronglySorted_inv in Hsorted as [Hs Hall].
    apply Forall_cons in Hidx as [Hn Hidx]. cbn [map fst snd] in *.
    constructor; [by apply IH|].
    apply Forall_forall. intros k [[m kv'] [-> Hin]]%list_elem_of_fmap.
    rewrite Forall_forall in Hall, Hidx. specialize (Hall _ Hin).
    specialize (Hidx _ Hin). simpl in *. unfold index_le. by rewrite Hn, Hidx.
Qed.

End JsObject.

(** ** vega-hierarchy: [nest] *)

Module Nest.

Import JsObject.

Section WithElements.
(** The elements of the array under grouping.  A key function is taken
    together with the string coercion applied to what it returns:
    [key(value) + '']. *)
Variable A : Type.

(** What [apply] returns: the array itself at the leaves, an object keyed by
    key value above them. *)
Inductive NestMap : Type :=
| NArray (array : list A)
| NObject (props : list (string * NestMap)).

(** What [entries] returns: the array itself at the leaves, an array of
    [{key, values}] above them. *)
Inductive Entries : Type :=
| Leaves (array : list A)
| Groups (groups : list (string * Entries)).

(** The [while] loop of [apply]: each value joins the array stored under its
    key, or starts one. *)
Fixpoint group (key : A → string) (array : list A) (valuesByKey : Obj (list A))
    : result (Obj (list A)) :=
  match array with
  | [] => Ok valuesByKey
  | value :: rest =>
    let keyValue := key value in
    match get valuesByKey keyValue with
    | Own values => group key rest (set valuesByKey keyValue (values ++ [value]))
    | Inherited => Throw "TypeError: values.push is not a function"
    | Absent => group key rest (set valuesByKey keyValue [value])
    end
  end.

(** The [for (keyValue in valuesByKey)] loop of [apply], where [rec] is
    [apply] one level down. *)
Fixpoint apply_each (rec : list A → result NestMap) (kvs : list (string * list A))
    (result_ : Obj NestMap) : result NestMap :=
  match kvs with
  | [] => Ok (NObject result_)
  | (keyValue, values) :: kvs' =>
    match rec values with
    | Throw e => Throw e
    | Ok m => apply_each rec kvs' (set result_ keyValue m)
    end
  end.

(** [apply(array, depth)], with [keys] the key functions from [depth] on. *)
Fixpoint apply (keys : list (A → string)) (array : list A) : result NestMap :=
  match keys with
  | [] => Ok (NArray array)
  | key :: keys' =>
    match group key array [] with
    | Throw e => Throw e
    | Ok valuesByKey => apply_each (apply keys') (for_in valuesByKey) []
    end
  end.

(** [entries(map, depth)], with [keys] the key functions from [depth] on.
    [apply] and [entries] walk the same depths, so an array is met at the
    leaves only. *)
Fixpoint entries (keys : list (A → string)) (map_ : NestMap) : Entries :=
  match keys with
  | [] => match map_ with
          | NArray array => Leaves array
          | NObject _ => Groups []
          end
  | _ :: keys' =>
    match map_ with
    | NArray array => Leaves array
    | NObject props =>
      Groups (map (λ kv, (fst kv, entries keys' (snd kv))) (for_in props))
    end
  end.

(** [nest().key(k1)...key(kn).entries(array)]. *)
Definition nest_entries (keys : list (A → string)) (array : list A) : result Entries :=
  match apply keys array with
  | Ok m => Ok (entries keys m)
  | Throw e => Throw e
  end.

(** The leaf groups of a grouping, left to right. *)
Fixpoint leaf_groups (e : Entries) : list (list A) :=
  match e with
  | Leaves array => [array]
  | Groups groups => flat_map (λ g, leaf_groups (snd g)) groups
  end.

(** *** The grouping, when no key value is an inherited property name *)

(** The key values of an element, outermost key first. *)
Definition key_tuple (keys : list (A → string)) (x : A) : list string :=
  map (λ key, key x) keys.

(** No key function yields, on an element of the array, the name of a
    property inherited from [Object.prototype]. *)
Definition safe (keys : list (A → string)) (array : list A) : Prop :=
  ∀ key x, key ∈ keys → x ∈ array → inherited (key x) = false.

(** The elements of [array] whose key is [k]; [None] when there is none. *)
Definition class_of (key : A → string) (array : list A) (k : string) : option (list A) :=
  match filter (λ x, key x = k) array with
  | [] => None
  | vs => Some vs
  end.

(** The elements of [array] whose key values are [kt]. *)
Definition cell (keys : list (A → string)) (array : list A) (kt : list string) : list A :=
  filter (λ x, key_tuple keys x = kt) array.

(** [e] groups [array] by [keys]: its leaf groups are the cells of pairwise
    distinct key tuples, every element's key tuple is among them, and no cell
    is empty unless the array is. *)
Definition groups_by (keys : list (A → string)) (array : list A) (e : Entries) : Prop :=
  ∃ kts, NoDup kts
         ∧ leaf_groups e = map (cell keys array) kts
         ∧ (∀ x, x ∈ array → key_tuple keys x ∈ kts)
         ∧ (array ≠ [] → ∀ kt, kt ∈ kts → cell keys array kt ≠ []).

Lemma inherited_proto k : inherited k = false → k ≠ "__proto__".
Proof. intros Hk ->. vm_compute in Hk. discriminate Hk. Qed.

Lemma class_of_Some key array k vs :
  class_of key array k = Some vs ↔ filter (λ x, key x = k) array = vs ∧ vs ≠ [].
Proof.
  unfold class_of. destruct (filter _ array) as [|v l]; split.
  - done.
  - by intros [<- ?].
  - by intros [= <-].
  - by intros [<- _].
Qed.

Lemma class_of_None key array k :
  class_of key array k = None ↔ filter (λ x, key x = k) array = [].
Proof. unfold class_of. by destruct (filter _ array). Qed.

Lemma class_of_snoc key done x k :
  class_of key (done ++ [x]) k =
  if String.eqb (key x) k then Some (filter (λ y, key y = k) done ++ [x])
  else class_of key done k.
Proof.
  unfold class_of. rewrite filter_app, filter_cons, filter_nil.
  destruct (String.eqb_spec (key x) k) as [Heq|Hne].
  - rewrite decide_True by done. by destruct (filter _ done).
  - rewrite decide_False by done. by rewrite app_nil_r.
Qed.

Lemma group_spec key rest : ∀ done (acc : Obj (list A)),
  (∀ x, x ∈ rest → inherited (key x) = false) →
  NoDup (map fst acc) →
  (∀ k, own acc k = class_of key done k) →
  ∃ acc', group key rest acc = Ok acc'
          ∧ NoDup (map fst acc')
          ∧ ∀ k, own acc' k = class_of key (done ++ rest) k.
Proof.
  induction rest as [|x rest IH]; intros done acc Hsafe Hnd Hown; simpl.
  - exists acc. rewrite app_nil_r. done.
  - assert (inherited (key x) = false) as Hx by (apply Hsafe; by left).
    pose proof (inherited_proto _ Hx) as Hproto.
    assert (∀ y, y ∈ rest → inherited (key y) = false) as Hsafe'.
    { intros y Hy. apply Hsafe. by right. }
    replace (done ++ x :: rest) with ((done ++ [x]) ++ rest)
      by (by rewrite <- app_assoc).
    unfold get. destruct (own acc (key x)) as [values|] eqn:Hacc.
    + apply IH; [done|by apply NoDup_keys_set|].
      intros k. rewrite own_set, class_of_snoc by done.
      destruct (String.eqb_spec (key x) k) as [<-|Hne]; [|apply Hown].
      rewrite Hown in Hacc. apply class_of_Some in Hacc as [-> _]. done.
    + rewrite Hx. apply IH; [done|by apply NoDup_keys_set|].
      intros k. rewrite own_set, class_of_snoc by done.
      destruct (String.eqb_spec (key x) k) as [<-|Hne]; [|apply Hown].
      rewrite Hown in Hacc. apply class_of_None in Hacc. by rewrite Hacc.
Qed.

(** The loop over the groups, once each group is known to nest. *)
Lemma apply_each_spec rec (f : list A → NestMap) kvs : ∀ (result_ : Obj NestMap),
  (∀ kv, kv ∈ kvs → rec (snd kv) = Ok (f (snd kv))) →
  NoDup (map fst result_ ++ map fst kvs) →
  (∀ kv, kv ∈ kvs → fst kv ≠ "__proto__") →
  apply_each rec kvs result_
  = Ok (NObject (result_ ++ map (λ kv, (fst kv, f (snd kv))) kvs)).
Proof.
  induction kvs as [|[k vs] kvs IH]; intros result_ Hrec Hnd Hproto; simpl.
  - by rewrite app_nil_r.
  - pose proof (Hrec (k, vs)) as Hvs. simpl in Hvs. rewrite Hvs by (by left).
    assert (own result_ k = None) as Hnone.
    { apply own_None. intros Hin. apply NoDup_app in Hnd as (_ & Hdisj & _).
      apply (Hdisj k Hin). by left. }
    rewrite keys_set_new; [|by apply (Hproto (k, vs)); left|done].
    rewrite IH.
    + by rewrite <- app_assoc.
    + intros kv Hkv. apply Hrec. by right.
    + rewrite map_app. simpl. rewrite <- app_assoc. done.
    + intros kv Hkv. apply Hproto. by right.
Qed.

Lemma cell_cons key keys array k kt :
  cell (key :: keys) array (k :: kt)
  = cell keys (filter (λ x, key x = k) array) kt.
Proof.
  unfold cell. rewrite list_filter_filter. apply list_filter_iff.
  intros x. unfold key_tuple. simpl. split.
  - by intros [= -> ->].
  - by intros [-> ->].
Qed.

(** Putting the groupings of the classes side by side. *)
Lemma groups_by_classes key keys array (f : list A → NestMap)
    (L : list (string * list A)) :
  NoDup (map fst L) →
  (∀ kv, kv ∈ L → filter (λ x, key x = fst kv) array = snd kv ∧ snd kv ≠ []) →
  (∀ kv, kv ∈ L → groups_by keys (snd kv) (entries keys (f (snd kv)))) →
  ∃ kts, NoDup kts
         ∧ flat_map (λ kv, leaf_groups (entries keys (f (snd kv)))) L
           = map (cell (key :: keys) array) kts
         ∧ (∀ kv x, kv ∈ L → x ∈ snd kv → key_tuple (key :: keys) x ∈ kts)
         ∧ (∀ kt, kt ∈ kts → cell (key :: keys) array kt ≠ [])
         ∧ (∀ kt, kt ∈ kts → ∃ kv kt', kv ∈ L ∧ kt = fst kv :: kt').
Proof.
  induction L as [|[k vs] L IH]; intros Hnd Hclass Hsub.
  - exists []. split; [apply NoDup_nil_2|]. split; [done|].
    split; [by intros ? ? ?%elem_of_nil|].
    split; by intros ? ?%elem_of_nil.
  - apply NoDup_cons in Hnd as [Hk Hnd].
    destruct IH as (kts & Hkts & Hflat & Hcover & Hne & Hhead); [done| | |].
    { intros kv Hkv. apply Hclass. by right. }
    { intros kv Hkv. apply Hsub. by right. }
    destruct (Hclass (k, vs)) as [Hvs Hvsne]; [by left|]. simpl in Hvs, Hvsne.
    destruct (Hsub (k, vs)) as (kts0 & Hkts0 & Hleaf0 & Hcover0 & Hne0); [by left|].
    simpl in Hleaf0, Hcover0, Hne0.
    assert (∀ kt0, cell (key :: keys) array (k :: kt0) = cell keys vs kt0) as Hcell.
    { intros kt0. by rewrite cell_cons, Hvs. }
    exists (map (cons k) kts0 ++ kts). split; [|split; [|split; [|split]]].
    + apply NoDup_app. split; [|split; [|done]].
      * apply NoDup_fmap_2; [|done]. by intros ? ? [= ->].
      * intros kt [kt0 [-> Hkt0]]%list_elem_of_fmap Hin.
        destruct (Hhead _ Hin) as (kv & kt' & Hkv & [= -> ->]).
        apply Hk. apply list_elem_of_fmap. by exists kv.
    + simpl. rewrite Hflat, Hleaf0, map_app, map_map. f_equal.
      apply map_ext. intros kt0. by rewrite Hcell.
    + intros kv x [->|Hkv]%elem_of_cons Hx.
      * simpl in Hx. apply elem_of_app. left. apply list_elem_of_fmap.
        exists (key_tuple keys x). split; [|by apply Hcover0].
        unfold key_tuple. simpl. f_equal. rewrite <- Hvs in Hx.
        by apply list_elem_of_filter in Hx as [-> _].
      * apply elem_of_app. right. by eapply Hcover.
    + intros kt [[kt0 [-> Hkt0]]%list_elem_of_fmap|Hin]%elem_of_app.
      * rewrite Hcell. by apply Hne0.
      * by apply Hne.
    + intros kt [[kt0 [-> Hkt0]]%list_elem_of_fmap|Hin]%elem_of_app.
      * exists (k, vs), kt0. split; [by left|done].
      * destruct (Hhead _ Hin) as (kv & kt' & Hkv & ->).
        exists kv, kt'. split; [by right|done].
Qed.

Lemma safe_filter keys key array k :
  safe (key :: keys) array → safe keys (filter (λ x, key x = k) array).
Proof.
  intros Hsafe key' x Hkey [_ Hx]%list_elem_of_filter.
  apply Hsafe; [by right|done].
Qed.

(** Without inherited key values, [apply] returns and [entries] of what it
    returns groups the array by the keys. *)
Lemma apply_groups keys : ∀ array,
  safe keys array →
  ∃ m, apply keys array = Ok m ∧ groups_by keys array (entries keys m).
Proof.
  induction keys as [|key keys IH]; intros array Hsafe.
  - exists (NArray array). split; [done|]. exists [[]]. simpl.
    assert (cell [] array [] = array) as Hcell.
    { unfold cell. induction array as [|x l IHl]; [done|].
      rewrite filter_cons, decide_True by done. f_equal. apply IHl.
      intros k y ?%elem_of_nil. done. }
    split; [apply NoDup_singleton|]. split; [by rewrite Hcell|].
    split; [intros; by left|].
    intros Hne kt ->%list_elem_of_singleton. by rewrite Hcell.
  - simpl.
    destruct (group_spec key array [] []) as (vbk & -> & Hnd & Hown).
    { intros x Hx. apply Hsafe; [by left|done]. }
    { apply NoDup_nil_2. }
    { intros k. unfold class_of. by rewrite filter_nil. }
    simpl in Hown.
    set (f := λ vs, match apply keys vs with Ok m => m | Throw _ => NArray [] end).
    assert (∀ kv, kv ∈ vbk →
              filter (λ x, key x = fst kv) array = snd kv ∧ snd kv ≠ []) as Hclass.
    { intros [k vs] Hkv. apply class_of_Some. rewrite <- Hown. by apply elem_own. }
    assert (∀ kv, kv ∈ vbk →
              apply keys (snd kv) = Ok (f (snd kv))
              ∧ groups_by keys (snd kv) (entries keys (f (snd kv)))) as Hsub.
    { intros kv Hkv. destruct (Hclass kv Hkv) as [Hvs _].
      destruct (IH (snd kv)) as (m & Hm & Hg).
      - rewrite <- Hvs. by eapply safe_filter.
      - unfold f. by rewrite Hm. }
    pose proof (for_in_Permutation vbk) as Hperm.
    rewrite (apply_each_spec (apply keys) f).
    + eexists. split; [done|]. simpl.
      set (g := λ kv : string * list A, (fst kv, f (snd kv))).
      destruct (@Permutation_map_inv _ _ g (for_in (map g (for_in vbk))) (for_in vbk))
        as (L1 & HL1 & Hperm1).
      { apply for_in_Permutation. }
      assert (L1 ≡ₚ vbk) as HpermL by (by rewrite <- Hperm1, Hperm).
      destruct (groups_by_classes key keys array f L1) as
        (kts & Hkts & Hflat & Hcover & Hne & _).
      * by rewrite HpermL.
      * intros kv Hkv. apply Hclass. by rewrite <- HpermL.
      * intros kv Hkv. apply Hsub. by rewrite <- HpermL.
      * exists kts. split; [done|]. split; [|split].
        -- rewrite <- Hflat, HL1, map_map. simpl.
           clear. induction L1 as [|kv L1 IHL]; [done|]. simpl. by rewrite IHL.
        -- intros x Hx.
           destruct (class_of key array (key x)) as [vs|] eqn:Hc.
           ++ rewrite <- Hown in Hc. apply own_elem in Hc.
              apply (Hcover (key x, vs)); [by rewrite HpermL|]. simpl.
              destruct (Hclass _ Hc) as [Hvs _]. simpl in Hvs. rewrite <- Hvs.
              by apply list_elem_of_filter.
           ++ apply class_of_None in Hc.
              assert (x ∈ filter (λ y, key y = key x) array) as Hin
                by (by apply list_elem_of_filter).
              rewrite Hc in Hin. by apply elem_of_nil in Hin.
        -- intros _. exact Hne.
    + intros kv Hkv. apply Hsub. by rewrite <- Hperm.
    + simpl. by rewrite Hperm.
    + intros kv Hkv. rewrite Hperm in Hkv. destruct (Hclass kv Hkv) as [Hvs Hvsne].
      destruct (snd kv) as [|x l] eqn:Hsnd; [done|].
      assert (x ∈ filter (λ y, key y = fst kv) array) as Hx
        by (rewrite Hvs; by left).
      apply list_elem_of_filter in Hx as [<- Hx].
      apply inherited_proto. apply Hsafe; [by left|done].
Qed.

(** The cells of pairwise distinct key tuples that cover the array hold
    each element once. *)
Lemma concat_cells (f : A → list string) (kts : list (list string)) array :
  NoDup kts → (∀ x, x ∈ array → f x ∈ kts) →
  concat (map (λ kt, filter (λ x, f x = kt) array) kts) ≡ₚ array.
Proof.
  intros Hnd. induction array as [|x l IH]; intros Hcover.
  - clear. induction kts as [|kt kts IHk]; [done|]. exact IHk.
  - transitivity (x :: concat (map (λ kt, filter (λ y, f y = kt) l) kts));
      [|apply Permutation_skip, IH; intros y Hy; apply Hcover; by right].
    assert (f x ∈ kts) as Hx by (apply Hcover; by left).
    clear IH Hcover. induction kts as [|kt kts IHk]; [by apply elem_of_nil in Hx|].
    apply NoDup_cons in Hnd as [Hkt Hnd]. simpl. rewrite filter_cons.
    destruct (decide (f x = kt)) as [Heq|Hne].
    + simpl. apply Permutation_skip. apply Permutation_app_head.
      assert (∀ kts', kt ∉ kts' →
                map (λ kt', filter (λ y, f y = kt') (x :: l)) kts'
                = map (λ kt', filter (λ y, f y = kt') l) kts') as Hsame.
      { intros kts' Hnot. apply map_ext_in. intros kt' Hin%list_elem_of_In.
        rewrite filter_cons, decide_False; [done|]. intros Heq'. apply Hnot.
        congruence. }
      by rewrite Hsame.
    + apply elem_of_cons in Hx as [?|Hx]; [done|].
      rewrite (IHk Hnd Hx). by rewrite Permutation_middle.
Qed.

(** X1.  Where no key function yields the name of an inherited property,
    [nest] partitions the array: it returns a grouping whose leaf groups are the
    non-empty cells of pairwise distinct key tuples (so two elements share a
    leaf group exactly when all their key values agree, and each group keeps
    the order of the array), and the leaf groups together hold each element
    of the array once. *)
Lemma nest_entries_partition keys array :
  safe keys array →
  ∃ e, nest_entries keys array = Ok e
       ∧ groups_by keys array e
       ∧ concat (leaf_groups e) ≡ₚ array.
Proof.
  intros Hsafe. destruct (apply_groups keys array Hsafe) as (m & Hm & Hg).
  exists (entries keys m). unfold nest_entries. rewrite Hm. split; [done|].
  split; [done|]. destruct Hg as (kts & Hnd & -> & Hcover & _).
  by apply concat_cells.
Qed.

(** *** The order of the groups *)

(** The distinct values of a list, each where it first occurs. *)
Definition first_seen (l : list string) : list string :=
  foldl (λ seen k, if bool_decide (k ∈ seen) then seen else seen ++ [k]) [] l.

(** The keys of [e]'s groups, in the order of the array [entries] built. *)
Definition group_keys (e : Entries) : list string :=
  match e with
  | Leaves _ => []
  | Groups groups => map fst groups
  end.

Lemma group_keys_spec key rest : ∀ (acc acc' : Obj (list A)),
  group key rest acc = Ok acc' →
  map fst acc' =
  foldl (λ seen k, if bool_decide (k ∈ seen) then seen else seen ++ [k])
        (map fst acc) (map key rest).
Proof.
  induction rest as [|x rest IH]; intros acc acc'; simpl.
  - by intros [= ->].
  - unfold get. destruct (own acc (key x)) as [values|] eqn:Hown.
    + intros Hg. rewrite (IH _ _ Hg). unfold set. rewrite Hown, keys_replace.
      rewrite bool_decide_eq_true_2; [done|].
      apply own_elem in Hown. apply list_elem_of_fmap. by exists (key x, values).
    + destruct (inherited (key x)) eqn:Hinh; [done|].
      intros Hg. rewrite (IH _ _ Hg).
      rewrite keys_set_new by (done || by apply inherited_proto).
      rewrite bool_decide_eq_false_2 by (by apply own_None).
      by rewrite map_app.
Qed.

(** What [apply] returns one level down: an object with one property per
    group, in the order of [for (keyValue in valuesByKey)]. *)
Lemma apply_cons_shape key keys array :
  safe (key :: keys) array →
  ∃ valuesByKey (f : list A → NestMap),
    group key array [] = Ok valuesByKey
    ∧ apply (key :: keys) array
      = Ok (NObject (map (λ kv, (fst kv, f (snd kv))) (for_in valuesByKey))).
Proof.
  intros Hsafe.
  destruct (group_spec key array [] []) as (vbk & Hgroup & Hnd & Hown).
  { intros x Hx. apply Hsafe; [by left|done]. }
  { apply NoDup_nil_2. }
  { intros k. unfold class_of. by rewrite filter_nil. }
  simpl in Hown.
  set (f := λ vs, match apply keys vs with Ok m => m | Throw _ => NArray [] end).
  exists vbk, f. split; [done|]. simpl. rewrite Hgroup.
  pose proof (for_in_Permutation vbk) as Hperm.
  assert (∀ kv, kv ∈ vbk →
            filter (λ x, key x = fst kv) array = snd kv ∧ snd kv ≠ []) as Hclass.
  { intros [k vs] Hkv. apply class_of_Some. rewrite <- Hown. by apply elem_own. }
  rewrite (apply_each_spec (apply keys) f); [done| | |].
  - intros kv Hkv. rewrite Hperm in Hkv. destruct (Hclass kv Hkv) as [Hvs _].
    destruct (apply_groups keys (snd kv)) as (m & Hm & _).
    + rewrite <- Hvs. by eapply safe_filter.
    + unfold f. by rewrite Hm.
  - simpl. by rewrite Hperm.
  - intros kv Hkv. rewrite Hperm in Hkv. destruct (Hclass kv Hkv) as [Hvs Hvsne].
    destruct (snd kv) as [|x l] eqn:Hsnd; [done|].
    assert (x ∈ filter (λ y, key y = fst kv) array) as Hx
      by (rewrite Hvs; by left).
    apply list_elem_of_filter in Hx as [<- Hx].
    apply inherited_proto. apply Hsafe; [by left|done].
Qed.

Lemma filter_index_Permutation (l1 l2 : list string) :
  l1 ≡ₚ filter (λ k, array_index k ≠ None) l2 →
  filter (λ k, array_index k = None) l1 = []
  ∧ filter (λ k, array_index k ≠ None) l1 = l1.
Proof.
  intros Hperm.
  assert (Forall (λ k, array_index k ≠ None) l1) as Hall.
  { apply Forall_forall. intros k Hk. rewrite Hperm in Hk.
    by apply list_elem_of_filter in Hk as [? _]. }
  clear Hperm. induction Hall as [|k l Hk _ [IH1 IH2]]; [done|].
  rewrite !filter_cons, decide_False, decide_True by done. by rewrite IH1, IH2.
Qed.

Lemma filter_filter_index (l : list string) :
  filter (λ k, array_index k = None) (filter (λ k, array_index k = None) l)
  = filter (λ k, array_index k = None) l
  ∧ filter (λ k, array_index k ≠ None) (filter (λ k, array_index k = None) l) = [].
Proof.
  induction l as [|k l [IH1 IH2]]; [done|].
  rewrite filter_cons. destruct (decide (array_index k = None)) as [Hk|Hk]; [|done].
  rewrite !filter_cons, decide_True, decide_False by (done || (intros Hne; by apply Hne)).
  by rewrite IH1, IH2.
Qed.

(** X2.  The order of the groups [nest] returns at the top level, where no
    key value is the name of an inherited property: first the key values that
    are array indices (canonical decimal integers below [2^32 - 1]), in
    ascending numeric order, then the other key values in the order in which
    the array first shows them; each key value once. *)
Theorem nest_group_order key keys array :
  safe (key :: keys) array →
  ∃ e idx, nest_entries (key :: keys) array = Ok e
    ∧ group_keys e
      = idx ++ filter (λ k, array_index k = None) (first_seen (map key array))
    ∧ idx ≡ₚ filter (λ k, array_index k ≠ None) (first_seen (map key array))
    ∧ StronglySorted index_le idx.
Proof.
  intros Hsafe.
  destruct (apply_cons_shape key keys array Hsafe) as (vbk & f & Hgroup & Happly).
  pose proof (group_keys_spec key array [] vbk Hgroup) as Hkeys.
  change (foldl _ (map fst []) (map key array)) with (first_seen (map key array)) in Hkeys.
  unfold nest_entries. rewrite Happly. cbn [entries].
  set (g := λ kv : string * list A, (fst kv, f (snd kv))).
  destruct (for_in_keys vbk) as (idx1 & Hk1 & Hp1 & _).
  destruct (for_in_keys (map g (for_in vbk))) as (idx2 & Hk2 & Hp2 & Hs2).
  assert (map fst (map g (for_in vbk)) = map fst (for_in vbk)) as Hg
    by (by rewrite map_map).
  rewrite Hkeys in Hk1, Hp1. rewrite Hg, Hk1 in Hk2, Hp2.
  destruct (filter_index_Permutation _ _ Hp1) as [Hn1 Hi1].
  destruct (filter_filter_index (first_seen (map key array))) as [Hnn Hin].
  rewrite filter_app, Hn1, Hnn in Hk2. rewrite filter_app, Hi1, Hin, app_nil_r in Hp2.
  eexists _, idx2. split; [reflexivity|]. cbn [group_keys].
  split; [|split; [|done]].
  - simpl in Hk2. rewrite <- Hk2, map_map. by apply map_ext.
  - by rewrite Hp2.
Qed.

End WithElements.

Arguments NArray {A} array.
Arguments NObject {A} props.
Arguments Leaves {A} array.
Arguments Groups {A} groups.

(** Grouping words by themselves, then by length parity. *)
Example nest_entries_words :
  nest_entries string [λ w, w] ["b"; "a"; "b"; "10"; "9"] =
  Ok (Groups [("9", Leaves ["9"]); ("10", Leaves ["10"]);
              ("b", Leaves ["b"; "b"]); ("a", Leaves ["a"])]).
Proof. vm_compute. reflexivity. Qed.

(** C9 at the input [keys = [d => d]], [array = ['constructor']]: the first
    lookup [valuesByKey['constructor']] finds the inherited
    [Object.prototype.constructor], which is truthy and has no [push]; the
    call throws where a one-element group is due. *)
Theorem nest_entries_inherited_key_throws :
  nest_entries string [λ w, w] ["constructor"] =
  Throw "TypeError: values.push is not a function".
Proof. vm_compute. reflexivity. Qed.

Lemma safe_words : safe string [λ w, w] ["b"; "a"; "b"; "10"; "9"].
Proof.
  intros key x ->%list_elem_of_singleton Hx.
  repeat (apply elem_of_cons in Hx as [->|Hx]; [reflexivity|]).
  by apply elem_of_nil in Hx.
Defined.

Lemma nest_entries_partition_witness :
  ∃ e, nest_entries string [λ w, w] ["b"; "a"; "b"; "10"; "9"] = Ok e
       ∧ groups_by string [λ w, w] ["b"; "a"; "b"; "10"; "9"] e
       ∧ concat (leaf_groups string e) ≡ₚ ["b"; "a"; "b"; "10"; "9"].
Proof.
  exact (nest_entries_partition string [λ w, w] ["b"; "a"; "b"; "10"; "9"] safe_words).
Defined.

Lemma nest_group_order_witness :
  ∃ e idx, nest_entries string [λ w, w] ["b"; "a"; "b"; "10"; "9"] = Ok e
    ∧ group_keys string e
      = idx ++ filter (λ k, array_index k = None)
                 (first_seen (map (λ w, w) ["b"; "a"; "b"; "10"; "9"]))
    ∧ idx ≡ₚ filter (λ k, array_index k ≠ None)
               (first_seen (map (λ w, w) ["b"; "a"; "b"; "10"; "9"]))
    ∧ StronglySorted index_le idx.
Proof.
  exact (nest_group_order string (λ w, w) [] ["b"; "a"; "b"; "10"; "9"] safe_words).
Defined.

End Nest.

(** ** The operator graph and its ranks *)

Module Graph.

(** Modelled from the spec: the operator graph of the dataflow is not in the
    sources at hand; section 3, Operator: "[rank]: integer position in
    topological order" and "[targets]: the set of operators that depend on
    this one (outgoing edges)". *)
Record Operator := { rank : nat; targets : gset nat }.

Abbreviation Graph := (gmap nat Operator).

(** The rank of the operator [x]; [0] when there is none. *)
Definition rk (g : Graph) (x : nat) : nat :=
  match g !! x with Some op => rank op | None => 0 end.

(** The targets of the operator [x]. *)
Definition tg (g : Graph) (x : nat) : gset nat :=
  match g !! x with Some op => targets op | None => ∅ end.

(** [a → b] is an edge: [b] is a target of the operator [a]. *)
Definition edge (g : Graph) (a b : nat) : Prop :=
  a ∈ dom g ∧ b ∈ tg g a.

(** The rank invariant: every edge leads to an operator of the graph, of
    strictly greater rank. *)
Definition rank_invariant (g : Graph) : Prop :=
  ∀ a b, edge g a b → b ∈ dom g ∧ rk g a < rk g b.

Definition with_rank (r : nat) (op : Operator) : Operator :=
  {| rank := r; targets := targets op |}.

Definition with_target (b : nat) (op : Operator) : Operator :=
  {| rank := rank op; targets := {[b]} ∪ targets op |}.

Definition without_target (b : nat) (op : Operator) : Operator :=
  {| rank := rank op; targets := targets op ∖ {[b]} |}.

(** Modelled from the spec: the graph operations of the dataflow are not in
    the sources at hand; section 4.3: "[addOperator(op, params)] inserts a
    node, wires edges from each operator-valued parameter to [op], and assigns
    [op.rank] as one greater than the maximum rank among its parameter
    operators (or 0 if none)".  [params] are the operator-valued parameters;
    one that names no operator is an unknown operator reference (section 7).
    The new operator's identifier is returned with the graph. *)
Definition addOperator (params : list nat) (g : Graph) : result (nat * Graph) :=
  if forallb (λ p, bool_decide (p ∈ dom g)) params then
    let op := fresh (dom g) in
    let r := match params with
             | [] => 0
             | _ => S (max_list (map (rk g) params))
             end in
    Ok (op, foldr (λ p g', alter (with_target op) p g')
                  (<[op := {| rank := r; targets := ∅ |}]> g) params)
  else error "Unknown operator reference".

(** Modelled from the spec: the walk of the re-ranking of section 4.3 over
    the targets [ts] of [a]; [path] holds the operators being visited, [a]
    included, and [rec] renumbers from a target on.  Meeting an operator of
    [path] again is a cycle ("an operator reachable from itself"). *)
Fixpoint renumber_targets (rec : nat → Graph → option (result Graph))
    (path : list nat) (a : nat) (ts : list nat) (g : Graph) : option (result Graph) :=
  match ts with
  | [] => Some (Ok g)
  | b :: ts' =>
    if bool_decide (b ∈ path) then Some (error "Cycle detected in dataflow graph.")
    else
      match g !! a, g !! b with
      | Some opa, Some opb =>
        match rec b (<[b := with_rank (rank opb `max` S (rank opa)) opb]> g) with
        | Some (Ok g') => renumber_targets rec path a ts' g'
        | other => other
        end
      | _, _ => renumber_targets rec path a ts' g
      end
  end.

(** Modelled from the spec: section 4.3: "perform a forward topological
    re-numbering starting at [source] over all operators transitively
    reachable through existing edges, detecting a cycle (an operator reachable
    from itself) and signaling a fatal configuration error rather than looping
    forever".  Each operator reached is numbered above the operator it is
    reached from.  [None] stands for a walk cut short by [fuel]. *)
Fixpoint renumber (fuel : nat) (visiting : list nat) (a : nat) (g : Graph)
    : option (result Graph) :=
  match fuel with
  | 0 => None
  | S fuel' =>
    renumber_targets (renumber fuel' (a :: visiting)) (a :: visiting) a
      (elements (tg g a)) g
  end.

(** Modelled from the spec: the re-ranking of section 4.3 from [a]; a walk
    never gets deeper than the graph has operators. *)
Definition rerank (a : nat) (g : Graph) : result Graph :=
  match renumber (S (size g)) [] a g with
  | Some r => r
  | None => error "re-ranking did not finish"
  end.

(** Modelled from the spec: section 4.3: "[connect(source, target)] adds an
    edge after construction; if [target.rank <= source.rank], the graph must
    re-rank". *)
Definition connect (source target : nat) (g : Graph) : result Graph :=
  match g !! source, g !! target with
  | Some ops, Some opt =>
    let g' := <[source := with_target target ops]> g in
    if Nat.leb (rank opt) (rank ops) then rerank source g' else Ok g'
  | _, _ => error "Unknown operator reference"
  end.

(** Modelled from the spec: section 4.3: "Removing an operator detaches all
    its edges first; dependents keep their rank". *)
Definition removeOperator (op : nat) (g : Graph) : Graph :=
  delete op (without_target op <$> g).

(** The mutations of a graph. *)
Inductive Mutation : Type :=
| AddOperator (params : list nat)
| Connect (source target : nat)
| RemoveOperator (op : nat).

Definition mutate (m : Mutation) (g : Graph) : result Graph :=
  match m with
  | AddOperator params =>
    match addOperator params g with
    | Ok (_, g') => Ok g'
    | Throw e => Throw e
    end
  | Connect source target => connect source target g
  | RemoveOperator op => Ok (removeOperator op g)
  end.

(** A run of mutations; a configuration error ends it. *)
Fixpoint mutate_all (ms : list Mutation) (g : Graph) : result Graph :=
  match ms with
  | [] => Ok g
  | m :: ms' =>
    match mutate m g with
    | Ok g' => mutate_all ms' g'
    | Throw e => Throw e
    end
  end.

(** *** How a re-ranking relates the graph before and after *)

(** Same operators, same edges. *)
Definition same_shape (g g' : Graph) : Prop :=
  dom g' = dom g ∧ ∀ x, tg g' x = tg g x.

(** No rank went down. *)
Definition ranks_grow (g g' : Graph) : Prop := ∀ x, rk g x ≤ rk g' x.

(** An edge that breaks the invariant on ranks. *)
Definition bad (g : Graph) (x y : nat) : Prop :=
  edge g x y ∧ y ∈ dom g ∧ rk g y ≤ rk g x.

(** What the walk over the targets [ts] of [a] leaves behind: an edge is bad
    afterwards only if its origin kept its rank and, when the origin is [a],
    its end is not among [ts]. *)
Definition settled_targets (a : nat) (ts : list nat) (g g' : Graph) : Prop :=
  same_shape g g' ∧ ranks_grow g g'
  ∧ ∀ x y, bad g' x y → rk g' x = rk g x ∧ (x = a → y ∉ ts).

(** What a re-numbering from [a] leaves behind: an edge is bad afterwards
    only if its origin kept its rank and is not [a]. *)
Definition settled_from (a : nat) (g g' : Graph) : Prop :=
  same_shape g g' ∧ ranks_grow g g'
  ∧ ∀ x y, bad g' x y → rk g' x = rk g x ∧ x ≠ a.

Lemma same_shape_refl g : same_shape g g.
Proof. by split. Qed.

Lemma same_shape_trans g1 g2 g3 :
  same_shape g1 g2 → same_shape g2 g3 → same_shape g1 g3.
Proof.
  intros [Hd1 Ht1] [Hd2 Ht2]. split; [congruence|].
  intros x. by rewrite Ht2, Ht1.
Qed.

Lemma ranks_grow_trans g1 g2 g3 :
  ranks_grow g1 g2 → ranks_grow g2 g3 → ranks_grow g1 g3.
Proof. intros H1 H2 x. specialize (H1 x). specialize (H2 x). lia. Qed.

Lemma rk_with_rank (g : Graph) b opb r x :
  rk (<[b := with_rank r opb]> g) x = if decide (x = b) then r else rk g x.
Proof.
  unfold rk. destruct (decide (x = b)) as [->|Hne].
  - by rewrite lookup_insert_eq.
  - by rewrite lookup_insert_ne.
Qed.

Lemma tg_with_rank (g : Graph) b opb r x :
  g !! b = Some opb → tg (<[b := with_rank r opb]> g) x = tg g x.
Proof.
  intros Hb. unfold tg. destruct (decide (x = b)) as [->|Hne].
  - by rewrite lookup_insert_eq, Hb.
  - by rewrite lookup_insert_ne.
Qed.

Lemma dom_with_rank (g : Graph) b (opb op : Operator) :
  g !! b = Some opb → dom (<[b := op]> g) = dom g.
Proof.
  intros Hb. rewrite dom_insert_L.
  assert (b ∈ dom g) as Hin by (apply elem_of_dom; eauto).
  apply set_eq. intros x. rewrite elem_of_union, elem_of_singleton.
  split; [intros [->|?]; done|tauto].
Qed.

Lemma same_shape_with_rank (g : Graph) b opb r :
  g !! b = Some opb → same_shape g (<[b := with_rank r opb]> g).
Proof.
  intros Hb. split; [by eapply dom_with_rank|].
  intros x. by apply tg_with_rank.
Qed.

Lemma bad_same_shape g g' x y :
  same_shape g g' → ranks_grow g g' → bad g' x y → rk g' x = rk g x → bad g x y.
Proof.
  intros [Hd Ht] Hgrow [[Hx Hy] [Hyd Hle]] Heq. unfold bad, edge.
  rewrite <- Hd, <- Ht. repeat split; try done.
  specialize (Hgrow y). lia.
Qed.

Lemma renumber_targets_settled rec path a ts g g' :
  (∀ b g1 g2, rec b g1 = Some (Ok g2) → settled_from b g1 g2) →
  a ∈ path →
  renumber_targets rec path a ts g = Some (Ok g') →
  settled_targets a ts g g'.
Proof.
  intros Hrec Ha. revert g. induction ts as [|b ts IH]; intros g Hrun; simpl in Hrun.
  - simplify_eq. split; [apply same_shape_refl|]. split; [by intros x|].
    intros x y _. split; [done|]. intros _. apply not_elem_of_nil.
  - case_bool_decide as Hpath; [done|].
    assert (a ≠ b) as Hab by (intros ->; done).
    destruct (g !! a) as [opa|] eqn:Hga; [destruct (g !! b) as [opb|] eqn:Hgb|].
    + destruct (rec b _) as [[g2|e]|] eqn:Hcall; try done.
      apply Hrec in Hcall as (Hs12 & Hg12 & Hb12).
      apply IH in Hrun as (Hs2 & Hg2 & Hb2).
      pose proof (same_shape_with_rank g b opb (rank opb `max` S (rank opa)) Hgb) as Hs01.
      assert (ranks_grow g (<[b:=with_rank (rank opb `max` S (rank opa)) opb]> g)) as Hg01.
      { intros x. rewrite rk_with_rank. case_decide; [subst|done].
        unfold rk. rewrite Hgb. lia. }
      split; [eauto using same_shape_trans|].
      split; [eauto using ranks_grow_trans|].
      intros x y Hbad. destruct (Hb2 x y Hbad) as [Hkeep Hts].
      pose proof (bad_same_shape _ _ _ _ Hs2 Hg2 Hbad Hkeep) as Hbad2.
      destruct (Hb12 x y Hbad2) as [Hkeep1 Hxb].
      assert (rk g' x = rk g x) as Hkeep0.
      { rewrite Hkeep, Hkeep1, rk_with_rank. by case_decide. }
      split; [done|]. intros ->. intros [->|Hin]%elem_of_cons; [|by apply Hts].
      destruct Hbad2 as (_ & _ & Hle). specialize (Hg12 b).
      rewrite rk_with_rank in Hg12. rewrite decide_True in Hg12 by done.
      rewrite Hkeep1, rk_with_rank in Hle. rewrite decide_False in Hle by done.
      unfold rk in Hle at 2. rewrite Hga in Hle. lia.
    + apply IH in Hrun as (Hs & Hg & Hb). split; [done|]. split; [done|].
      intros x y Hbad. destruct (Hb x y Hbad) as [Hkeep Hts]. split; [done|].
      intros ->. intros [->|Hin]%elem_of_cons; [|by apply Hts].
      destruct Hbad as (_ & Hyd & _). destruct Hs as [Hd _]. rewrite Hd in Hyd.
      apply elem_of_dom in Hyd as [? ?]. congruence.
    + apply IH in Hrun as (Hs & Hg & Hb). split; [done|]. split; [done|].
      intros x y Hbad. destruct (Hb x y Hbad) as [Hkeep Hts]. split; [done|].
      intros ->. destruct Hbad as ([Hxd _] & _ & _). destruct Hs as [Hd _].
      rewrite Hd in Hxd. apply elem_of_dom in Hxd as [? ?]. congruence.
Qed.

Lemma renumber_settled fuel visiting a g g' :
  renumber fuel visiting a g = Some (Ok g') → settled_from a g g'.
Proof.
  revert visiting a g g'. induction fuel as [|fuel IH]; intros visiting a g g' Hrun;
    [done|]. simpl in Hrun.
  apply renumber_targets_settled in Hrun as (Hs & Hg & Hb);
    [|by eauto|by apply elem_of_cons; left].
  split; [done|]. split; [done|].
  intros x y Hbad. destruct (Hb x y Hbad) as [Hkeep Hts]. split; [done|].
  intros ->. apply Hts; [done|]. apply elem_of_elements.
  destruct Hbad as ([_ Hy] & _). destruct Hs as [_ Ht]. by rewrite <- Ht.
Qed.

(** *** The walk finishes *)

Lemma length_le_size (l : list nat) (X : gset nat) :
  NoDup l → (∀ x, x ∈ l → x ∈ X) → length l ≤ size X.
Proof.
  intros Hnd Hin. rewrite <- (size_list_to_set (C := gset nat) l Hnd).
  apply subseteq_size. intros x Hx. apply elem_of_list_to_set in Hx. by apply Hin.
Qed.

Lemma renumber_targets_finishes rec path a ts (D : gset nat) g :
  (∀ b g1, b ∉ path → b ∈ dom g1 → dom g1 = D → rec b g1 ≠ None) →
  (∀ b g1 g2, rec b g1 = Some (Ok g2) → dom g2 = dom g1) →
  dom g = D →
  renumber_targets rec path a ts g ≠ None.
Proof.
  intros Hfin Hdom. revert g. induction ts as [|b ts IH]; intros g HD; simpl; [done|].
  case_bool_decide as Hpath; [done|].
  destruct (g !! a) as [opa|] eqn:Hga; [destruct (g !! b) as [opb|] eqn:Hgb|];
    [|by apply IH..].
  assert (dom (<[b:=with_rank (rank opb `max` S (rank opa)) opb]> g) = D) as HD1.
  { by rewrite (dom_with_rank g b opb _ Hgb). }
  destruct (rec b _) as [[g2|e]|] eqn:Hcall.
  - apply IH. apply Hdom in Hcall. congruence.
  - done.
  - exfalso. revert Hcall. apply Hfin; [done| |done].
    rewrite HD1, <- HD. apply elem_of_dom. eauto.
Qed.

Lemma renumber_finishes fuel visiting a (g : Graph) :
  a ∈ dom g → NoDup (a :: visiting) → (∀ x, x ∈ visiting → x ∈ dom g) →
  size (dom g) < fuel + length visiting →
  renumber fuel visiting a g ≠ None.
Proof.
  revert visiting a g. induction fuel as [|fuel IH]; intros visiting a g Ha Hnd Hin Hsz.
  - exfalso. assert (length (a :: visiting) ≤ size (dom g)) as Hle.
    { apply length_le_size; [done|]. intros x [->|?]%elem_of_cons; auto. }
    simpl in *. lia.
  - simpl. apply (renumber_targets_finishes _ _ _ _ (dom g)); [| |done].
    + intros b g1 Hb Hbd Hd1. apply IH.
      * done.
      * by apply NoDup_cons.
      * intros x [->|?]%elem_of_cons; rewrite Hd1; auto.
      * rewrite Hd1. simpl. lia.
    + intros b g1 g2 Hcall. by apply renumber_settled in Hcall as [[? _] _].
Qed.

(** The re-ranking from an operator of the graph is never cut short: it
    ends with a re-ranked graph or with the cycle error. *)
Lemma rerank_finishes a (g : Graph) :
  a ∈ dom g → renumber (S (size g)) [] a g = Some (rerank a g).
Proof.
  intros Ha. unfold rerank.
  destruct (renumber (S (size g)) [] a g) eqn:Hrun; [done|].
  exfalso. revert Hrun. apply renumber_finishes; [done| | |].
  - apply NoDup_singleton.
  - intros x Hx. by apply elem_of_nil in Hx.
  - rewrite size_dom. simpl. lia.
Qed.

(** *** Each mutation keeps the invariant *)

Lemma rank_invariant_empty : rank_invariant ∅.
Proof. intros a b [Ha _]. rewrite dom_empty_L in Ha. by apply elem_of_empty in Ha. Qed.

Lemma wire_lookup op params (g : Graph) x :
  ∃ o, foldr (λ p g', alter (with_target op) p g') g params !! x
       = (λ opx, {| rank := rank opx; targets := o ∪ targets opx |}) <$> g !! x
       ∧ o ⊆ {[op]} ∧ (op ∈ o → x ∈ params).
Proof.
  induction params as [|p params (o & IH & Hsub & Hin)]; simpl.
  - exists ∅. split; [|split; [set_solver|set_solver]].
    destruct (g !! x) as [[r t]|]; simpl; [|done].
    by rewrite (left_id_L ∅ (∪)).
  - destruct (decide (p = x)) as [->|Hne].
    + exists ({[op]} ∪ o). rewrite lookup_alter_eq, IH.
      split; [|split; [set_solver|intros _; by left]].
      destruct (g !! x) as [[r t]|]; simpl; [|done].
      unfold with_target. simpl. by rewrite (assoc_L (∪)).
    + exists o. rewrite lookup_alter_ne by done.
      split; [done|]. split; [done|]. intros ?. right. auto.
Qed.

Lemma max_list_ge (l : list nat) x : x ∈ l → x ≤ max_list l.
Proof.
  induction l as [|y l IH]; [by intros ?%elem_of_nil|].
  intros [->|Hin]%elem_of_cons; simpl; [lia|]. specialize (IH Hin). lia.
Qed.

Lemma addOperator_invariant params (g g' : Graph) op :
  rank_invariant g → addOperator params g = Ok (op, g') → rank_invariant g'.
Proof.
  intros Hinv. unfold addOperator.
  destruct (forallb _ params) eqn:Hall; [|done]. intros [= <- <-].
  set (op := fresh (dom g)).
  assert (op ∉ dom g) as Hfresh by apply is_fresh.
  set (r := match params with [] => 0 | _ => S (max_list (map (rk g) params)) end).
  set (base := <[op := {| rank := r; targets := ∅ |}]> g).
  assert (∀ x, x ≠ op → base !! x = g !! x) as Hbase.
  { intros x Hx. unfold base. by rewrite lookup_insert_ne. }
  assert (base !! op = Some {| rank := r; targets := ∅ |}) as Hbop.
  { unfold base. by rewrite lookup_insert_eq. }
  intros a b [Ha Hb].
  destruct (wire_lookup op params base a) as (oa & Hla & Hoa & Hina).
  destruct (wire_lookup op params base b) as (ob & Hlb & _ & _).
  apply elem_of_dom in Ha as [opa' Hopa']. rewrite Hopa' in Hla.
  unfold tg in Hb. rewrite Hopa' in Hb.
  destruct (base !! a) as [opa|] eqn:Hbasea; simpl in Hla; [|done].
  injection Hla as ->. simpl in Hb.
  destruct (decide (a = op)) as [->|Hane].
  { rewrite Hbop in Hbasea. injection Hbasea as <-. simpl in Hb.
    assert (op ∈ oa) as Hop by set_solver. apply Hina in Hop.
    rewrite forallb_forall in Hall. apply list_elem_of_In, Hall in Hop.
    by apply bool_decide_eq_true in Hop. }
  rewrite Hbase in Hbasea by done.
  destruct (decide (b = op)) as [->|Hbne].
  - assert (op ∈ oa) as Hop.
    { apply elem_of_union in Hb as [?|Hb]; [done|].
      exfalso. apply Hfresh. apply (Hinv a op). split; [apply elem_of_dom; eauto|].
      unfold tg. by rewrite Hbasea. }
    apply Hina in Hop. split.
    + apply elem_of_dom. rewrite Hlb, Hbop. eauto.
    + unfold rk. rewrite Hopa', Hlb, Hbop. simpl.
      assert (rk g a ≤ max_list (map (rk g) params)) as Hle.
      { apply max_list_ge. apply list_elem_of_fmap. eauto. }
      unfold rk in Hle at 1. rewrite Hbasea in Hle.
      unfold r. destruct params; [by apply elem_of_nil in Hop|]. lia.
  - assert (b ∈ targets opa) as Hbt by set_solver.
    destruct (Hinv a b) as [Hbd Hlt].
    { split; [apply elem_of_dom; eauto|]. unfold tg. by rewrite Hbasea. }
    apply elem_of_dom in Hbd as [opb Hopb].
    rewrite Hbase, Hopb in Hlb by done. simpl in Hlb. split.
    + apply elem_of_dom. eauto.
    + unfold rk in *. rewrite Hopa', Hlb. rewrite Hbasea, Hopb in Hlt. done.
Qed.

Lemma connect_invariant source target (g g' : Graph) :
  rank_invariant g → connect source target g = Ok g' → rank_invariant g'.
Proof.
  intros Hinv. unfold connect.
  destruct (g !! source) as [ops|] eqn:Hs; [|done].
  destruct (g !! target) as [opt|] eqn:Ht; [|done].
  set (g1 := <[source := with_target target ops]> g).
  assert (dom g1 = dom g) as Hd1 by (by apply (dom_with_rank g source ops)).
  assert (∀ x, rk g1 x = rk g x) as Hrk1.
  { intros x. unfold rk, g1. destruct (decide (x = source)) as [->|?].
    - by rewrite lookup_insert_eq, Hs.
    - by rewrite lookup_insert_ne. }
  assert (∀ x y, edge g1 x y → edge g x y ∨ (x = source ∧ y = target)) as Hedge.
  { intros x y [Hx Hy]. rewrite Hd1 in Hx. unfold tg, g1 in Hy.
    destruct (decide (x = source)) as [->|?].
    - rewrite lookup_insert_eq in Hy. simpl in Hy.
      apply elem_of_union in Hy as [->%elem_of_singleton|Hy]; [by right|].
      left. split; [done|]. unfold tg. by rewrite Hs.
    - rewrite lookup_insert_ne in Hy by done. left. by split. }
  assert (target ∈ dom g) as Htd by (apply elem_of_dom; eauto).
  destruct (Nat.leb (rank opt) (rank ops)) eqn:Hle.
  - intros Hrun. unfold rerank in Hrun.
    destruct (renumber _ _ _ _) as [[g2|e]|] eqn:Hren; simplify_eq.
    apply renumber_settled in Hren as ([Hd Htg] & Hgrow & Hbad).
    intros a b [Ha Hb]. rewrite Hd in Ha. rewrite Htg in Hb.
    assert (b ∈ dom g') as Hbd.
    { rewrite Hd, Hd1. destruct (Hedge a b) as [He|[_ ->]]; [by split| |done].
      by apply Hinv in He as [? _]. }
    split; [done|]. destruct (decide (rk g' a < rk g' b)) as [|Hnlt]; [done|].
    exfalso. destruct (Hbad a b) as [Hkeep Hne].
    { split; [split; [by rewrite Hd|by rewrite Htg]|]. split; [done|lia]. }
    destruct (Hedge a b) as [He|[-> _]]; [by split| |done].
    apply Hinv in He as [_ Hlt]. specialize (Hgrow b).
    rewrite Hkeep, !Hrk1 in *. lia.
  - intros [= <-]. apply Nat.leb_gt in Hle.
    intros a b He. rewrite Hd1, !Hrk1.
    destruct (Hedge a b He) as [He'|[-> ->]]; [by apply Hinv|].
    split; [done|]. unfold rk. by rewrite Hs, Ht.
Qed.

Lemma removeOperator_invariant op (g : Graph) :
  rank_invariant g → rank_invariant (removeOperator op g).
Proof.
  intros Hinv a b [Ha Hb]. unfold removeOperator in *.
  apply elem_of_dom in Ha as [opa Hopa].
  destruct (decide (a = op)) as [->|Hane]; [by rewrite lookup_delete_eq in Hopa|].
  unfold tg in Hb. rewrite Hopa in Hb.
  rewrite lookup_delete_ne, lookup_fmap in Hopa by done.
  destruct (g !! a) as [opa0|] eqn:Hga; simpl in Hopa; [|done].
  injection Hopa as <-. simpl in Hb.
  apply elem_of_difference in Hb as [Hb Hbne].
  assert (b ≠ op) as Hbop by set_solver.
  destruct (Hinv a b) as [Hbd Hlt].
  { split; [apply elem_of_dom; eauto|]. unfold tg. by rewrite Hga. }
  apply elem_of_dom in Hbd as [opb Hopb]. split.
  - apply elem_of_dom. rewrite lookup_delete_ne, lookup_fmap, Hopb by done. eauto.
  - unfold rk in *.
    rewrite !lookup_delete_ne, !lookup_fmap, Hga, Hopb by done. simpl.
    by rewrite Hga, Hopb in Hlt.
Qed.

Lemma mutate_invariant m (g g' : Graph) :
  rank_invariant g → mutate m g = Ok g' → rank_invariant g'.
Proof.
  intros Hinv. destruct m as [params|source target|op]; simpl.
  - destruct (addOperator params g) as [[op g1]|e] eqn:Hadd; [|done].
    intros [= <-]. by eapply addOperator_invariant.
  - by apply connect_invariant.
  - intros [= <-]. by apply removeOperator_invariant.
Qed.

Lemma mutate_all_invariant ms (g g' : Graph) :
  rank_invariant g → mutate_all ms g = Ok g' → rank_invariant g'.
Proof.
  revert g. induction ms as [|m ms IH]; intros g Hinv; simpl.
  - by intros [= <-].
  - destruct (mutate m g) as [g1|e] eqn:Hm; [|done].
    apply IH. by eapply mutate_invariant.
Qed.

(** C1.  In a graph reached from the empty graph by operators added, edges
    connected and operators removed, every edge [a → b] leads to an operator
    of the graph and [rank a < rank b]. *)
Theorem rank_invariant_after_mutations (ms : list Mutation) (g : Graph) :
  mutate_all ms ∅ = Ok g →
  ∀ a b, edge g a b → b ∈ dom g ∧ rk g a < rk g b.
Proof.
  intros Hrun. exact (mutate_all_invariant ms ∅ g rank_invariant_empty Hrun).
Qed.

(** Two sources [0] and [1], an operator [2] fed by [0], then an edge
    [2 → 1] that forces a re-ranking, then the removal of [0]. *)
Definition sample_mutations : list Mutation :=
  [AddOperator []; AddOperator []; AddOperator [0]; Connect 2 1; RemoveOperator 0].

Example sample_mutations_ranks :
  match mutate_all sample_mutations ∅ with
  | Ok g => (rk g 1, rk g 2, elements (tg g 2), elements (dom g)) = (2, 1, [1], [2; 1])
  | Throw _ => False
  end.
Proof. vm_compute. reflexivity. Qed.

(** Closing the cycle [1 → 2 → 1] is refused. *)
Example sample_cycle_refused :
  mutate_all (sample_mutations ++ [Connect 1 2]) ∅
  = Throw "Cycle detected in dataflow graph.".
Proof. vm_compute. reflexivity. Qed.

Lemma rank_invariant_after_mutations_witness :
  ∃ g, mutate_all sample_mutations ∅ = Ok g
       ∧ ∀ a b, edge g a b → b ∈ dom g ∧ rk g a < rk g b.
Proof.
  destruct (mutate_all sample_mutations ∅) as [g|e] eqn:Hrun.
  - exists g. split; [reflexivity|].
    exact (rank_invariant_after_mutations sample_mutations g Hrun).
  - exfalso. vm_compute in Hrun. discriminate Hrun.
Defined.

End Graph.

(** ** vega-hierarchy: the transforms *)

Module Hierarchy.

Import Dataflow.

Notation "x <~ m ;; k" := (bind m (λ x, k))
  (at level 100, m at next level, right associativity).

(** *** Transform definitions *)

(** A default of a parameter definition; numbers are kept as written. *)
Inductive Default : Type :=
| DNumber (literal : string)
| DNull
| DBool (b : bool)
| DString (s : string)
| DStrings (l : list string).

Record ParamDef := {
  p_name : string;
  p_type : string;
  p_array : bool;
  p_required : bool;
  p_length : option nat;
  p_default : option Default;
  p_values : list string
}.

Record Definition_ := {
  def_type : string;
  def_metadata : JsObject.Obj bool;
  def_params : list ParamDef
}.

(** [definition.metadata[flag]], read as a condition. *)
Definition metadata_flag (d : Definition_) (flag : string) : bool :=
  default false (JsObject.own (def_metadata d) flag).

Definition param (name type : string) : ParamDef :=
  {| p_name := name; p_type := type; p_array := false; p_required := false;
     p_length := None; p_default := None; p_values := [] |}.

Definition param_default (name type : string) (d : Default) : ParamDef :=
  {| p_name := name; p_type := type; p_array := false; p_required := false;
     p_length := None; p_default := Some d; p_values := [] |}.

Definition param_required (name type : string) : ParamDef :=
  {| p_name := name; p_type := type; p_array := false; p_required := true;
     p_length := None; p_default := None; p_values := [] |}.

Definition param_array (name type : string) (len : option nat) (d : option Default)
    : ParamDef :=
  {| p_name := name; p_type := type; p_array := true; p_required := false;
     p_length := len; p_default := d; p_values := [] |}.

Definition param_enum (name : string) (d : string) (vs : list string) : ParamDef :=
  {| p_name := name; p_type := "enum"; p_array := false; p_required := false;
     p_length := None; p_default := Some (DString d); p_values := vs |}.

Definition Output_3 : list string := ["x"; "y"; "r"; "depth"; "children"].
Definition Output_2 : list string := ["x0"; "y0"; "x1"; "y1"; "depth"; "children"].
Definition Output_1 : list string := ["x"; "y"; "depth"; "children"].
Definition Output : list string := ["x0"; "y0"; "x1"; "y1"; "depth"; "children"].

Definition Nest_Definition : Definition_ :=
  {| def_type := "Nest";
     def_metadata := [("treesource", true); ("changes", true)];
     def_params := [param_array "keys" "field" None None; param "generate" "boolean"] |}.

Definition Pack_Definition : Definition_ :=
  {| def_type := "Pack";
     def_metadata := [("tree", true); ("modifies", true)];
     def_params :=
       [param "field" "field"; param "sort" "compare";
        param_default "padding" "number" (DNumber "0");
        param_default "radius" "field" DNull;
        param_array "size" "number" (Some 2) None;
        param_array "as" "string" (Some (length Output_3)) (Some (DStrings Output_3))] |}.

Definition Partition_Definition : Definition_ :=
  {| def_type := "Partition";
     def_metadata := [("tree", true); ("modifies", true)];
     def_params :=
       [param "field" "field"; param "sort" "compare";
        param_default "padding" "number" (DNumber "0");
        param_default "round" "boolean" (DBool false);
        param_array "size" "number" (Some 2) None;
        param_array "as" "string" (Some (length Output_2)) (Some (DStrings Output_2))] |}.

Definition Stratify_Definition : Definition_ :=
  {| def_type := "Stratify";
     def_metadata := [("treesource", true)];
     def_params := [param_required "key" "field"; param_required "parentKey" "field"] |}.

Definition Tree_Definition : Definition_ :=
  {| def_type := "Tree";
     def_metadata := [("tree", true); ("modifies", true)];
     def_params :=
       [param "field" "field"; param "sort" "compare";
        param_enum "method" "tidy" ["tidy"; "cluster"];
        param_array "size" "number" (Some 2) None;
        param_array "nodeSize" "number" (Some 2) None;
        param_default "separation" "boolean" (DBool true);
        param_array "as" "string" (Some (length Output_1)) (Some (DStrings Output_1))] |}.

Definition TreeLinks_Definition : Definition_ :=
  {| def_type := "TreeLinks";
     def_metadata := [("tree", true); ("generates", true); ("changes", true)];
     def_params := [] |}.

Definition Treemap_Definition : Definition_ :=
  {| def_type := "Treemap";
     def_metadata := [("tree", true); ("modifies", true)];
     def_params :=
       [param "field" "field"; param "sort" "compare";
        param_enum "method" "squarify"
          ["squarify"; "resquarify"; "binary"; "dice"; "slice"; "slicedice"];
        param_default "padding" "number" (DNumber "0");
        param_default "paddingInner" "number" (DNumber "0");
        param_default "paddingOuter" "number" (DNumber "0");
        param_default "paddingTop" "number" (DNumber "0");
        param_default "paddingRight" "number" (DNumber "0");
        param_default "paddingBottom" "number" (DNumber "0");
        param_default "paddingLeft" "number" (DNumber "0");
        param_default "ratio" "number" (DNumber "1.618033988749895");
        param_default "round" "boolean" (DBool false);
        param_array "size" "number" (Some 2) None;
        param_array "as" "string" (Some (length Output)) (Some (DStrings Output))] |}.

(** The transform types this module exports. *)
Inductive TransformType : Type :=
| Nest | Pack | Partition | Stratify | Tree | TreeLinks | Treemap.

Definition Definition_of (ty : TransformType) : Definition_ :=
  match ty with
  | Nest => Nest_Definition
  | Pack => Pack_Definition
  | Partition => Partition_Definition
  | Stratify => Stratify_Definition
  | Tree => Tree_Definition
  | TreeLinks => TreeLinks_Definition
  | Treemap => Treemap_Definition
  end.

(** [this.constructor.name]. *)
Definition constructor_name (ty : TransformType) : string := def_type (Definition_of ty).

(** *** Values the transforms read *)

(** What a field accessor returns, as far as the transforms look at it: its
    truthiness and its coercion to a string. *)
Record FieldValue := { fv_truthy : bool; fv_string : string }.

(** A field accessor: the function, and its [fields] property. *)
Record Accessor := { acc : ref → FieldValue; acc_fields : list string }.

(** The tables of layout methods: their own keys. *)
Definition Layouts_keys : list string := ["tidy"; "cluster"].
Definition Tiles_keys : list string :=
  ["binary"; "dice"; "slice"; "slicedice"; "squarify"; "resquarify"].

(** [vega-util] [hasOwnProperty] on a table given by its own keys. *)
Definition hasOwnProperty (keys : list string) (k : string) : bool :=
  bool_decide (k ∈ keys).

(** The separation functions handed to a layout: [defaultSeparation], or
    [vega-util]'s [one]. *)
Inductive Separation : Type := DefaultSeparation | One.

(** [const defaultSeparation = (a, b) => a.parent === b.parent ? 1 : 2]. *)
Definition defaultSeparation (same_parent : bool) : nat :=
  if same_parent then 1 else 2.

(** The entries of a nest with the identity of each [{key, values}] object. *)
Inductive Labelled : Type :=
| LLeaves (array : list ref)
| LGroups (groups : list (ref * string * Labelled)).

(** The layout transforms, which share [HierarchyLayout.transform]. *)
Inductive LayoutKind : Type := KPack | KPartition | KTree | KTreemap.

Definition type_of_kind (k : LayoutKind) : TransformType :=
  match k with
  | KPack => Pack
  | KPartition => Partition
  | KTree => Tree
  | KTreemap => Treemap
  end.

(** [this.params] *)
Definition layout_params (k : LayoutKind) : list string :=
  match k with
  | KPack => ["radius"; "size"; "padding"]
  | KPartition => ["size"; "round"; "padding"]
  | KTree => ["size"; "nodeSize"]
  | KTreemap => ["method"; "ratio"; "size"; "round"; "padding"; "paddingInner";
                 "paddingOuter"; "paddingTop"; "paddingRight"; "paddingBottom";
                 "paddingLeft"]
  end.

(** [this.fields] *)
Definition layout_fields (k : LayoutKind) : list string :=
  match k with
  | KPack => Output_3
  | KPartition => Output_2
  | KTree => Output_1
  | KTreemap => Output
  end.

Definition is_null (v : OpValue) : bool :=
  match v with VNull => true | _ => false end.

(** *** d3-hierarchy and the other collaborators, as the transforms use them *)

(** A node as a callback of [each] sees it: [node.data], the length of
    [node.children] when the node has children, [node.parent.data] when it
    has a parent, and its other properties by name. *)
Record Node (AttrVal : Type) := {
  data : ref;
  children : option nat;
  parent : option ref;
  attr : string → AttrVal
}.
Arguments data {AttrVal} _.
Arguments children {AttrVal} _.
Arguments parent {AttrVal} _.
Arguments attr {AttrVal} _ _.

Class Collaborators := {
  (** a root node with all below it, and what a node property holds *)
  Tree_ : Type;
  AttrVal : Type;
  number : nat → AttrVal;
  (** [root.each]: the nodes in the order they are visited *)
  each : Tree_ → list (Node AttrVal);
  (** [hierarchy({values: entries}, n => n.values)], given the identity of
      the root object and the labelled entries *)
  hierarchy : ref → Labelled → Tree_;
  (** [stratify().id(key).parentId(parentKey)(array)]; [None] is the default
      accessor; d3 throws on a missing, ambiguous or cyclic parent *)
  stratify : option Accessor → option Accessor → list ref → result Tree_;
  (** comparators, and [vega-dataflow]'s [stableCompare(cmp, d => d.data)] *)
  Compare : Type;
  stableCompare : Compare → Compare;
  (** [root.sum(field)], [root.count()], [root.sort(cmp)]: the tree after *)
  node_sum : Accessor → Tree_ → Tree_;
  node_count : Tree_ → Tree_;
  node_sort : Compare → Tree_ → Tree_;
  (** layout generators with their settings, tile methods, and the parameter
      values handed to their setters *)
  Layout : Type;
  Tile : Type;
  D3Val : Type;
  d3_pack : Layout;
  d3_partition : Layout;
  d3_tree : Layout;
  d3_cluster : Layout;
  d3_treemap : Layout;
  (** [layout[p](value)] for a setter of d3; [x.tile()], [x.tile(t)], the
      tile method a name of [Tiles] stands for, [t.ratio] when the tile
      method has one, [layout.separation] as a condition and as a setter *)
  d3_set : string → D3Val → Layout → Layout;
  get_tile : Layout → Tile;
  set_tile : Tile → Layout → Layout;
  Tiles : string → Tile;
  tile_ratio : Tile → option (D3Val → Tile);
  has_separation : Layout → bool;
  set_separation : Separation → Layout → Layout;
  (** [layout(root)]: whether it returned or threw, and the tree it leaves,
      laid out in full or in part *)
  run_layout : Layout → Tree_ → result unit * Tree_;
  (** [pulse.reflow(fork)] and [pulse.modifies(fields)] of [vega-dataflow]:
      methods of a pulse, acting on pulses and their arrays *)
  reflow : bool → pid → gmap loc Arr * gmap pid Pulse
           → pid * (gmap loc Arr * gmap pid Pulse);
  modifies : list string → pid → gmap loc Arr * gmap pid Pulse
             → pid * (gmap loc Arr * gmap pid Pulse)
}.

Section Transforms.

Context `{Collaborators}.

Abbreviation Node_ := (Node AttrVal).

(** A tree root in the store: the nodes, and the [lookup] table once built. *)
Record TreeObj := { nodes : Tree_; lookup_table : option (JsObject.Obj Node_) }.

Abbreviation State := (Dataflow.State TreeObj AttrVal).
Abbreviation M := (Dataflow.M TreeObj AttrVal).

Definition pulse_method
    (f : gmap loc Arr * gmap pid Pulse → pid * (gmap loc Arr * gmap pid Pulse)) : M pid :=
  λ s, let r := f (arrays s, pulses s) in
       (Ok (fst r), set_pulses (λ _, snd (snd r)) (set_arrays (λ _, fst (snd r)) s)).

(** *** Helpers of the module *)

(** Reading a tree through its address. *)
Definition read_tree (t : treeref) : M TreeObj :=
  λ s, match trees s !! t with
       | Some T => (Ok T, s)
       | None => (Throw "TypeError: Cannot read properties of undefined", s)
       end.

(** A value used as a tree. *)
Definition as_tree (v : OpValue) : M treeref :=
  match v with
  | VTree t => ret t
  | _ => throw "TypeError: tree.each is not a function"
  end.

(** A value used as an array. *)
Definition as_array (v : OpValue) : M loc :=
  match v with
  | VArr l => ret l
  | _ => throw "TypeError: links.forEach is not a function"
  end.

(** [pulse.source] used as an array. *)
Definition source_of (P : Pulse) : M loc :=
  match source P with
  | Some l => ret l
  | None => throw "TypeError: Cannot read properties of null"
  end.

(** [function lookup(tree, key, filter)]: the table from keys to nodes, hung
    on the tree. *)
Definition lookup (t : treeref) (key : State → ref → string)
    (filter : State → ref → bool) : M treeref :=
  T <~ read_tree t ;;
  s <~ get ;;
  let map_ := foldl (λ m node, if filter s (data node)
                               then JsObject.set m (key s (data node)) node
                               else m) [] (each (nodes T)) in
  _ <~ modify (set_trees <[t := {| nodes := nodes T; lookup_table := Some map_ |}]>) ;;
  ret t.

(** [tupleid] as a property key, and as a condition. *)
Definition tupleid_key (s : State) (t : ref) : string :=
  match tupleid s t with Some i => pretty i | None => "undefined" end.

Definition tupleid_truthy (s : State) (t : ref) : bool :=
  match tupleid s t with Some (S _) => true | _ => false end.

(** An accessor as a property key, and as a condition. *)
Definition accessor_key (a : Accessor) (s : State) (t : ref) : string :=
  fv_string (acc a t).

Definition accessor_truthy (a : Accessor) (s : State) (t : ref) : bool :=
  fv_truthy (acc a t).

(** *** Nest *)

Record NestParams := {
  keys : option (list Accessor);
  generate : bool;
  nest_modified : bool
}.

(** [vega-util] [array]: no value reads as [[]]. *)
Definition array_ {X} (o : option (list X)) : list X := default [] o.

(** The [{key, values}] objects [entries] creates, innermost first. *)
Fixpoint label (e : Nest.Entries ref) : M Labelled :=
  match e with
  | Nest.Leaves array => ret (LLeaves array)
  | Nest.Groups groups =>
    gs <~ (fix each_group (l : list (string * Nest.Entries ref))
             : M (list (ref * string * Labelled)) :=
             match l with
             | [] => ret []
             | (key, e') :: l' =>
               vs <~ label e' ;;
               o <~ new_object ;;
               rest <~ each_group l' ;;
               ret ((o, key, vs) :: rest)
             end) groups ;;
    ret (LGroups gs)
  end.

(** [Nest.prototype.transform(_, pulse)] *)
Definition Nest_transform (this : opid) (params : NestParams) (pulse : pid) : M pid :=
  P <~ read_pulse pulse ;;
  match source P with
  | None => throw "Nest transform requires an upstream data source."
  | Some _ =>
    let gen := generate params in
    let mod' := nest_modified params in
    out <~ clone pulse ;;
    O <~ read_pulse out ;;
    tree <~ read_value this ;;
    s <~ get ;;
    tree <~ (if is_null tree || mod' || changed ALL P s then
               (* collect nodes to remove *)
               _ <~ (match tree with
                     | VNull => ret tt
                     | _ =>
                       t <~ as_tree tree ;;
                       T <~ read_tree t ;;
                       for_each (λ node,
                         s' <~ get ;;
                         if bool_decide (is_Some (children node)) && isTuple s' (data node)
                         then push (rem O) (data node)
                         else ret tt) (each (nodes T))
                     end) ;;
               (* generate new tree structure *)
               src <~ source_of O ;;
               a <~ read_array src ;;
               e <~ lift (Nest.nest_entries ref
                            (map (λ k t, fv_string (acc k t)) (array_ (keys params)))
                            (elems a)) ;;
               vs <~ label e ;;
               o <~ new_object ;;
               t <~ new_tree {| nodes := hierarchy o vs; lookup_table := None |} ;;
               _ <~ write_value this (VTree t) ;;
               (* collect nodes to add *)
               _ <~ (if gen then
                       T <~ read_tree t ;;
                       for_each (λ node,
                         if bool_decide (is_Some (children node)) then
                           n <~ ingest (data node) ;;
                           _ <~ push (add O) n ;;
                           src <~ source_of O ;;
                           push src n
                         else ret tt) (each (nodes T))
                     else ret tt) ;;
               (* build lookup table *)
               _ <~ lookup t tupleid_key tupleid_truthy ;;
               ret (VTree t)
             else ret tree) ;;
    src <~ source_of O ;;
    _ <~ set_root src tree ;;
    ret out
  end.

(** [function Nest(params) { Transform.call(this, null, params); }] *)
Definition Nest_new (params : NestParams) : M opid := new_operator VNull.

(** *** Stratify *)

Record StratifyParams := {
  key : Accessor;
  parentKey : Accessor;
  stratify_modified : bool
}.

Definition with_source (src : option loc) (P : Pulse) : Pulse :=
  {| add := add P; rem := rem P; mod_ := mod_ P; source := src;
     fields := fields P; stamp := stamp P |}.

Definition with_rem (l : loc) (P : Pulse) : Pulse :=
  {| add := add P; rem := l; mod_ := mod_ P; source := source P;
     fields := fields P; stamp := stamp P |}.

(** [Stratify.prototype.transform(_, pulse)] *)
Definition Stratify_transform (this : opid) (params : StratifyParams) (pulse : pid)
    : M pid :=
  P <~ read_pulse pulse ;;
  match source P with
  | None => throw "Stratify transform requires an upstream data source."
  | Some _ =>
    tree <~ read_value this ;;
    let mod' := stratify_modified params in
    forked <~ fork ALL pulse ;;
    out <~ materialize [SOURCE] forked ;;
    s <~ get ;;
    let run := is_null tree || mod' || changed ADD_REM P s
               || modified (acc_fields (key params)) P s
               || modified (acc_fields (parentKey params)) P s in
    (* prevent upstream source pollution *)
    O <~ read_pulse out ;;
    src <~ source_of O ;;
    src' <~ slice src ;;
    _ <~ write_pulse out (with_source (Some src') O) ;;
    tree <~ (if run then
               a <~ read_array src' ;;
               if negb (Nat.eqb (length (elems a)) 0) then
                 T <~ lift (stratify (Some (key params)) (Some (parentKey params))
                              (elems a)) ;;
                 t <~ new_tree {| nodes := T; lookup_table := None |} ;;
                 t <~ lookup t (accessor_key (key params)) (λ _ _, true) ;;
                 ret (VTree t)
               else
                 o <~ new_object ;;
                 T <~ lift (stratify None None [o]) ;;
                 t <~ new_tree {| nodes := T; lookup_table := None |} ;;
                 t <~ lookup t (accessor_key (key params)) (accessor_truthy (key params)) ;;
                 ret (VTree t)
             else ret tree) ;;
    _ <~ write_value this tree ;;
    _ <~ set_root src' tree ;;
    ret out
  end.

(** [function Stratify(params) { Transform.call(this, null, params); }] *)
Definition Stratify_new (params : StratifyParams) : M opid := new_operator VNull.

(** *** TreeLinks *)

(** The object [{source: p, target: t}]. *)
Definition new_link (p t : ref) : M ref :=
  o <~ new_object ;;
  _ <~ modify (set_links <[o := (p, t)]>) ;;
  ret o.

(** The callback [t => lut[tupleid(t)] = 1]. *)
Definition mark (s : State) (t : ref) (lut : gset (option nat)) : gset (option nat) :=
  {[tupleid s t]} ∪ lut.

(** [lut[tupleid(t)]] as a condition. *)
Definition marked (s : State) (lut : gset (option nat)) (t : ref) : bool :=
  bool_decide (tupleid s t ∈ lut).

(** [TreeLinks.prototype.transform(_, pulse)].  The value of a TreeLinks
    operator is the array it was constructed with or one the transform
    assigned. *)
Definition TreeLinks_transform (this : opid) (pulse : pid) : M pid :=
  links <~ read_value this ;;
  P <~ read_pulse pulse ;;
  s <~ get ;;
  let tree := match source P with
              | Some src => root (array_at s src)
              | None => VNull
              end in
  out <~ fork [NO_SOURCE] pulse ;;
  O <~ read_pulse out ;;
  if is_null tree then throw "TreeLinks transform requires a tree data source."
  else
    s <~ get ;;
    if changed ADD_REM P s then
      (* remove previous links *)
      l <~ as_array links ;;
      _ <~ write_pulse out (with_rem l O) ;;
      (* build lookup table of valid tuples *)
      let lut := visit [SOURCE] (mark s) P s ∅ in
      (* generate links for all edges incident on valid tuples *)
      t <~ as_tree tree ;;
      T <~ read_tree t ;;
      _ <~ for_each (λ node,
             match parent node with
             | Some p =>
               s' <~ get ;;
               if marked s' lut (data node) && marked s' lut p then
                 link <~ new_link p (data node) ;;
                 link <~ ingest link ;;
                 push (add O) link
               else ret tt
             | None => ret tt
             end) (each (nodes T)) ;;
      _ <~ write_value this (VArr (add O)) ;;
      ret out
    else if changed [MOD] P s then
      (* build lookup table of modified tuples *)
      let lut := visit [MOD] (mark s) P s ∅ in
      (* gather links incident on modified tuples *)
      l <~ as_array links ;;
      a <~ read_array l ;;
      _ <~ for_each (λ link,
             s' <~ get ;;
             match Dataflow.links s' !! link with
             | Some st =>
               if marked s' lut (fst st) || marked s' lut (snd st)
               then push (mod_ O) link
               else ret tt
             | None => throw "TypeError: Cannot read properties of undefined"
             end) (elems a) ;;
      ret out
    else ret out.

(** [function TreeLinks(params) { Transform.call(this, [], params); }] *)
Definition TreeLinks_new : M opid :=
  l <~ new_array {| elems := []; root := VNull |} ;;
  new_operator (VArr l).

(** *** HierarchyLayout and its subclasses *)

(** The parameters [_] as the layouts read them: [_.method], [_.as],
    [_.field], [_.sort], [_.separation], the parameters handed over to d3 by
    name, and [_.modified()]. *)
Record LayoutParams := {
  method : option string;
  as_ : option (list string);
  field : option Accessor;
  sort : option Compare;
  separation : option bool;
  others : gmap string D3Val;
  layout_modified : bool
}.

(** [this.layout(_.method)]: [pack], [partition], [Tree.prototype.layout] or
    [Treemap.prototype.layout]. *)
Definition make_layout (k : LayoutKind) (method : option string) : result Layout :=
  match k with
  | KPack => Ok d3_pack
  | KPartition => Ok d3_partition
  | KTree =>
    let m := match method with
             | Some m => if String.eqb m "" then "tidy" else m
             | None => "tidy"
             end in
    if hasOwnProperty Layouts_keys m
    then Ok (if String.eqb m "tidy" then d3_tree else d3_cluster)
    else error ("Unrecognized Tree layout method: " +:+ m)
  | KTreemap => Ok d3_treemap
  end.

(** [x.method = _ => ...] of the treemap layout. *)
Definition Treemap_method (m : string) (x : Layout) : result Layout :=
  if hasOwnProperty Tiles_keys m then Ok (set_tile (Tiles m) x)
  else error ("Unrecognized Treemap layout method: " +:+ m).

(** [x.ratio = _ => ...] of the treemap layout. *)
Definition Treemap_ratio (v : D3Val) (x : Layout) : Layout :=
  match tile_ratio (get_tile x) with
  | Some ratio => set_tile (ratio v) x
  | None => x
  end.

(** [if (p in _) layout[p](_[p])].  Only the treemap lists [method], and
    attaches [method] and [ratio] to its layout. *)
Definition setParam (k : LayoutKind) (params : LayoutParams) (p : string)
    (layout : Layout) : result Layout :=
  if String.eqb p "method" then
    match method params with
    | Some m => Treemap_method m layout
    | None => Ok layout
    end
  else
    match others params !! p with
    | Some v =>
      match k with
      | KTreemap => if String.eqb p "ratio" then Ok (Treemap_ratio v layout)
                    else Ok (d3_set p v layout)
      | _ => Ok (d3_set p v layout)
      end
    | None => Ok layout
    end.

(** [function setParams(layout, params, _)] *)
Fixpoint setParams (k : LayoutKind) (ps : list string) (params : LayoutParams)
    (layout : Layout) : result Layout :=
  match ps with
  | [] => Ok layout
  | p :: ps' =>
    match setParam k params p layout with
    | Ok layout' => setParams k ps' params layout'
    | Throw e => Throw e
    end
  end.

(** A method of the root node that rewrites the tree in place. *)
Definition update_tree (t : treeref) (f : Tree_ → Tree_) : M unit :=
  T <~ read_tree t ;;
  modify (set_trees <[t := {| nodes := f (nodes T); lookup_table := lookup_table T |}]>).

(** [function setFields(node, fields, as)] *)
Definition setFields (node : Node_) (fields as' : list string) : M unit :=
  let t := data node in
  let n := length fields - 1 in
  _ <~ for_each (λ i, modify (set_props
           <[(t, nth i as' "undefined") := attr node (nth i fields "undefined")]>))
         (seq 0 n) ;;
  modify (set_props
    <[(t, nth n as' "undefined") := number (default 0 (children node))]>).

(** [try { this.value = layout(root); } catch (err) { error(err); }]: a
    layout of d3 returns the root it was given; what it throws is an [Error],
    which [Error(err)] turns into its message with the name in front. *)
Definition try_layout (this : opid) (layout : Layout) (root_ : treeref) : M unit :=
  T <~ read_tree root_ ;;
  let r := run_layout layout (nodes T) in
  _ <~ modify (set_trees <[root_ := {| nodes := snd r; lookup_table := lookup_table T |}]>) ;;
  match fst r with
  | Ok _ => write_value this (VTree root_)
  | Throw err => throw ("Error: " +:+ err)
  end.

(** The statements of [HierarchyLayout.prototype.transform(_, pulse)] that
    come before its [try]: they yield the configured layout and the root. *)
Definition HierarchyLayout_prepare (k : LayoutKind) (params : LayoutParams)
    (pulse : pid) : M (Layout * treeref) :=
  P <~ read_pulse pulse ;;
  s <~ get ;;
  let root_ := match source P with
               | Some src => root (array_at s src)
               | None => VNull
               end in
  if is_null root_ then
    throw (constructor_name (type_of_kind k)
           +:+ " transform requires a backing tree data source.")
  else
    layout <~ lift (make_layout k (method params)) ;;
    r <~ as_tree root_ ;;
    _ <~ (match field params with
          | Some f => update_tree r (node_sum f)
          | None => update_tree r node_count
          end) ;;
    _ <~ (match sort params with
          | Some cmp => update_tree r (node_sort (stableCompare cmp))
          | None => ret tt
          end) ;;
    layout <~ lift (setParams k (layout_params k) params layout) ;;
    let layout :=
      if has_separation layout then
        set_separation (match separation params with
                        | Some false => One
                        | _ => DefaultSeparation
                        end) layout
      else layout in
    ret (layout, r).

(** The statements after the [try]. *)
Definition HierarchyLayout_finish (k : LayoutKind) (params : LayoutParams)
    (pulse : pid) (r : treeref) : M pid :=
  let fields := layout_fields k in
  let as' := default fields (as_ params) in
  T <~ read_tree r ;;
  _ <~ for_each (λ node, setFields node fields as') (each (nodes T)) ;;
  p1 <~ pulse_method (reflow (layout_modified params) pulse) ;;
  p2 <~ pulse_method (modifies as' p1) ;;
  pulse_method (modifies ["leaf"] p2).

(** [HierarchyLayout.prototype.transform(_, pulse)] *)
Definition HierarchyLayout_transform (k : LayoutKind) (this : opid)
    (params : LayoutParams) (pulse : pid) : M pid :=
  lr <~ HierarchyLayout_prepare k params pulse ;;
  _ <~ try_layout this (fst lr) (snd lr) ;;
  HierarchyLayout_finish k params pulse (snd lr).

(** [function Pack(params) { HierarchyLayout.call(this, params); }], and the
    like, with
    [function HierarchyLayout(params) { Transform.call(this, null, params); }] *)
Definition HierarchyLayout_new (k : LayoutKind) (params : LayoutParams) : M opid :=
  new_operator VNull.

(** *** The transforms by type *)

(** An operator of this module: its type and its parameters. *)
Inductive Instance : Type :=
| INest (params : NestParams)
| IStratify (params : StratifyParams)
| ITreeLinks
| ILayout (k : LayoutKind) (params : LayoutParams).

Definition type_of (i : Instance) : TransformType :=
  match i with
  | INest _ => Nest
  | IStratify _ => Stratify
  | ITreeLinks => TreeLinks
  | ILayout k _ => type_of_kind k
  end.

(** Adding the operator: its constructor. *)
Definition construct (i : Instance) : M opid :=
  match i with
  | INest params => Nest_new params
  | IStratify params => Stratify_new params
  | ITreeLinks => TreeLinks_new
  | ILayout k params => HierarchyLayout_new k params
  end.

(** Evaluating the operator: its [transform]. *)
Definition transform (i : Instance) (this : opid) (pulse : pid) : M pid :=
  match i with
  | INest params => Nest_transform this params pulse
  | IStratify params => Stratify_transform this params pulse
  | ITreeLinks => TreeLinks_transform this pulse
  | ILayout k params => HierarchyLayout_transform k this params pulse
  end.

(** *** What a failed layout leaves behind *)

Lemma setFields_returns node fields as' : returns (setFields node fields as').
Proof.
  unfold setFields. apply returns_bind.
  - apply returns_for_each. intros i. apply returns_modify.
  - intros _. apply returns_modify.
Qed.

Lemma pulse_method_returns f : returns (pulse_method f).
Proof. intros s. unfold pulse_method. simpl. eauto. Qed.

Lemma finish_returns k params pulse r (s : State) T :
  trees s !! r = Some T →
  ∃ out, fst (HierarchyLayout_finish k params pulse r s) = Ok out.
Proof.
  intros HT. unfold HierarchyLayout_finish. rewrite bind_run.
  unfold read_tree at 1. rewrite HT.
  apply (returns_bind (for_each _ _)).
  - apply returns_for_each. intros node. apply setFields_returns.
  - intros _. apply returns_bind; [apply pulse_method_returns|]. intros p1.
    apply returns_bind; [apply pulse_method_returns|]. intros p2.
    apply pulse_method_returns.
Qed.

(** What [try_layout] does, case by case. *)
Lemma try_layout_run this layout r (s : State) :
  match trees s !! r with
  | None => ∃ e, try_layout this layout r s = (Throw e, s)
  | Some T =>
    let s' := set_trees <[r := {| nodes := snd (run_layout layout (nodes T));
                                  lookup_table := lookup_table T |}]> s in
    match fst (run_layout layout (nodes T)) with
    | Ok _ => try_layout this layout r s = (Ok tt, set_values <[this := VTree r]> s')
    | Throw err => try_layout this layout r s = (Throw ("Error: " +:+ err), s')
    end
  end.
Proof.
  unfold try_layout, read_tree, bind, modify.
  destruct (trees s !! r) as [T|]; [|simpl; eauto].
  cbn [fst snd]. destruct (fst (run_layout layout (nodes T))); reflexivity.
Qed.

(** The store [s] is [s0] but for its trees. *)
Definition only_trees (s0 s : State) : Prop := ∃ f, s = set_trees f s0.

Lemma only_trees_refl (s : State) : only_trees s s.
Proof. exists id. by destruct s. Qed.

Lemma only_trees_values (s0 s : State) : only_trees s0 s → values s = values s0.
Proof. by intros [f ->]. Qed.

Lemma update_tree_only_trees t f (s0 : State) :
  spec (only_trees s0) (update_tree t f) (λ _, True).
Proof.
  unfold update_tree, read_tree. intros s [g ->]. rewrite bind_run.
  destruct (trees (set_trees g s0) !! t) as [T|]; simpl; (split; [|done]).
  - by eexists (λ m, <[t := _]> (g m)).
  - by exists g.
Qed.

Lemma prepare_only_trees k params pulse (s0 : State) :
  spec (only_trees s0) (HierarchyLayout_prepare k params pulse) (λ _, True).
Proof.
  unfold HierarchyLayout_prepare.
  apply spec_bind with (Q1 := λ _, True).
  { unfold read_pulse. intros s HI. destruct (pulses s !! pulse); simpl; split; try done;
      by intros ? [=]. }
  intros P _. apply spec_bind with (Q1 := λ _, True); [by apply spec_get|].
  intros s _. destruct (is_null _); [apply spec_throw|].
  apply spec_bind with (Q1 := λ _, True); [by apply spec_lift|]. intros layout _.
  apply spec_bind with (Q1 := λ _, True).
  { unfold as_tree. destruct (match source P with Some _ => _ | None => _ end);
      (apply spec_throw || by apply spec_ret). }
  intros r _. apply spec_bind with (Q1 := λ _, True).
  { destruct (field params); apply update_tree_only_trees. }
  intros _ _. apply spec_bind with (Q1 := λ _, True).
  { destruct (sort params); [apply update_tree_only_trees|by apply spec_ret]. }
  intros _ _. apply spec_bind with (Q1 := λ _, True); [by apply spec_lift|].
  intros layout' _. by apply spec_ret.
Qed.

(** The tree after [root.sum(_.field)] or [root.count()], and [root.sort]
    when [_.sort] is given. *)
Definition prepared (params : LayoutParams) (t : Tree_) : Tree_ :=
  let t' := match field params with
            | Some f => node_sum f t
            | None => node_count t
            end in
  match sort params with
  | Some cmp => node_sort (stableCompare cmp) t'
  | None => t'
  end.

(** The layout the [try] runs: [this.layout(_.method)] after [setParams] and
    the choice of a separation. *)
Definition configured (k : LayoutKind) (params : LayoutParams) : result Layout :=
  match make_layout k (method params) with
  | Ok layout =>
    match setParams k (layout_params k) params layout with
    | Ok layout =>
      Ok (if has_separation layout then
            set_separation (match separation params with
                            | Some false => One
                            | _ => DefaultSeparation
                            end) layout
          else layout)
    | Throw e => Throw e
    end
  | Throw e => Throw e
  end.

(** The store with the nodes of the tree [r] replaced. *)
Definition with_nodes (r : treeref) (T : TreeObj) (t : Tree_) (s : State) : State :=
  set_trees <[r := {| nodes := t; lookup_table := lookup_table T |}]> s.

Lemma prepare_run k params pulse (s : State) P src r T layout :
  pulses s !! pulse = Some P → source P = Some src → root (array_at s src) = VTree r →
  trees s !! r = Some T → configured k params = Ok layout →
  HierarchyLayout_prepare k params pulse s
  = (Ok (layout, r), with_nodes r T (prepared params (nodes T)) s).
Proof.
  intros HP Hsrc Hroot HT. unfold configured, HierarchyLayout_prepare, prepared.
  rewrite bind_run. unfold read_pulse at 1. rewrite HP, bind_run. unfold get at 1.
  rewrite Hsrc, Hroot. cbn [is_null].
  destruct (make_layout k (method params)) as [layout0|] eqn:Hmake; [|done].
  rewrite bind_run. cbn [lift as_tree ret]. rewrite bind_run.
  destruct (setParams k (layout_params k) params layout0) as [layout1|] eqn:Hset;
    [|done].
  intros [= <-]. unfold ret at 1. cbv beta iota. rewrite bind_run.
  assert (∀ f (s1 : State) T1, trees s1 !! r = Some T1 →
            update_tree r f s1
            = (Ok tt, set_trees <[r := {| nodes := f (nodes T1);
                                          lookup_table := lookup_table T1 |}]> s1))
    as Hupdate.
  { intros f s1 T1 H1. unfold update_tree. rewrite bind_run. unfold read_tree at 1.
    by rewrite H1. }
  assert (∀ t, trees (with_nodes r T t s) !! r
               = Some {| nodes := t; lookup_table := lookup_table T |}) as Hat
    by (intros t; apply lookup_insert_eq).
  assert (∀ t t', set_trees <[r := {| nodes := t'; lookup_table := lookup_table T |}]>
                    (with_nodes r T t s) = with_nodes r T t' s) as Hover.
  { intros t t'. unfold with_nodes, set_trees. simpl. by rewrite insert_insert_eq. }
  set (t' := match field params with Some f => node_sum f (nodes T)
                                   | None => node_count (nodes T) end).
  assert ((match field params with
           | Some f => update_tree r (node_sum f)
           | None => update_tree r node_count
           end) s = (Ok tt, with_nodes r T t' s)) as ->.
  { subst t'. destruct (field params); by rewrite (Hupdate _ s T HT). }
  rewrite bind_run.
  destruct (sort params) as [cmp|].
  - rewrite (Hupdate _ _ _ (Hat t')). cbn [nodes lookup_table]. by rewrite Hover.
  - reflexivity.
Qed.

(** Evaluating the layout operator in [s], the layout computation throws
    [err]: the pulse has a source with a tree for root, the layout is
    configured, and [layout(root)] throws. *)
Definition layout_throws (k : LayoutKind) (params : LayoutParams) (pulse : pid)
    (s : State) (err : string) : Prop :=
  ∃ P src r T layout,
    pulses s !! pulse = Some P ∧ source P = Some src ∧ root (array_at s src) = VTree r
    ∧ trees s !! r = Some T ∧ configured k params = Ok layout
    ∧ fst (run_layout layout (prepared params (nodes T))) = Throw err.

(** The claim in the words of the specification: when the layout computation
    throws, the error is surfaced and the value the operator held is what it
    was, the reference and the tree it refers to. *)
Definition failed_layout_leaves_stored_value : Prop :=
  ∀ k this params pulse (s : State) err,
    layout_throws k params pulse s err →
    fst (HierarchyLayout_transform k this params pulse s) = Throw ("Error: " +:+ err)
    ∧ value_of (snd (HierarchyLayout_transform k this params pulse s)) this
      = value_of s this
    ∧ ∀ t, value_of s this = VTree t →
           trees (snd (HierarchyLayout_transform k this params pulse s)) !! t
           = trees s !! t.

(** C3.  Whenever the transform of a layout operator (Pack, Partition, Tree,
    Treemap) throws, nothing of the store but its trees has changed: no
    operator's [value] has been assigned.  When the layout computation inside
    its [try] throws, the transform throws that error as [Error(err)] and
    [this.value] refers to what it referred to; the root of the source is not
    what it was: it is the tree after [root.sum] or [root.count] and
    [root.sort], as the failed layout left it, and that is what an operator
    holds whose value was that root. *)
Theorem layout_failure_keeps_reference (k : LayoutKind) (this : opid)
    (params : LayoutParams) (pulse : pid) (s : State) :
  (∀ e, fst (HierarchyLayout_transform k this params pulse s) = Throw e →
        only_trees s (snd (HierarchyLayout_transform k this params pulse s))
        ∧ values (snd (HierarchyLayout_transform k this params pulse s)) = values s)
  ∧ (∀ P src r T layout err,
       pulses s !! pulse = Some P → source P = Some src →
       root (array_at s src) = VTree r → trees s !! r = Some T →
       configured k params = Ok layout →
       fst (run_layout layout (prepared params (nodes T))) = Throw err →
       HierarchyLayout_transform k this params pulse s
       = (Throw ("Error: " +:+ err),
          with_nodes r T (snd (run_layout layout (prepared params (nodes T)))) s)
       ∧ value_of (snd (HierarchyLayout_transform k this params pulse s)) this
         = value_of s this
       ∧ (value_of s this = VTree r →
          trees (snd (HierarchyLayout_transform k this params pulse s)) !! r
          = Some {| nodes := snd (run_layout layout (prepared params (nodes T)));
                    lookup_table := lookup_table T |})).
Proof.
  split.
  - pose proof (prepare_only_trees k params pulse s s (only_trees_refl s)) as [Hprep _].
    unfold HierarchyLayout_transform. rewrite bind_run.
    destruct (HierarchyLayout_prepare k params pulse s) as [[[layout r]|e0] s1] eqn:Hp;
      simpl in Hprep; [|intros e _; split; [done|by apply only_trees_values]].
    rewrite bind_run. pose proof (try_layout_run this layout r s1) as Htry. simpl.
    destruct Hprep as [f ->].
    destruct (trees (set_trees f s) !! r) as [T|] eqn:HT.
    + simpl in Htry. destruct (fst (run_layout layout (nodes T))) as [[]|err] eqn:Hrun;
        rewrite Htry.
      * intros e He. exfalso.
        edestruct (finish_returns k params pulse r) as [out Hout];
          [|rewrite Hout in He; discriminate He].
        simpl. apply lookup_insert_eq.
      * intros e _. split; [|done]. by eexists (λ m, <[r := _]> (f m)).
    + destruct Htry as [e Htry]. rewrite Htry. intros ? _. split; [|done]. by exists f.
  - intros P src r T layout err HP Hsrc Hroot HT Hconf Hrun.
    assert (HierarchyLayout_transform k this params pulse s
            = (Throw ("Error: " +:+ err),
               with_nodes r T (snd (run_layout layout (prepared params (nodes T)))) s))
      as ->.
    { unfold HierarchyLayout_transform.
      rewrite bind_run, (prepare_run k params pulse s P src r T layout) by done.
      rewrite bind_run. cbn [fst snd].
      pose proof (try_layout_run this layout r
                    (with_nodes r T (prepared params (nodes T)) s)) as Htry.
      unfold with_nodes in Htry at 1. cbn [trees set_trees] in Htry.
      rewrite lookup_insert_eq in Htry. cbn [nodes lookup_table] in Htry.
      rewrite Hrun in Htry. rewrite Htry. unfold with_nodes, set_trees. simpl.
      by rewrite insert_insert_eq. }
    split; [done|]. split; [done|]. intros _. apply lookup_insert_eq.
Qed.

(** *** When configuration errors are raised *)

(** The messages of the two layouts about a method name they do not know. *)
Definition unrecognized_method (msg : string) : Prop :=
  ∃ m, msg = "Unrecognized Tree layout method: " +:+ m
       ∨ msg = "Unrecognized Treemap layout method: " +:+ m.

Lemma construct_returns (i : Instance) (s : State) :
  ∃ o, fst (construct i s) = Ok o.
Proof. destruct i; simpl; eauto. Qed.

Lemma Tree_unrecognized_method this params pulse (s : State) P src m :
  pulses s !! pulse = Some P → source P = Some src → root (array_at s src) ≠ VNull →
  method params = Some m → m ≠ "" → m ∉ Layouts_keys →
  fst (HierarchyLayout_transform KTree this params pulse s)
  = Throw ("Unrecognized Tree layout method: " +:+ m).
Proof.
  intros HP Hsrc Hroot Hm Hne Hnot.
  unfold HierarchyLayout_transform, HierarchyLayout_prepare, bind, read_pulse, get, lift.
  rewrite HP, Hsrc. simpl.
  destruct (root (array_at s src)) eqn:Hr; [done| |]; simpl; rewrite Hm;
    (destruct (String.eqb m "") eqn:He; [by apply String.eqb_eq in He|]);
    unfold hasOwnProperty; rewrite bool_decide_eq_false_2 by done; reflexivity.
Qed.

Lemma Treemap_unrecognized_method this params pulse (s : State) P src r T m :
  pulses s !! pulse = Some P → source P = Some src → root (array_at s src) = VTree r →
  trees s !! r = Some T → method params = Some m → m ∉ Tiles_keys →
  fst (HierarchyLayout_transform KTreemap this params pulse s)
  = Throw ("Unrecognized Treemap layout method: " +:+ m).
Proof.
  intros HP Hsrc Hroot HT Hm Hnot.
  unfold HierarchyLayout_transform, HierarchyLayout_prepare, bind, read_pulse, get, lift.
  rewrite HP, Hsrc, Hroot. simpl.
  assert (∀ (f : Tree_ → Tree_) (s' : State) T', trees s' !! r = Some T' →
            ∃ T'', update_tree r f s' =
                   (Ok tt, set_trees <[r := T'']> s')) as Hupd.
  { intros f s' T' HT'. unfold update_tree, bind, read_tree, modify. rewrite HT'. eauto. }
  assert (∃ s1, (match field params with
                 | Some f => update_tree r (node_sum f)
                 | None => update_tree r node_count
                 end) s = (Ok tt, s1) ∧ is_Some (trees s1 !! r)) as (s1 & -> & [T1 HT1]).
  { destruct (field params);
      (edestruct Hupd as [T'' ->]; [exact HT|]; eexists; split; [done|]);
      simpl; rewrite lookup_insert_eq; eauto. }
  assert (∃ s2, (match sort params with
                 | Some cmp => update_tree r (node_sort (stableCompare cmp))
                 | None => ret tt
                 end) s1 = (Ok tt, s2)) as (s2 & ->).
  { destruct (sort params); [|by eexists].
    edestruct Hupd as [T'' ->]; [exact HT1|]. by eexists. }
  simpl. unfold setParam at 1. simpl. rewrite Hm. unfold Treemap_method, hasOwnProperty.
  rewrite bool_decide_eq_false_2 by done. reflexivity.
Qed.

(** C5, as the code has it.  Adding an operator of this module raises
    nothing, whatever its parameters; a layout-method name that [Tree] or
    [Treemap] does not know is raised when the operator is evaluated on a
    pulse with a tree source; a scale name the runtime does not know is raised
    when [scale(name)] is queried; an operator-valued parameter that names no
    operator of the graph is raised when the operator is added to the
    graph. *)
Theorem configuration_errors_when_raised :
  (∀ (i : Instance) (s : State), ∃ o, fst (construct i s) = Ok o)
  ∧ (∀ this params pulse (s : State) P src m,
       pulses s !! pulse = Some P → source P = Some src →
       root (array_at s src) ≠ VNull →
       method params = Some m → m ≠ "" → m ∉ Layouts_keys →
       fst (transform (ILayout KTree params) this pulse s)
       = Throw ("Unrecognized Tree layout method: " +:+ m))
  ∧ (∀ this params pulse (s : State) P src r T m,
       pulses s !! pulse = Some P → source P = Some src →
       root (array_at s src) = VTree r → trees s !! r = Some T →
       method params = Some m → m ∉ Tiles_keys →
       fst (transform (ILayout KTreemap params) this pulse s)
       = Throw ("Unrecognized Treemap layout method: " +:+ m))
  ∧ (∀ (V : Type) (name : string) (view : View.View V),
       View.scales V (View._runtime V view) !! name = None →
       fst (View.scale V name view)
       = Throw ("Unrecognized scale or projection: " +:+ name))
  ∧ (∀ (params : list nat) (g : Graph.Graph) (p : nat),
       p ∈ params → p ∉ dom g →
       Graph.addOperator params g = Throw "Unknown operator reference").
Proof.
  split; [apply construct_returns|].
  split; [apply Tree_unrecognized_method|].
  split; [apply Treemap_unrecognized_method|].
  split.
  - intros V name view Hnone. unfold View.scale, View.hasOwnProperty.
    rewrite Hnone. rewrite bool_decide_eq_false_2 by (by intros [? ?]). reflexivity.
  - intros params g p Hin Hnot. unfold Graph.addOperator.
    destruct (forallb _ params) eqn:Hall; [|done].
    rewrite forallb_forall in Hall. apply list_elem_of_In, Hall in Hin.
    by apply bool_decide_eq_true in Hin.
Qed.

(** *** Which transforms mint tuple identities *)

(** No identity was minted between [s0] and [s]. *)
Definition same_tids (s0 s : State) : Prop :=
  tids s = tids s0 ∧ next_tid s = next_tid s0.

(** A computation that writes neither identities nor the counter. *)
Definition keeps_tids {A} (m : M A) : Prop :=
  ∀ s0, spec (same_tids s0) m (λ _, True).

Lemma keeps_tids_step {A} (m : M A) :
  (∀ s, tids (snd (m s)) = tids s ∧ next_tid (snd (m s)) = next_tid s) →
  keeps_tids m.
Proof.
  intros Hm s0 s [Ht Hn]. destruct (Hm s) as [Ht' Hn'].
  split; [|done]. split; congruence.
Qed.

Lemma keeps_tids_bind {A B} (m : M A) (k : A → M B) :
  keeps_tids m → (∀ a, keeps_tids (k a)) → keeps_tids (bind m k).
Proof.
  intros Hm Hk s0. apply spec_bind with (Q1 := λ _, True); [apply Hm|].
  intros a _. apply Hk.
Qed.

Lemma keeps_tids_for_each {X} (f : X → M unit) (l : list X) :
  (∀ x, keeps_tids (f x)) → keeps_tids (for_each f l).
Proof. intros Hf s0. apply spec_for_each. intros x _. apply Hf. Qed.

Ltac keeps_tids_prim :=
  apply keeps_tids_step; intros ?;
  unfold read_pulse, read_value, read_array, read_tree, write_pulse, write_value,
    new_array, new_pulse, new_tree, new_object, new_operator, slice, set_root, push,
    materialize, source_of, as_tree, as_array, pulse_method, lift, get, modify, ret,
    throw, error;
  repeat case_match; simpl; split; reflexivity.

Lemma read_pulse_keeps_tids p : keeps_tids (read_pulse (TreeObj := TreeObj) p).
Proof. keeps_tids_prim. Qed.

Lemma fork_keeps_tids flags p : keeps_tids (fork (TreeObj := TreeObj) flags p).
Proof.
  unfold fork. apply keeps_tids_bind; [apply read_pulse_keeps_tids|]. intros P.
  apply keeps_tids_bind; [keeps_tids_prim|]. intros a.
  apply keeps_tids_bind; [keeps_tids_prim|]. intros r.
  apply keeps_tids_bind; [keeps_tids_prim|]. intros m. keeps_tids_prim.
Qed.

Lemma lookup_keeps_tids t key filter : keeps_tids (lookup t key filter).
Proof.
  unfold lookup. apply keeps_tids_bind; [keeps_tids_prim|]. intros T.
  apply keeps_tids_bind; [keeps_tids_prim|]. intros s.
  apply keeps_tids_bind; [keeps_tids_prim|]. intros _. keeps_tids_prim.
Qed.

Lemma update_tree_keeps_tids t f : keeps_tids (update_tree t f).
Proof.
  unfold update_tree. apply keeps_tids_bind; [keeps_tids_prim|]. intros T.
  keeps_tids_prim.
Qed.

Lemma Stratify_keeps_tids this params pulse :
  keeps_tids (Stratify_transform this params pulse).
Proof.
  unfold Stratify_transform.
  apply keeps_tids_bind; [apply read_pulse_keeps_tids|]. intros P.
  destruct (source P); [|keeps_tids_prim].
  apply keeps_tids_bind; [keeps_tids_prim|]. intros tree.
  apply keeps_tids_bind; [apply fork_keeps_tids|]. intros forked.
  apply keeps_tids_bind; [keeps_tids_prim|]. intros out.
  apply keeps_tids_bind; [keeps_tids_prim|]. intros s.
  apply keeps_tids_bind; [apply read_pulse_keeps_tids|]. intros O.
  apply keeps_tids_bind; [keeps_tids_prim|]. intros src.
  apply keeps_tids_bind; [keeps_tids_prim|]. intros src'.
  apply keeps_tids_bind; [keeps_tids_prim|]. intros _.
  apply keeps_tids_bind.
  { destruct (_ || _); [|keeps_tids_prim].
    apply keeps_tids_bind; [keeps_tids_prim|]. intros a.
    destruct (negb _).
    - apply keeps_tids_bind; [keeps_tids_prim|]. intros T.
      apply keeps_tids_bind; [keeps_tids_prim|]. intros t.
      apply keeps_tids_bind; [apply lookup_keeps_tids|]. intros t'. keeps_tids_prim.
    - apply keeps_tids_bind; [keeps_tids_prim|]. intros o.
      apply keeps_tids_bind; [keeps_tids_prim|]. intros T.
      apply keeps_tids_bind; [keeps_tids_prim|]. intros t.
      apply keeps_tids_bind; [apply lookup_keeps_tids|]. intros t'. keeps_tids_prim. }
  intros tree'.
  apply keeps_tids_bind; [keeps_tids_prim|]. intros _.
  apply keeps_tids_bind; [keeps_tids_prim|]. intros _. keeps_tids_prim.
Qed.

Lemma setFields_keeps_tids node fields as' : keeps_tids (setFields node fields as').
Proof.
  unfold setFields. apply keeps_tids_bind.
  - apply keeps_tids_for_each. intros i. keeps_tids_prim.
  - intros _. keeps_tids_prim.
Qed.

Lemma HierarchyLayout_keeps_tids k this params pulse :
  keeps_tids (HierarchyLayout_transform k this params pulse).
Proof.
  unfold HierarchyLayout_transform.
  apply keeps_tids_bind.
  { unfold HierarchyLayout_prepare.
    apply keeps_tids_bind; [apply read_pulse_keeps_tids|]. intros P.
    apply keeps_tids_bind; [keeps_tids_prim|]. intros s.
    destruct (is_null _); [keeps_tids_prim|].
    apply keeps_tids_bind; [keeps_tids_prim|]. intros layout.
    apply keeps_tids_bind; [keeps_tids_prim|]. intros r.
    apply keeps_tids_bind; [destruct (field params); apply update_tree_keeps_tids|].
    intros _.
    apply keeps_tids_bind;
      [destruct (sort params); [apply update_tree_keeps_tids|keeps_tids_prim]|].
    intros _.
    apply keeps_tids_bind; [keeps_tids_prim|]. intros layout'. keeps_tids_prim. }
  intros [layout r]. apply keeps_tids_bind.
  { unfold try_layout. apply keeps_tids_bind; [keeps_tids_prim|]. intros T.
    apply keeps_tids_bind; [keeps_tids_prim|]. intros _. keeps_tids_prim. }
  intros _. unfold HierarchyLayout_finish.
  apply keeps_tids_bind; [keeps_tids_prim|]. intros T.
  apply keeps_tids_bind.
  { apply keeps_tids_for_each. intros node. apply setFields_keeps_tids. }
  intros _.
  apply keeps_tids_bind; [keeps_tids_prim|]. intros p1.
  apply keeps_tids_bind; [keeps_tids_prim|]. intros p2. keeps_tids_prim.
Qed.

Lemma clone_keeps_tids p : keeps_tids (clone (TreeObj := TreeObj) p).
Proof.
  unfold clone. apply keeps_tids_bind; [apply read_pulse_keeps_tids|]. intros P.
  apply keeps_tids_bind; [keeps_tids_prim|]. intros a.
  apply keeps_tids_bind; [keeps_tids_prim|]. intros r.
  apply keeps_tids_bind; [keeps_tids_prim|]. intros m.
  apply keeps_tids_bind.
  { destruct (source P); [|keeps_tids_prim].
    apply keeps_tids_bind; [keeps_tids_prim|]. intros l'. keeps_tids_prim. }
  intros src. keeps_tids_prim.
Qed.

Lemma label_keeps_tids : ∀ e, keeps_tids (label e).
Proof.
  fix IH 1. intros [array|groups]; simpl.
  - keeps_tids_prim.
  - apply keeps_tids_bind; [|intros; keeps_tids_prim].
    induction groups as [|[key e'] l IHl].
    + keeps_tids_prim.
    + apply keeps_tids_bind; [apply IH|]. intros vs.
      apply keeps_tids_bind; [keeps_tids_prim|]. intros o.
      apply keeps_tids_bind; [apply IHl|]. intros rest. keeps_tids_prim.
Qed.

Lemma Nest_keeps_tids this params pulse :
  generate params = false → keeps_tids (Nest_transform this params pulse).
Proof.
  intros Hgen. unfold Nest_transform. rewrite Hgen.
  apply keeps_tids_bind; [apply read_pulse_keeps_tids|]. intros P.
  destruct (source P); [|keeps_tids_prim].
  apply keeps_tids_bind; [apply clone_keeps_tids|]. intros out.
  apply keeps_tids_bind; [apply read_pulse_keeps_tids|]. intros O.
  apply keeps_tids_bind; [keeps_tids_prim|]. intros tree.
  apply keeps_tids_bind; [keeps_tids_prim|]. intros s.
  apply keeps_tids_bind.
  { destruct (_ || _); [|keeps_tids_prim].
    apply keeps_tids_bind.
    { destruct tree; [keeps_tids_prim| |];
        (apply keeps_tids_bind; [keeps_tids_prim|]; intros t0;
         apply keeps_tids_bind; [keeps_tids_prim|]; intros T;
         apply keeps_tids_for_each; intros node;
         apply keeps_tids_bind; [keeps_tids_prim|]; intros s';
         keeps_tids_prim). }
    intros _.
    apply keeps_tids_bind; [keeps_tids_prim|]. intros src.
    apply keeps_tids_bind; [keeps_tids_prim|]. intros a.
    apply keeps_tids_bind; [keeps_tids_prim|]. intros e.
    apply keeps_tids_bind; [apply label_keeps_tids|]. intros vs.
    apply keeps_tids_bind; [keeps_tids_prim|]. intros o.
    apply keeps_tids_bind; [keeps_tids_prim|]. intros t.
    apply keeps_tids_bind; [keeps_tids_prim|]. intros _.
    apply keeps_tids_bind; [keeps_tids_prim|]. intros _.
    apply keeps_tids_bind; [apply lookup_keeps_tids|]. intros _. keeps_tids_prim. }
  intros tree'.
  apply keeps_tids_bind; [keeps_tids_prim|]. intros src.
  apply keeps_tids_bind; [keeps_tids_prim|]. intros _. keeps_tids_prim.
Qed.

(** A transform type introduces tuple identities when some evaluation of one
    of its operators returns a pulse whose [add] holds a record that had no
    identity before the evaluation and has one after it. *)
Definition introduces_tuples (ty : TransformType) : Prop :=
  ∃ (i : Instance) (this : opid) (pulse : pid) (s : State) (out : pid) (O : Pulse)
    (t : ref),
    type_of i = ty
    ∧ fst (transform i this pulse s) = Ok out
    ∧ pulses (snd (transform i this pulse s)) !! out = Some O
    ∧ t ∈ elems (array_at (snd (transform i this pulse s)) (add O))
    ∧ tupleid s t = None
    ∧ is_Some (tupleid (snd (transform i this pulse s)) t).

(** C7 as claimed: every type that introduces tuple identities declares
    [generates]. *)
Definition generating_types_declare_generates : Prop :=
  ∀ ty, introduces_tuples ty → metadata_flag (Definition_of ty) "generates" = true.

(** C5 as claimed: an evaluation that raises an unrecognized method name
    belongs to an operator whose addition had raised already. *)
Definition method_errors_raised_when_added : Prop :=
  ∀ (i : Instance) (this : opid) (pulse : pid) (s s0 : State) (msg : string),
    fst (transform i this pulse s) = Throw msg → unrecognized_method msg →
    ∃ e, fst (construct i s0) = Throw e.

Lemma keeps_tids_not_introducing (i : Instance) :
  (∀ this pulse, keeps_tids (transform i this pulse)) →
  ¬ ∃ (this : opid) (pulse : pid) (s : State) (t : ref),
      tupleid s t = None ∧ is_Some (tupleid (snd (transform i this pulse s)) t).
Proof.
  intros Hkeep (this & pulse & s & t & Hnone & Hsome).
  destruct (Hkeep this pulse s s) as [[Ht _] _]; [by split|].
  unfold tupleid in *. rewrite Ht, Hnone in Hsome. by destruct Hsome.
Qed.

(** C7, as the code has it.  A transform type of this module that introduces
    tuple identities declares [changes], and declares [generates] unless it is
    Nest: TreeLinks declares [generates]; Nest declares [treesource] and
    [changes] only, and mints no identity when its [generate] parameter is
    false. *)
Theorem generating_types_metadata :
  (∀ ty, introduces_tuples ty →
         metadata_flag (Definition_of ty) "changes" = true
         ∧ (metadata_flag (Definition_of ty) "generates" = true ∨ ty = Nest))
  ∧ metadata_flag (Definition_of TreeLinks) "generates" = true
  ∧ metadata_flag (Definition_of Nest) "generates" = false
  ∧ metadata_flag (Definition_of Nest) "treesource" = true
  ∧ (∀ this params pulse (s : State),
       generate params = false →
       tids (snd (Nest_transform this params pulse s)) = tids s
       ∧ next_tid (snd (Nest_transform this params pulse s)) = next_tid s).
Proof.
  split; [|split; [reflexivity|split; [reflexivity|split; [reflexivity|]]]].
  - intros ty (i & this & pulse & s & out & O & t & Hty & _ & _ & _ & Hnone & Hsome).
    destruct i as [params|params| |k params]; simpl in Hty; subst ty.
    + split; [reflexivity|by right].
    + exfalso. apply (keeps_tids_not_introducing (IStratify params)).
      * intros this' pulse'. apply Stratify_keeps_tids.
      * eauto 10.
    + split; [reflexivity|by left].
    + exfalso. apply (keeps_tids_not_introducing (ILayout k params)).
      * intros this' pulse'. apply HierarchyLayout_keeps_tids.
      * eauto 10.
  - intros this params pulse s Hgen.
    by destruct (Nest_keeps_tids this params pulse Hgen s s) as [[? ?] _].
Qed.

(** *** The transforms leave the pulse they are given as it was *)

(** A computation that leaves the arrays and pulses of [s0] as they were. *)
Definition keeps (s0 : State) {A} (m : M A) : Prop := spec (kept s0) m (λ _, True).

Ltac kept_prim :=
  apply spec_kept_untouched; intros ?;
  unfold read_pulse, read_value, read_array, read_tree, write_value, new_tree,
    new_object, new_operator, ingest, materialize, source_of, as_tree, as_array,
    lift, get, modify, ret, throw, error;
  repeat case_match; simpl; split; reflexivity.

Lemma keeps_bind {A B} s0 (m : M A) (k : A → M B) (Q : B → Prop) :
  keeps s0 m → (∀ a, spec (kept s0) (k a) Q) → spec (kept s0) (bind m k) Q.
Proof. intros Hm Hk. eapply spec_bind; [exact Hm|]. intros a _. apply Hk. Qed.

Lemma keeps_for_each {X} s0 (f : X → M unit) (l : list X) :
  (∀ x, keeps s0 (f x)) → keeps s0 (for_each f l).
Proof. intros Hf. apply spec_for_each. intros x _. apply Hf. Qed.

Lemma spec_of_spec_st {A} (I : State → Prop) (m : M A) (Q1 : A → State → Prop)
    (Q : A → Prop) :
  spec_st I m Q1 → (∀ a s, Q1 a s → Q a) → spec I m Q.
Proof.
  intros Hm HQ s HI. destruct (Hm s HI) as [HI' HQ1]. split; [done|].
  intros a Ha. eapply HQ. by apply HQ1.
Qed.

Lemma keeps_lookup s0 t key filter : keeps s0 (lookup t key filter).
Proof.
  unfold lookup. apply keeps_bind; [kept_prim|]. intros T.
  apply keeps_bind; [kept_prim|]. intros s.
  apply keeps_bind; [kept_prim|]. intros _. kept_prim.
Qed.

Lemma keeps_label s0 : ∀ e, keeps s0 (label e).
Proof.
  fix IH 1. intros [array|groups]; simpl.
  - kept_prim.
  - apply keeps_bind; [|intros; kept_prim].
    induction groups as [|[key e'] l IHl].
    + kept_prim.
    + apply keeps_bind; [apply IH|]. intros vs.
      apply keeps_bind; [kept_prim|]. intros o.
      apply keeps_bind; [apply IHl|]. intros rest. kept_prim.
Qed.

Lemma keeps_new_link s0 p t : keeps s0 (new_link p t).
Proof.
  unfold new_link. apply keeps_bind; [kept_prim|]. intros o.
  apply keeps_bind; [kept_prim|]. intros _. kept_prim.
Qed.

Lemma Nest_transform_kept s0 this params pulse :
  spec (kept s0) (Nest_transform this params pulse) (λ out, out ∉ dom (pulses s0)).
Proof.
  unfold Nest_transform. apply keeps_bind; [kept_prim|]. intros P.
  destruct (source P) as [src0|]; [|apply spec_throw].
  eapply spec_kept_then_read; [apply spec_kept_clone|].
  intros out O (Hout & Hadd & Hrem & Hmod & Hsrc).
  assert (spec (kept s0) (source_of O) (λ l, l ∉ dom (arrays s0))) as Hsource.
  { unfold source_of. destruct (source O) as [l|]; [|apply spec_throw].
    apply spec_ret. by apply Hsrc. }
  apply keeps_bind; [kept_prim|]. intros tree.
  apply keeps_bind; [kept_prim|]. intros s.
  apply keeps_bind.
  { destruct (_ || _); [|kept_prim].
    apply keeps_bind.
    { destruct tree as [|t0|l0]; [kept_prim| |];
        (apply keeps_bind; [kept_prim|]; intros t;
         apply keeps_bind; [kept_prim|]; intros T;
         apply keeps_for_each; intros node;
         apply keeps_bind; [kept_prim|]; intros s';
         destruct (_ && _); [by apply spec_kept_push|kept_prim]). }
    intros _.
    apply keeps_bind; [eapply spec_weaken; [exact Hsource|done]|]. intros src.
    apply keeps_bind; [kept_prim|]. intros a.
    apply keeps_bind; [kept_prim|]. intros e.
    apply keeps_bind; [apply keeps_label|]. intros vs.
    apply keeps_bind; [kept_prim|]. intros o.
    apply keeps_bind; [kept_prim|]. intros t.
    apply keeps_bind; [kept_prim|]. intros _.
    apply keeps_bind.
    { destruct (generate params); [|kept_prim].
      apply keeps_bind; [kept_prim|]. intros T.
      apply keeps_for_each. intros node.
      destruct (bool_decide _); [|kept_prim].
      apply keeps_bind; [kept_prim|]. intros n.
      apply keeps_bind; [by apply spec_kept_push|]. intros _.
      eapply spec_bind; [exact Hsource|]. intros src' Hsrc'.
      by apply spec_kept_push. }
    intros _.
    apply keeps_bind; [apply keeps_lookup|]. intros _. kept_prim. }
  intros tree'.
  eapply spec_bind; [exact Hsource|]. intros src Hsrc'.
  apply keeps_bind; [by apply spec_kept_set_root|]. intros _.
  by apply spec_ret.
Qed.

Lemma Stratify_transform_kept s0 this params pulse :
  spec (kept s0) (Stratify_transform this params pulse) (λ out, out ∉ dom (pulses s0)).
Proof.
  unfold Stratify_transform. apply keeps_bind; [kept_prim|]. intros P.
  destruct (source P) as [src0|]; [|apply spec_throw].
  apply keeps_bind; [kept_prim|]. intros tree.
  eapply spec_bind.
  { eapply spec_of_spec_st; [apply (spec_kept_fork s0 ALL pulse)|].
    intros out s (O & _ & Hout & _). exact Hout. }
  intros forked Hforked. unfold materialize.
  eapply spec_bind; [apply spec_ret; exact Hforked|]. intros out Hout.
  apply keeps_bind; [kept_prim|]. intros s.
  apply keeps_bind; [kept_prim|]. intros O.
  apply keeps_bind; [kept_prim|]. intros src.
  eapply spec_bind; [apply spec_kept_slice|]. intros src' Hsrc'.
  apply keeps_bind; [by apply spec_kept_write_pulse|]. intros _.
  apply keeps_bind.
  { destruct (_ || _); [|kept_prim].
    apply keeps_bind; [kept_prim|]. intros a.
    destruct (negb _).
    - apply keeps_bind; [kept_prim|]. intros T.
      apply keeps_bind; [kept_prim|]. intros t.
      apply keeps_bind; [apply keeps_lookup|]. intros t'. kept_prim.
    - apply keeps_bind; [kept_prim|]. intros o.
      apply keeps_bind; [kept_prim|]. intros T.
      apply keeps_bind; [kept_prim|]. intros t.
      apply keeps_bind; [apply keeps_lookup|]. intros t'. kept_prim. }
  intros tree'.
  apply keeps_bind; [kept_prim|]. intros _.
  apply keeps_bind; [by apply spec_kept_set_root|]. intros _.
  by apply spec_ret.
Qed.

Lemma TreeLinks_transform_kept s0 this pulse :
  spec (kept s0) (TreeLinks_transform this pulse) (λ out, out ∉ dom (pulses s0)).
Proof.
  unfold TreeLinks_transform. apply keeps_bind; [kept_prim|]. intros links.
  apply keeps_bind; [kept_prim|]. intros P.
  apply keeps_bind; [kept_prim|]. intros s.
  eapply spec_kept_then_read; [apply (spec_kept_fork s0 [NO_SOURCE] pulse)|].
  intros out O (Hout & Hadd & Hrem & Hmod).
  specialize (Hadd eq_refl). specialize (Hmod eq_refl).
  destruct (is_null _); [apply spec_throw|].
  apply keeps_bind; [kept_prim|]. intros s1.
  destruct (changed ADD_REM P s1).
  - apply keeps_bind; [kept_prim|]. intros l.
    apply keeps_bind; [by apply spec_kept_write_pulse|]. intros _.
    apply keeps_bind; [kept_prim|]. intros t.
    apply keeps_bind; [kept_prim|]. intros T.
    apply keeps_bind.
    { apply keeps_for_each. intros node. destruct (parent node) as [p|]; [|kept_prim].
      apply keeps_bind; [kept_prim|]. intros s'.
      destruct (_ && _); [|kept_prim].
      apply keeps_bind; [apply keeps_new_link|]. intros link.
      apply keeps_bind; [kept_prim|]. intros link'.
      by apply spec_kept_push. }
    intros _. apply keeps_bind; [kept_prim|]. intros _. by apply spec_ret.
  - destruct (changed [MOD] P s1); [|by apply spec_ret].
    apply keeps_bind; [kept_prim|]. intros l.
    apply keeps_bind; [kept_prim|]. intros a.
    apply keeps_bind.
    { apply keeps_for_each. intros link.
      apply keeps_bind; [kept_prim|]. intros s'.
      destruct (Dataflow.links s' !! link) as [st|]; [|apply spec_throw].
      destruct (_ || _); [by apply spec_kept_push|kept_prim]. }
    intros _. by apply spec_ret.
Qed.

(** The pulse a transform returns is the one its [clone] or [fork] made. *)
Lemma Nest_returns_clone this params pulse (s : State) out :
  fst (Nest_transform this params pulse s) = Ok out → fst (clone pulse s) = Ok out.
Proof.
  unfold Nest_transform. rewrite bind_run. unfold read_pulse at 1.
  destruct (pulses s !! pulse) as [P|]; [|done].
  destruct (source P); [|done]. rewrite bind_run.
  destruct (clone pulse s) as [[out'|e] s1]; [|done]. intros Hrun. simpl. f_equal.
  symmetry. revert Hrun. apply result_is_bind. intros O.
  do 5 (apply result_is_bind; intros ?). apply result_is_ret.
Qed.

Lemma Stratify_returns_fork this params pulse (s : State) out :
  fst (Stratify_transform this params pulse s) = Ok out →
  fst (fork ALL pulse s) = Ok out.
Proof.
  unfold Stratify_transform. rewrite bind_run. unfold read_pulse at 1.
  destruct (pulses s !! pulse) as [P|]; [|done].
  destruct (source P); [|done]. rewrite bind_run. unfold read_value at 1.
  rewrite bind_run.
  destruct (fork ALL pulse s) as [[out'|e] s1]; [|done]. intros Hrun. simpl. f_equal.
  symmetry. revert Hrun. unfold materialize. rewrite bind_run. unfold ret at 1.
  apply result_is_bind. intros s2.
  do 7 (apply result_is_bind; intros ?). apply result_is_ret.
Qed.

Lemma TreeLinks_returns_fork this pulse (s : State) out :
  fst (TreeLinks_transform this pulse s) = Ok out →
  fst (fork [NO_SOURCE] pulse s) = Ok out.
Proof.
  unfold TreeLinks_transform. rewrite bind_run. unfold read_value at 1.
  rewrite bind_run. unfold read_pulse at 1.
  destruct (pulses s !! pulse) as [P|]; [|done].
  rewrite bind_run. unfold get at 1. rewrite bind_run.
  destruct (fork [NO_SOURCE] pulse s) as [[out'|e] s1]; [|done].
  intros Hrun. simpl. f_equal. symmetry. revert Hrun.
  apply result_is_bind. intros O.
  destruct (is_null _); [apply result_is_throw|].
  apply result_is_bind. intros s2.
  destruct (changed ADD_REM P s2).
  - do 5 (apply result_is_bind; intros ?). apply result_is_bind. intros ?.
    apply result_is_ret.
  - destruct (changed [MOD] P s2); [|apply result_is_ret].
    do 3 (apply result_is_bind; intros ?). apply result_is_ret.
Qed.

(** What it is for the transform [m], which derives its output with
    [derive], to leave the pulse it is given alone: the pulse object and every
    array of the store, the [add], [rem] and [mod] of the pulse among them, are
    after the call what they were before; and a pulse it returns is the one
    [derive] made, an object that was not in the store before, so not the
    input. *)
Definition leaves_input_alone (m derive : M pid) (pulse : pid) (s : State) : Prop :=
  (∀ l, l ∈ dom (arrays s) → arrays (snd (m s)) !! l = arrays s !! l)
  ∧ (∀ P, pulses s !! pulse = Some P →
          pulses (snd (m s)) !! pulse = Some P
          ∧ (add P ∈ dom (arrays s) →
             array_at (snd (m s)) (add P) = array_at s (add P))
          ∧ (rem P ∈ dom (arrays s) →
             array_at (snd (m s)) (rem P) = array_at s (rem P))
          ∧ (mod_ P ∈ dom (arrays s) →
             array_at (snd (m s)) (mod_ P) = array_at s (mod_ P)))
  ∧ (∀ out, fst (m s) = Ok out →
            fst (derive s) = Ok out ∧ (out ∉ dom (pulses s)) ∧ out ≠ pulse).

Lemma derive_reads_pulse (derive : M pid) (pulse : pid) (s : State) out :
  (∃ k, ∀ s', derive s' = bind (read_pulse pulse) k s') →
  fst (derive s) = Ok out → pulse ∈ dom (pulses s).
Proof.
  intros [k Hk]. rewrite Hk, bind_run. unfold read_pulse.
  destruct (pulses s !! pulse) eqn:HP; [|done]. intros _. apply elem_of_dom. eauto.
Qed.

Lemma leaves_input_alone_intro (m derive : M pid) (pulse : pid) (s : State) :
  spec (kept s) m (λ out, out ∉ dom (pulses s)) →
  (∀ out, fst (m s) = Ok out → fst (derive s) = Ok out) →
  (∃ k, ∀ s', derive s' = bind (read_pulse pulse) k s') →
  leaves_input_alone m derive pulse s.
Proof.
  intros Hspec Hderive Hreads.
  destruct (Hspec s (kept_refl s)) as [[Harr Hpul] Hout].
  split; [exact Harr|]. split.
  - intros P HP.
    assert (pulse ∈ dom (pulses s)) as Hin by (apply elem_of_dom; eauto).
    split; [by rewrite (Hpul pulse Hin)|].
    unfold array_at. repeat split; intros Hl; by rewrite (Harr _ Hl).
  - intros out Hrun. split; [by apply Hderive|]. split; [by apply Hout|].
    intros ->. apply (Hout _ Hrun).
    eapply derive_reads_pulse; [exact Hreads|]. by apply Hderive.
Qed.

(** *** A pulse that changes nothing *)

(** No additions, removals or modifications, and no field touched. *)
Definition noop_pulse (P : Pulse) (s : State) : Prop :=
  elems (array_at s (add P)) = [] ∧ elems (array_at s (rem P)) = []
  ∧ elems (array_at s (mod_ P)) = [] ∧ fields P = FieldSet ∅.

(** The sequences of the pulse are arrays of the store. *)
Definition allocated (P : Pulse) (s : State) : Prop :=
  add P ∈ dom (arrays s) ∧ rem P ∈ dom (arrays s) ∧ mod_ P ∈ dom (arrays s).

(** What an invocation that changes nothing leaves: every operator's value
    and every tree as they were, and, when a pulse is returned, no element in
    its [add] nor in its [rem]. *)
Definition nothing_changed (m : M pid) (s : State) : Prop :=
  values (snd (m s)) = values s
  ∧ trees (snd (m s)) = trees s
  ∧ ∀ out, fst (m s) = Ok out →
      ∃ O, pulses (snd (m s)) !! out = Some O
           ∧ elems (array_at (snd (m s)) (add O)) = []
           ∧ elems (array_at (snd (m s)) (rem O)) = [].

(** The assertion behind [nothing_changed], for a returned pulse. *)
Definition returned_unchanged (s0 : State) (out : pid) (s : State) : Prop :=
  quiet s0 s ∧ ∃ O, pulses s !! out = Some O ∧ empty_at (add O) s ∧ empty_at (rem O) s.

Lemma nothing_changed_intro (m : M pid) (s0 : State) :
  triple (λ s, s = s0) m (returned_unchanged s0) (quiet s0) →
  nothing_changed m s0.
Proof.
  intros Hm. specialize (Hm s0 eq_refl). unfold nothing_changed.
  destruct (fst (m s0)) as [out|e].
  - destruct Hm as ((Hv & Ht & _) & O & HO & [Ha _] & [Hr _]).
    split; [done|]. split; [done|]. intros ? [= <-]. eauto.
  - destruct Hm as (Hv & Ht & _). split; [done|]. split; [done|]. intros ? [=].
Qed.

Lemma changed_noop flags P (s0 s : State) :
  allocated P s0 → noop_pulse P s0 → quiet s0 s → changed flags P s = false.
Proof.
  intros (Ha & Hr & Hm) (Ea & Er & Em & _) Hq. unfold changed.
  rewrite !(quiet_array_at s0 s) by done. rewrite Ea, Er, Em. simpl.
  by rewrite !andb_false_r.
Qed.

Lemma modified_noop names P (s0 s : State) :
  allocated P s0 → noop_pulse P s0 → quiet s0 s → modified names P s = false.
Proof.
  intros (Ha & Hr & Hm) (Ea & Er & Em & _) Hq. unfold modified.
  rewrite !(quiet_array_at s0 s) by done. by rewrite Em.
Qed.

(** What [clone] leaves of a pulse that changes nothing. *)
Lemma clone_noop (s0 : State) pulse P src0 :
  pulses s0 !! pulse = Some P → source P = Some src0 →
  allocated P s0 → noop_pulse P s0 →
  triple (λ s, s = s0) (clone pulse)
    (λ out s, quiet s0 s
              ∧ ∃ O src, pulses s !! out = Some O ∧ source O = Some src
                         ∧ (src ∉ dom (arrays s0))
                         ∧ empty_at (add O) s ∧ empty_at (rem O) s)
    (quiet s0).
Proof.
  intros HP Hsrc (Hadd & Hrem & Hmod) (Ea & Er & Em & _). unfold clone.
  eapply triple_bind with (Mid := λ P' s, s = s0 ∧ P' = P).
  { intros s ->. unfold read_pulse. by rewrite HP. }
  intros P'. apply triple_pre with (K := P' = P); [by intros ? [_ ?]|]. intros ->.
  eapply triple_bind with (Mid := λ a s, quiet s0 s ∧ empty_at a s).
  { intros s [-> _]. unfold slice, new_array. simpl.
    split; [apply quiet_new_array, quiet_refl|]. by apply empty_at_slice. }
  intros a.
  eapply triple_bind with (Mid := λ r s, quiet s0 s ∧ empty_at a s ∧ empty_at r s).
  { intros s [Hq Ha]. unfold slice, new_array. simpl.
    split; [by apply quiet_new_array|]. split; [by apply empty_at_new_array|].
    apply empty_at_slice. by rewrite (quiet_array_at s0 s). }
  intros r.
  eapply triple_bind with (Mid := λ _ s, quiet s0 s ∧ empty_at a s ∧ empty_at r s).
  { intros s (Hq & Ha & Hr). unfold slice, new_array. simpl.
    split; [by apply quiet_new_array|]. split; by apply empty_at_new_array. }
  intros m. rewrite Hsrc.
  eapply triple_bind with
    (Mid := λ o s, quiet s0 s ∧ empty_at a s ∧ empty_at r s
                   ∧ ∃ src, o = Some src ∧ src ∉ dom (arrays s0)).
  { eapply triple_bind with
      (Mid := λ l s, quiet s0 s ∧ empty_at a s ∧ empty_at r s ∧ l ∉ dom (arrays s0)).
    - intros s (Hq & Ha & Hr). unfold slice, new_array. simpl.
      split; [by apply quiet_new_array|]. split; [by apply empty_at_new_array|].
      split; [by apply empty_at_new_array|].
      intros Hin. apply (is_fresh (dom (arrays s))).
      destruct Hq as (_ & _ & Hk). by eapply kept_dom_arrays.
    - intros l. apply triple_ret. intros s (Hq & Ha & Hr & Hl). eauto 10. }
  intros o s (Hq & Ha & Hr & src & -> & Hfresh). unfold new_pulse. simpl.
  split; [by apply quiet_new_pulse|].
  eexists _, src. rewrite lookup_insert_eq. repeat split; try done.
  - apply Ha.
  - apply Ha.
  - apply Hr.
  - apply Hr.
Qed.

(** C4, for Nest. *)
Lemma Nest_noop this params pulse (s0 : State) P t :
  pulses s0 !! pulse = Some P → allocated P s0 → noop_pulse P s0 →
  value_of s0 this = VTree t → nest_modified params = false →
  nothing_changed (Nest_transform this params pulse) s0.
Proof.
  intros HP Halloc Hnoop Hval Hmodified. apply nothing_changed_intro.
  unfold Nest_transform.
  eapply triple_bind with (Mid := λ P' s, s = s0 ∧ P' = P).
  { intros s ->. unfold read_pulse. by rewrite HP. }
  intros P'. apply triple_pre with (K := P' = P); [by intros ? [_ ?]|]. intros ->.
  destruct (source P) as [src0|] eqn:Hsrc.
  2:{ apply triple_throw. intros s [-> _]. apply quiet_refl. }
  eapply triple_bind.
  { eapply triple_weaken; [by eapply clone_noop| |done..]. by intros s [-> _]. }
  intros out.
  eapply triple_bind with
    (Mid := λ O s, quiet s0 s ∧ pulses s !! out = Some O
                   ∧ (∃ src, source O = Some src ∧ src ∉ dom (arrays s0))
                   ∧ empty_at (add O) s ∧ empty_at (rem O) s).
  { intros s (Hq & O & src & HO & Hs & Hf & Ha & Hr). unfold read_pulse.
    rewrite HO. simpl. eauto 10. }
  intros O.
  eapply triple_bind with
    (Mid := λ v s, v = VTree t ∧ quiet s0 s ∧ pulses s !! out = Some O
                   ∧ (∃ src, source O = Some src ∧ src ∉ dom (arrays s0))
                   ∧ empty_at (add O) s ∧ empty_at (rem O) s).
  { intros s (Hq & Hrest). unfold read_value. simpl. split; [|done].
    destruct Hq as (Hv & _). unfold value_of in *. by rewrite Hv. }
  intros v. apply triple_pre with (K := v = VTree t); [by intros ? [? _]|]. intros ->.
  eapply triple_bind; [apply triple_get|]. intros s1.
  apply triple_pre with (K := quiet s0 s1); [by intros ? [-> (_ & ? & _)]|]. intros Hq1.
  rewrite Hmodified, (changed_noop ALL P s0 s1) by done. simpl.
  eapply triple_bind with
    (Mid := λ v s, v = VTree t ∧ quiet s0 s ∧ pulses s !! out = Some O
                   ∧ (∃ src, source O = Some src ∧ src ∉ dom (arrays s0))
                   ∧ empty_at (add O) s ∧ empty_at (rem O) s).
  { apply triple_ret. by intros s [_ ?]. }
  intros v. apply triple_pre with (K := v = VTree t); [by intros ? [? _]|]. intros ->.
  apply triple_pre with (K := ∃ src, source O = Some src ∧ src ∉ dom (arrays s0));
    [by intros ? (_ & _ & _ & ? & _)|]. intros (src & Hs & Hfresh).
  unfold source_of. rewrite Hs.
  eapply triple_bind with
    (Mid := λ l s, l = src ∧ quiet s0 s ∧ pulses s !! out = Some O
                   ∧ empty_at (add O) s ∧ empty_at (rem O) s).
  { apply triple_ret. intros s (_ & Hq & HO & _ & Ha & Hr). done. }
  intros l. apply triple_pre with (K := l = src); [by intros ? [? _]|]. intros ->.
  eapply triple_bind with (Mid := λ _ s, returned_unchanged s0 out s).
  { unfold set_root. apply triple_modify. intros s (_ & Hq & HO & Ha & Hr).
    split; [by apply quiet_set_root|]. exists O. simpl.
    split; [done|]. split; by apply empty_at_set_root. }
  intros _. apply triple_ret. auto.
Qed.

(** What [fork(ALL)] leaves of a pulse: a new pulse that shares the sequences
    and the source. *)
Lemma fork_all_quiet (s0 : State) pulse P :
  pulses s0 !! pulse = Some P →
  triple (λ s, s = s0) (fork ALL pulse)
    (λ out s, quiet s0 s ∧ (out ∉ dom (pulses s0))
              ∧ ∃ O, pulses s !! out = Some O ∧ add O = add P ∧ rem O = rem P
                     ∧ source O = source P)
    (quiet s0).
Proof.
  intros HP. unfold fork.
  eapply triple_bind with (Mid := λ P' s, s = s0 ∧ P' = P).
  { intros s ->. unfold read_pulse. by rewrite HP. }
  intros P'. apply triple_pre with (K := P' = P); [by intros ? [_ ?]|]. intros ->.
  change (has ADD ALL) with true. change (has REM ALL) with true.
  change (has MOD ALL) with true. change (has NO_SOURCE ALL) with false.
  eapply triple_bind with (Mid := λ a s, s = s0 ∧ a = add P);
    [by apply triple_ret; intros ? [? _]|].
  intros a. apply triple_pre with (K := a = add P); [by intros ? [_ ?]|]. intros ->.
  eapply triple_bind with (Mid := λ a s, s = s0 ∧ a = rem P);
    [by apply triple_ret; intros ? [? _]|].
  intros r. apply triple_pre with (K := r = rem P); [by intros ? [_ ?]|]. intros ->.
  eapply triple_bind with (Mid := λ a s, s = s0 ∧ a = mod_ P);
    [by apply triple_ret; intros ? [? _]|].
  intros m. apply triple_pre with (K := m = mod_ P); [by intros ? [_ ?]|]. intros ->.
  intros s [-> _]. unfold new_pulse. simpl.
  split; [apply quiet_new_pulse, quiet_refl|]. split; [apply is_fresh|].
  eexists. rewrite lookup_insert_eq. by repeat split.
Qed.

(** C4, for Stratify. *)
Lemma Stratify_noop this params pulse (s0 : State) P t :
  pulses s0 !! pulse = Some P → allocated P s0 → noop_pulse P s0 →
  value_of s0 this = VTree t → stratify_modified params = false →
  nothing_changed (Stratify_transform this params pulse) s0.
Proof.
  intros HP Halloc Hnoop Hval Hmodified. apply nothing_changed_intro.
  assert (values s0 !! this = Some (VTree t)) as Hthis.
  { unfold value_of in Hval. destruct (values s0 !! this) as [v|]; simpl in Hval;
      [by rewrite Hval|discriminate Hval]. }
  unfold Stratify_transform.
  eapply triple_bind with (Mid := λ P' s, s = s0 ∧ P' = P).
  { intros s ->. unfold read_pulse. by rewrite HP. }
  intros P'. apply triple_pre with (K := P' = P); [by intros ? [_ ?]|]. intros ->.
  destruct (source P) as [src0|] eqn:Hsrc.
  2:{ apply triple_throw. intros s [-> _]. apply quiet_refl. }
  eapply triple_bind with (Mid := λ v s, s = s0 ∧ v = VTree t).
  { intros s [-> _]. unfold read_value. simpl. done. }
  intros v. apply triple_pre with (K := v = VTree t); [by intros ? [_ ?]|]. intros ->.
  eapply triple_bind.
  { eapply triple_weaken; [by eapply fork_all_quiet| |done..]. by intros s [-> _]. }
  intros forked. unfold materialize.
  eapply triple_bind with
    (Mid := λ out s, quiet s0 s ∧ (out ∉ dom (pulses s0))
                     ∧ ∃ O, pulses s !! out = Some O ∧ add O = add P ∧ rem O = rem P
                            ∧ source O = source P);
    [apply triple_ret; intros s Hs; exact Hs|]. intros out.
  apply triple_pre with (K := out ∉ dom (pulses s0)); [by intros ? (_ & ? & _)|].
  intros Hout.
  eapply triple_bind; [apply triple_get|]. intros s1.
  apply triple_pre with (K := quiet s0 s1); [by intros ? [-> (? & _)]|]. intros Hq1.
  rewrite Hmodified, (changed_noop ADD_REM P s0 s1), !(modified_noop _ P s0 s1) by done.
  simpl.
  eapply triple_bind with
    (Mid := λ O s, quiet s0 s ∧ add O = add P ∧ rem O = rem P ∧ source O = source P).
  { intros s (_ & Hq & _ & O & HO & Ha & Hr & Hs). unfold read_pulse.
    rewrite HO. simpl. done. }
  intros O.
  apply triple_pre with (K := add O = add P ∧ rem O = rem P ∧ source O = source P);
    [by intros ? (_ & ? & ? & ?)|]. intros (HOa & HOr & HOs).
  unfold source_of. rewrite HOs, Hsrc.
  eapply triple_bind with (Mid := λ _ s, quiet s0 s);
    [by apply triple_ret; intros ? [? _]|]. intros src.
  eapply triple_bind with (Mid := λ l s, quiet s0 s ∧ l ∉ dom (arrays s0)).
  { intros s Hq. unfold slice, new_array. simpl.
    split; [by apply quiet_new_array|].
    intros Hin. apply (is_fresh (dom (arrays s))).
    destruct Hq as (_ & _ & Hk). by eapply kept_dom_arrays. }
  intros src'. apply triple_pre with (K := src' ∉ dom (arrays s0)); [by intros ? [_ ?]|].
  intros Hsrc'.
  eapply triple_bind with
    (Mid := λ _ s, quiet s0 s ∧ pulses s !! out = Some (with_source (Some src') O)).
  { unfold write_pulse. apply triple_modify. intros s [Hq _].
    split; [by apply quiet_write_pulse|]. simpl. by rewrite lookup_insert_eq. }
  intros _.
  eapply triple_bind with
    (Mid := λ v s, v = VTree t ∧ quiet s0 s
                   ∧ pulses s !! out = Some (with_source (Some src') O)).
  { by apply triple_ret. }
  intros v. apply triple_pre with (K := v = VTree t); [by intros ? [? _]|]. intros ->.
  eapply triple_bind with
    (Mid := λ _ s, quiet s0 s ∧ pulses s !! out = Some (with_source (Some src') O)).
  { unfold write_value. apply triple_modify. intros s (_ & (Hv & Ht & Hk) & HO).
    split; [|done]. split; [|by split]. simpl. rewrite Hv. by apply insert_id. }
  intros _.
  eapply triple_bind with (Mid := λ _ s, returned_unchanged s0 out s).
  { unfold set_root. apply triple_modify. intros s (Hq & HO).
    destruct Halloc as (Ha & Hr & _). destruct Hnoop as (Ea & Er & _).
    split; [by apply quiet_set_root|]. exists (with_source (Some src') O). simpl.
    split; [done|]. rewrite HOa, HOr.
    split; apply empty_at_set_root; split;
      try (rewrite (quiet_array_at s0 s) by done; done);
      destruct Hq as (_ & _ & Hk); by eapply kept_dom_arrays. }
  intros _. apply triple_ret. auto.
Qed.

(** C4.  On a pulse with no additions, removals or modifications and no field
    touched, with unmodified parameters and a tree already stored, Nest and
    Stratify leave the stored tree (every operator's value, and every tree)
    as it was, and the pulse they return has no element in [add] nor in
    [rem]. *)
Theorem noop_pulse_changes_nothing (this : opid) (pulse : pid) (s : State)
    (P : Pulse) (t : treeref) (nest_params : NestParams)
    (stratify_params : StratifyParams) :
  pulses s !! pulse = Some P → allocated P s → noop_pulse P s →
  value_of s this = VTree t →
  nest_modified nest_params = false → stratify_modified stratify_params = false →
  nothing_changed (Nest_transform this nest_params pulse) s
  ∧ nothing_changed (Stratify_transform this stratify_params pulse) s.
Proof.
  intros HP Halloc Hnoop Hval Hn Hs. split.
  - by eapply Nest_noop.
  - by eapply Stratify_noop.
Qed.

(** *** Without a tree to work on *)

Lemma fork_returns flags pulse (s : State) P :
  pulses s !! pulse = Some P →
  ∃ out s' O, fork flags pulse s = (Ok out, s')
              ∧ pulses s' !! out = Some O ∧ values s' = values s.
Proof.
  intros HP. unfold fork, bind, read_pulse. rewrite HP.
  destruct (has ADD flags), (has REM flags), (has MOD flags); cbn -[fresh];
    eexists _, _, _; (split; [reflexivity|]);
    (split; [apply lookup_insert_eq|reflexivity]).
Qed.

Lemma TreeLinks_without_tree this pulse (s : State) P :
  pulses s !! pulse = Some P →
  match source P with
  | Some src => root (array_at s src)
  | None => VNull
  end = VNull →
  ∃ s', TreeLinks_transform this pulse s
        = (Throw "TreeLinks transform requires a tree data source.", s')
        ∧ values s' = values s.
Proof.
  intros HP Hnull. unfold TreeLinks_transform.
  rewrite bind_run. unfold read_value at 1. cbn [fst snd].
  rewrite bind_run. unfold read_pulse at 1. rewrite HP.
  rewrite bind_run. unfold get at 1. rewrite Hnull.
  destruct (fork_returns [NO_SOURCE] pulse s P HP) as (out & s' & O & Hfork & HO & Hv).
  rewrite bind_run, Hfork, bind_run. unfold read_pulse. rewrite HO.
  exists s'. done.
Qed.

(** X18.  On a pulse without source, [Nest] and [Stratify] throw their
    message about the upstream data source and leave the store as it was; on
    a pulse whose source is missing or carries no tree, every layout throws
    ["<Type> transform requires a backing tree data source."] and leaves the
    store as it was, and [TreeLinks] throws its message about the tree data
    source after having forked the pulse, with every operator's value as it
    was. *)
Theorem transforms_without_tree_source (this : opid) (pulse : pid) (s : State)
    (P : Pulse) :
  pulses s !! pulse = Some P →
  (source P = None →
   (∀ params, Nest_transform this params pulse s
              = (Throw "Nest transform requires an upstream data source.", s))
   ∧ (∀ params, Stratify_transform this params pulse s
                = (Throw "Stratify transform requires an upstream data source.", s)))
  ∧ (source P = None ∨ (∃ src, source P = Some src ∧ root (array_at s src) = VNull) →
     (∀ k params,
        HierarchyLayout_transform k this params pulse s
        = (Throw (constructor_name (type_of_kind k)
                  +:+ " transform requires a backing tree data source."), s))
     ∧ fst (TreeLinks_transform this pulse s)
       = Throw "TreeLinks transform requires a tree data source."
     ∧ values (snd (TreeLinks_transform this pulse s)) = values s).
Proof.
  intros HP. split.
  - intros Hsrc. split; intros params.
    + unfold Nest_transform, bind, read_pulse. by rewrite HP, Hsrc.
    + unfold Stratify_transform, bind, read_pulse. by rewrite HP, Hsrc.
  - intros Hroot.
    assert (match source P with
            | Some src => root (array_at s src)
            | None => VNull
            end = VNull) as Hnull.
    { destruct Hroot as [->|(src & -> & ->)]; reflexivity. }
    split; [|split].
    + intros k params.
      unfold HierarchyLayout_transform, HierarchyLayout_prepare, bind, read_pulse, get.
      rewrite HP. cbn [fst snd]. by rewrite Hnull.
    + by destruct (TreeLinks_without_tree this pulse s P HP Hnull) as (s' & -> & _).
    + by destruct (TreeLinks_without_tree this pulse s P HP Hnull) as (s' & -> & ?).
Qed.

(** *** The methods the definitions declare *)

(** The values a definition lists for its [method] parameter. *)
Definition declared_methods (d : Definition_) : list string :=
  flat_map (λ p, if String.eqb (p_name p) "method" then p_values p else [])
           (def_params d).

(** X19.  The layout tables and the definitions agree on the method names:
    [Tree.layout] accepts a method name exactly when it is empty (then
    ['tidy'] is used) or one of the values [Tree.Definition] lists, and the
    [method] setter of the treemap layout accepts exactly the values
    [Treemap.Definition] lists. *)
Theorem layout_methods_as_declared (m : string) (x : Layout) :
  (is_throw (make_layout KTree (Some m)) = false
   ↔ m = "" ∨ m ∈ declared_methods Tree_Definition)
  ∧ (is_throw (Treemap_method m x) = false
     ↔ m ∈ declared_methods Treemap_Definition).
Proof.
  split.
  - unfold make_layout, hasOwnProperty, Layouts_keys.
    change (declared_methods Tree_Definition) with ["tidy"; "cluster"].
    destruct (String.eqb_spec m "") as [->|Hne].
    + rewrite bool_decide_eq_true_2 by (by left). simpl. split; [by left|done].
    + destruct (decide (m ∈ ["tidy"; "cluster"])) as [Hin|Hnot].
      * rewrite bool_decide_eq_true_2 by done. simpl. split; [by right|done].
      * rewrite bool_decide_eq_false_2 by done. simpl. split; [done|].
        by intros [?|?].
  - unfold Treemap_method, hasOwnProperty, Tiles_keys.
    change (declared_methods Treemap_Definition)
      with ["squarify"; "resquarify"; "binary"; "dice"; "slice"; "slicedice"].
    destruct (decide (m ∈ ["binary"; "dice"; "slice"; "slicedice"; "squarify";
                           "resquarify"])) as [Hin|Hnot].
    + rewrite bool_decide_eq_true_2 by done. simpl. split; [|done]. intros _.
      set_solver.
    + rewrite bool_decide_eq_false_2 by done. simpl. split; [done|].
      intros Hin. exfalso. apply Hnot. set_solver.
Qed.

(** *** What a tree source hands downstream *)

(** Computations that write neither a pulse nor an operator's value. *)
Definition preserves {A} (m : M A) : Prop :=
  ∀ s, pulses (snd (m s)) = pulses s ∧ values (snd (m s)) = values s.

Lemma preserves_bind {A B} (m : M A) (k : A → M B) :
  preserves m → (∀ a, preserves (k a)) → preserves (bind m k).
Proof.
  intros Hm Hk s. rewrite bind_run. destruct (Hm s) as [Hp Hv].
  destruct (m s) as [[a|e] s1]; simpl in *; [|done].
  destruct (Hk a s1) as [Hp' Hv']. split; congruence.
Qed.

Lemma preserves_for_each {X} (f : X → M unit) (l : list X) :
  (∀ x, preserves (f x)) → preserves (for_each f l).
Proof.
  intros Hf. induction l as [|x l IH]; simpl; [done|].
  apply preserves_bind; [apply Hf|]. intros _. exact IH.
Qed.

Ltac preserves_prim :=
  intros ?;
  unfold read_pulse, read_value, read_array, read_tree, new_tree, new_object, ingest,
    source_of, as_tree, as_array, lift, get, modify, ret, throw, error, push, set_root,
    slice, new_array;
  repeat case_match; simpl; split; reflexivity.

Lemma preserves_lookup t key filter : preserves (lookup t key filter).
Proof.
  unfold lookup. apply preserves_bind; [preserves_prim|]. intros T.
  apply preserves_bind; [preserves_prim|]. intros s.
  apply preserves_bind; [preserves_prim|]. intros _. preserves_prim.
Qed.

Lemma preserves_label : ∀ e, preserves (label e).
Proof.
  fix IH 1. intros [array|groups]; simpl.
  - preserves_prim.
  - apply preserves_bind; [|intros; preserves_prim].
    induction groups as [|[key e'] l IHl].
    + preserves_prim.
    + apply preserves_bind; [apply IH|]. intros vs.
      apply preserves_bind; [preserves_prim|]. intros o.
      apply preserves_bind; [apply IHl|]. intros rest. preserves_prim.
Qed.

Lemma triple_preserves {A} (R : gmap pid Pulse → gmap opid OpValue → Prop) (m : M A) :
  preserves m →
  triple (λ s, R (pulses s) (values s)) m (λ _ s, R (pulses s) (values s)) (λ _, True).
Proof.
  intros Hm s HR. destruct (Hm s) as [Hp Hv].
  destruct (fst (m s)); [|done]. by rewrite Hp, Hv.
Qed.

Lemma triple_any {A} (Pre : State → Prop) (m : M A) :
  triple Pre m (λ _ _, True) (λ _, True).
Proof. intros s _. by destruct (fst (m s)). Qed.

(** The pulse [out] has a source whose [root] is what the operator [this]
    holds, and the operator holds something. *)
Definition carries (this : opid) (out : pid) (s : State) : Prop :=
  ∃ O src, pulses s !! out = Some O ∧ source O = Some src
           ∧ root (array_at s src) = value_of s this ∧ value_of s this ≠ VNull.

Lemma set_root_carries this out O src tree :
  source O = Some src → tree ≠ VNull →
  triple (λ s, pulses s !! out = Some O ∧ value_of s this = tree)
         (bind (set_root src tree) (λ _, ret out)) (carries this) (λ _, True).
Proof.
  intros Hsrc Hne s [HO Hv]. simpl. exists O, src. split; [done|]. split; [done|].
  unfold array_at, value_of in *. simpl. rewrite lookup_insert_eq. simpl.
  split; [done|]. by rewrite Hv.
Qed.

Lemma Nest_carries this params pulse :
  triple (λ _, True) (Nest_transform this params pulse) (carries this) (λ _, True).
Proof.
  unfold Nest_transform.
  eapply triple_bind; [apply triple_any|]. intros P.
  destruct (source P) as [src0|]; [|by apply triple_throw].
  eapply triple_bind; [apply triple_any|]. intros out.
  eapply triple_bind with (Mid := λ O s, pulses s !! out = Some O).
  { intros s _. unfold read_pulse. by destruct (pulses s !! out) eqn:E. }
  intros O.
  eapply triple_bind with
    (Mid := λ tree s, pulses s !! out = Some O ∧ value_of s this = tree).
  { by intros s HO. }
  intros tree.
  eapply triple_bind; [apply triple_get|]. intros s1.
  eapply triple_bind with
    (Mid := λ tree' s, (pulses s !! out = Some O ∧ value_of s this = tree')
                       ∧ tree' ≠ VNull).
  { destruct (is_null tree || nest_modified params || changed ALL P s1) eqn:Hrun.
    2:{ apply triple_ret. intros s [_ H1]. split; [done|].
        apply orb_false_iff in Hrun as [[Hn _]%orb_false_iff _]. by destruct tree. }
    set (R1 := λ (p : gmap pid Pulse) (v : gmap opid OpValue), p !! out = Some O).
    eapply triple_weaken with (Pre := λ s, R1 (pulses s) (values s));
      [|by intros s [_ [? _]]|intros ? ? H1; exact H1|done].
    eapply triple_bind.
    { apply (triple_preserves R1).
      destruct tree as [|t0|l0]; [preserves_prim| |];
        (apply preserves_bind; [preserves_prim|]; intros t;
         apply preserves_bind; [preserves_prim|]; intros T;
         apply preserves_for_each; intros node;
         apply preserves_bind; [preserves_prim|]; intros s';
         destruct (_ && _); preserves_prim). }
    intros u1.
    eapply triple_bind; [apply (triple_preserves R1); preserves_prim|]. intros src.
    eapply triple_bind; [apply (triple_preserves R1); preserves_prim|]. intros a.
    eapply triple_bind; [apply (triple_preserves R1); preserves_prim|]. intros e.
    eapply triple_bind; [apply (triple_preserves R1); apply preserves_label|]. intros vs.
    eapply triple_bind; [apply (triple_preserves R1); preserves_prim|]. intros o.
    eapply triple_bind; [apply (triple_preserves R1); preserves_prim|]. intros t.
    set (R2 := λ (p : gmap pid Pulse) (v : gmap opid OpValue),
                 p !! out = Some O ∧ default VNull (v !! this) = VTree t).
    eapply triple_bind with (Mid := λ _ s, R2 (pulses s) (values s)).
    { unfold write_value. apply triple_modify. intros s HO. split; [exact HO|].
      simpl. by rewrite lookup_insert_eq. }
    intros u2.
    eapply triple_bind.
    { apply (triple_preserves R2).
      destruct (generate params); [|preserves_prim].
      apply preserves_bind; [preserves_prim|]. intros T.
      apply preserves_for_each. intros node.
      destruct (bool_decide _); [|preserves_prim].
      apply preserves_bind; [preserves_prim|]. intros n.
      apply preserves_bind; [preserves_prim|]. intros u3.
      apply preserves_bind; [preserves_prim|]. intros src'. preserves_prim. }
    intros u4.
    eapply triple_bind; [apply (triple_preserves R2); apply preserves_lookup|].
    intros u5. apply triple_ret. intros s [HO Hv]. done. }
  intros tree'. apply triple_pre with (K := tree' ≠ VNull); [by intros s [_ ?]|].
  intros Hne. unfold source_of. destruct (source O) as [src|] eqn:HsO.
  2:{ intros s _. by rewrite bind_run. }
  eapply triple_bind with
    (Mid := λ src' s, src' = src ∧ pulses s !! out = Some O ∧ value_of s this = tree').
  { apply triple_ret. by intros s [? _]. }
  intros src'. apply triple_pre with (K := src' = src); [by intros s [? _]|]. intros ->.
  eapply triple_weaken; [by apply (set_root_carries this out O src tree')| |done..].
  by intros s [_ ?].
Qed.

Lemma Stratify_carries this params pulse :
  triple (λ _, True) (Stratify_transform this params pulse) (carries this) (λ _, True).
Proof.
  unfold Stratify_transform.
  eapply triple_bind; [apply triple_any|]. intros P.
  destruct (source P) as [src0|]; [|by apply triple_throw].
  eapply triple_bind; [apply triple_any|]. intros tree.
  eapply triple_bind; [apply triple_any|]. intros forked.
  eapply triple_bind; [apply triple_any|]. intros out.
  eapply triple_bind; [apply triple_get|]. intros s1.
  eapply triple_bind; [apply triple_any|]. intros O.
  eapply triple_bind; [apply triple_any|]. intros src.
  eapply triple_bind; [apply triple_any|]. intros src'.
  set (O' := with_source (Some src') O).
  set (R1 := λ (p : gmap pid Pulse) (v : gmap opid OpValue), p !! out = Some O').
  eapply triple_bind with (Mid := λ _ s, R1 (pulses s) (values s)).
  { unfold write_pulse. apply triple_modify. intros s _. unfold R1. simpl.
    by rewrite lookup_insert_eq. }
  intros u7.
  eapply triple_bind with
    (Mid := λ tree' s, R1 (pulses s) (values s) ∧ tree' ≠ VNull).
  { destruct (is_null tree || _ || _ || _ || _) eqn:Hrun.
    2:{ apply triple_ret. intros s H1. split; [done|].
        repeat (apply orb_false_iff in Hrun as [Hrun _]). by destruct tree. }
    eapply triple_bind; [apply (triple_preserves R1); preserves_prim|]. intros a.
    destruct (negb _).
    - eapply triple_bind; [apply (triple_preserves R1); preserves_prim|]. intros T.
      eapply triple_bind; [apply (triple_preserves R1); preserves_prim|]. intros t.
      eapply triple_bind; [apply (triple_preserves R1); apply preserves_lookup|].
      intros t'. apply triple_ret. by intros s H1.
    - eapply triple_bind; [apply (triple_preserves R1); preserves_prim|]. intros o.
      eapply triple_bind; [apply (triple_preserves R1); preserves_prim|]. intros T.
      eapply triple_bind; [apply (triple_preserves R1); preserves_prim|]. intros t.
      eapply triple_bind; [apply (triple_preserves R1); apply preserves_lookup|].
      intros t'. apply triple_ret. by intros s H1. }
  intros tree'. apply triple_pre with (K := tree' ≠ VNull); [by intros s [_ ?]|].
  intros Hne.
  eapply triple_bind with
    (Mid := λ _ s, pulses s !! out = Some O' ∧ value_of s this = tree').
  { unfold write_value. apply triple_modify. intros s [HO _]. split; [exact HO|].
    unfold value_of. simpl. by rewrite lookup_insert_eq. }
  intros u8. by apply (set_root_carries this out O' src' tree').
Qed.

(** X20.  A pulse that [Nest] or [Stratify] returns has a source, and the
    [root] of that source is the value the operator holds after the call, a
    value that is not null: the tree a layout downstream asks
    [pulse.source.root] for is the one the tree source built or kept. *)
Theorem tree_source_carries_value (this : opid) (pulse : pid) (s : State) :
  (∀ params out, fst (Nest_transform this params pulse s) = Ok out →
                 carries this out (snd (Nest_transform this params pulse s)))
  ∧ (∀ params out, fst (Stratify_transform this params pulse s) = Ok out →
                   carries this out (snd (Stratify_transform this params pulse s))).
Proof.
  split; intros params out Hrun.
  - pose proof (Nest_carries this params pulse s I) as H1. by rewrite Hrun in H1.
  - pose proof (Stratify_carries this params pulse s I) as H1. by rewrite Hrun in H1.
Qed.

(** *** What a layout writes on the tuples *)

Lemma bind_Ok {A B} (m : M A) (k : A → M B) (s s' : State) b :
  bind m k s = (Ok b, s') → ∃ a s1, m s = (Ok a, s1) ∧ k a s1 = (Ok b, s').
Proof. rewrite bind_run. destruct (m s) as [[a|e] s1]; [eauto|done]. Qed.












(** *** The links [TreeLinks] emits *)

Lemma array_at_new_array (s : State) x :
  array_at (set_arrays <[fresh (dom (arrays s)) := {| elems := []; root := VNull |}]> s) x
  = array_at s x.
Proof.
  unfold array_at. simpl. destruct (decide (x = fresh (dom (arrays s)))) as [->|Hne].
  - rewrite lookup_insert_eq.
    assert (arrays s !! fresh (dom (arrays s)) = None) as ->; [|done].
    apply not_elem_of_dom, is_fresh.
  - by rewrite lookup_insert_ne.
Qed.

(** What [fork(NO_SOURCE)] leaves: a new pulse without source over three new,
    empty arrays, in a store that reads as before. *)
Lemma fork_no_source pulse (s : State) P :
  pulses s !! pulse = Some P →
  ∃ out s1 O, fork [NO_SOURCE] pulse s = (Ok out, s1)
    ∧ pulses s1 !! out = Some O
    ∧ (∀ x, array_at s1 x = array_at s x)
    ∧ add O ≠ mod_ O ∧ rem O ≠ mod_ O ∧ add O ≠ rem O
    ∧ elems (array_at s (add O)) = [] ∧ elems (array_at s (rem O)) = []
    ∧ elems (array_at s (mod_ O)) = []
    ∧ (add O ∉ dom (arrays s))
    ∧ tids s1 = tids s ∧ objs s1 = objs s ∧ Dataflow.links s1 = Dataflow.links s
    ∧ values s1 = values s ∧ trees s1 = trees s.
Proof.
  intros HP. unfold fork, bind, read_pulse. rewrite HP.
  change (has ADD [NO_SOURCE]) with false. change (has REM [NO_SOURCE]) with false.
  change (has MOD [NO_SOURCE]) with false. cbv beta iota.
  pose (new := {| elems := []; root := VNull |}).
  pose (s_a := set_arrays <[fresh (dom (arrays s)) := new]> s).
  pose (s_r := set_arrays <[fresh (dom (arrays s_a)) := new]> s_a).
  pose (s_m := set_arrays <[fresh (dom (arrays s_r)) := new]> s_r).
  exists (fresh (dom (pulses s_m))),
    (set_pulses <[fresh (dom (pulses s_m)) :=
       {| add := fresh (dom (arrays s)); rem := fresh (dom (arrays s_a));
          mod_ := fresh (dom (arrays s_r)); source := None;
          fields := fields P; stamp := stamp P |}]> s_m),
    {| add := fresh (dom (arrays s)); rem := fresh (dom (arrays s_a));
       mod_ := fresh (dom (arrays s_r)); source := None;
       fields := fields P; stamp := stamp P |}.
  split; [reflexivity|]. split; [apply lookup_insert_eq|].
  split.
  { intros x. change (array_at (set_pulses _ s_m) x) with (array_at s_m x).
    subst s_m s_r s_a. by rewrite !array_at_new_array. }
  assert (fresh (dom (arrays s)) ∈ dom (arrays s_a)) as Ha.
  { subst s_a. simpl. rewrite dom_insert. set_solver. }
  assert (fresh (dom (arrays s_a)) ∈ dom (arrays s_r)) as Hr.
  { subst s_r. simpl. rewrite dom_insert. set_solver. }
  assert (fresh (dom (arrays s)) ∈ dom (arrays s_r)) as Ha'.
  { subst s_r. simpl. rewrite dom_insert. set_solver. }
  cbn [add rem mod_].
  split; [intros Heq; apply (is_fresh (dom (arrays s_r))); by rewrite <- Heq|].
  split; [intros Heq; apply (is_fresh (dom (arrays s_r))); by rewrite <- Heq|].
  split; [intros Heq; apply (is_fresh (dom (arrays s_a))); by rewrite <- Heq|].
  assert (∀ (s0 : State), elems (array_at s0 (fresh (dom (arrays s0)))) = []) as Hnew.
  { intros s0. unfold array_at.
    assert (arrays s0 !! fresh (dom (arrays s0)) = None) as ->; [|done].
    apply not_elem_of_dom, is_fresh. }
  split; [apply Hnew|].
  split; [rewrite <- (array_at_new_array s); apply (Hnew s_a)|].
  split; [|split; [apply is_fresh|done]].
  rewrite <- (array_at_new_array s). fold s_a. rewrite <- (array_at_new_array s_a).
  apply (Hnew s_r).
Qed.

(** The table of marked tuples depends on the arrays and the identities only. *)
Lemma visit_mark_same flags P (s s1 : State) :
  (∀ x, array_at s1 x = array_at s x) → tids s1 = tids s →
  visit flags (mark s1) P s1 ∅ = visit flags (mark s) P s ∅.
Proof.
  intros Harr Ht. unfold visit, visitArray, mark, tupleid. rewrite Ht.
  destruct (source P); by rewrite ?Harr.
Qed.

(** Only arrays differ between the two stores, and only the array at [m]. *)
Definition pushed_to (m : loc) (s s' : State) : Prop :=
  (∀ x, x ≠ m → array_at s' x = array_at s x)
  ∧ pulses s' = pulses s ∧ values s' = values s ∧ tids s' = tids s
  ∧ next_tid s' = next_tid s ∧ objs s' = objs s
  ∧ Dataflow.links s' = Dataflow.links s ∧ trees s' = trees s ∧ props s' = props s.

(** A link touches a record marked in [lut]. *)
Definition incident (s : State) (lut : gset (option nat)) (link : ref) : bool :=
  match Dataflow.links s !! link with
  | Some st => marked s lut (fst st) || marked s lut (snd st)
  | None => false
  end.

Lemma gather_links m lut L : ∀ (s : State),
  Forall (λ link, is_Some (Dataflow.links s !! link)) L →
  ∃ s', for_each (λ link,
          s' <~ get ;;
          match Dataflow.links s' !! link with
          | Some st =>
            if marked s' lut (fst st) || marked s' lut (snd st)
            then push m link
            else ret tt
          | None => throw "TypeError: Cannot read properties of undefined"
          end) L s = (Ok tt, s')
        ∧ pushed_to m s s'
        ∧ elems (array_at s' m)
          = elems (array_at s m) ++ filter (λ link, incident s lut link = true) L.
Proof.
  induction L as [|link L IH]; intros s Hall.
  - exists s. split; [done|]. split; [by repeat split|]. by rewrite app_nil_r.
  - apply Forall_cons in Hall as [[st Hst] Hall]. cbn [for_each].
    rewrite bind_run, bind_run. unfold get at 1. cbn [fst snd]. rewrite Hst.
    rewrite filter_cons.
    assert (incident s lut link = marked s lut (fst st) || marked s lut (snd st))
      as Hinc by (unfold incident; by rewrite Hst).
    destruct (marked s lut (fst st) || marked s lut (snd st)) eqn:Hmark.
    + unfold push, modify. cbn [fst snd].
      set (s1 := set_arrays _ s).
      destruct (IH s1) as (s' & Hrun & Hpushed & Helems); [done|].
      exists s'. split; [done|].
      destruct Hpushed as (Harr & Hp & Hv & Ht & Hn & Ho & Hl & Htr & Hpr).
      split.
      * split; [|done]. intros x Hx. rewrite Harr by done.
        unfold array_at, s1. simpl. by rewrite lookup_insert_ne.
      * rewrite Helems. rewrite decide_True by done.
        unfold array_at at 1, s1. simpl. rewrite lookup_insert_eq. simpl.
        rewrite <- app_assoc. reflexivity.
    + cbn [ret fst snd]. destruct (IH s) as (s' & Hrun & Hpushed & Helems); [done|].
      exists s'. split; [done|]. split; [done|].
      rewrite Helems. by rewrite decide_False by (by rewrite Hinc).
Qed.

(** X22.  On a pulse with a tree source that adds and removes nothing but
    modifies tuples, [TreeLinks] returns a pulse whose [mod] holds, in their
    stored order, the links it holds whose source or target is a modified
    tuple, and whose [add] and [rem] are empty; the operator's value and the
    tuple identities are as they were. *)
Theorem TreeLinks_gathers_modified (this : opid) (pulse : pid) (s : State) (P : Pulse)
    (src l : loc) :
  pulses s !! pulse = Some P → source P = Some src →
  root (array_at s src) ≠ VNull → value_of s this = VArr l →
  changed ADD_REM P s = false → changed [MOD] P s = true →
  Forall (λ link, is_Some (Dataflow.links s !! link)) (elems (array_at s l)) →
  ∃ out s' O, TreeLinks_transform this pulse s = (Ok out, s')
    ∧ pulses s' !! out = Some O
    ∧ elems (array_at s' (mod_ O))
      = filter (λ link, incident s (visit [MOD] (mark s) P s ∅) link = true)
               (elems (array_at s l))
    ∧ elems (array_at s' (add O)) = [] ∧ elems (array_at s' (rem O)) = []
    ∧ values s' = values s ∧ tids s' = tids s.
Proof.
  intros HP Hsrc Hroot Hval Hadd Hmod Hlinks. unfold TreeLinks_transform.
  rewrite bind_run. unfold read_value at 1. cbn [fst snd]. rewrite Hval.
  rewrite bind_run. unfold read_pulse at 1. rewrite HP.
  rewrite bind_run. unfold get at 1. rewrite Hsrc.
  destruct (fork_no_source pulse s P HP)
    as (out & s1 & O & Hfork & HO & Harr & Ham & Hrm & Har & Hea & Her & Hem
        & _ & Ht & Ho & Hl & Hv & Htr).
  rewrite bind_run, Hfork, bind_run. unfold read_pulse at 1. rewrite HO.
  assert (is_null (root (array_at s src)) = false) as ->
    by (by destruct (root (array_at s src))).
  rewrite bind_run. unfold get at 1.
  assert (∀ flags, changed flags P s1 = changed flags P s) as Hchanged.
  { intros flags. unfold changed. by rewrite !Harr. }
  rewrite !Hchanged, Hadd, Hmod.
  rewrite bind_run. cbn [as_array ret]. rewrite bind_run. unfold read_array at 1.
  cbn [fst snd]. rewrite Harr.
  assert (visit [MOD] (mark s1) P s1 ∅ = visit [MOD] (mark s) P s ∅) as ->.
  { by apply visit_mark_same. }
  set (lut := visit [MOD] (mark s) P s ∅).
  destruct (gather_links (mod_ O) lut (elems (array_at s l)) s1)
    as (s' & Hrun & Hpushed & Helems).
  { eapply Forall_impl; [exact Hlinks|]. intros link. by rewrite Hl. }
  rewrite bind_run, Hrun. cbn [ret].
  destruct Hpushed as (Harr' & Hp' & Hv' & Ht' & _ & _ & _ & _ & _).
  exists out, s', O. split; [done|]. split; [by rewrite Hp'|].
  split; [|split; [|split; [|split]]].
  - rewrite Helems, Harr.
    rewrite Hem. simpl. apply list_filter_iff. intros link.
    unfold incident, marked, tupleid. by rewrite Hl, Ht.
  - by rewrite Harr', Harr.
  - by rewrite Harr', Harr.
  - congruence.
  - congruence.
Qed.

(** The records a store knows: those allocated in it and those with an
    identity. *)
Definition known (s : State) : gset ref := objs s ∪ dom (tids s).

(** [s'] has the records of [s], with the identity and the link ends they
    had in [s]. *)
Definition extends (s s' : State) : Prop :=
  objs s ⊆ objs s'
  ∧ ∀ x, x ∈ known s →
      tids s' !! x = tids s !! x ∧ Dataflow.links s' !! x = Dataflow.links s !! x.

Lemma extends_refl (s : State) : extends s s.
Proof. by split. Qed.

Lemma extends_known (s s' : State) x : extends s s' → x ∈ known s → x ∈ known s'.
Proof.
  intros [Ho Hx] Hin. destruct (Hx x Hin) as [Ht _]. unfold known in *.
  apply elem_of_union in Hin as [Hin|Hin]; [set_solver|].
  apply elem_of_union_r, elem_of_dom. rewrite Ht. by apply elem_of_dom.
Qed.

Lemma extends_trans (s1 s2 s3 : State) : extends s1 s2 → extends s2 s3 → extends s1 s3.
Proof.
  intros H12 H23. pose proof (extends_known s1 s2) as Hk.
  destruct H12 as [Ho Hx], H23 as [Ho' Hx']. split; [set_solver|].
  intros x Hin. destruct (Hx x Hin) as [<- <-]. apply Hx', Hk; [by split|done].
Qed.

Lemma extends_marked (s s' : State) lut x :
  extends s s' → x ∈ known s → marked s' lut x = marked s lut x.
Proof.
  intros [_ Hx] Hin. unfold marked, tupleid. by destruct (Hx x Hin) as [-> _].
Qed.

(** An edge of the tree both of whose ends are marked in [lut]. *)
Definition eligible (s : State) (lut : gset (option nat)) (node : Node_) : bool :=
  match parent node with
  | Some p => marked s lut (data node) && marked s lut p
  | None => false
  end.

(** The link record made for a node: new to [s], a tuple in [s'], from the
    node's parent to the node. *)
Definition links_edge (s s' : State) (link : ref) (node : Node_) : Prop :=
  (link ∉ known s) ∧ link ∈ objs s' ∧ is_Some (tupleid s' link)
  ∧ ∃ p, parent node = Some p ∧ Dataflow.links s' !! link = Some (p, data node).

Lemma links_edge_extends (s0 s s' s'' : State) link node :
  extends s0 s → extends s' s'' → links_edge s s' link node → links_edge s0 s'' link node.
Proof.
  intros H0 Hext (Hnew & Hobj & Htid & p & Hp & Hlink).
  assert (link ∈ known s') as Hk by (by apply elem_of_union_l).
  destruct Hext as [Ho Hx]. destruct (Hx link Hk) as [Ht Hl].
  split; [intros Hin; by apply Hnew, (extends_known s0 s)|].
  split; [set_solver|]. split; [unfold tupleid in *; by rewrite Ht|].
  exists p. split; [done|]. by rewrite Hl.
Qed.

Lemma make_links a lut0 (s0 : State) nodes : ∀ (s : State),
  extends s0 s →
  Forall (λ node, data node ∈ known s0 ∧ ∀ p, parent node = Some p → p ∈ known s0)
         nodes →
  ∃ s' L, for_each (λ node : Node_,
            match parent node with
            | Some p =>
              s' <~ get ;;
              if marked s' lut0 (data node) && marked s' lut0 p then
                link <~ new_link p (data node) ;;
                link <~ ingest link ;;
                push a link
              else ret tt
            | None => ret tt
            end) nodes s = (Ok tt, s')
      ∧ extends s s'
      ∧ elems (array_at s' a) = elems (array_at s a) ++ L
      ∧ (∀ x, x ≠ a → array_at s' x = array_at s x)
      ∧ pulses s' = pulses s ∧ values s' = values s ∧ trees s' = trees s
      ∧ NoDup L
      ∧ Forall2 (links_edge s s') L
                (filter (λ node, eligible s0 lut0 node = true) nodes).
Proof.
  induction nodes as [|node nodes IH]; intros s Hext Hall.
  - exists s, []. split; [done|]. split; [apply extends_refl|].
    split; [by rewrite app_nil_r|]. repeat (split; [done|]).
    split; constructor.
  - apply Forall_cons in Hall as [[Hdata Hparent] Hall]. cbn [for_each].
    rewrite filter_cons.
    destruct (parent node) as [p|] eqn:Hp.
    + specialize (Hparent p eq_refl).
      rewrite bind_run, bind_run. unfold get at 1. cbn [fst snd].
      rewrite (extends_marked s0 s lut0 (data node)) by done.
      rewrite (extends_marked s0 s lut0 p) by done.
      assert (eligible s0 lut0 node = marked s0 lut0 (data node) && marked s0 lut0 p)
        as Helig by (unfold eligible; by rewrite Hp).
      destruct (marked s0 lut0 (data node) && marked s0 lut0 p) eqn:Hmark.
      * rewrite decide_True by done.
        set (o := fresh (known s)).
        assert (o ∉ known s) as Hfresh by apply is_fresh.
        assert (tids s !! o = None) as Hnone.
        { apply not_elem_of_dom. intros Hin. apply Hfresh. by apply elem_of_union_r. }
        pose (s2 := {| arrays := <[a := {| elems := elems (array_at s a) ++ [o];
                                          root := root (array_at s a) |}]> (arrays s);
                       pulses := pulses s; trees := trees s;
                       tids := <[o := next_tid s]> (tids s); next_tid := S (next_tid s);
                       objs := {[o]} ∪ objs s;
                       links := <[o := (p, data node)]> (Dataflow.links s);
                       props := props s; values := values s |}).
        assert ((link <~ new_link p (data node) ;; link <~ ingest link ;; push a link) s
                = (Ok tt, s2)) as ->.
        { unfold new_link, new_object, ingest, push, modify, bind, ret.
          cbn [fst snd tids objs arrays set_links set_objs].
          fold (known s). fold o. rewrite Hnone. reflexivity. }
        assert (extends s s2) as Hstep.
        { split; [unfold s2; simpl; set_solver|]. intros x Hx. unfold s2. simpl.
          assert (x ≠ o) by (intros ->; done).
          by rewrite !lookup_insert_ne. }
        destruct (IH s2) as (s' & L & Hrun & Hext' & Helems & Harr & Hpu & Hv & Htr
                             & Hnd & Hrel); [by eapply extends_trans|done|].
        exists s', (o :: L). split; [done|].
        split; [by eapply extends_trans|].
        split.
        { rewrite Helems. unfold array_at at 1, s2. simpl. rewrite lookup_insert_eq.
          simpl. by rewrite <- app_assoc. }
        split.
        { intros x Hx. rewrite Harr by done. unfold array_at, s2. simpl.
          by rewrite lookup_insert_ne. }
        do 3 (split; [done|]).
        assert (Forall (λ link, link ∉ known s2) L) as Hnew.
        { clear -Hrel. induction Hrel as [|???? Hl]; constructor; [apply Hl|done]. }
        split.
        { constructor; [|done]. intros Hin. rewrite Forall_forall in Hnew.
          apply (Hnew o Hin). apply elem_of_union_l. unfold s2. simpl. set_solver. }
        constructor.
        { apply (links_edge_extends s s s2 s'); [apply extends_refl|done|].
          split; [done|]. split; [unfold s2; simpl; set_solver|].
          split; [unfold tupleid, s2; simpl; rewrite lookup_insert_eq; eauto|].
          exists p. split; [done|]. unfold s2. simpl. by rewrite lookup_insert_eq. }
        eapply Forall2_impl; [exact Hrel|]. intros link node'.
        apply links_edge_extends; [done|apply extends_refl].
      * rewrite decide_False by (by rewrite Helig).
        cbn [ret fst snd]. by apply IH.
    + rewrite decide_False by (unfold eligible; by rewrite Hp).
      rewrite bind_run. cbn [ret fst snd]. by apply IH.
Qed.

(** X23.  On a pulse that adds or removes tuples and whose source carries a
    tree, [TreeLinks] returns a pulse whose [rem] is the array of links the
    operator held, left as it was, whose [mod] is empty and whose [add] is a
    new array, the operator's value from then on.  That array holds, in the
    order [each] visits the tree, one new link record per node that has a
    parent and whose tuple and parent tuple are both in the source of the
    pulse: the records are distinct, each is a tuple, and each has the
    parent as [source] and the node as [target]. *)
Theorem TreeLinks_links_tree_edges (this : opid) (pulse : pid) (s : State) (P : Pulse)
    (src l : loc) (t : treeref) (T : TreeObj) :
  pulses s !! pulse = Some P → source P = Some src →
  root (array_at s src) = VTree t → trees s !! t = Some T →
  value_of s this = VArr l → l ∈ dom (arrays s) →
  changed ADD_REM P s = true →
  Forall (λ node, data node ∈ known s ∧ ∀ p, parent node = Some p → p ∈ known s)
         (each (nodes T)) →
  ∃ out s' O, TreeLinks_transform this pulse s = (Ok out, s')
    ∧ pulses s' !! out = Some O
    ∧ rem O = l ∧ array_at s' l = array_at s l
    ∧ value_of s' this = VArr (add O)
    ∧ elems (array_at s' (mod_ O)) = []
    ∧ NoDup (elems (array_at s' (add O)))
    ∧ Forall2 (links_edge s s') (elems (array_at s' (add O)))
        (filter (λ node, eligible s (visit [SOURCE] (mark s) P s ∅) node = true)
                (each (nodes T))).
Proof.
  intros HP Hsrc Hroot HT Hval Hl Hchanged Hnodes. unfold TreeLinks_transform.
  rewrite bind_run. unfold read_value at 1. cbn [fst snd]. rewrite Hval.
  rewrite bind_run. unfold read_pulse at 1. rewrite HP.
  rewrite bind_run. unfold get at 1. rewrite Hsrc, Hroot.
  destruct (fork_no_source pulse s P HP)
    as (out & s1 & O & Hfork & HO & Harr & Ham & Hrm & Har & Hea & Her & Hem
        & Hnew & Ht & Ho & Hlk & Hv & Htr).
  rewrite bind_run, Hfork, bind_run. unfold read_pulse at 1. rewrite HO.
  cbn [is_null]. rewrite bind_run. unfold get at 1.
  assert (changed ADD_REM P s1 = true) as ->.
  { rewrite <- Hchanged. unfold changed. by rewrite !Harr. }
  rewrite bind_run. cbn [as_array ret]. rewrite bind_run.
  unfold write_pulse at 1, modify at 1. cbn [fst snd].
  rewrite (visit_mark_same [SOURCE] P s s1) by done.
  set (lut := visit [SOURCE] (mark s) P s ∅).
  set (s2 := set_pulses <[out := with_rem l O]> s1).
  rewrite bind_run. cbn [as_tree ret]. rewrite bind_run. unfold read_tree at 1.
  assert (trees s2 !! t = Some T) as -> by (unfold s2; simpl; by rewrite Htr).
  assert (extends s s2) as Hext.
  { split; [unfold s2; simpl; by rewrite Ho|]. intros x _. unfold s2. simpl.
    by rewrite Ht, Hlk. }
  destruct (make_links (add O) lut s (each (nodes T)) s2 Hext Hnodes)
    as (s' & L & Hrun & Hext' & Helems & Harr' & Hpu & Hv' & Htr' & Hnd & Hrel).
  rewrite bind_run, Hrun, bind_run. unfold write_value at 1, modify at 1.
  cbn [fst snd ret].
  set (s'' := set_values <[this := VArr (add O)]> s').
  assert (l ≠ add O) as Hla by (intros ->; done).
  exists out, s'', (with_rem l O). split; [done|].
  split; [unfold s''; simpl; rewrite Hpu; unfold s2; simpl; apply lookup_insert_eq|].
  split; [done|].
  split.
  { change (array_at s'' l) with (array_at s' l). rewrite Harr' by done.
    change (array_at s2 l) with (array_at s1 l). apply Harr. }
  split; [unfold value_of, s''; simpl; by rewrite lookup_insert_eq|].
  split.
  { change (elems (array_at s' (mod_ O)) = []). rewrite Harr' by done.
    change (array_at s2 (mod_ O)) with (array_at s1 (mod_ O)). by rewrite Harr. }
  assert (elems (array_at s' (add O)) = L) as HL.
  { rewrite Helems. change (array_at s2 (add O)) with (array_at s1 (add O)).
    by rewrite Harr, Hea. }
  change (add (with_rem l O)) with (add O).
  change (array_at s'' (add O)) with (array_at s' (add O)). rewrite HL.
  split; [done|].
  eapply Forall2_impl; [exact Hrel|]. intros link node.
  apply links_edge_extends; [done|by split].
Qed.

(** *** The table [lookup] builds *)

Lemma own_set_proto {V} (o : JsObject.Obj V) v k :
  JsObject.own o "__proto__" = None →
  JsObject.own (JsObject.set o "__proto__" v) k = JsObject.own o k.
Proof. intros Hown. unfold JsObject.set. by rewrite Hown. Qed.

Lemma lookup_fold (keyof : ref → string) (keep : ref → bool) (l : list Node_) :
  ∀ k, JsObject.own (foldl (λ m node, if keep (data node)
                                      then JsObject.set m (keyof (data node)) node
                                      else m) [] l) k
       = if String.eqb k "__proto__" then None
         else last (filter (λ node, keep (data node) = true ∧ keyof (data node) = k) l).
Proof.
  induction l as [|node l IH] using rev_ind; intros k.
  - simpl. by destruct (String.eqb k "__proto__").
  - rewrite foldl_app, filter_app. cbn [foldl]. rewrite filter_cons, filter_nil.
    destruct (keep (data node)) eqn:Hkeep.
    + destruct (String.eqb_spec (keyof (data node)) "__proto__") as [Hproto|Hproto].
      * rewrite Hproto, own_set_proto by (by rewrite IH). rewrite IH.
        destruct (String.eqb_spec k "__proto__") as [->|Hk]; [done|].
        rewrite decide_False by (intros [_ ?]; congruence). by rewrite app_nil_r.
      * rewrite JsObject.own_set by done.
        destruct (String.eqb_spec (keyof (data node)) k) as [<-|Hne].
        -- rewrite decide_True by done. rewrite last_snoc.
           by destruct (String.eqb_spec (keyof (data node)) "__proto__").
        -- rewrite decide_False by (intros [_ ?]; done). by rewrite app_nil_r, IH.
    + rewrite decide_False by (intros [? _]; done). by rewrite app_nil_r, IH.
Qed.

(** X24.  [lookup(tree, key, filter)] hangs on the tree a table that holds,
    under each key, the node visited last among those whose record passes
    the filter and has that key, and nothing under a key no such node has;
    a record whose key is ['__proto__'] is left out.  The nodes of the tree
    and the rest of the store stay as they were. *)
Theorem lookup_indexes_nodes (t : treeref) (key : State → ref → string)
    (filter_ : State → ref → bool) (s : State) (T : TreeObj) :
  trees s !! t = Some T →
  ∃ m, lookup t key filter_ s
       = (Ok t, set_trees <[t := {| nodes := nodes T; lookup_table := Some m |}]> s)
    ∧ ∀ k, JsObject.own m k
           = if String.eqb k "__proto__" then None
             else last (filter (λ node, filter_ s (data node) = true
                                        ∧ key s (data node) = k) (each (nodes T))).
Proof.
  intros HT. eexists. split.
  - unfold lookup. rewrite bind_run. unfold read_tree at 1. rewrite HT.
    rewrite bind_run. unfold get at 1. rewrite bind_run. unfold modify at 1.
    reflexivity.
  - intros k. apply (lookup_fold (key s) (filter_ s)).
Qed.

(** *** What [Nest] hands on when it re-nests *)

(** The store after [l.slice()]. *)
Definition sliced (l : loc) (s : State) : State :=
  set_arrays <[fresh (dom (arrays s)) :=
                 {| elems := elems (array_at s l); root := VNull |}]> s.

Lemma slice_run l (s : State) : slice l s = (Ok (fresh (dom (arrays s))), sliced l s).
Proof. reflexivity. Qed.

Lemma sliced_old l (s : State) x :
  x ∈ dom (arrays s) →
  array_at (sliced l s) x = array_at s x ∧ x ∈ dom (arrays (sliced l s))
  ∧ x ≠ fresh (dom (arrays s)).
Proof.
  intros Hx.
  assert (x ≠ fresh (dom (arrays s))) as Hne.
  { intros ->. by apply (is_fresh (dom (arrays s))). }
  split; [|split; [|done]].
  - unfold array_at, sliced. simpl. by rewrite lookup_insert_ne.
  - unfold sliced. simpl. rewrite dom_insert. set_solver.
Qed.

Lemma sliced_new l (s : State) :
  elems (array_at (sliced l s) (fresh (dom (arrays s)))) = elems (array_at s l)
  ∧ fresh (dom (arrays s)) ∈ dom (arrays (sliced l s)).
Proof.
  split.
  - unfold array_at at 1, sliced. simpl. by rewrite lookup_insert_eq.
  - unfold sliced. simpl. rewrite dom_insert. set_solver.
Qed.

(** What [clone] leaves: a new pulse over four new arrays with the elements
    of the arrays of the pulse it copies. *)
Lemma clone_run pulse (s : State) P src0 :
  pulses s !! pulse = Some P → source P = Some src0 →
  allocated P s → src0 ∈ dom (arrays s) →
  ∃ out s1 O src f g,
    clone pulse s = (Ok out, s1) ∧ s1 = set_pulses f (set_arrays g s)
    ∧ pulses s1 !! out = Some O ∧ source O = Some src
    ∧ NoDup [add O; rem O; mod_ O; src]
    ∧ elems (array_at s1 (add O)) = elems (array_at s (add P))
    ∧ elems (array_at s1 (rem O)) = elems (array_at s (rem P))
    ∧ elems (array_at s1 (mod_ O)) = elems (array_at s (mod_ P))
    ∧ elems (array_at s1 src) = elems (array_at s src0)
    ∧ ∀ x, x ∈ dom (arrays s) → array_at s1 x = array_at s x.
Proof.
  intros HP Hsrc (Ha & Hr & Hm) Hs.
  pose (s_a := sliced (add P) s). pose (s_r := sliced (rem P) s_a).
  pose (s_m := sliced (mod_ P) s_r). pose (s_s := sliced src0 s_m).
  pose (O := {| add := fresh (dom (arrays s)); rem := fresh (dom (arrays s_a));
                mod_ := fresh (dom (arrays s_r)); source := Some (fresh (dom (arrays s_m)));
                fields := fields P; stamp := stamp P |}).
  assert (∀ x, x ∈ dom (arrays s) →
    array_at s_s x = array_at s x ∧ array_at s_m x = array_at s x
    ∧ array_at s_r x = array_at s x ∧ array_at s_a x = array_at s x) as Hold.
  { intros x Hx.
    destruct (sliced_old (add P) s x Hx) as (E1 & D1 & _).
    destruct (sliced_old (rem P) s_a x D1) as (E2 & D2 & _).
    destruct (sliced_old (mod_ P) s_r x D2) as (E3 & D3 & _).
    destruct (sliced_old src0 s_m x D3) as (E4 & _ & _).
    fold s_a in E1. fold s_r in E2. fold s_m in E3. fold s_s in E4.
    repeat split; congruence. }
  destruct (sliced_new (add P) s) as [Na Da]. fold s_a in Na, Da.
  destruct (sliced_new (rem P) s_a) as [Nr Dr]. fold s_r in Nr, Dr.
  destruct (sliced_new (mod_ P) s_r) as [Nm Dm]. fold s_m in Nm, Dm.
  destruct (sliced_new src0 s_m) as [Ns Ds]. fold s_s in Ns, Ds.
  destruct (sliced_old (rem P) s_a _ Da) as (Ea1 & Da1 & Xa1). fold s_r in Ea1, Da1.
  destruct (sliced_old (mod_ P) s_r _ Da1) as (Ea2 & Da2 & Xa2). fold s_m in Ea2, Da2.
  destruct (sliced_old src0 s_m _ Da2) as (Ea3 & _ & Xa3). fold s_s in Ea3.
  destruct (sliced_old (mod_ P) s_r _ Dr) as (Er2 & Dr2 & Xr2). fold s_m in Er2, Dr2.
  destruct (sliced_old src0 s_m _ Dr2) as (Er3 & _ & Xr3). fold s_s in Er3.
  destruct (sliced_old src0 s_m _ Dm) as (Em3 & _ & Xm3). fold s_s in Em3.
  exists (fresh (dom (pulses s_s))), (set_pulses <[fresh (dom (pulses s_s)) := O]> s_s),
    O, (fresh (dom (arrays s_m))), <[fresh (dom (pulses s_s)) := O]>, (λ _, arrays s_s).
  split.
  { unfold clone. rewrite bind_run. unfold read_pulse at 1. rewrite HP, Hsrc.
    rewrite bind_run, slice_run, bind_run, slice_run, bind_run, slice_run.
    rewrite !bind_run, slice_run. reflexivity. }
  split; [reflexivity|]. split; [apply lookup_insert_eq|]. split; [reflexivity|].
  split.
  { cbn [add rem mod_ O]. repeat constructor; set_solver. }
  change (array_at (set_pulses _ s_s)) with (array_at s_s). cbn [add rem mod_ O].
  split; [rewrite Ea3, Ea2, Ea1; exact Na|].
  split.
  { rewrite Er3, Er2, Nr. by destruct (Hold (rem P) Hr) as (_ & _ & _ & ->). }
  split.
  { rewrite Em3, Nm. by destruct (Hold (mod_ P) Hm) as (_ & _ & -> & _). }
  split.
  { rewrite Ns. by destruct (Hold src0 Hs) as (_ & -> & _ & _). }
  intros x Hx. by destruct (Hold x Hx) as (-> & _).
Qed.

(** Between the two stores only the tree roots, the records allocated and
    the operators' values may differ. *)
Definition data_kept (s s' : State) : Prop :=
  arrays s' = arrays s ∧ pulses s' = pulses s ∧ tids s' = tids s
  ∧ next_tid s' = next_tid s.

Lemma data_kept_refl (s : State) : data_kept s s.
Proof. by repeat split. Qed.

Lemma data_kept_trans (s1 s2 s3 : State) :
  data_kept s1 s2 → data_kept s2 s3 → data_kept s1 s3.
Proof. intros (? & ? & ? & ?) (? & ? & ? & ?). repeat split; congruence. Qed.

Lemma label_run : ∀ e (s : State),
  ∃ vs s', label e s = (Ok vs, s') ∧ data_kept s s'
           ∧ values s' = values s ∧ trees s' = trees s.
Proof.
  fix IH 1. intros [array|groups] s; simpl.
  - exists (LLeaves array), s. split; [done|]. split; [apply data_kept_refl|done].
  - assert (∃ gs s', (fix each_group (l : list (string * Nest.Entries ref))
                        : M (list (ref * string * Labelled)) :=
                        match l with
                        | [] => ret []
                        | (key, e') :: l' =>
                          vs <~ label e' ;;
                          o <~ new_object ;;
                          rest <~ each_group l' ;;
                          ret ((o, key, vs) :: rest)
                        end) groups s = (Ok gs, s')
                     ∧ data_kept s s' ∧ values s' = values s ∧ trees s' = trees s)
      as (gs & s' & Hrun & Hk & Hv & Ht).
    { revert s. induction groups as [|[key e'] l IHl]; intros s.
      - exists [], s. split; [done|]. split; [apply data_kept_refl|done].
      - destruct (IH e' s) as (vs & s1 & H1 & K1 & V1 & T1).
        rewrite bind_run, H1, bind_run. unfold new_object at 1. cbn [fst snd].
        match goal with |- context [set_objs ?f s1] => set (s2 := set_objs f s1) end.
        destruct (IHl s2) as (rest & s3 & H3 & K3 & V3 & T3).
        rewrite bind_run, H3. eexists _, s3. split; [reflexivity|].
        split; [|split; [by rewrite V3, <- V1|by rewrite T3, <- T1]].
        eapply data_kept_trans; [exact K1|]. eapply data_kept_trans; [|exact K3].
        by repeat split. }
    rewrite bind_run, Hrun. by eexists _, s'.
Qed.

(** The tuples [Nest] retracts: the records of the nodes with children that
    carry an identity. *)
Lemma retract_loop r (L : list Node_) : ∀ (s : State),
  ∃ s', for_each (λ node : Node_,
          s' <~ get ;;
          if bool_decide (is_Some (children node)) && isTuple s' (data node)
          then push r (data node)
          else ret tt) L s = (Ok tt, s')
      ∧ pushed_to r s s'
      ∧ elems (array_at s' r)
        = elems (array_at s r)
          ++ map data (filter (λ node, is_Some (children node)
                                       ∧ isTuple s (data node) = true) L).
Proof.
  induction L as [|node L IH]; intros s.
  - exists s. split; [done|]. split; [by repeat split|]. by rewrite app_nil_r.
  - cbn [for_each]. rewrite bind_run, bind_run. unfold get at 1. cbn [fst snd].
    rewrite filter_cons.
    destruct (bool_decide (is_Some (children node)) && isTuple s (data node)) eqn:Hc.
    + apply andb_true_iff in Hc as [Hc%bool_decide_eq_true Ht].
      rewrite decide_True by done.
      unfold push, modify. cbn [fst snd]. set (s1 := set_arrays _ s).
      destruct (IH s1) as (s' & Hrun & Hpushed & Helems).
      exists s'. split; [done|].
      destruct Hpushed as (Harr & Hp & Hv & Htid & Hn & Ho & Hl & Htr & Hpr).
      split.
      * split; [|done]. intros x Hx. rewrite Harr by done.
        unfold array_at, s1. simpl. by rewrite lookup_insert_ne.
      * rewrite Helems. unfold array_at at 1, s1. simpl. rewrite lookup_insert_eq.
        simpl. rewrite <- app_assoc. reflexivity.
    + rewrite decide_False.
      2:{ intros [H1 H2]. apply andb_false_iff in Hc as [Hc%bool_decide_eq_false|Hc];
            [done|congruence]. }
      cbn [ret fst snd]. apply IH.
Qed.

Lemma ingest_run t (s : State) :
  ∃ s', ingest t s = (Ok t, s')
    ∧ arrays s' = arrays s ∧ pulses s' = pulses s ∧ values s' = values s
    ∧ trees s' = trees s ∧ isTuple s' t = true
    ∧ ∀ x, isTuple s x = true → isTuple s' x = true.
Proof.
  unfold ingest. destruct (tids s !! t) as [i|] eqn:Ht.
  - exists s. repeat (split; [done|]).
    split; [|done]. unfold isTuple. rewrite Ht. by apply bool_decide_eq_true.
  - eexists. split; [reflexivity|]. repeat (split; [done|]).
    unfold isTuple. simpl. split.
    + rewrite lookup_insert_eq. by apply bool_decide_eq_true.
    + intros x Hx. apply bool_decide_eq_true in Hx. apply bool_decide_eq_true.
      destruct (decide (x = t)) as [->|Hne]; [by rewrite lookup_insert_eq|].
      by rewrite lookup_insert_ne.
Qed.

Lemma array_at_set_eq (s : State) l v : array_at (set_arrays <[l := v]> s) l = v.
Proof. unfold array_at. simpl. by rewrite lookup_insert_eq. Qed.

Lemma array_at_set_ne (s : State) l v x :
  x ≠ l → array_at (set_arrays <[l := v]> s) x = array_at s x.
Proof. intros Hne. unfold array_at. simpl. by rewrite lookup_insert_ne. Qed.

Lemma array_at_arrays (s s' : State) x : arrays s' = arrays s → array_at s' x = array_at s x.
Proof. intros Heq. unfold array_at. by rewrite Heq. Qed.

(** The records [Nest] generates: those of the nodes with children. *)
Definition inner_records (L : list Node_) : list ref :=
  map data (filter (λ node, is_Some (children node)) L).

Lemma generate_loop (source_ : M loc) a src (L : list Node_) :
  source_ = ret src → a ≠ src → ∀ (s : State),
  ∃ s', for_each (λ node : Node_,
          if bool_decide (is_Some (children node)) then
            n <~ ingest (data node) ;;
            _ <~ push a n ;;
            src <~ source_ ;;
            push src n
          else ret tt) L s = (Ok tt, s')
      ∧ elems (array_at s' a) = elems (array_at s a) ++ inner_records L
      ∧ elems (array_at s' src) = elems (array_at s src) ++ inner_records L
      ∧ (∀ x, x ≠ a → x ≠ src → array_at s' x = array_at s x)
      ∧ pulses s' = pulses s ∧ values s' = values s ∧ trees s' = trees s
      ∧ (∀ x, isTuple s x = true → isTuple s' x = true)
      ∧ Forall (λ x, isTuple s' x = true) (inner_records L).
Proof.
  intros -> Hne. induction L as [|node L IH]; intros s.
  - exists s. split; [done|]. unfold inner_records. simpl. rewrite !app_nil_r.
    repeat (split; [done|]). constructor.
  - cbn [for_each]. unfold inner_records. rewrite filter_cons.
    destruct (bool_decide (is_Some (children node))) eqn:Hc.
    + apply bool_decide_eq_true in Hc. rewrite decide_True by done.
      destruct (ingest_run (data node) s) as (s1 & H1 & A1 & P1 & V1 & T1 & I1 & M1).
      rewrite bind_run, bind_run, H1, bind_run. unfold push at 1, modify at 1.
      cbn [fst snd]. rewrite bind_run. cbn [ret].
      unfold push at 1, modify at 1. cbn [fst snd].
      match goal with |- context [for_each _ L ?s'] => set (s2 := s') end.
      assert (elems (array_at s2 a) = elems (array_at s a) ++ [data node]) as Ea.
      { unfold s2. rewrite array_at_set_ne, array_at_set_eq by done. simpl.
        by rewrite (array_at_arrays s s1). }
      assert (elems (array_at s2 src) = elems (array_at s src) ++ [data node]) as Es.
      { unfold s2. rewrite array_at_set_eq. simpl.
        rewrite array_at_set_ne by done. by rewrite (array_at_arrays s s1). }
      assert (∀ x, x ≠ a → x ≠ src → array_at s2 x = array_at s x) as Ex.
      { intros x Hxa Hxs. unfold s2. rewrite !array_at_set_ne by done.
        by apply array_at_arrays. }
      assert (∀ x, isTuple s2 x = isTuple s1 x) as It by done.
      destruct (IH s2) as (s' & Hrun & Ea' & Es' & Ex' & P' & V' & T' & M' & F').
      exists s'. split; [done|].
      split; [rewrite Ea', Ea, <- app_assoc; reflexivity|].
      split; [rewrite Es', Es, <- app_assoc; reflexivity|].
      split; [intros x ? ?; rewrite Ex', Ex; done|].
      split; [by rewrite P'|]. split; [by rewrite V'|]. split; [by rewrite T'|].
      split; [intros x Hx; apply M'; rewrite It; by apply M1|].
      cbn [map]. constructor; [|exact F']. apply M'. by rewrite It.
    + apply bool_decide_eq_false in Hc. rewrite decide_False by done.
      rewrite bind_run. cbn [ret fst snd]. apply IH.
Qed.

Lemma lookup_run t key filter_ (s : State) T :
  trees s !! t = Some T →
  ∃ m, lookup t key filter_ s
       = (Ok t, set_trees <[t := {| nodes := nodes T; lookup_table := Some m |}]> s).
Proof.
  intros HT. eexists. unfold lookup. rewrite bind_run. unfold read_tree at 1.
  rewrite HT. rewrite bind_run. unfold get at 1. rewrite bind_run.
  unfold modify at 1. reflexivity.
Qed.

(** The nodes of the tree the operator holds; none when it holds no tree. *)
Definition old_nodes (s : State) (this : opid) : list Node_ :=
  match value_of s this with
  | VTree t0 => match trees s !! t0 with Some T0 => each (nodes T0) | None => [] end
  | _ => []
  end.

(** X25.  When [Nest] holds no tree yet, or its parameters or the pulse have
    changed, and it returns, the pulse it returns is a copy of the input
    with these changes: [rem] gains the records of the old tree's inner
    nodes that are tuples; with [generate], [add] and the source gain the
    records of the new tree's inner nodes, in the order [each] visits them,
    and each of these records is a tuple afterwards; without [generate],
    [add] and the source hold what the input's hold.  [mod] holds what the
    input's holds, and the operator holds the new tree. *)
Theorem Nest_renests (this : opid) (params : NestParams) (pulse : pid) (s s' : State)
    (P : Pulse) (src0 : loc) (out : pid) :
  pulses s !! pulse = Some P → source P = Some src0 →
  allocated P s → src0 ∈ dom (arrays s) →
  is_null (value_of s this) || nest_modified params || changed ALL P s = true →
  Nest_transform this params pulse s = (Ok out, s') →
  ∃ O src t T,
    pulses s' !! out = Some O ∧ source O = Some src
    ∧ value_of s' this = VTree t ∧ trees s' !! t = Some T
    ∧ elems (array_at s' (rem O))
      = elems (array_at s (rem P))
        ++ map data (filter (λ node, is_Some (children node)
                                     ∧ isTuple s (data node) = true)
                            (old_nodes s this))
    ∧ elems (array_at s' (mod_ O)) = elems (array_at s (mod_ P))
    ∧ let made := if generate params then inner_records (each (nodes T)) else [] in
      elems (array_at s' (add O)) = elems (array_at s (add P)) ++ made
      ∧ elems (array_at s' src) = elems (array_at s src0) ++ made
      ∧ Forall (λ x, isTuple s' x = true) made.
Proof.
  intros HP Hsrc Halloc Hs Hrun Hret. unfold Nest_transform in Hret.
  rewrite bind_run in Hret. unfold read_pulse at 1 in Hret. rewrite HP, Hsrc in Hret.
  destruct (clone_run pulse s P src0 HP Hsrc Halloc Hs)
    as (out1 & s1 & O & src & f & g & Hclone & Hs1 & HO & HsO & Hnd
        & Ea & Er & Em & Es & Hold).
  rewrite bind_run, Hclone, bind_run in Hret. unfold read_pulse at 1 in Hret.
  rewrite HO in Hret. rewrite bind_run in Hret. unfold read_value at 1 in Hret.
  cbn [fst snd] in Hret.
  assert (value_of s1 this = value_of s this) as Hv1 by (by rewrite Hs1).
  assert (trees s1 = trees s) as Ht1 by (by rewrite Hs1).
  assert (isTuple s1 = isTuple s) as Hi1 by (by rewrite Hs1).
  rewrite Hv1 in Hret. rewrite bind_run in Hret. unfold get at 1 in Hret.
  assert (changed ALL P s1 = changed ALL P s) as Hch.
  { destruct Halloc as (Ha & Hr & Hm). unfold changed. by rewrite !Hold. }
  rewrite Hch, Hrun in Hret.
  apply NoDup_cons in Hnd as [Har Hnd]. apply NoDup_cons in Hnd as [Hrm Hnd].
  apply NoDup_cons in Hnd as [Hms _].
  assert (add O ≠ rem O ∧ add O ≠ mod_ O ∧ add O ≠ src ∧ rem O ≠ mod_ O
          ∧ rem O ≠ src ∧ mod_ O ≠ src) as (Nar & Nam & Nas & Nrm & Nrs & Nms)
    by set_solver.
  apply bind_Ok in Hret as (tree' & s9 & Hblock & Hret).
  unfold source_of in Hret. rewrite HsO in Hret. rewrite bind_run in Hret. cbn [ret] in Hret.
  rewrite bind_run in Hret. unfold set_root at 1, modify at 1 in Hret.
  cbn [fst snd ret] in Hret. injection Hret as <- <-.
  (* collect nodes to remove *)
  apply bind_Ok in Hblock as ([] & s2 & Hloop & Hblock).
  assert (pushed_to (rem O) s1 s2
          ∧ elems (array_at s2 (rem O))
            = elems (array_at s1 (rem O))
              ++ map data (filter (λ node, is_Some (children node)
                                           ∧ isTuple s (data node) = true)
                                  (old_nodes s this))) as [Hpushed Hrem].
  { unfold old_nodes. destruct (value_of s this) as [|t0|l0].
    - injection Hloop as <-. split; [by repeat split|]. by rewrite app_nil_r.
    - cbn [as_tree] in Hloop. rewrite bind_run in Hloop. cbn [ret] in Hloop.
      rewrite bind_run in Hloop. unfold read_tree at 1 in Hloop.
      rewrite Ht1 in Hloop. destruct (trees s !! t0) as [T0|]; [|done].
      destruct (retract_loop (rem O) (each (nodes T0)) s1) as (s2' & Hrun' & Hp & He).
      rewrite Hrun' in Hloop. injection Hloop as <-. split; [done|].
      by rewrite He, Hi1.
    - done. }
  destruct Hpushed as (Harr2 & Hp2 & Hv2 & Htid2 & Hn2 & Ho2 & Hl2 & Htr2 & Hpr2).
  (* generate new tree structure *)
  unfold source_of in Hblock. rewrite HsO in Hblock.
  rewrite bind_run in Hblock. cbn [ret] in Hblock.
  rewrite bind_run in Hblock. unfold read_array at 1 in Hblock.
  rewrite bind_run in Hblock. unfold lift at 1 in Hblock.
  destruct (Nest.nest_entries _ _ _) as [e|]; [|done].
  destruct (label_run e s2) as (vs & s4 & Hlab & (A4 & P4 & I4 & N4) & V4 & T4).
  rewrite bind_run, Hlab in Hblock.
  rewrite bind_run in Hblock. unfold new_object at 1 in Hblock. cbn [fst snd] in Hblock.
  rewrite bind_run in Hblock. unfold new_tree at 1 in Hblock. cbn [fst snd] in Hblock.
  rewrite bind_run in Hblock. unfold write_value at 1, modify at 1 in Hblock.
  cbn [fst snd] in Hblock.
  apply bind_Ok in Hblock as ([] & s8 & Hgen & Hblock).
  match type of Hgen with context [set_trees <[?t0 := ?T0]> _] =>
    set (t := t0) in *; set (T1 := T0) in *
  end.
  match type of Hgen with context [set_values ?f ?s0] =>
    set (s7 := set_values f s0) in *
  end.
  assert (arrays s7 = arrays s2 ∧ pulses s7 = pulses s2 ∧ tids s7 = tids s2) as (A7 & P7 & I7).
  { unfold s7. simpl. by rewrite A4, P4, I4. }
  assert (trees s7 !! t = Some T1) as HT7 by (unfold s7; simpl; apply lookup_insert_eq).
  assert (value_of s7 this = VTree t) as HV7
    by (unfold value_of, s7; simpl; by rewrite lookup_insert_eq).
  (* collect nodes to add *)
  assert (let made := if generate params then inner_records (each (nodes T1)) else [] in
          elems (array_at s8 (add O)) = elems (array_at s7 (add O)) ++ made
          ∧ elems (array_at s8 src) = elems (array_at s7 src) ++ made
          ∧ (∀ x, x ≠ add O → x ≠ src → array_at s8 x = array_at s7 x)
          ∧ pulses s8 = pulses s7 ∧ values s8 = values s7 ∧ trees s8 = trees s7
          ∧ Forall (λ x, isTuple s8 x = true) made)
    as (Ga & Gs & Gx & Gp & Gv & Gt & Gi).
  { destruct (generate params).
    - rewrite bind_run in Hgen. unfold read_tree at 1 in Hgen. rewrite HT7 in Hgen.
      destruct (generate_loop (ret src) (add O) src (each (nodes T1)) eq_refl Nas s7)
        as (s8' & Hrun' & R1 & R2 & R3 & R4 & R5 & R6 & _ & R8).
      rewrite Hrun' in Hgen. injection Hgen as <-. done.
    - injection Hgen as <-. cbn zeta. rewrite !app_nil_r. repeat (split; [done|]).
      constructor. }
  (* build lookup table *)
  destruct (lookup_run t tupleid_key tupleid_truthy s8 T1) as (m & Hlook);
    [by rewrite Gt|].
  rewrite bind_run, Hlook in Hblock. injection Hblock as <- <-.
  set (T := {| nodes := nodes T1; lookup_table := Some m |}).
  exists O, src, t, T.
  split; [simpl; by rewrite Gp, P7, Hp2|]. split; [done|].
  split; [unfold value_of in *; simpl; by rewrite Gv|].
  split; [simpl; apply lookup_insert_eq|].
  assert (∀ x, array_at s7 x = array_at s2 x) as A72
    by (intros x; by apply array_at_arrays).
  split.
  { rewrite array_at_set_ne by done.
    change (array_at (set_trees _ s8) (rem O)) with (array_at s8 (rem O)).
    rewrite Gx, A72, Hrem, Er by done. done. }
  split.
  { rewrite array_at_set_ne by done.
    change (array_at (set_trees _ s8) (mod_ O)) with (array_at s8 (mod_ O)).
    rewrite Gx, A72, Harr2, Em by done. done. }
  cbn zeta in *. change (nodes T) with (nodes T1).
  split.
  { rewrite array_at_set_ne by done.
    change (array_at (set_trees _ s8) (add O)) with (array_at s8 (add O)).
    rewrite Ga, A72, Harr2, Ea by done. done. }
  split.
  { rewrite array_at_set_eq. cbn [elems].
    change (array_at (set_trees _ s8) src) with (array_at s8 src).
    rewrite Gs, A72, Harr2, Es by done. done. }
  exact Gi.
Qed.

(** *** When [Stratify] keeps its tree *)

Lemma fork_all_run pulse (s : State) P :
  pulses s !! pulse = Some P →
  fork ALL pulse s
  = (Ok (fresh (dom (pulses s))),
     set_pulses <[fresh (dom (pulses s)) :=
                    {| add := add P; rem := rem P; mod_ := mod_ P; source := source P;
                       fields := fields P; stamp := stamp P |}]> s).
Proof.
  intros HP. unfold fork. rewrite bind_run. unfold read_pulse at 1. rewrite HP.
  change (has ADD ALL) with true. change (has REM ALL) with true.
  change (has MOD ALL) with true. change (has NO_SOURCE ALL) with false.
  reflexivity.
Qed.

(** X28.  When [Stratify] holds a tree, its parameters are unmodified, and
    the pulse adds and removes nothing and modifies neither the key field
    nor the parent key field, the transform returns without building a
    tree: the operator's value, the trees and the tuple identities are as
    they were, and so is every array of the store.  The pulse it returns
    shares [add], [rem] and [mod] with the input, so that modifications of
    other fields flow on, and has for source a new array with the elements
    of the input's source and the kept tree as [root]. *)
Theorem Stratify_keeps_tree (this : opid) (params : StratifyParams) (pulse : pid)
    (s : State) (P : Pulse) (src0 : loc) (t : treeref) :
  pulses s !! pulse = Some P → source P = Some src0 →
  value_of s this = VTree t → stratify_modified params = false →
  changed ADD_REM P s = false →
  modified (acc_fields (key params)) P s = false →
  modified (acc_fields (parentKey params)) P s = false →
  ∃ out s' O src, Stratify_transform this params pulse s = (Ok out, s')
    ∧ pulses s' !! out = Some O
    ∧ add O = add P ∧ rem O = rem P ∧ mod_ O = mod_ P ∧ source O = Some src
    ∧ (src ∉ dom (arrays s))
    ∧ elems (array_at s' src) = elems (array_at s src0)
    ∧ root (array_at s' src) = VTree t
    ∧ values s' = values s ∧ trees s' = trees s ∧ tids s' = tids s
    ∧ ∀ x, x ∈ dom (arrays s) → arrays s' !! x = arrays s !! x.
Proof.
  intros HP Hsrc Hval Hmod Hchanged Hkey Hparent.
  assert (values s !! this = Some (VTree t)) as Hthis.
  { unfold value_of in Hval. destruct (values s !! this) as [v|]; simpl in Hval;
      [by rewrite Hval|discriminate Hval]. }
  unfold Stratify_transform. rewrite bind_run. unfold read_pulse at 1.
  rewrite HP, Hsrc. rewrite bind_run. unfold read_value at 1. cbn [fst snd].
  rewrite Hval. rewrite bind_run, (fork_all_run pulse s P HP).
  set (out := fresh (dom (pulses s))).
  set (O := {| add := add P; rem := rem P; mod_ := mod_ P; source := source P;
               fields := fields P; stamp := stamp P |}).
  set (s1 := set_pulses <[out := O]> s).
  unfold materialize. rewrite bind_run. cbn [ret]. rewrite bind_run. unfold get at 1.
  change (changed ADD_REM P s1) with (changed ADD_REM P s).
  change (modified (acc_fields (key params)) P s1)
    with (modified (acc_fields (key params)) P s).
  change (modified (acc_fields (parentKey params)) P s1)
    with (modified (acc_fields (parentKey params)) P s).
  rewrite Hmod, Hchanged, Hkey, Hparent. cbn [is_null orb].
  rewrite bind_run. unfold read_pulse at 1.
  assert (pulses s1 !! out = Some O) as -> by apply lookup_insert_eq.
  unfold source_of. change (source O) with (source P). rewrite Hsrc.
  rewrite bind_run. cbn [ret]. rewrite bind_run, slice_run.
  set (src := fresh (dom (arrays s1))).
  rewrite bind_run. unfold write_pulse at 1, modify at 1. cbn [fst snd].
  rewrite bind_run. cbn [ret]. rewrite bind_run. unfold write_value at 1, modify at 1.
  cbn [fst snd]. rewrite bind_run. unfold set_root at 1, modify at 1. cbn [fst snd ret].
  eexists out, _, (with_source (Some src) O), src. split; [reflexivity|].
  split; [simpl; apply lookup_insert_eq|].
  do 4 (split; [reflexivity|]).
  split; [apply (is_fresh (dom (arrays s)))|].
  split.
  { rewrite array_at_set_eq. cbn [elems].
    match goal with |- elems (array_at ?s0 src) = _ =>
      change (array_at s0 src) with (array_at (sliced src0 s1) src) end.
    destruct (sliced_new src0 s1) as [Hnew _]. fold src in Hnew. by rewrite Hnew. }
  split; [by rewrite array_at_set_eq|].
  split; [simpl; by apply insert_id|].
  split; [reflexivity|]. split; [reflexivity|].
  intros x Hx. simpl.
  assert (x ≠ src) as Hne by (intros ->; by apply (is_fresh (dom (arrays s)))).
  by rewrite !lookup_insert_ne.
Qed.

(** *** The pulse a tree transform returns *)

(** Computations that write no pulse. *)
Definition keeps_pulses {A} (m : M A) : Prop :=
  ∀ s, pulses (snd (m s)) = pulses s.

Lemma keeps_pulses_bind {A B} (m : M A) (k : A → M B) :
  keeps_pulses m → (∀ a, keeps_pulses (k a)) → keeps_pulses (bind m k).
Proof.
  intros Hm Hk s. rewrite bind_run. specialize (Hm s).
  destruct (m s) as [[a|e] s1]; simpl in *; [|done]. by rewrite (Hk a s1).
Qed.

Lemma keeps_pulses_for_each {X} (f : X → M unit) (l : list X) :
  (∀ x, keeps_pulses (f x)) → keeps_pulses (for_each f l).
Proof.
  intros Hf. induction l as [|x l IH]; simpl; [done|].
  apply keeps_pulses_bind; [apply Hf|]. intros _. exact IH.
Qed.

Lemma keeps_pulses_preserves {A} (m : M A) : preserves m → keeps_pulses m.
Proof. intros Hm s. by destruct (Hm s). Qed.

Ltac keeps_pulses_prim :=
  intros ?;
  unfold read_pulse, read_value, read_array, read_tree, write_value, new_tree,
    new_object, ingest, source_of, as_tree, as_array, lift, get, modify, ret, throw,
    error, push, set_root, slice, new_array;
  repeat case_match; simpl; reflexivity.

Ltac keeps_pulses_tac :=
  cbv beta zeta;
  lazymatch goal with
  | |- keeps_pulses (bind _ _) =>
    apply keeps_pulses_bind; [keeps_pulses_tac|intros ?; keeps_pulses_tac]
  | |- keeps_pulses (for_each _ _) =>
    apply keeps_pulses_for_each; intros ?; keeps_pulses_tac
  | |- keeps_pulses (label _) => apply keeps_pulses_preserves, preserves_label
  | |- keeps_pulses (lookup _ _ _) => apply keeps_pulses_preserves, preserves_lookup
  | |- keeps_pulses (new_link _ _) => unfold new_link; keeps_pulses_tac
  | |- keeps_pulses (if ?c then _ else _) => destruct c; keeps_pulses_tac
  | |- keeps_pulses (match ?x with _ => _ end) => destruct x; keeps_pulses_tac
  | |- _ => keeps_pulses_prim
  end.

(** [O] is a copy of [P] as [clone] makes it in the store [s]: the stamp and
    the fields of [P], over sequences and a source that are arrays new to
    [s]. *)
Definition copy_of (s : State) (P O : Pulse) : Prop :=
  stamp O = stamp P ∧ fields O = fields P
  ∧ (add O ∉ dom (arrays s)) ∧ (rem O ∉ dom (arrays s)) ∧ (mod_ O ∉ dom (arrays s))
  ∧ ∃ src, source O = Some src ∧ src ∉ dom (arrays s).

(** [O] is [fork(ALL)] of [P] with a copy of the source in place of the
    source: the stamp, the fields and the three sequences of [P] themselves,
    over a source that is an array new to [s]. *)
Definition fork_with_source_copy (s : State) (P O : Pulse) : Prop :=
  stamp O = stamp P ∧ fields O = fields P
  ∧ add O = add P ∧ rem O = rem P ∧ mod_ O = mod_ P
  ∧ ∃ src, source O = Some src ∧ src ∉ dom (arrays s).

(** [O] is [fork(NO_SOURCE)] of [P] as [TreeLinks] leaves it: the stamp and
    the fields of [P], no source, [add] and [mod] arrays new to [s]; [rem] is
    the array of links the operator held when the pulse adds or removes
    tuples, and an array new to [s] otherwise. *)
Definition fork_without_source (s : State) (this : opid) (P O : Pulse) : Prop :=
  stamp O = stamp P ∧ fields O = fields P ∧ source O = None
  ∧ (add O ∉ dom (arrays s)) ∧ (mod_ O ∉ dom (arrays s))
  ∧ if changed ADD_REM P s then value_of s this = VArr (rem O)
    else rem O ∉ dom (arrays s).

(** The transform [m], when it returns, returns the address of a pulse of the
    store it leaves, derived from the input pulse as [D] says. *)
Definition returns_derived (m : M pid) (pulse : pid) (s : State)
    (D : Pulse → Pulse → Prop) : Prop :=
  ∀ out, fst (m s) = Ok out →
    ∃ P O, pulses s !! pulse = Some P ∧ pulses (snd (m s)) !! out = Some O ∧ D P O.

Lemma sliced_dom l (s : State) x : x ∈ dom (arrays s) → x ∈ dom (arrays (sliced l s)).
Proof. intros Hx. by destruct (sliced_old l s x Hx) as (_ & ? & _). Qed.

(** The pulse [clone] makes. *)
Lemma clone_pulse pulse (s : State) P src0 :
  pulses s !! pulse = Some P → source P = Some src0 →
  ∃ s1 O, clone pulse s = (Ok (fresh (dom (pulses s))), s1)
    ∧ pulses s1 = <[fresh (dom (pulses s)) := O]> (pulses s)
    ∧ copy_of s P O.
Proof.
  intros HP Hsrc. unfold clone. rewrite bind_run. unfold read_pulse at 1.
  rewrite HP, Hsrc.
  pose (s_a := sliced (add P) s). pose (s_r := sliced (rem P) s_a).
  pose (s_m := sliced (mod_ P) s_r). pose (s_s := sliced src0 s_m).
  pose (O := {| add := fresh (dom (arrays s)); rem := fresh (dom (arrays s_a));
                mod_ := fresh (dom (arrays s_r));
                source := Some (fresh (dom (arrays s_m)));
                fields := fields P; stamp := stamp P |}).
  exists (set_pulses <[fresh (dom (pulses s)) := O]> s_s), O.
  split; [reflexivity|]. split; [reflexivity|].
  assert (∀ x, x ∈ dom (arrays s) → x ∈ dom (arrays s_a) ∧ x ∈ dom (arrays s_r)
                                    ∧ x ∈ dom (arrays s_m)) as Hdom.
  { intros x Hx. pose proof (sliced_dom (add P) s x Hx) as H1.
    pose proof (sliced_dom (rem P) s_a x H1) as H2.
    pose proof (sliced_dom (mod_ P) s_r x H2) as H3. done. }
  split; [done|]. split; [done|].
  split; [apply is_fresh|].
  split; [intros Hin; apply (is_fresh (dom (arrays s_a))); by apply Hdom|].
  split; [intros Hin; apply (is_fresh (dom (arrays s_r))); by apply Hdom|].
  eexists. split; [reflexivity|].
  intros Hin. apply (is_fresh (dom (arrays s_m))). by apply Hdom.
Qed.

Lemma Nest_returns_copy this params pulse (s : State) :
  returns_derived (Nest_transform this params pulse) pulse s (copy_of s).
Proof.
  intros out Hout. pose proof (Nest_returns_clone _ _ _ _ _ Hout) as Hclone.
  destruct (pulses s !! pulse) as [P|] eqn:HP; cycle 1.
  { revert Hout. unfold Nest_transform. rewrite bind_run. unfold read_pulse at 1.
    by rewrite HP. }
  destruct (source P) as [src0|] eqn:Hsrc; cycle 1.
  { revert Hout. unfold Nest_transform. rewrite bind_run. unfold read_pulse at 1.
    by rewrite HP, Hsrc. }
  destruct (clone_pulse pulse s P src0 HP Hsrc) as (s1 & O & Hrun & Hp1 & Hcopy).
  rewrite Hrun in Hclone. injection Hclone as <-.
  assert (∃ K, keeps_pulses K ∧ Nest_transform this params pulse s = K s1)
    as (K & HK & ->).
  { unfold Nest_transform. rewrite bind_run. unfold read_pulse at 1.
    rewrite HP, Hsrc, bind_run, Hrun.
    match goal with |- ∃ K, _ ∧ ?K0 s1 = _ => exists K0 end.
    split; [keeps_pulses_tac|reflexivity]. }
  exists P, O. split; [done|]. split; [|done].
  rewrite (HK s1), Hp1. apply lookup_insert_eq.
Qed.

Lemma Stratify_returns_shared this params pulse (s : State) :
  returns_derived (Stratify_transform this params pulse) pulse s
    (fork_with_source_copy s).
Proof.
  intros out Hout. pose proof (Stratify_returns_fork _ _ _ _ _ Hout) as Hfork.
  destruct (pulses s !! pulse) as [P|] eqn:HP; cycle 1.
  { revert Hout. unfold Stratify_transform. rewrite bind_run. unfold read_pulse at 1.
    by rewrite HP. }
  destruct (source P) as [src0|] eqn:Hsrc; cycle 1.
  { revert Hout. unfold Stratify_transform. rewrite bind_run. unfold read_pulse at 1.
    by rewrite HP, Hsrc. }
  rewrite (fork_all_run pulse s P HP) in Hfork. injection Hfork as <-.
  set (out1 := fresh (dom (pulses s))).
  pose (O := {| add := add P; rem := rem P; mod_ := mod_ P; source := source P;
                fields := fields P; stamp := stamp P |}).
  pose (s1 := set_pulses <[out1 := O]> s).
  pose (src := fresh (dom (arrays s1))).
  pose (s3 := set_pulses <[out1 := with_source (Some src) O]> (sliced src0 s1)).
  assert (∃ K, keeps_pulses K ∧ Stratify_transform this params pulse s = K s3)
    as (K & HK & ->).
  { unfold Stratify_transform. rewrite bind_run. unfold read_pulse at 1.
    rewrite HP, Hsrc, bind_run. unfold read_value at 1. cbn [fst snd].
    rewrite bind_run, (fork_all_run pulse s P HP). fold out1 O s1.
    unfold materialize. rewrite bind_run. cbn [ret]. rewrite bind_run. unfold get at 1.
    rewrite bind_run. unfold read_pulse at 1.
    assert (pulses s1 !! out1 = Some O) as -> by apply lookup_insert_eq.
    unfold source_of at 1. change (source O) with (source P). rewrite Hsrc.
    rewrite bind_run. cbn [ret]. rewrite bind_run, slice_run. fold src.
    rewrite bind_run. unfold write_pulse at 1, modify at 1. cbn [fst snd].
    fold s3.
    match goal with |- ∃ K, _ ∧ ?K0 s3 = _ => exists K0 end.
    split; [keeps_pulses_tac|reflexivity]. }
  exists P, (with_source (Some src) O). split; [done|].
  split; [rewrite (HK s3); apply lookup_insert_eq|].
  do 5 (split; [reflexivity|]). exists src. split; [reflexivity|].
  apply (is_fresh (dom (arrays s))).
Qed.

(** The record [fork(NO_SOURCE)] makes. *)
Lemma fork_no_source_run pulse (s : State) P :
  pulses s !! pulse = Some P →
  ∃ s1 O, fork [NO_SOURCE] pulse s = (Ok (fresh (dom (pulses s))), s1)
    ∧ pulses s1 = <[fresh (dom (pulses s)) := O]> (pulses s)
    ∧ values s1 = values s
    ∧ (∀ x, array_at s1 x = array_at s x)
    ∧ stamp O = stamp P ∧ fields O = fields P ∧ source O = None
    ∧ (add O ∉ dom (arrays s)) ∧ (rem O ∉ dom (arrays s)) ∧ (mod_ O ∉ dom (arrays s)).
Proof.
  intros HP. unfold fork, bind, read_pulse. rewrite HP.
  change (has ADD [NO_SOURCE]) with false. change (has REM [NO_SOURCE]) with false.
  change (has MOD [NO_SOURCE]) with false. cbv beta iota.
  pose (new := {| elems := []; root := VNull |}).
  pose (s_a := set_arrays <[fresh (dom (arrays s)) := new]> s).
  pose (s_r := set_arrays <[fresh (dom (arrays s_a)) := new]> s_a).
  pose (s_m := set_arrays <[fresh (dom (arrays s_r)) := new]> s_r).
  exists (set_pulses <[fresh (dom (pulses s_m)) :=
       {| add := fresh (dom (arrays s)); rem := fresh (dom (arrays s_a));
          mod_ := fresh (dom (arrays s_r)); source := None;
          fields := fields P; stamp := stamp P |}]> s_m),
    {| add := fresh (dom (arrays s)); rem := fresh (dom (arrays s_a));
       mod_ := fresh (dom (arrays s_r)); source := None;
       fields := fields P; stamp := stamp P |}.
  split; [reflexivity|]. split; [reflexivity|]. split; [reflexivity|].
  split.
  { intros x. change (array_at (set_pulses _ s_m) x) with (array_at s_m x).
    subst s_m s_r s_a. by rewrite !array_at_new_array. }
  do 3 (split; [reflexivity|]). cbn [add rem mod_].
  assert (∀ x, x ∈ dom (arrays s) → x ∈ dom (arrays s_a) ∧ x ∈ dom (arrays s_r)) as Hdom.
  { intros x Hx. subst s_r s_a. simpl. rewrite !dom_insert. set_solver. }
  split; [apply is_fresh|].
  split; intros Hin; [apply (is_fresh (dom (arrays s_a)))
                     |apply (is_fresh (dom (arrays s_r)))]; by apply Hdom.
Qed.

Lemma TreeLinks_returns_forked this pulse (s : State) :
  returns_derived (TreeLinks_transform this pulse) pulse s (fork_without_source s this).
Proof.
  intros out Hout. pose proof (TreeLinks_returns_fork _ _ _ _ Hout) as Hfork.
  destruct (pulses s !! pulse) as [P|] eqn:HP; cycle 1.
  { revert Hout. unfold TreeLinks_transform. rewrite bind_run.
    unfold read_value at 1. cbn [fst snd]. rewrite bind_run. unfold read_pulse at 1.
    by rewrite HP. }
  destruct (fork_no_source_run pulse s P HP)
    as (s1 & O & Hrun & Hp1 & Hv1 & Harr & Hst & Hfi & Hso & Ha & Hr & Hm).
  rewrite Hrun in Hfork. injection Hfork as <-.
  set (out1 := fresh (dom (pulses s))) in *.
  assert (pulses s1 !! out1 = Some O) as HO by (rewrite Hp1; apply lookup_insert_eq).
  assert (changed ADD_REM P s1 = changed ADD_REM P s) as Hch
    by (unfold changed; by rewrite !Harr).
  assert (∃ K s3 O', keeps_pulses K ∧ TreeLinks_transform this pulse s = K s3
                     ∧ pulses s3 !! out1 = Some O' ∧ fork_without_source s this P O')
    as (K & s3 & O' & HK & -> & HO' & HD).
  { remember (TreeLinks_transform this pulse s) as X eqn:HX. revert HX.
    unfold TreeLinks_transform. rewrite bind_run.
    unfold read_value at 1. cbn [fst snd]. rewrite bind_run. unfold read_pulse at 1.
    rewrite HP, bind_run. unfold get at 1. rewrite bind_run, Hrun.
    rewrite bind_run. unfold read_pulse at 1. rewrite HO.
    destruct (is_null _); [by intros ->|].
    rewrite bind_run. unfold get at 1. rewrite Hch.
    unfold fork_without_source.
    destruct (changed ADD_REM P s) eqn:Hchanged.
    - rewrite bind_run. destruct (value_of s this) as [|t0|l] eqn:Hval;
        [by intros ->|by intros ->|].
      cbn [as_array ret]. rewrite bind_run. unfold write_pulse at 1, modify at 1.
      cbn [fst snd].
      match goal with |- _ = ?K0 ?s0 → _ =>
        intros HX; exists K0, s0, (with_rem l O) end.
      split; [keeps_pulses_tac|]. split; [done|].
      split; [apply lookup_insert_eq|]. by repeat split.
    - match goal with |- _ = ?K0 s1 → _ => intros HX; exists K0, s1, O end.
      split; [keeps_pulses_tac|]. by repeat split. }
  exists P, O'. split; [done|]. split; [|done]. by rewrite (HK s3).
Qed.

(** C2.  Nest, Stratify and TreeLinks each leave the pulse they are given
    alone: the pulse object and its [add], [rem] and [mod] are after the call
    what they were before it.  The pulse each returns is a pulse of the store
    it leaves, made by [clone] (Nest) or [fork] (Stratify, TreeLinks) and
    never the input pulse itself: for Nest a copy, with the stamp and the
    fields of the input over arrays of its own; for Stratify the stamp, the
    fields and the three sequences of the input over a copy of the source;
    for TreeLinks the stamp and the fields of the input, without source,
    over new [add] and [mod], with the links the operator held for [rem] when
    the pulse adds or removes tuples. *)
Theorem tree_transforms_leave_input_alone (this : opid) (pulse : pid) (s : State)
    (nest_params : NestParams) (stratify_params : StratifyParams) :
  (leaves_input_alone (Nest_transform this nest_params pulse) (clone pulse) pulse s
   ∧ returns_derived (Nest_transform this nest_params pulse) pulse s (copy_of s))
  ∧ (leaves_input_alone (Stratify_transform this stratify_params pulse)
       (fork ALL pulse) pulse s
     ∧ returns_derived (Stratify_transform this stratify_params pulse) pulse s
         (fork_with_source_copy s))
  ∧ (leaves_input_alone (TreeLinks_transform this pulse)
       (fork [NO_SOURCE] pulse) pulse s
     ∧ returns_derived (TreeLinks_transform this pulse) pulse s
         (fork_without_source s this)).
Proof.
  split; [|split]; split.
  - apply leaves_input_alone_intro.
    + apply Nest_transform_kept.
    + apply Nest_returns_clone.
    + unfold clone. by eexists.
  - apply Nest_returns_copy.
  - apply leaves_input_alone_intro.
    + apply Stratify_transform_kept.
    + apply Stratify_returns_fork.
    + unfold fork. by eexists.
  - apply Stratify_returns_shared.
  - apply leaves_input_alone_intro.
    + apply TreeLinks_transform_kept.
    + apply TreeLinks_returns_fork.
    + unfold fork. by eexists.
  - apply TreeLinks_returns_forked.
Qed.

End Transforms.

(** *** A small model of the collaborators, to run the transforms on *)

(** A tree is the list of its nodes in document order, each with its depth;
    [each] visits them level by level. *)
Definition sample_node (d : ref) (c : nat) (p : option ref) : Node nat :=
  {| data := d; children := if Nat.eqb c 0 then None else Some c; parent := p;
     attr := λ _, 0 |}.

Fixpoint sample_hierarchy_at (depth : nat) (p : option ref) (self : ref)
    (vs : Labelled) : list (nat * Node nat) :=
  match vs with
  | LLeaves array =>
    (depth, sample_node self (length array) p)
    :: map (λ t, (S depth, sample_node t 0 (Some self))) array
  | LGroups groups =>
    (depth, sample_node self (length groups) p)
    :: (fix each_group (gs : list (ref * string * Labelled)) : list (nat * Node nat) :=
          match gs with
          | [] => []
          | (o, _, vs') :: gs' =>
            sample_hierarchy_at (S depth) (Some self) o vs' ++ each_group gs'
          end) groups
  end.

Definition sample_each (t : list (nat * Node nat)) : list (Node nat) :=
  flat_map (λ d, map snd (filter (λ n, fst n = d) t)) (seq 0 (length t)).

(** A stratify that accepts one root with every other record right below
    it, and refuses anything else. *)
Definition sample_stratify (key parentKey : option Accessor) (array : list ref)
    : result (list (nat * Node nat)) :=
  match array with
  | [o] => Ok [(0, sample_node o 0 None)]
  | o :: rest =>
    match key, parentKey with
    | Some k, Some pk =>
      if negb (fv_truthy (acc pk o))
         && forallb (λ t, String.eqb (fv_string (acc pk t)) (fv_string (acc k o))) rest
      then Ok ((0, sample_node o (length rest) None)
               :: map (λ t, (1, sample_node t 0 (Some o))) rest)
      else Throw "sample: not a star"
    | _, _ => Throw "sample: not a star"
    end
  | [] => Throw "no root"
  end.

#[local] Instance sample_collaborators : Collaborators := {|
  Tree_ := list (nat * Node nat);
  AttrVal := nat;
  number := λ n, n;
  each := sample_each;
  hierarchy := sample_hierarchy_at 0 None;
  stratify := sample_stratify;
  Compare := unit;
  stableCompare := λ c, c;
  node_sum := λ _ t, t;
  node_count := λ t, t;
  node_sort := λ _ t, t;
  Layout := list (string * nat);
  Tile := string;
  D3Val := nat;
  d3_pack := [];
  d3_partition := [];
  d3_tree := [];
  d3_cluster := [];
  d3_treemap := [];
  d3_set := λ p v x, (p, v) :: x;
  get_tile := λ _, "squarify";
  set_tile := λ _ x, x;
  Tiles := λ k, k;
  tile_ratio := λ _, None;
  has_separation := λ _, false;
  set_separation := λ _ x, x;
  run_layout := λ _ t, (Ok tt, t);
  reflow := λ _ p st, (p, st);
  modifies := λ _ p st, (p, st)
|}.

Definition empty_array : Arr := {| elems := []; root := VNull |}.

(** Two tuples, [10] and [11], with identities [1] and [2], in the source of
    pulse [0], which also adds them; the source carries the tree [0] with root
    record [12] above the two tuples.  Operator [0] holds nothing yet,
    operator [1] holds the tree, operator [2] the array [4] of links. *)
Definition sample_state : Dataflow.State (@TreeObj sample_collaborators) nat :=
  {| arrays := {[ 0 := {| elems := [10; 11]; root := VNull |};
                  1 := empty_array;
                  2 := empty_array;
                  3 := {| elems := [10; 11]; root := VTree 0 |};
                  4 := empty_array ]};
     pulses := {[ 0 := {| add := 0; rem := 1; mod_ := 2; source := Some 3;
                          fields := FieldSet ∅; stamp := 1 |} ]};
     trees := {[ 0 := {| nodes := sample_hierarchy_at 0 None 12 (LLeaves [10; 11]);
                         lookup_table := None |} ]};
     tids := {[ 10 := 1; 11 := 2 ]};
     next_tid := 3;
     objs := {[ 10; 11; 12 ]};
     links := ∅;
     props := ∅;
     values := {[ 0 := VNull; 1 := VTree 0; 2 := VArr 4 ]} |}.


Definition bogus_method : LayoutParams :=
  {| method := Some "bogus"; as_ := None; field := None; sort := None;
     separation := None; others := ∅; layout_modified := false |}.

Definition generating_nest : NestParams :=
  {| keys := None; generate := true; nest_modified := false |}.

(** Adding a Tree operator with an unknown method name raises nothing; its
    evaluation does. *)
Example Tree_bogus_method_runs :
  fst (construct (ILayout KTree bogus_method) sample_state) = Ok 3
  ∧ fst (transform (ILayout KTree bogus_method) 3 0 sample_state)
    = Throw "Unrecognized Tree layout method: bogus".
Proof. split; vm_compute; reflexivity. Qed.

(** The counterexample to C5 as claimed. *)
Lemma method_error_raised_at_evaluation : ¬ method_errors_raised_when_added.
Proof.
  intros Hclaim.
  destruct (Hclaim (ILayout KTree bogus_method) 3 0 sample_state sample_state
              "Unrecognized Tree layout method: bogus") as [e He].
  - vm_compute. reflexivity.
  - exists "bogus". by left.
  - vm_compute in He. discriminate He.
Qed.

(** Evaluating a Nest operator with [generate] on the sample pulse: the
    root object of the new tree, record [13], enters [add] with the new
    identity [3]. *)
Example Nest_generate_runs :
  let r := transform (INest generating_nest) 0 0 sample_state in
  fst r = Ok 1
  ∧ (add <$> pulses (snd r) !! 1) = Some 5
  ∧ elems (array_at (snd r) 5) = [10; 11; 13]
  ∧ tupleid sample_state 13 = None
  ∧ tupleid (snd r) 13 = Some 3.
Proof. vm_compute. repeat split; reflexivity. Qed.

Lemma Nest_introduces_tuples : introduces_tuples Nest.
Proof.
  exists (INest generating_nest), 0, 0, sample_state, 1.
  exists {| add := 5; rem := 6; mod_ := 7; source := Some 8;
            fields := FieldSet ∅; stamp := 1 |}, 13.
  split; [reflexivity|].
  split; [vm_compute; reflexivity|].
  split; [vm_compute; reflexivity|].
  split; [vm_compute; apply list_elem_of_In; simpl; tauto|].
  split; [vm_compute; reflexivity|].
  vm_compute. eauto.
Qed.

(** The counterexample to C7 as claimed. *)
Lemma Nest_generates_undeclared : ¬ generating_types_declare_generates.
Proof.
  intros Hclaim. specialize (Hclaim Nest Nest_introduces_tuples).
  vm_compute in Hclaim. discriminate Hclaim.
Qed.

(** A store in which pulse [0] changes nothing: its three sequences are
    empty, its source holds the two tuples under the tree [0], and operator
    [1] holds that tree. *)
Definition quiet_pulse : Pulse :=
  {| add := 0; rem := 1; mod_ := 2; source := Some 3; fields := FieldSet ∅; stamp := 2 |}.

Definition quiet_state : Dataflow.State (@TreeObj sample_collaborators) nat :=
  {| arrays := {[ 0 := empty_array; 1 := empty_array; 2 := empty_array;
                  3 := {| elems := [10; 11]; root := VTree 0 |} ]};
     pulses := {[ 0 := quiet_pulse ]};
     trees := {[ 0 := {| nodes := sample_hierarchy_at 0 None 12 (LLeaves [10; 11]);
                         lookup_table := None |} ]};
     tids := {[ 10 := 1; 11 := 2 ]};
     next_tid := 3;
     objs := {[ 10; 11; 12 ]};
     links := ∅;
     props := ∅;
     values := {[ 1 := VTree 0 ]} |}.

Definition unmodified_nest : NestParams :=
  {| keys := None; generate := true; nest_modified := false |}.

Definition by_id : Accessor :=
  {| acc := λ t, {| fv_truthy := true; fv_string := pretty t |}; acc_fields := ["id"] |}.

Definition by_parent : Accessor :=
  {| acc := λ t, {| fv_truthy := negb (Nat.eqb t 10); fv_string := "10" |};
     acc_fields := ["parent"] |}.

Definition unmodified_stratify : StratifyParams :=
  {| key := by_id; parentKey := by_parent; stratify_modified := false |}.

Example noop_pulse_runs :
  fst (Nest_transform 1 unmodified_nest 0 quiet_state) = Ok 1
  ∧ fst (Stratify_transform 1 unmodified_stratify 0 quiet_state) = Ok 1.
Proof. split; vm_compute; reflexivity. Qed.

Lemma noop_pulse_changes_nothing_witness :
  nothing_changed (Nest_transform 1 unmodified_nest 0) quiet_state
  ∧ nothing_changed (Stratify_transform 1 unmodified_stratify 0) quiet_state.
Proof.
  apply (noop_pulse_changes_nothing 1 0 quiet_state quiet_pulse 0
           unmodified_nest unmodified_stratify).
  - vm_compute. reflexivity.
  - repeat split; apply elem_of_dom; vm_compute; eauto.
  - repeat split; vm_compute; reflexivity.
  - vm_compute. reflexivity.
  - reflexivity.
  - reflexivity.
Defined.

(** A pulse with no source at all. *)
Definition sourceless_state : Dataflow.State (@TreeObj sample_collaborators) nat :=
  {| arrays := {[ 0 := empty_array; 1 := empty_array; 2 := empty_array ]};
     pulses := {[ 0 := {| add := 0; rem := 1; mod_ := 2; source := None;
                          fields := FieldSet ∅; stamp := 1 |} ]};
     trees := ∅;
     tids := ∅;
     next_tid := 1;
     objs := ∅;
     links := ∅;
     props := ∅;
     values := {[ 0 := VNull ]} |}.

Lemma transforms_without_tree_source_witness :
  (source {| add := 0; rem := 1; mod_ := 2; source := None;
             fields := FieldSet ∅; stamp := 1 |} = None →
   (∀ params, Nest_transform 0 params 0 sourceless_state
              = (Throw "Nest transform requires an upstream data source.",
                 sourceless_state))
   ∧ (∀ params, Stratify_transform 0 params 0 sourceless_state
                = (Throw "Stratify transform requires an upstream data source.",
                   sourceless_state)))
  ∧ (source {| add := 0; rem := 1; mod_ := 2; source := None;
               fields := FieldSet ∅; stamp := 1 |} = None
     ∨ (∃ src, source {| add := 0; rem := 1; mod_ := 2; source := None;
                         fields := FieldSet ∅; stamp := 1 |} = Some src
               ∧ root (array_at sourceless_state src) = VNull) →
     (∀ k params,
        HierarchyLayout_transform k 0 params 0 sourceless_state
        = (Throw (constructor_name (type_of_kind k)
                  +:+ " transform requires a backing tree data source."),
           sourceless_state))
     ∧ fst (TreeLinks_transform 0 0 sourceless_state)
       = Throw "TreeLinks transform requires a tree data source."
     ∧ values (snd (TreeLinks_transform 0 0 sourceless_state))
       = values sourceless_state).
Proof.
  apply (transforms_without_tree_source 0 0 sourceless_state
           {| add := 0; rem := 1; mod_ := 2; source := None;
              fields := FieldSet ∅; stamp := 1 |}).
  vm_compute. reflexivity.
Defined.



(** A stratified tree: tuple [12] above the tuples [10] and [11], all three
    in the source of pulse [0], which adds [12].  Operator [2] holds the
    array [4], without links yet. *)
Definition added_pulse : Pulse :=
  {| add := 0; rem := 1; mod_ := 2; source := Some 3; fields := FieldSet ∅; stamp := 1 |}.

Definition star : @TreeObj sample_collaborators :=
  {| nodes := sample_hierarchy_at 0 None 12 (LLeaves [10; 11]); lookup_table := None |}.

Definition stratified_state : Dataflow.State (@TreeObj sample_collaborators) nat :=
  {| arrays := {[ 0 := {| elems := [12]; root := VNull |};
                  1 := empty_array;
                  2 := empty_array;
                  3 := {| elems := [12; 10; 11]; root := VTree 0 |};
                  4 := empty_array ]};
     pulses := {[ 0 := added_pulse ]};
     trees := {[ 0 := star ]};
     tids := {[ 10 := 1; 11 := 2; 12 := 3 ]};
     next_tid := 4;
     objs := {[ 10; 11; 12 ]};
     links := ∅;
     props := ∅;
     values := {[ 2 := VArr 4 ]} |}.

(** The two edges of the tree become the links [13] and [14]. *)
Example TreeLinks_sample_links :
  let r := TreeLinks_transform 2 0 stratified_state in
  fst r = Ok 1
  ∧ (add <$> pulses (snd r) !! 1) = Some 5
  ∧ elems (array_at (snd r) 5) = [13; 14]
  ∧ Dataflow.links (snd r) !! 13 = Some (12, 10)
  ∧ Dataflow.links (snd r) !! 14 = Some (12, 11).
Proof. vm_compute. repeat split; reflexivity. Qed.

Lemma TreeLinks_links_tree_edges_witness :
  ∃ out s' O, TreeLinks_transform 2 0 stratified_state = (Ok out, s')
    ∧ pulses s' !! out = Some O
    ∧ rem O = 4 ∧ array_at s' 4 = array_at stratified_state 4
    ∧ value_of s' 2 = VArr (add O)
    ∧ elems (array_at s' (mod_ O)) = []
    ∧ NoDup (elems (array_at s' (add O)))
    ∧ Forall2 (links_edge stratified_state s') (elems (array_at s' (add O)))
        (filter (λ node, eligible stratified_state
                           (visit [SOURCE] (mark stratified_state) added_pulse
                                  stratified_state ∅) node = true)
                (each (nodes star))).
Proof.
  apply (TreeLinks_links_tree_edges 2 0 stratified_state added_pulse 3 4 0 star).
  - vm_compute. reflexivity.
  - reflexivity.
  - vm_compute. reflexivity.
  - vm_compute. reflexivity.
  - vm_compute. reflexivity.
  - apply (bool_decide_unpack _). vm_compute. exact I.
  - vm_compute. reflexivity.
  - assert (each (nodes star)
            = [sample_node 12 2 None; sample_node 10 0 (Some 12);
               sample_node 11 0 (Some 12)]) as -> by (vm_compute; reflexivity).
    repeat (apply Forall_cons; split;
      [split; [apply (bool_decide_unpack _); vm_compute; exact I
              |intros p Hp; simpl in Hp; simplify_eq;
               apply (bool_decide_unpack _); vm_compute; exact I]|]).
    by apply Forall_nil.
Defined.

(** Later, pulse [0] modifies tuple [10]; operator [2] holds the array [5] of
    the links [13] and [14]. *)
Definition modifying_pulse : Pulse :=
  {| add := 0; rem := 1; mod_ := 2; source := Some 3; fields := FieldSet ∅; stamp := 2 |}.

Definition linked_state : Dataflow.State (@TreeObj sample_collaborators) nat :=
  {| arrays := {[ 0 := empty_array;
                  1 := empty_array;
                  2 := {| elems := [10]; root := VNull |};
                  3 := {| elems := [12; 10; 11]; root := VTree 0 |};
                  5 := {| elems := [13; 14]; root := VNull |} ]};
     pulses := {[ 0 := modifying_pulse ]};
     trees := {[ 0 := star ]};
     tids := {[ 10 := 1; 11 := 2; 12 := 3; 13 := 4; 14 := 5 ]};
     next_tid := 6;
     objs := {[ 10; 11; 12; 13; 14 ]};
     links := {[ 13 := (12, 10); 14 := (12, 11) ]};
     props := ∅;
     values := {[ 2 := VArr 5 ]} |}.

(** Only the link into tuple [10] is reported as modified. *)
Example TreeLinks_sample_modified :
  let r := TreeLinks_transform 2 0 linked_state in
  fst r = Ok 1
  ∧ (mod_ <$> pulses (snd r) !! 1) = Some 8
  ∧ elems (array_at (snd r) 8) = [13].
Proof. vm_compute. repeat split; reflexivity. Qed.

Lemma TreeLinks_gathers_modified_witness :
  ∃ out s' O, TreeLinks_transform 2 0 linked_state = (Ok out, s')
    ∧ pulses s' !! out = Some O
    ∧ elems (array_at s' (mod_ O))
      = filter (λ link, incident linked_state
                          (visit [MOD] (mark linked_state) modifying_pulse
                                 linked_state ∅) link = true)
               (elems (array_at linked_state 5))
    ∧ elems (array_at s' (add O)) = [] ∧ elems (array_at s' (rem O)) = []
    ∧ values s' = values linked_state ∧ tids s' = tids linked_state.
Proof.
  apply (TreeLinks_gathers_modified 2 0 linked_state modifying_pulse 3 5).
  - vm_compute. reflexivity.
  - reflexivity.
  - vm_compute. discriminate.
  - vm_compute. reflexivity.
  - vm_compute. reflexivity.
  - vm_compute. reflexivity.
  - change (elems (array_at linked_state 5)) with [13; 14].
    repeat (apply Forall_cons; split; [vm_compute; eauto|]). by apply Forall_nil.
Defined.

Lemma lookup_indexes_nodes_witness :
  ∃ m, lookup 0 tupleid_key tupleid_truthy stratified_state
       = (Ok 0, set_trees <[0 := {| nodes := nodes star; lookup_table := Some m |}]>
                  stratified_state)
    ∧ ∀ k, JsObject.own m k
           = if String.eqb k "__proto__" then None
             else last (filter (λ node, tupleid_truthy stratified_state (data node) = true
                                        ∧ tupleid_key stratified_state (data node) = k)
                               (each (nodes star))).
Proof.
  apply (lookup_indexes_nodes 0 tupleid_key tupleid_truthy stratified_state star).
  vm_compute. reflexivity.
Defined.

(** The sample store after a first evaluation of a generating Nest operator:
    operator [0] holds the new tree, whose root record [13] is a tuple. *)
Definition sample_pulse : Pulse :=
  {| add := 0; rem := 1; mod_ := 2; source := Some 3; fields := FieldSet ∅; stamp := 1 |}.

Definition nested_state : Dataflow.State (@TreeObj sample_collaborators) nat :=
  snd (Nest_transform 0 generating_nest 0 sample_state).

(** Evaluating it again retracts [13] and adds the new root, [14]. *)
Example Nest_renests_sample :
  let r := Nest_transform 0 generating_nest 0 nested_state in
  ∃ O, fst r = Ok 2 ∧ pulses (snd r) !! 2 = Some O
       ∧ elems (array_at (snd r) (rem O)) = [13]
       ∧ elems (array_at (snd r) (add O)) = [10; 11; 14].
Proof. vm_compute. eexists. repeat split; reflexivity. Qed.

Lemma Nest_renests_runs :
  Nest_transform 0 generating_nest 0 nested_state
  = (Ok 2, snd (Nest_transform 0 generating_nest 0 nested_state)).
Proof. vm_compute. reflexivity. Defined.

Lemma Nest_renests_witness :
  ∃ O src t T,
    pulses (snd (Nest_transform 0 generating_nest 0 nested_state)) !! 2 = Some O
    ∧ source O = Some src
    ∧ value_of (snd (Nest_transform 0 generating_nest 0 nested_state)) 0 = VTree t
    ∧ trees (snd (Nest_transform 0 generating_nest 0 nested_state)) !! t = Some T
    ∧ elems (array_at (snd (Nest_transform 0 generating_nest 0 nested_state)) (rem O))
      = elems (array_at nested_state (rem sample_pulse))
        ++ map data (filter (λ node, is_Some (children node)
                                     ∧ isTuple nested_state (data node) = true)
                            (old_nodes nested_state 0))
    ∧ elems (array_at (snd (Nest_transform 0 generating_nest 0 nested_state)) (mod_ O))
      = elems (array_at nested_state (mod_ sample_pulse))
    ∧ let made := if generate generating_nest
                  then inner_records (each (nodes T)) else [] in
      elems (array_at (snd (Nest_transform 0 generating_nest 0 nested_state)) (add O))
      = elems (array_at nested_state (add sample_pulse)) ++ made
      ∧ elems (array_at (snd (Nest_transform 0 generating_nest 0 nested_state)) src)
        = elems (array_at nested_state 3) ++ made
      ∧ Forall (λ x, isTuple (snd (Nest_transform 0 generating_nest 0 nested_state)) x
                     = true) made.
Proof.
  apply (Nest_renests 0 generating_nest 0 nested_state _ sample_pulse 3 2).
  - vm_compute. reflexivity.
  - reflexivity.
  - repeat split; apply elem_of_dom; vm_compute; eauto.
  - apply elem_of_dom. vm_compute. eauto.
  - vm_compute. reflexivity.
  - exact Nest_renests_runs.
Defined.

(** Pulse [0] modifies the field ["value"] of tuple [10]; operator [1] holds
    the tree. *)
Definition restyling_pulse : Pulse :=
  {| add := 0; rem := 1; mod_ := 2; source := Some 3;
     fields := FieldSet {[ "value" ]}; stamp := 2 |}.

Definition restyled_state : Dataflow.State (@TreeObj sample_collaborators) nat :=
  {| arrays := {[ 0 := empty_array;
                  1 := empty_array;
                  2 := {| elems := [10]; root := VNull |};
                  3 := {| elems := [12; 10; 11]; root := VTree 0 |} ]};
     pulses := {[ 0 := restyling_pulse ]};
     trees := {[ 0 := star ]};
     tids := {[ 10 := 1; 11 := 2; 12 := 3 ]};
     next_tid := 4;
     objs := {[ 10; 11; 12 ]};
     links := ∅;
     props := ∅;
     values := {[ 1 := VTree 0 ]} |}.

(** In the sample store each of the three, given pulse [0], returns the new
    pulse [1] and leaves pulse [0] what it was. *)
Lemma tree_transforms_leave_input_alone_witness :
  (∃ P O, fst (Nest_transform 0 generating_nest 0 sample_state) = Ok 1
     ∧ pulses sample_state !! 0 = Some P
     ∧ pulses (snd (Nest_transform 0 generating_nest 0 sample_state)) !! 0 = Some P
     ∧ pulses (snd (Nest_transform 0 generating_nest 0 sample_state)) !! 1 = Some O
     ∧ copy_of sample_state P O)
  ∧ (∃ P O, fst (Stratify_transform 1 unmodified_stratify 0 sample_state) = Ok 1
       ∧ pulses sample_state !! 0 = Some P
       ∧ pulses (snd (Stratify_transform 1 unmodified_stratify 0 sample_state)) !! 0
         = Some P
       ∧ pulses (snd (Stratify_transform 1 unmodified_stratify 0 sample_state)) !! 1
         = Some O
       ∧ fork_with_source_copy sample_state P O)
  ∧ (∃ P O, fst (TreeLinks_transform 2 0 sample_state) = Ok 1
       ∧ pulses sample_state !! 0 = Some P
       ∧ pulses (snd (TreeLinks_transform 2 0 sample_state)) !! 0 = Some P
       ∧ pulses (snd (TreeLinks_transform 2 0 sample_state)) !! 1 = Some O
       ∧ fork_without_source sample_state 2 P O).
Proof.
  split; [|split].
  - destruct (tree_transforms_leave_input_alone 0 0 sample_state generating_nest
                unmodified_stratify) as [[Halone Hret] _].
    assert (fst (Nest_transform 0 generating_nest 0 sample_state) = Ok 1) as Hrun
      by (vm_compute; reflexivity).
    destruct (Hret 1 Hrun) as (P & O & HP & HO & HD).
    destruct Halone as (_ & Hin & _). destruct (Hin P HP) as [HP' _].
    by exists P, O.
  - destruct (tree_transforms_leave_input_alone 1 0 sample_state generating_nest
                unmodified_stratify) as (_ & [Halone Hret] & _).
    assert (fst (Stratify_transform 1 unmodified_stratify 0 sample_state) = Ok 1)
      as Hrun by (vm_compute; reflexivity).
    destruct (Hret 1 Hrun) as (P & O & HP & HO & HD).
    destruct Halone as (_ & Hin & _). destruct (Hin P HP) as [HP' _].
    by exists P, O.
  - destruct (tree_transforms_leave_input_alone 2 0 sample_state generating_nest
                unmodified_stratify) as (_ & _ & [Halone Hret]).
    assert (fst (TreeLinks_transform 2 0 sample_state) = Ok 1) as Hrun
      by (vm_compute; reflexivity).
    destruct (Hret 1 Hrun) as (P & O & HP & HO & HD).
    destruct Halone as (_ & Hin & _). destruct (Hin P HP) as [HP' _].
    by exists P, O.
Defined.


(** *** A layout that fails on a tree laid out before *)

(** d3's [root.count()]: a leaf counts one, a node above counts the leaves
    below it; the count is the node's [value]. *)
Fixpoint leaves_below (d : nat) (t : list (nat * Node nat)) : nat :=
  match t with
  | (d', n) :: t' =>
    if d <? d'
    then match children n with None => 1 | Some _ => 0 end + leaves_below d t'
    else 0
  | [] => 0
  end.

Definition with_value (v : nat) (n : Node nat) : Node nat :=
  {| data := data n; children := children n; parent := parent n;
     attr := λ p, if String.eqb p "value" then v else attr n p |}.

Fixpoint sample_count (t : list (nat * Node nat)) : list (nat * Node nat) :=
  match t with
  | (d, n) :: t' =>
    (d, with_value match children n with
                   | None => 1
                   | Some _ => leaves_below d t'
                   end n) :: sample_count t'
  | [] => []
  end.

(** The sample collaborators with [root.count()] as d3 has it, and layouts
    that throw. *)
Definition failing_collaborators : Collaborators := {|
  Tree_ := list (nat * Node nat);
  AttrVal := nat;
  number := λ n, n;
  each := sample_each;
  hierarchy := sample_hierarchy_at 0 None;
  stratify := sample_stratify;
  Compare := unit;
  stableCompare := λ c, c;
  node_sum := λ _ t, t;
  node_count := sample_count;
  node_sort := λ _ t, t;
  Layout := list (string * nat);
  Tile := string;
  D3Val := nat;
  d3_pack := [];
  d3_partition := [];
  d3_tree := [];
  d3_cluster := [];
  d3_treemap := [];
  d3_set := λ p v x, (p, v) :: x;
  get_tile := λ _, "squarify";
  set_tile := λ _ x, x;
  Tiles := λ k, k;
  tile_ratio := λ _, None;
  has_separation := λ _, false;
  set_separation := λ _ x, x;
  run_layout := λ _ t, (Throw "layout failed", t);
  reflow := λ _ p st, (p, st);
  modifies := λ _ p st, (p, st)
|}.

Definition counting_params : LayoutParams (H := failing_collaborators) :=
  {| method := None; as_ := None; field := None; sort := None; separation := None;
     others := ∅; layout_modified := false |}.

(** The tree [0] as an earlier run with [_.field] left it: the values [3] and
    [4] of the two tuples, and their sum at the root. *)
Definition summed_tree : list (nat * Node nat) :=
  [(0, with_value 7 (sample_node 12 2 None));
   (1, with_value 3 (sample_node 10 0 (Some 12)));
   (1, with_value 4 (sample_node 11 0 (Some 12)))].

Definition summed_root : TreeObj (H := failing_collaborators) :=
  Build_TreeObj (H := failing_collaborators) summed_tree None.

(** The source of pulse [0] carries the tree [0], and the Pack operator [1]
    holds that tree from its earlier run. *)
Definition laid_out_state : Dataflow.State (TreeObj (H := failing_collaborators)) nat :=
  {| arrays := {[ 0 := empty_array;
                  1 := empty_array;
                  2 := empty_array;
                  3 := {| elems := [10; 11]; root := VTree 0 |} ]};
     pulses := {[ 0 := sample_pulse ]};
     trees := {[ 0 := summed_root ]};
     tids := {[ 10 := 1; 11 := 2 ]};
     next_tid := 3;
     objs := {[ 10; 11; 12 ]};
     links := ∅;
     props := ∅;
     values := {[ 1 := VTree 0 ]} |}.

(** [root.value] of a tree of the store. *)
Definition root_value (T : option (TreeObj (H := failing_collaborators))) : option nat :=
  match T with
  | Some T => match nodes T with
              | (_, n) :: _ => Some (attr n "value")
              | [] => None
              end
  | None => None
  end.

Definition unknown_method_params : LayoutParams (H := failing_collaborators) :=
  {| method := Some "bogus"; as_ := None; field := None; sort := None;
     separation := None; others := ∅; layout_modified := false |}.

(** Evaluated again without [_.field], the layout throws: the operator still
    refers to the tree [0], whose root now has the value [2] that
    [root.count()] gave it, not the [7] it had.  The same holds of a Treemap
    operator with a method name it does not know, which throws from
    [setParams], after [root.count()]. *)
Lemma failed_layout_rewrites_stored_tree :
  layout_throws (H := failing_collaborators) KPack counting_params 0 laid_out_state
    "layout failed"
  ∧ fst (HierarchyLayout_transform (H := failing_collaborators) KPack 1 counting_params 0
           laid_out_state) = Throw "Error: layout failed"
  ∧ value_of laid_out_state 1 = VTree 0
  ∧ value_of (snd (HierarchyLayout_transform (H := failing_collaborators) KPack 1
                     counting_params 0 laid_out_state)) 1 = VTree 0
  ∧ root_value (trees laid_out_state !! 0) = Some 7
  ∧ root_value (trees (snd (HierarchyLayout_transform (H := failing_collaborators) KPack 1
                              counting_params 0 laid_out_state)) !! 0) = Some 2
  ∧ ¬ failed_layout_leaves_stored_value (H := failing_collaborators)
  ∧ fst (HierarchyLayout_transform (H := failing_collaborators) KTreemap 1
           unknown_method_params 0 laid_out_state)
    = Throw "Unrecognized Treemap layout method: bogus"
  ∧ value_of (snd (HierarchyLayout_transform (H := failing_collaborators) KTreemap 1
                     unknown_method_params 0 laid_out_state)) 1 = VTree 0
  ∧ root_value (trees (snd (HierarchyLayout_transform (H := failing_collaborators)
                              KTreemap 1 unknown_method_params 0 laid_out_state)) !! 0)
    = Some 2.
Proof.
  assert (layout_throws (H := failing_collaborators) KPack counting_params 0
            laid_out_state "layout failed") as Hthrows.
  { exists sample_pulse, 3, 0, summed_root, [].
    repeat split; vm_compute; reflexivity. }
  split; [exact Hthrows|].
  split; [vm_compute; reflexivity|]. split; [vm_compute; reflexivity|].
  split; [vm_compute; reflexivity|]. split; [vm_compute; reflexivity|].
  split; [vm_compute; reflexivity|].
  split; [|repeat split; vm_compute; reflexivity].
  intros Hclaim.
  destruct (Hclaim KPack 1 counting_params 0 laid_out_state "layout failed" Hthrows)
    as (_ & _ & Htree).
  specialize (Htree 0 ltac:(vm_compute; reflexivity)).
  apply (f_equal root_value) in Htree. vm_compute in Htree. discriminate Htree.
Qed.

Lemma layout_failure_keeps_reference_witness :
  HierarchyLayout_transform (H := failing_collaborators) KPack 1 counting_params 0
    laid_out_state
  = (Throw "Error: layout failed",
     with_nodes 0 summed_root (sample_count summed_tree) laid_out_state)
  ∧ value_of (snd (HierarchyLayout_transform (H := failing_collaborators) KPack 1
                     counting_params 0 laid_out_state)) 1
    = value_of laid_out_state 1
  ∧ (value_of laid_out_state 1 = VTree 0 →
     trees (snd (HierarchyLayout_transform (H := failing_collaborators) KPack 1
                   counting_params 0 laid_out_state)) !! 0
     = Some (Build_TreeObj (H := failing_collaborators) (sample_count summed_tree) None)).
Proof.
  destruct (layout_failure_keeps_reference (H := failing_collaborators) KPack 1
              counting_params 0 laid_out_state) as [_ Hlayout].
  apply (Hlayout sample_pulse 3 0 summed_root [] "layout failed");
    vm_compute; reflexivity.
Defined.


Lemma Stratify_keeps_tree_witness :
  ∃ out s' O src,
    Stratify_transform 1 unmodified_stratify 0 restyled_state = (Ok out, s')
    ∧ pulses s' !! out = Some O
    ∧ add O = add restyling_pulse ∧ rem O = rem restyling_pulse
    ∧ mod_ O = mod_ restyling_pulse ∧ source O = Some src
    ∧ (src ∉ dom (arrays restyled_state))
    ∧ elems (array_at s' src) = elems (array_at restyled_state 3)
    ∧ root (array_at s' src) = VTree 0
    ∧ values s' = values restyled_state ∧ trees s' = trees restyled_state
    ∧ tids s' = tids restyled_state
    ∧ ∀ x, x ∈ dom (arrays restyled_state) → arrays s' !! x = arrays restyled_state !! x.
Proof.
  apply (Stratify_keeps_tree 1 unmodified_stratify 0 restyled_state restyling_pulse 3 0).
  - vm_compute. reflexivity.
  - reflexivity.
  - vm_compute. reflexivity.
  - reflexivity.
  - vm_compute. reflexivity.
  - vm_compute. reflexivity.
  - vm_compute. reflexivity.
Defined.

End Hierarchy.

(** ** vega-selections: [selectionTest] with a unit index *)

Module SelectionUnits.

Import Selection.

Section WithValues.
Variable Datum : Type.
Variable JsVal : Type.
Variable undefined : JsVal.
Variable field : string → Datum → JsVal.
Variable isDate : JsVal → bool.
Variable isArray : JsVal → bool.
Variable toNumber : JsVal → JsVal.
Variable inrange : JsVal → JsVal → option bool → option bool → bool.
Variable js_index0 : JsVal → result JsVal.
Variable js_map : (JsVal → JsVal) → JsVal → JsVal.
Variable js_indexOf : JsVal → JsVal → Z.
Variable js_strict_neq : JsVal → JsVal → bool.

Local Abbreviation selectionTest :=
  (selectionTest Datum JsVal undefined field isDate isArray toNumber inrange
     js_index0 js_map js_indexOf js_strict_neq).
Local Abbreviation tests :=
  (tests Datum JsVal undefined field isDate isArray toNumber inrange
     js_index0 js_map js_indexOf js_strict_neq).

(** X5.  Under [op = 'intersect'], for a store whose unit index counts its
    entries by unit: when [testPoint] returns on every entry, [selectionTest]
    returns, and what it returns is truthy exactly when the store is not empty
    and every unit that has entries has one that [testPoint] accepts on the
    datum (union within a unit, intersection across units).  The counters of
    the code live in an object literal, so unit names that are names of
    inherited properties are left out. *)
Theorem selectionTest_with_unit_index (data : gmap string (Store JsVal))
    (name : string) (datum : Datum) (d : Store JsVal) (idx : UnitIndex) :
  data !! name = Some d → unitIdx JsVal d = Some idx →
  indexes JsVal idx (entries JsVal d) →
  Forall (λ e, JsObject.inherited (unit JsVal e) = false) (entries JsVal d) →
  Forall (λ e, ∃ b, tests datum b e) (entries JsVal d) →
  ∃ v, fst (selectionTest data name datum Intersect) = Ok v
       ∧ (truthy v = true ↔
          entries JsVal d ≠ []
          ∧ ∀ e, e ∈ entries JsVal d →
                 Exists (λ e', unit JsVal e' = unit JsVal e ∧ tests datum true e')
                        (entries JsVal d)).
Proof.
  intros Hd Hidx Hindexes _ Htests. unfold Selection.selectionTest.
  rewrite Hd, Hidx. change (String.eqb Intersect Intersect) with true.
  destruct (selectionTest_from_units Datum JsVal undefined field isDate isArray
              toNumber inrange js_index0 js_map js_indexOf js_strict_neq
              datum idx (entries JsVal d) (entries JsVal d) [] ∅)
    as (v & Hv & Hiff); try done.
  exists v. split; [exact Hv|]. rewrite Hiff.
  split; intros [Hne Hall]; (split; [done|]).
  - intros e He. apply matchedb_Exists, Hall.
    unfold unit_count. intros Hlen. apply length_zero_iff_nil in Hlen.
    assert (e ∈ filter (λ e', unit JsVal e' = unit JsVal e) (entries JsVal d)) as Hin
      by (by apply list_elem_of_filter).
    rewrite Hlen in Hin. by apply elem_of_nil in Hin.
  - intros u Hu. unfold unit_count in Hu.
    destruct (filter (λ e, unit JsVal e = u) (entries JsVal d)) as [|e l] eqn:Hf; [done|].
    assert (e ∈ filter (λ e, unit JsVal e = u) (entries JsVal d)) as Hin
      by (rewrite Hf; by left).
    apply list_elem_of_filter in Hin as [<- Hin]. by apply matchedb_Exists, Hall.
Qed.

End WithValues.

(** Two units: ["u"] with a point on [a = 3] and one on [a = 4], ["v"] with a
    point on [a = 4]; the unit index counts them. *)
Definition point (u : string) (n : Z) : Entry Sample :=
  {| unit := u; fields := [ {| f_field := "a"; f_type := TYPE_ENUM |} ];
     values := [SInt n] |}.

Definition two_units_index : gmap string nat := {[ "u" := 2; "v" := 1 ]}.

Definition two_units : Store Sample :=
  {| entries := [point "u" 3; point "v" 4; point "u" 4];
     unitIdx := Some two_units_index |}.

Example two_units_runs :
  fst (Selection.selectionTest Z Sample SNull (λ _ d, SInt d) (λ _, false)
         (λ _, false) (λ v, v) (λ _ _ _ _, false) sample_index0 (λ _ v, v)
         (λ _ _, (-1)%Z) sample_neq {[ "brush" := two_units ]} "brush" 4%Z Intersect)
  = Ok (RBool true)
  ∧ fst (Selection.selectionTest Z Sample SNull (λ _ d, SInt d) (λ _, false)
         (λ _, false) (λ v, v) (λ _ _ _ _, false) sample_index0 (λ _ v, v)
         (λ _ _, (-1)%Z) sample_neq {[ "brush" := two_units ]} "brush" 3%Z Intersect)
  = Ok (RBool false).
Proof. split; vm_compute; reflexivity. Qed.

Lemma two_units_indexed :
  indexes Sample two_units_index (entries Sample two_units).
Proof.
  intros u. unfold unit_count, two_units_index, UnitIndex. simpl. rewrite !filter_cons, filter_nil. simpl.
  destruct (decide ("u" = u)) as [<-|Hu].
  - rewrite decide_False by done. reflexivity.
  - destruct (decide ("v" = u)) as [<-|Hv].
    + reflexivity.
    + simpl. rewrite lookup_insert_ne by done. by apply lookup_singleton_ne.
Defined.

Lemma selectionTest_with_unit_index_witness :
  ∃ v, fst (Selection.selectionTest Z Sample SNull (λ _ d, SInt d) (λ _, false)
              (λ _, false) (λ v, v) (λ _ _ _ _, false) sample_index0 (λ _ v, v)
              (λ _ _, (-1)%Z) sample_neq {[ "brush" := two_units ]} "brush" 4%Z
              Intersect) = Ok v
       ∧ (truthy v = true ↔
          entries Sample two_units ≠ []
          ∧ ∀ e, e ∈ entries Sample two_units →
                 Exists (λ e', unit Sample e' = unit Sample e
                               ∧ Selection.tests Z Sample SNull (λ _ d, SInt d)
                                   (λ _, false) (λ _, false) (λ v, v)
                                   (λ _ _ _ _, false) sample_index0 (λ _ v, v)
                                   (λ _ _, (-1)%Z) sample_neq 4%Z true e')
                        (entries Sample two_units)).
Proof.
  apply (selectionTest_with_unit_index Z Sample SNull (λ _ d, SInt d) (λ _, false)
           (λ _, false) (λ v, v) (λ _ _ _ _, false) sample_index0 (λ _ v, v)
           (λ _ _, (-1)%Z) sample_neq {[ "brush" := two_units ]} "brush" 4%Z
           two_units two_units_index).
  - apply lookup_singleton_eq.
  - reflexivity.
  - exact two_units_indexed.
  - repeat (apply Forall_cons; split; [reflexivity|]). apply Forall_nil_2.
  - repeat (apply Forall_cons; split; [eexists; vm_compute; reflexivity|]).
    apply Forall_nil_2.
Defined.

End SelectionUnits.

(** ** vega-selections: [bisector] and [selectionIdTest] *)

Module SelectionId.

(** The values [ascending] and the id accessor meet: [undefined], [null] and
    numbers, [NaN] among them.  Selection ids are integers. *)
Inductive Val : Type :=
| VUndefined
| VNull
| VNaN
| VNum (z : Z).

(** [ToNumber]; [None] is [NaN]. *)
Definition to_number (v : Val) : option Z :=
  match v with
  | VUndefined => None
  | VNull => Some 0%Z
  | VNaN => None
  | VNum z => Some z
  end.

(** [v == null] *)
Definition nullish (v : Val) : bool :=
  match v with
  | VUndefined | VNull => true
  | _ => false
  end.

(** [a < b], [a <= b], [a > b], [a >= b]: false when a side is [NaN]. *)
Definition js_lt (a b : Val) : bool :=
  match to_number a, to_number b with
  | Some x, Some y => (x <? y)%Z
  | _, _ => false
  end.

Definition js_le (a b : Val) : bool :=
  match to_number a, to_number b with
  | Some x, Some y => (x <=? y)%Z
  | _, _ => false
  end.

Definition js_gt (a b : Val) : bool := js_lt b a.

Definition js_ge (a b : Val) : bool := js_le b a.

(** [a === b] *)
Definition strict_eq (a b : Val) : bool :=
  match a, b with
  | VUndefined, VUndefined => true
  | VNull, VNull => true
  | VNum x, VNum y => (x =? y)%Z
  | _, _ => false
  end.

(** A number is a double: an integer result is rounded to the nearest
    integer with 53 significant bits, ties to the even one.  Integers up to
    [2^53] in magnitude are exact.  (A magnitude from [2^1024] on is an
    infinity in JavaScript, which [Val] does not have.) *)
Definition round_to_double (z : Z) : Z :=
  let m := Z.abs z in
  if (m <=? 2 ^ 53)%Z then z
  else
    let e := (Z.log2 m - 52)%Z in
    let q := Z.shiftr m e in
    let r := Z.land m (Z.ones e) in
    let half := Z.shiftl 1 (e - 1) in
    let q' := if (half <? r)%Z || ((r =? half)%Z && Z.odd q) then (q + 1)%Z else q in
    (Z.sgn z * Z.shiftl q' e)%Z.

(** [a - b] and [-a] *)
Definition js_sub (a b : Val) : Val :=
  match to_number a, to_number b with
  | Some x, Some y => VNum (round_to_double (x - y))
  | _, _ => VNaN
  end.

Definition js_neg (a : Val) : Val :=
  match to_number a with
  | Some x => VNum (- x)
  | None => VNaN
  end.

(** [function ascending(a, b)] *)
Definition ascending (a b : Val) : Val :=
  if nullish a || nullish b then VNaN
  else if js_lt a b then VNum (-1)
  else if js_gt a b then VNum 1
  else if js_ge a b then VNum 0
  else VNaN.

(** [function descending(a, b)] *)
Definition descending (a b : Val) : Val :=
  if nullish a || nullish b then VNaN
  else if js_lt b a then VNum (-1)
  else if js_gt b a then VNum 1
  else if js_ge b a then VNum 0
  else VNaN.

(** [function zero()] *)
Definition zero : Val := VNum 0.

(** [n >>> 1] of a sum of two array positions: [ToUint32], then the shift. *)
Definition ushr1 (n : nat) : nat :=
  Z.to_nat (Z.shiftr (Z.of_nat n mod 2 ^ 32) 1).

(** A loop that may run out of the steps it is given ([None]), throw, or
    return. *)
Definition and_then {A B} (m : option (result A)) (k : A → option (result B))
    : option (result B) :=
  match m with
  | None => None
  | Some (Throw e) => Some (Throw e)
  | Some (Ok a) => k a
  end.

Section Bisector.
(** The elements of the searched array; [a[i]] past the end is [undefined].
    An accessor or comparator may throw. *)
Variable D : Type.
Variable undefined : D.

(** The argument of [bisector]: an accessor ([f.length !== 2]) or a
    comparator; [self] tells a comparator that is [ascending] or [descending]
    itself, as the function it then is on two search values. *)
Inductive Arg : Type :=
| Accessor (f : D → result Val)
| Comparator (f : D → Val → result Val) (self : option (Val → Val → Val)).

Record Bisector := {
  compare1 : Val → Val → Val;
  compare2 : D → Val → result Val;
  delta : D → Val → result Val
}.

(** The first statement of [bisector(f)]. *)
Definition bisector_of (f : Arg) : Bisector :=
  match f with
  | Accessor f =>
    {| compare1 := ascending;
       compare2 := λ d x, match f d with Ok v => Ok (ascending v x) | Throw e => Throw e end;
       delta := λ d x, match f d with Ok v => Ok (js_sub v x) | Throw e => Throw e end |}
  | Comparator f self =>
    {| compare1 := match self with Some cmp => cmp | None => λ _ _, zero end;
       compare2 := f;
       delta := f |}
  end.

Variable b : Bisector.

(** [a[i]] *)
Definition at_ (a : list D) (i : nat) : D := nth i a undefined.

(** The [do ... while (lo < hi)] of [left]; [strict] tells [left]'s test
    [< 0] from [right]'s [<= 0]. *)
Fixpoint search (strict : bool) (fuel : nat) (a : list D) (x : Val) (lo hi : nat)
    : option (result nat) :=
  match fuel with
  | O => None
  | S fuel' =>
    let mid := ushr1 (lo + hi) in
    match compare2 b (at_ a mid) x with
    | Throw e => Some (Throw e)
    | Ok c =>
      let below := if strict then js_lt c (VNum 0) else js_le c (VNum 0) in
      let lo' := if below then mid + 1 else lo in
      let hi' := if below then hi else mid in
      if Nat.ltb lo' hi' then search strict fuel' a x lo' hi' else Some (Ok lo')
    end
  end.

(** [function left(a, x, lo = 0, hi = a.length)] *)
Definition left (fuel : nat) (a : list D) (x : Val) (lo hi : nat) : option (result nat) :=
  if Nat.ltb lo hi then
    if negb (strict_eq (compare1 b x x) (VNum 0)) then Some (Ok hi)
    else search true fuel a x lo hi
  else Some (Ok lo).

(** [function right(a, x, lo = 0, hi = a.length)] *)
Definition right (fuel : nat) (a : list D) (x : Val) (lo hi : nat) : option (result nat) :=
  if Nat.ltb lo hi then
    if negb (strict_eq (compare1 b x x) (VNum 0)) then Some (Ok hi)
    else search false fuel a x lo hi
  else Some (Ok lo).

(** [function center(a, x, lo = 0, hi = a.length)] *)
Definition center (fuel : nat) (a : list D) (x : Val) (lo hi : nat) : option (result nat) :=
  and_then (left fuel a x lo (hi - 1)) (λ i,
    if Nat.ltb lo i then
      match delta b (at_ a (i - 1)) x with
      | Throw e => Some (Throw e)
      | Ok before =>
        match delta b (at_ a i) x with
        | Throw e => Some (Throw e)
        | Ok after => Some (Ok (if js_gt before (js_neg after) then i - 1 else i))
        end
      end
    else Some (Ok i)).

End Bisector.

Section SelectionIdTest.
(** Tuples, of the selection store and under test, and [$selectionId], the
    accessor [field('_vgsid_')]. *)
Variable D : Type.
Variable undefined : D.
Variable selectionId : D → result Val.

(** [const bisect = bisector($selectionId)] *)
Definition bisect : Bisector D := bisector_of D (Accessor D selectionId).
Definition bisectLeft (fuel : nat) (a : list D) (x : Val) : option (result nat) :=
  left D undefined bisect fuel a x 0 (length a).
Definition bisectRight (fuel : nat) (a : list D) (x : Val) : option (result nat) :=
  right D undefined bisect fuel a x 0 (length a).

(** A selection store [data]: [data.values.value] and, when present,
    [data['index:unit'].value]. *)
Record Store := { entries : list D; unitIdx : option (gmap string nat) }.

(** [function selectionIdTest(name, datum, op)] with [this.context.data] the
    own properties of the object that holds the stores by name; [fuel] bounds
    the steps of each search.  [data[name]] is read without a guard: for a
    name without a store that [Object.prototype] defines, [data] is the
    inherited property, which is truthy.  It has no [values] to read [value]
    of, except [constructor]: [Object.values.value] is [undefined], the id of
    the datum is read, and the search then reads [a.length] of
    [undefined]. *)
Definition selectionIdTest (fuel : nat) (data : gmap string Store) (name : string)
    (datum : D) (op : string) : option (result bool) :=
  let store := data !! name in
  if match store with None => JsObject.inherited name | Some _ => false end then
    if String.eqb name "constructor" then
      and_then (Some (selectionId datum)) (λ _,
        Some (Throw "TypeError: Cannot read properties of undefined (reading 'length')"))
    else Some (Throw "TypeError: Cannot read properties of undefined (reading 'value')")
  else
  let entries := match store with Some d => entries d | None => [] end in
  let unitIdx := match store with Some d => unitIdx d | None => None end in
  let intersect := String.eqb op Selection.Intersect in
  and_then (Some (selectionId datum)) (λ value,
  and_then (bisectLeft fuel entries value) (λ index,
    if Nat.eqb index (length entries) then Some (Ok false)
    else
      and_then (Some (selectionId (at_ D undefined entries index))) (λ id,
        if negb (strict_eq id value) then Some (Ok false)
        else
          match unitIdx, intersect with
          | Some idx, true =>
            if Nat.eqb (size idx) 1 then Some (Ok true)
            else
              and_then (bisectRight fuel entries value) (λ r,
                if (Z.of_nat r - Z.of_nat index <? Z.of_nat (size idx))%Z
                then Some (Ok false)
                else Some (Ok true))
          | _, _ => Some (Ok true)
          end))).

End SelectionIdTest.

(** *** The searches on an array sorted by id *)

Section Facts.
Variable D : Type.
Variable undefined : D.
Variable f : D → result Val.

(** The ids of the tuples of an array, when each has a number for id. *)
Definition keyed (a : list D) (ks : list Z) : Prop :=
  Forall2 (λ d k, f d = Ok (VNum k)) a ks.

(** The test of the loop on an element with id [k]: [left] moves past the
    ids below [v], [right] past the ids up to [v]. *)
Definition below (strict : bool) (v k : Z) : bool :=
  if strict then (k <? v)%Z else (k <=? v)%Z.

Lemma ascending_num k v :
  ascending (VNum k) (VNum v)
  = if (k <? v)%Z then VNum (-1) else if (v <? k)%Z then VNum 1 else VNum 0.
Proof.
  unfold ascending, js_gt, js_ge, js_lt, js_le. simpl.
  destruct (Z.ltb_spec k v); [done|]. destruct (Z.ltb_spec v k); [done|].
  destruct (Z.leb_spec v k); [done|lia].
Qed.

Lemma below_ascending (strict : bool) k v :
  (if strict then js_lt (ascending (VNum k) (VNum v)) (VNum 0)
   else js_le (ascending (VNum k) (VNum v)) (VNum 0)) = below strict v k.
Proof.
  rewrite ascending_num. unfold below, js_lt, js_le.
  destruct strict; destruct (Z.ltb_spec k v); simpl.
  - done.
  - destruct (Z.ltb_spec v k); simpl; reflexivity.
  - symmetry. apply Z.leb_le. lia.
  - destruct (Z.ltb_spec v k); simpl; symmetry;
      [apply Z.leb_gt|apply Z.leb_le]; lia.
Qed.

Lemma compare2_key a ks v j k :
  keyed a ks → ks !! j = Some k →
  compare2 D (bisector_of D (Accessor D f)) (at_ D undefined a j) (VNum v)
  = Ok (ascending (VNum k) (VNum v)).
Proof.
  intros Hk Hj. destruct (Forall2_lookup_r _ _ _ _ _ Hk Hj) as (d & Hd & Hf).
  unfold at_. rewrite nth_lookup, Hd. simpl. by rewrite Hf.
Qed.

Lemma sorted_lookup (ks : list Z) i j x y :
  StronglySorted Z.le ks → i ≤ j → ks !! i = Some x → ks !! j = Some y → (x ≤ y)%Z.
Proof.
  intros Hs. revert i j. induction Hs as [|k ks Hs IH Hall]; intros i j Hij Hi Hj.
  - by rewrite lookup_nil in Hi.
  - destruct i as [|i], j as [|j]; simpl in *; simplify_eq.
    + lia.
    + rewrite Forall_forall in Hall. apply Hall. by eapply list_elem_of_lookup_2.
    + lia.
    + eapply (IH i j); [lia|done..].
Qed.

Lemma below_mono strict v k k' :
  (k ≤ k')%Z → below strict v k' = true → below strict v k = true.
Proof.
  unfold below. destruct strict; intros Hle.
  - rewrite !Z.ltb_lt. lia.
  - rewrite !Z.leb_le. lia.
Qed.

Lemma ushr1_mid lo hi :
  lo < hi → (Z.of_nat hi < 2 ^ 31)%Z → lo ≤ ushr1 (lo + hi) < hi.
Proof.
  intros Hlt Hhi. unfold ushr1.
  rewrite Z.mod_small by lia. rewrite Z.shiftr_div_pow2 by lia.
  change (2 ^ 1)%Z with 2%Z.
  assert (Z.of_nat lo ≤ Z.of_nat (lo + hi) / 2 < Z.of_nat hi)%Z as [H1 H2].
  { split; [apply Z.div_le_lower_bound|apply Z.div_lt_upper_bound]; lia. }
  lia.
Qed.

(** The loop keeps the ids that pass the test before [lo] and the others from
    [hi] on, and ends where the two meet. *)
Lemma search_spec strict a ks v : keyed a ks → StronglySorted Z.le ks →
  (Z.of_nat (length a) < 2 ^ 31)%Z →
  ∀ fuel lo hi, lo < hi → hi ≤ length a → hi - lo ≤ fuel →
  (∀ j k, j < lo → ks !! j = Some k → below strict v k = true) →
  (∀ j k, hi ≤ j → ks !! j = Some k → below strict v k = false) →
  ∃ i, search D undefined (bisector_of D (Accessor D f)) strict fuel a (VNum v) lo hi
       = Some (Ok i)
       ∧ i ≤ length a
       ∧ (∀ j k, j < i → ks !! j = Some k → below strict v k = true)
       ∧ (∀ j k, i ≤ j → ks !! j = Some k → below strict v k = false).
Proof.
  intros Hk Hs Hlen.
  pose proof (Forall2_length _ _ _ Hk) as Hlenks.
  induction fuel as [|fuel IH]; intros lo hi Hlt Hhi Hfuel Hlo Hhigh; [lia|].
  cbn [search].
  destruct (ushr1_mid lo hi) as [Hm1 Hm2]; [done|lia|].
  set (mid := ushr1 (lo + hi)) in *.
  destruct (lookup_lt_is_Some_2 ks mid) as [k Hmid]; [lia|].
  rewrite (compare2_key a ks v mid k Hk Hmid), below_ascending.
  destruct (below strict v k) eqn:Hb.
  - assert (∀ j k', j < mid + 1 → ks !! j = Some k' → below strict v k' = true) as Hlo'.
    { intros j k' Hj Hk'. eapply below_mono; [|exact Hb].
      eapply (sorted_lookup ks j mid); [done|lia|done..]. }
    destruct (Nat.ltb_spec (mid + 1) hi) as [Hgo|Hstop].
    + apply IH; try done; lia.
    + exists (mid + 1). split; [done|]. split; [lia|]. split; [done|].
      intros j k' Hj. apply Hhigh. lia.
  - assert (∀ j k', mid ≤ j → ks !! j = Some k' → below strict v k' = false) as Hhi'.
    { intros j k' Hj Hk'. destruct (below strict v k') eqn:Hb'; [|done].
      rewrite <- Hb. symmetry. eapply below_mono; [|exact Hb'].
      eapply (sorted_lookup ks mid j); [done|lia|done..]. }
    destruct (Nat.ltb_spec lo mid) as [Hgo|Hstop].
    + apply IH; try done; lia.
    + exists lo. split; [done|]. split; [lia|]. split; [done|].
      intros j k' Hj. apply Hhi'. lia.
Qed.

Lemma search_from_start strict a ks v fuel : keyed a ks → StronglySorted Z.le ks →
  (Z.of_nat (length a) < 2 ^ 31)%Z → length a ≤ fuel → a ≠ [] →
  ∃ i, search D undefined (bisector_of D (Accessor D f)) strict fuel a (VNum v)
         0 (length a) = Some (Ok i)
       ∧ i ≤ length a
       ∧ (∀ j k, j < i → ks !! j = Some k → below strict v k = true)
       ∧ (∀ j k, i ≤ j → ks !! j = Some k → below strict v k = false).
Proof.
  intros Hk Hs Hlen Hfuel Hne.
  pose proof (Forall2_length _ _ _ Hk) as Hlenks.
  apply (search_spec strict a ks v Hk Hs Hlen); try lia.
  - destruct a; [done|simpl; lia].
  - intros j k Hj Hjk. apply lookup_lt_Some in Hjk. lia.
Qed.

Lemma compare1_num v :
  strict_eq (compare1 D (bisector_of D (Accessor D f)) (VNum v) (VNum v)) (VNum 0) = true.
Proof. simpl. rewrite ascending_num, Z.ltb_irrefl. reflexivity. Qed.

(** X6.  On an array of fewer than [2^31] tuples whose ids are numbers in
    ascending order, searched for a number [v] with at least as many steps
    as the array has tuples, [bisector(f).left(a, v)] returns the insertion
    point before any tuple with id [v]: a position [i] such that every tuple
    before [i] has an id below [v] and every tuple from [i] on has an id of
    at least [v]. *)
Theorem bisect_left_insertion_point (a : list D) (ks : list Z) (v : Z) (fuel : nat) :
  keyed a ks → StronglySorted Z.le ks →
  (Z.of_nat (length a) < 2 ^ 31)%Z → length a ≤ fuel →
  ∃ i, left D undefined (bisector_of D (Accessor D f)) fuel a (VNum v) 0 (length a)
       = Some (Ok i)
       ∧ i ≤ length a
       ∧ (∀ j k, j < i → ks !! j = Some k → (k < v)%Z)
       ∧ (∀ j k, i ≤ j → ks !! j = Some k → (v ≤ k)%Z).
Proof.
  intros Hk Hs Hlen Hfuel. unfold left.
  destruct a as [|d a'] eqn:Ha.
  - exists 0. simpl. split; [done|]. split; [done|]. split; [intros; lia|].
    apply Forall2_nil_inv_l in Hk as ->. intros j k _ Hjk. by rewrite lookup_nil in Hjk.
  - rewrite <- Ha in *. assert (a ≠ []) as Hne by (by rewrite Ha).
    assert (Nat.ltb 0 (length a) = true) as ->
      by (apply Nat.ltb_lt; rewrite Ha; simpl; lia).
    rewrite compare1_num. cbn [negb].
    destruct (search_from_start true a ks v fuel) as (i & Hi & Hle & H1 & H2); try done.
    exists i. split; [done|]. split; [done|]. split.
    + intros j k Hj Hjk. apply Z.ltb_lt. by apply (H1 j).
    + intros j k Hj Hjk. apply Z.ltb_ge. by apply (H2 j).
Qed.

(** X7.  Under the same conditions [bisector(f).right(a, v)] returns the
    insertion point after any tuple with id [v]: every tuple before it has
    an id of at most [v] and every tuple from it on has an id above [v]. *)
Theorem bisect_right_insertion_point (a : list D) (ks : list Z) (v : Z) (fuel : nat) :
  keyed a ks → StronglySorted Z.le ks →
  (Z.of_nat (length a) < 2 ^ 31)%Z → length a ≤ fuel →
  ∃ i, right D undefined (bisector_of D (Accessor D f)) fuel a (VNum v) 0 (length a)
       = Some (Ok i)
       ∧ i ≤ length a
       ∧ (∀ j k, j < i → ks !! j = Some k → (k ≤ v)%Z)
       ∧ (∀ j k, i ≤ j → ks !! j = Some k → (v < k)%Z).
Proof.
  intros Hk Hs Hlen Hfuel. unfold right.
  destruct a as [|d a'] eqn:Ha.
  - exists 0. simpl. split; [done|]. split; [done|]. split; [intros; lia|].
    apply Forall2_nil_inv_l in Hk as ->. intros j k _ Hjk. by rewrite lookup_nil in Hjk.
  - rewrite <- Ha in *. assert (a ≠ []) as Hne by (by rewrite Ha).
    assert (Nat.ltb 0 (length a) = true) as ->
      by (apply Nat.ltb_lt; rewrite Ha; simpl; lia).
    rewrite compare1_num. cbn [negb].
    destruct (search_from_start false a ks v fuel) as (i & Hi & Hle & H1 & H2); try done.
    exists i. split; [done|]. split; [done|]. split.
    + intros j k Hj Hjk. apply Z.leb_le. by apply (H1 j).
    + intros j k Hj Hjk. apply Z.leb_gt. by apply (H2 j).
Qed.

(** The loop on a part of the array: what [search_spec] says, up to a
    position [top] from which nothing is known. *)
Lemma search_within strict a ks v top : keyed a ks → StronglySorted Z.le ks →
  (Z.of_nat (length a) < 2 ^ 31)%Z → top ≤ length a →
  ∀ fuel lo hi, lo < hi → hi ≤ top → hi - lo ≤ fuel →
  (∀ j k, j < lo → ks !! j = Some k → below strict v k = true) →
  (∀ j k, hi ≤ j → j < top → ks !! j = Some k → below strict v k = false) →
  ∃ i, search D undefined (bisector_of D (Accessor D f)) strict fuel a (VNum v) lo hi
       = Some (Ok i)
       ∧ i ≤ top
       ∧ (∀ j k, j < i → ks !! j = Some k → below strict v k = true)
       ∧ (∀ j k, i ≤ j → j < top → ks !! j = Some k → below strict v k = false).
Proof.
  intros Hk Hs Hlen Htop.
  pose proof (Forall2_length _ _ _ Hk) as Hlenks.
  induction fuel as [|fuel IH]; intros lo hi Hlt Hhi Hfuel Hlo Hhigh; [lia|].
  cbn [search].
  destruct (ushr1_mid lo hi) as [Hm1 Hm2]; [done|lia|].
  set (mid := ushr1 (lo + hi)) in *.
  destruct (lookup_lt_is_Some_2 ks mid) as [k Hmid]; [lia|].
  rewrite (compare2_key a ks v mid k Hk Hmid), below_ascending.
  destruct (below strict v k) eqn:Hb.
  - assert (∀ j k', j < mid + 1 → ks !! j = Some k' → below strict v k' = true) as Hlo'.
    { intros j k' Hj Hk'. eapply below_mono; [|exact Hb].
      eapply (sorted_lookup ks j mid); [done|lia|done..]. }
    destruct (Nat.ltb_spec (mid + 1) hi) as [Hgo|Hstop].
    + apply IH; try done; lia.
    + exists (mid + 1). split; [done|]. split; [lia|]. split; [done|].
      intros j k' Hj Hj'. apply Hhigh; lia.
  - assert (∀ j k', mid ≤ j → ks !! j = Some k' → below strict v k' = false) as Hhi'.
    { intros j k' Hj Hk'. destruct (below strict v k') eqn:Hb'; [|done].
      rewrite <- Hb. symmetry. eapply below_mono; [|exact Hb'].
      eapply (sorted_lookup ks mid j); [done|lia|done..]. }
    destruct (Nat.ltb_spec lo mid) as [Hgo|Hstop].
    + apply IH; try done; [lia..|]. intros j k' Hj _. by apply Hhi'.
    + exists lo. split; [done|]. split; [lia|]. split; [done|].
      intros j k' Hj _. apply Hhi'. lia.
Qed.

Lemma round_to_double_exact z : (Z.abs z ≤ 2 ^ 53)%Z → round_to_double z = z.
Proof. intros Hz. unfold round_to_double. apply Z.leb_le in Hz. by rewrite Hz. Qed.

(** Between ids of at most [2^52] in magnitude the subtraction is exact. *)
Lemma delta_key a ks v j k :
  keyed a ks → ks !! j = Some k →
  (Z.abs v ≤ 2 ^ 52)%Z → (Z.abs k ≤ 2 ^ 52)%Z →
  delta D (bisector_of D (Accessor D f)) (at_ D undefined a j) (VNum v)
  = Ok (VNum (k - v)).
Proof.
  intros Hk Hj Hv Hkb. destruct (Forall2_lookup_r _ _ _ _ _ Hk Hj) as (d & Hd & Hf).
  unfold at_. rewrite nth_lookup, Hd. simpl. rewrite Hf. unfold js_sub. simpl.
  rewrite round_to_double_exact; [done|].
  change (2 ^ 53)%Z with (2 ^ 52 + 2 ^ 52)%Z. lia.
Qed.

(** X26.  On a non-empty array of fewer than [2^31] tuples whose ids are
    integers in ascending order, [bisector(f).center(a, v)], given at least
    as many steps as the array has tuples, returns the position of a tuple
    whose id is nearest to [v]: no tuple of the array has an id closer to
    [v].  The ids and [v] are at most [2^52] in magnitude, so that the
    differences [delta] takes are exact; beyond that the two differences it
    compares may round to the same double. *)
Theorem bisect_center_nearest (a : list D) (ks : list Z) (v : Z) (fuel : nat) :
  keyed a ks → StronglySorted Z.le ks →
  (Z.of_nat (length a) < 2 ^ 31)%Z → length a ≤ fuel → a ≠ [] →
  (Z.abs v ≤ 2 ^ 52)%Z → Forall (λ k, (Z.abs k ≤ 2 ^ 52)%Z) ks →
  ∃ i k, center D undefined (bisector_of D (Accessor D f)) fuel a (VNum v) 0 (length a)
         = Some (Ok i)
         ∧ ks !! i = Some k
         ∧ ∀ j k', ks !! j = Some k' → (Z.abs (k - v) ≤ Z.abs (k' - v))%Z.
Proof.
  intros Hk Hs Hlen Hfuel Hne Hvb Hkb.
  pose proof (Forall2_length _ _ _ Hk) as Hlenks.
  assert (0 < length a) as Hpos by (destruct a; [done|simpl; lia]).
  assert (∃ i, left D undefined (bisector_of D (Accessor D f)) fuel a (VNum v) 0
                 (length a - 1) = Some (Ok i)
               ∧ i ≤ length a - 1
               ∧ (∀ j k, j < i → ks !! j = Some k → (k < v)%Z)
               ∧ (∀ j k, i ≤ j → j < length a - 1 → ks !! j = Some k → (v ≤ k)%Z))
    as (i & Hleft & Hi & Hbefore & Hafter).
  { unfold left. destruct (Nat.ltb_spec 0 (length a - 1)) as [Hlt|Hge].
    - rewrite compare1_num. cbn [negb].
      destruct (search_within true a ks v (length a - 1) Hk Hs Hlen) with
        (fuel := fuel) (lo := 0) (hi := length a - 1)
        as (i & Hrun & Hi & H1 & H2); try lia.
      exists i. split; [done|]. split; [done|]. split.
      + intros j k Hj Hjk. apply Z.ltb_lt. by apply (H1 j).
      + intros j k Hj Hj' Hjk. apply Z.ltb_ge. by apply (H2 j).
    - exists 0. split; [done|]. split; [lia|]. split; intros; lia. }
  unfold center. rewrite Hleft. cbn [and_then].
  destruct (lookup_lt_is_Some_2 ks i) as [ki Hki]; [lia|].
  assert (∀ j k', i ≤ j → ks !! j = Some k' → (ki ≤ k')%Z) as Hup.
  { intros j k' Hj Hjk. by eapply (sorted_lookup ks i j). }
  assert (∀ j k', j ≤ i → ks !! j = Some k' → (k' ≤ ki)%Z) as Hdown.
  { intros j k' Hj Hjk. by eapply (sorted_lookup ks j i). }
  destruct (Nat.ltb_spec 0 i) as [Hgt|Hzero].
  - destruct (lookup_lt_is_Some_2 ks (i - 1)) as [kp Hkp]; [lia|].
    rewrite (delta_key a ks v (i - 1) kp Hk Hkp Hvb (Forall_lookup_1 _ _ _ _ Hkb Hkp)),
      (delta_key a ks v i ki Hk Hki Hvb (Forall_lookup_1 _ _ _ _ Hkb Hki)).
    assert (kp < v)%Z as Hp by (apply (Hbefore (i - 1)); [lia|done]).
    assert (∀ j k', j ≤ i - 1 → ks !! j = Some k' → (k' ≤ kp)%Z) as Hdown'.
    { intros j k' Hj Hjk. by eapply (sorted_lookup ks j (i - 1)). }
    unfold js_gt, js_lt, js_neg. simpl.
    destruct (Z.ltb_spec (- (ki - v)) (kp - v)) as [Hnear|Hfar].
    + exists (i - 1), kp. split; [done|]. split; [done|]. intros j k' Hjk.
      destruct (Nat.le_gt_cases j (i - 1)) as [Hj|Hj].
      * specialize (Hdown' j k' Hj Hjk). lia.
      * specialize (Hup j k' ltac:(lia) Hjk). lia.
    + exists i, ki. split; [done|]. split; [done|]. intros j k' Hjk.
      destruct (Nat.le_gt_cases j (i - 1)) as [Hj|Hj].
      * specialize (Hdown' j k' Hj Hjk). pose proof (Hdown (i - 1) kp ltac:(lia) Hkp). lia.
      * specialize (Hup j k' ltac:(lia) Hjk).
        destruct (Z.le_gt_cases v ki); [lia|].
        assert (i = length a - 1) as Hlast.
        { destruct (Nat.eq_dec i (length a - 1)); [done|].
          specialize (Hafter i ki ltac:(lia) ltac:(lia) Hki). lia. }
        pose proof (lookup_lt_Some _ _ _ Hjk) as Hj'. assert (j = i) as -> by lia.
        assert (k' = ki) as -> by congruence. lia.
  - assert (i = 0) as -> by lia. exists 0, ki. split; [done|]. split; [done|].
    intros j k' Hjk. specialize (Hup j k' ltac:(lia) Hjk).
    destruct (Nat.eq_dec (length a) 1) as [Hone|Hmore].
    + pose proof (lookup_lt_Some _ _ _ Hjk) as Hj. assert (j = 0) as -> by lia.
      assert (k' = ki) as -> by congruence. lia.
    + specialize (Hafter 0 ki ltac:(lia) ltac:(lia) Hki). lia.
Qed.

End Facts.

(** *** [selectionIdTest] on a store sorted by id *)

Section TestFacts.
Variable D : Type.
Variable undefined : D.
Variable selectionId : D → result Val.

(** How many of the ids are [v]. *)
Definition occurrences (v : Z) (ks : list Z) : nat :=
  length (filter (λ k, k = v) ks).

Lemma span_count v (ks : list Z) : ∀ i r,
  (∀ j k, j < i → ks !! j = Some k → below true v k = true) →
  (∀ j k, i ≤ j → ks !! j = Some k → below true v k = false) →
  (∀ j k, j < r → ks !! j = Some k → below false v k = true) →
  (∀ j k, r ≤ j → ks !! j = Some k → below false v k = false) →
  i ≤ length ks → r ≤ length ks →
  i ≤ r ∧ occurrences v ks = r - i.
Proof.
  unfold occurrences, below.
  induction ks as [|k ks IH]; intros i r P1 P2 Q1 Q2 Hi Hr.
  - simpl in *. split; lia.
  - rewrite filter_cons. simpl in Hi, Hr.
    assert (∀ i', i = S i' →
              ∀ j k', j < i' → ks !! j = Some k' → (k' <? v)%Z = true) as P1'.
    { intros i' -> j k' Hj Hk'. apply (P1 (S j) k'); [lia|exact Hk']. }
    assert (∀ i', i ≤ S i' →
              ∀ j k', i' ≤ j → ks !! j = Some k' → (k' <? v)%Z = false) as P2'.
    { intros i' Hi' j k' Hj Hk'. apply (P2 (S j) k'); [lia|exact Hk']. }
    assert (∀ r', r = S r' →
              ∀ j k', j < r' → ks !! j = Some k' → (k' <=? v)%Z = true) as Q1'.
    { intros r' -> j k' Hj Hk'. apply (Q1 (S j) k'); [lia|exact Hk']. }
    assert (∀ r', r ≤ S r' →
              ∀ j k', r' ≤ j → ks !! j = Some k' → (k' <=? v)%Z = false) as Q2'.
    { intros r' Hr' j k' Hj Hk'. apply (Q2 (S j) k'); [lia|exact Hk']. }
    destruct i as [|i], r as [|r].
    + specialize (P2 0 k (le_n 0) eq_refl). specialize (Q2 0 k (le_n 0) eq_refl).
      apply Z.ltb_ge in P2. apply Z.leb_gt in Q2. rewrite decide_False by lia.
      destruct (IH 0 0) as [_ Hc];
        [intros; lia|apply (P2' 0); lia|intros; lia|apply (Q2' 0); lia|lia|lia|].
      split; [lia|]. rewrite Hc. lia.
    + specialize (P2 0 k (le_n 0) eq_refl). apply Z.ltb_ge in P2.
      specialize (Q1 0 k (Nat.lt_0_succ r) eq_refl). apply Z.leb_le in Q1.
      rewrite decide_True by lia.
      destruct (IH 0 r) as [_ Hc];
        [intros; lia|apply (P2' 0); lia|by apply Q1'|apply Q2'; lia|lia|lia|].
      split; [lia|]. simpl. rewrite Hc. lia.
    + specialize (P1 0 k (Nat.lt_0_succ i) eq_refl). apply Z.ltb_lt in P1.
      specialize (Q2 0 k (le_n 0) eq_refl). apply Z.leb_gt in Q2. lia.
    + specialize (P1 0 k (Nat.lt_0_succ i) eq_refl). apply Z.ltb_lt in P1.
      rewrite decide_False by lia.
      destruct (IH i r) as [Hle Hc];
        [by apply P1'|apply P2'; lia|by apply Q1'|apply Q2'; lia|lia|lia|].
      split; [lia|]. rewrite Hc. lia.
Qed.

Lemma occurrences_elem_of v ks : v ∈ ks ↔ occurrences v ks ≠ 0.
Proof.
  unfold occurrences. split.
  - intros Hin Hlen. apply length_zero_iff_nil in Hlen.
    assert (v ∈ filter (λ k, k = v) ks) as Hf by (by apply list_elem_of_filter).
    rewrite Hlen in Hf. by apply elem_of_nil in Hf.
  - intros Hne. destruct (filter (λ k, k = v) ks) as [|k l] eqn:Hf; [done|].
    assert (k ∈ filter (λ k, k = v) ks) as Hin by (rewrite Hf; by left).
    by apply list_elem_of_filter in Hin as [-> ?].
Qed.

(** What [selectionIdTest] returns on a store sorted by id. *)
Lemma selectionIdTest_sorted (fuel : nat) (data : gmap string (Store D))
    (name : string) (datum : D) (op : string) (d : Store D) (ks : list Z) (v : Z) :
  data !! name = Some d →
  keyed D selectionId (entries D d) ks → StronglySorted Z.le ks →
  (Z.of_nat (length (entries D d)) < 2 ^ 31)%Z → length (entries D d) ≤ fuel →
  selectionId datum = Ok (VNum v) →
  selectionIdTest D undefined selectionId fuel data name datum op
  = Some (Ok (bool_decide (v ∈ ks)
              && match unitIdx D d with
                 | Some idx =>
                   if String.eqb op Selection.Intersect
                   then Nat.eqb (size idx) 1 || Nat.leb (size idx) (occurrences v ks)
                   else true
                 | None => true
                 end)).
Proof.
  intros Hd Hk Hs Hlen Hfuel Hv. unfold selectionIdTest. rewrite Hd, Hv.
  cbn [and_then]. unfold bisectLeft, bisectRight, left, right, bisect.
  pose proof (Forall2_length _ _ _ Hk) as Hlenks.
  destruct (entries D d) as [|d0 a'] eqn:Ha.
  { apply Forall2_nil_inv_l in Hk as ->. reflexivity. }
  rewrite <- Ha in *. assert (entries D d ≠ []) as Hne by (by rewrite Ha).
  assert (Nat.ltb 0 (length (entries D d)) = true) as ->
    by (apply Nat.ltb_lt; rewrite Ha; simpl; lia).
  rewrite compare1_num. cbn [negb].
  destruct (search_from_start D undefined selectionId true (entries D d) ks v fuel)
    as (i & -> & Hle & P1 & P2); try done.
  cbn [and_then].
  destruct (Nat.eqb_spec i (length (entries D d))) as [->|Hlt].
  { rewrite bool_decide_eq_false_2; [done|].
    intros (j & Hj)%list_elem_of_lookup_1.
    pose proof (lookup_lt_Some _ _ _ Hj) as Hjlt.
    specialize (P1 j v). unfold below in P1. rewrite Z.ltb_irrefl in P1.
    by discriminate P1; [lia|]. }
  destruct (lookup_lt_is_Some_2 ks i) as [k Hi]; [lia|].
  destruct (Forall2_lookup_r _ _ _ _ _ Hk Hi) as (di & Hdi & Hfi).
  assert (selectionId (at_ D undefined (entries D d) i) = Ok (VNum k)) as ->.
  { unfold at_. by rewrite nth_lookup, Hdi. }
  cbn [and_then strict_eq].
  pose proof (P2 i k (le_n i) Hi) as Hik. unfold below in Hik. apply Z.ltb_ge in Hik.
  destruct (Z.eqb_spec k v) as [->|Hkv]; cbn [negb].
  2:{ rewrite bool_decide_eq_false_2; [done|].
      intros (j & Hj)%list_elem_of_lookup_1.
      destruct (Nat.lt_ge_cases j i) as [Hji|Hji].
      - specialize (P1 j v Hji Hj). unfold below in P1.
        rewrite Z.ltb_irrefl in P1. discriminate P1.
      - pose proof (sorted_lookup ks i j k v Hs Hji Hi Hj). lia. }
  rewrite bool_decide_eq_true_2 by (by eapply list_elem_of_lookup_2). cbn [andb].
  destruct (unitIdx D d) as [idx|]; [|done].
  destruct (String.eqb op Selection.Intersect); [|done].
  destruct (Nat.eqb_spec (size idx) 1) as [Hone|Hmany]; [done|]. cbn [orb].
  destruct (search_from_start D undefined selectionId false (entries D d) ks v fuel)
    as (r & -> & Hler & Q1 & Q2); try done.
  cbn [and_then].
  destruct (span_count v ks i r) as [Hir Hocc]; try done; try lia.
  rewrite Hocc.
  destruct (Z.ltb_spec (Z.of_nat r - Z.of_nat i) (Z.of_nat (size idx)));
    destruct (Nat.leb_spec (size idx) (r - i)); try done; lia.
Qed.

(** X8.  Against a store of fewer than [2^31] tuples sorted by numeric id,
    with no unit index or with an [op] other than ['intersect'],
    [selectionIdTest] returns whether the id of the datum is the id of one of
    the stored tuples. *)
Theorem selectionIdTest_member (fuel : nat) (data : gmap string (Store D))
    (name : string) (datum : D) (op : string) (d : Store D) (ks : list Z) (v : Z) :
  data !! name = Some d →
  keyed D selectionId (entries D d) ks → StronglySorted Z.le ks →
  (Z.of_nat (length (entries D d)) < 2 ^ 31)%Z → length (entries D d) ≤ fuel →
  selectionId datum = Ok (VNum v) →
  unitIdx D d = None ∨ op ≠ Selection.Intersect →
  selectionIdTest D undefined selectionId fuel data name datum op
  = Some (Ok (bool_decide (v ∈ ks))).
Proof.
  intros Hd Hk Hs Hlen Hfuel Hv Hunion.
  rewrite (selectionIdTest_sorted fuel data name datum op d ks v) by done.
  destruct Hunion as [->|Hop]; [by rewrite andb_true_r|].
  apply String.eqb_neq in Hop. rewrite Hop.
  destruct (unitIdx D d); by rewrite andb_true_r.
Qed.

(** X9.  Against such a store with a unit index, under [op = 'intersect'],
    [selectionIdTest] returns whether the id of the datum is stored and,
    unless the index holds exactly one unit, is stored at least as many
    times as the index holds units. *)
Theorem selectionIdTest_intersect (fuel : nat) (data : gmap string (Store D))
    (name : string) (datum : D) (d : Store D) (idx : gmap string nat)
    (ks : list Z) (v : Z) :
  data !! name = Some d →
  keyed D selectionId (entries D d) ks → StronglySorted Z.le ks →
  (Z.of_nat (length (entries D d)) < 2 ^ 31)%Z → length (entries D d) ≤ fuel →
  selectionId datum = Ok (VNum v) →
  unitIdx D d = Some idx →
  selectionIdTest D undefined selectionId fuel data name datum Selection.Intersect
  = Some (Ok (bool_decide (v ∈ ks)
              && (Nat.eqb (size idx) 1 || Nat.leb (size idx) (occurrences v ks)))).
Proof.
  intros Hd Hk Hs Hlen Hfuel Hv Hidx.
  rewrite (selectionIdTest_sorted fuel data name datum Selection.Intersect d ks v)
    by done.
  by rewrite Hidx, String.eqb_refl.
Qed.

(** X10.  When the named store exists, or its name is none that
    [Object.prototype] defines, [selectionIdTest] returns [false], whatever
    the store holds and however few steps the searches are given, if the id
    of the datum is [undefined], [null] or [NaN], and if the store is missing
    or empty.  For a name without a store that [Object.prototype] defines it
    throws instead, whatever the datum. *)
Theorem selectionIdTest_no_id (fuel : nat) (data : gmap string (Store D))
    (name : string) (datum : D) (op : string) (value : Val) :
  selectionId datum = Ok value →
  (is_Some (data !! name) ∨ JsObject.inherited name = false →
   (∀ z, value ≠ VNum z) ∨ data !! name = None
   ∨ (∃ d, data !! name = Some d ∧ entries D d = []) →
   selectionIdTest D undefined selectionId fuel data name datum op = Some (Ok false))
  ∧ (data !! name = None → JsObject.inherited name = true →
     ∀ datum' op', ∃ e, selectionIdTest D undefined selectionId fuel data name datum' op'
                        = Some (Throw e)).
Proof.
  intros Hv. split.
  2:{ intros Hnone Hinh datum' op'. unfold selectionIdTest. rewrite Hnone, Hinh.
      destruct (String.eqb name "constructor"); [|by eexists].
      destruct (selectionId datum'); by eexists. }
  intros Hstore Hcase. unfold selectionIdTest.
  assert (match data !! name with None => JsObject.inherited name | Some _ => false end
          = false) as ->.
  { destruct Hstore as [[d ->]| ->]; [done|by destruct (data !! name)]. }
  rewrite Hv. cbn [and_then].
  set (es := match data !! name with Some d => entries D d | None => [] end).
  assert (bisectLeft D undefined selectionId fuel es value = Some (Ok (length es)))
    as ->.
  { unfold bisectLeft, left. destruct Hcase as [Hnum|Hempty].
    - destruct (Nat.ltb 0 (length es)) eqn:Hlt.
      + destruct value as [| | |z]; try reflexivity. by destruct (Hnum z).
      + apply Nat.ltb_ge in Hlt. do 2 f_equal. lia.
    - assert (es = []) as ->; [|done]. subst es.
      destruct Hempty as [->|(d & -> & ->)]; done. }
  cbn [and_then]. by rewrite Nat.eqb_refl.
Qed.

End TestFacts.

(** Four tuples with the ids 1, 3, 3 and 7; a missing tuple has no id to
    read. *)
Definition sample_id (d : option Z) : result Val :=
  match d with
  | Some z => Ok (VNum z)
  | None => Throw "TypeError: Cannot read properties of undefined (reading '_vgsid_')"
  end.

Definition sample_tuples : list (option Z) := [Some 1; Some 3; Some 3; Some 7]%Z.

Definition sample_store : Store (option Z) :=
  {| entries := sample_tuples; unitIdx := None |}.

Definition sample_indexed_store : Store (option Z) :=
  {| entries := sample_tuples; unitIdx := Some {[ "u" := 2; "v" := 2 ]} |}.

Lemma sample_keyed : keyed (option Z) sample_id sample_tuples [1; 3; 3; 7]%Z.
Proof. repeat constructor. Defined.

Lemma sample_sorted : StronglySorted Z.le [1; 3; 3; 7]%Z.
Proof. repeat (constructor; [|repeat constructor; lia]). constructor. Defined.

Example sample_searches :
  bisectLeft (option Z) None sample_id 4 sample_tuples (VNum 3) = Some (Ok 1)
  ∧ bisectRight (option Z) None sample_id 4 sample_tuples (VNum 3) = Some (Ok 3)
  ∧ center (option Z) None (bisect (option Z) sample_id) 4 sample_tuples (VNum 6) 0 4
    = Some (Ok 3).
Proof. repeat split; vm_compute; reflexivity. Qed.

Lemma bisect_left_insertion_point_witness :
  ∃ i, left (option Z) None (bisector_of (option Z) (Accessor (option Z) sample_id))
         4 sample_tuples (VNum 3) 0 (length sample_tuples) = Some (Ok i)
       ∧ i ≤ length sample_tuples
       ∧ (∀ j k, j < i → [1; 3; 3; 7]%Z !! j = Some k → (k < 3)%Z)
       ∧ (∀ j k, i ≤ j → [1; 3; 3; 7]%Z !! j = Some k → (3 ≤ k)%Z).
Proof.
  apply (bisect_left_insertion_point (option Z) None sample_id sample_tuples
           [1; 3; 3; 7]%Z 3%Z 4 sample_keyed sample_sorted).
  - reflexivity.
  - simpl. lia.
Defined.

Lemma bisect_right_insertion_point_witness :
  ∃ i, right (option Z) None (bisector_of (option Z) (Accessor (option Z) sample_id))
         4 sample_tuples (VNum 3) 0 (length sample_tuples) = Some (Ok i)
       ∧ i ≤ length sample_tuples
       ∧ (∀ j k, j < i → [1; 3; 3; 7]%Z !! j = Some k → (k ≤ 3)%Z)
       ∧ (∀ j k, i ≤ j → [1; 3; 3; 7]%Z !! j = Some k → (3 < k)%Z).
Proof.
  apply (bisect_right_insertion_point (option Z) None sample_id sample_tuples
           [1; 3; 3; 7]%Z 3%Z 4 sample_keyed sample_sorted).
  - reflexivity.
  - simpl. lia.
Defined.

Lemma selectionIdTest_member_witness :
  selectionIdTest (option Z) None sample_id 4 {[ "paintbrush" := sample_store ]}
    "paintbrush" (Some 3%Z) "union"
  = Some (Ok (bool_decide (3%Z ∈ [1; 3; 3; 7]%Z))).
Proof.
  apply (selectionIdTest_member (option Z) None sample_id 4
           {[ "paintbrush" := sample_store ]} "paintbrush" (Some 3%Z) "union"
           sample_store [1; 3; 3; 7]%Z 3%Z).
  - apply lookup_singleton_eq.
  - exact sample_keyed.
  - exact sample_sorted.
  - reflexivity.
  - simpl. lia.
  - reflexivity.
  - by left.
Defined.

Lemma selectionIdTest_intersect_witness :
  selectionIdTest (option Z) None sample_id 4
    {[ "paintbrush" := sample_indexed_store ]} "paintbrush" (Some 3%Z)
    Selection.Intersect
  = Some (Ok (bool_decide (3%Z ∈ [1; 3; 3; 7]%Z)
              && (Nat.eqb (size ({[ "u" := 2; "v" := 2 ]} : gmap string nat)) 1
                  || Nat.leb (size ({[ "u" := 2; "v" := 2 ]} : gmap string nat))
                       (occurrences 3 [1; 3; 3; 7]%Z)))).
Proof.
  apply (selectionIdTest_intersect (option Z) None sample_id 4
           {[ "paintbrush" := sample_indexed_store ]} "paintbrush" (Some 3%Z)
           sample_indexed_store {[ "u" := 2; "v" := 2 ]} [1; 3; 3; 7]%Z 3%Z).
  - apply lookup_singleton_eq.
  - exact sample_keyed.
  - exact sample_sorted.
  - reflexivity.
  - simpl. lia.
  - reflexivity.
  - reflexivity.
Defined.

Lemma selectionIdTest_no_id_witness :
  selectionIdTest (option Z) None (λ _, Ok VUndefined) 0
    {[ "paintbrush" := sample_store ]} "paintbrush" (Some 3%Z) "union"
  = Some (Ok false)
  ∧ selectionIdTest (option Z) None sample_id 0
      {[ "paintbrush" := sample_store ]} "brush" (Some 3%Z) "union"
    = Some (Ok false)
  ∧ ∃ e, selectionIdTest (option Z) None sample_id 0
           {[ "paintbrush" := sample_store ]} "constructor" (Some 3%Z) "union"
         = Some (Throw e).
Proof.
  split; [|split].
  - apply (selectionIdTest_no_id (option Z) None (λ _, Ok VUndefined) 0
             {[ "paintbrush" := sample_store ]} "paintbrush" (Some 3%Z) "union"
             VUndefined eq_refl).
    + left. vm_compute. eauto.
    + left. intros z Hz. discriminate Hz.
  - apply (selectionIdTest_no_id (option Z) None sample_id 0
             {[ "paintbrush" := sample_store ]} "brush" (Some 3%Z) "union"
             (VNum 3) eq_refl).
    + right. vm_compute. reflexivity.
    + right. left. vm_compute. reflexivity.
  - apply (selectionIdTest_no_id (option Z) None sample_id 0
             {[ "paintbrush" := sample_store ]} "constructor" (Some 3%Z) "union"
             (VNum 3) eq_refl).
    + vm_compute. reflexivity.
    + vm_compute. reflexivity.
Defined.

Lemma bisect_center_nearest_witness :
  ∃ i k, center (option Z) None (bisector_of (option Z) (Accessor (option Z) sample_id))
           4 sample_tuples (VNum 6) 0 (length sample_tuples) = Some (Ok i)
         ∧ [1; 3; 3; 7]%Z !! i = Some k
         ∧ ∀ j k', [1; 3; 3; 7]%Z !! j = Some k' → (Z.abs (k - 6) ≤ Z.abs (k' - 6))%Z.
Proof.
  apply (bisect_center_nearest (option Z) None sample_id sample_tuples
           [1; 3; 3; 7]%Z 6%Z 4 sample_keyed sample_sorted).
  - reflexivity.
  - simpl. lia.
  - discriminate.
  - vm_compute. discriminate.
  - repeat (apply Forall_cons; split; [vm_compute; discriminate|]). by apply Forall_nil.
Defined.

(** Past [2^53] the differences round: between the ids [-2^60] and [2^60],
    [center] takes [-1] to be no nearer to the first than to the second. *)
Example center_rounds :
  center (option Z) None (bisector_of (option Z) (Accessor (option Z) sample_id))
    2 [Some (- 2 ^ 60); Some (2 ^ 60)]%Z (VNum (-1)) 0 2 = Some (Ok 1)
  ∧ round_to_double (2 ^ 53 + 1) = (2 ^ 53)%Z
  ∧ round_to_double (2 ^ 53 + 3) = (2 ^ 53 + 4)%Z
  ∧ round_to_double (- (2 ^ 60 + 2 ^ 7 + 1)) = (- (2 ^ 60 + 2 ^ 8))%Z.
Proof. repeat split; vm_compute; reflexivity. Qed.

End SelectionId.

(** ** vega-selections: [InternSet], [union] and [intersection] *)

Module InternSet.

Section WithValues.
(** Values, compared as a [Set] compares them, and the keys they are interned
    under, compared as a [Map] compares its keys. *)
Context {V K : Type} `{EqDecision V} `{Countable K}.

(** [function keyof(value)]: [value.valueOf()] of an object, the value itself
    otherwise. *)
Variable keyof : V → K.

(** An [InternSet]: the values of the underlying [Set], in insertion order,
    and the [_intern] map; [_key] is [keyof] in every set of this module. *)
Record InternSet := { items : list V; _intern : gmap K V }.

(** The methods of the underlying [Set]. *)
Definition Set_has (l : list V) (v : V) : bool := bool_decide (v ∈ l).
Definition Set_add (l : list V) (v : V) : list V := if Set_has l v then l else l ++ [v].
Definition Set_delete (l : list V) (v : V) : list V := filter (λ w, w ≠ v) l.

(** [function intern_get({_intern, _key}, value)] *)
Definition intern_get (s : InternSet) (value : V) : V :=
  let key := keyof value in
  match _intern s !! key with
  | Some v => v
  | None => value
  end.

(** [function intern_set({_intern, _key}, value)]: the value and the map as
    the call leaves it. *)
Definition intern_set (s : InternSet) (value : V) : V * gmap K V :=
  let key := keyof value in
  match _intern s !! key with
  | Some v => (v, _intern s)
  | None => (value, <[key := value]> (_intern s))
  end.

(** [function intern_delete({_intern, _key}, value)] *)
Definition intern_delete (s : InternSet) (value : V) : V * gmap K V :=
  let key := keyof value in
  match _intern s !! key with
  | Some v => (v, base.delete key (_intern s))
  | None => (value, _intern s)
  end.

(** [has(value)], [add(value)], [delete(value)] *)
Definition has (s : InternSet) (value : V) : bool :=
  Set_has (items s) (intern_get s value).

Definition add (s : InternSet) (value : V) : InternSet :=
  let r := intern_set s value in
  {| items := Set_add (items s) (fst r); _intern := snd r |}.

Definition delete (s : InternSet) (value : V) : InternSet :=
  let r := intern_delete s value in
  {| items := Set_delete (items s) (fst r); _intern := snd r |}.

(** [new InternSet(values)] *)
Definition empty : InternSet := {| items := []; _intern := ∅ |}.

Definition new (values : list V) : InternSet := foldl add empty values.

(** What the functions iterate: an array or an [InternSet]. *)
Inductive Iterable : Type :=
| IArray (l : list V)
| ISet (s : InternSet).

Definition to_list (it : Iterable) : list V :=
  match it with
  | IArray l => l
  | ISet s => items s
  end.

(** [function set(values)] *)
Definition set (values : Iterable) : InternSet :=
  match values with
  | ISet s => s
  | IArray l => new l
  end.

(** [function union(...others)] *)
Definition union (others : list Iterable) : InternSet :=
  foldl (λ set other, foldl add set (to_list other)) empty others.

(** [function intersection(values, ...others)]: a value that one of the
    others lacks is deleted from the set under iteration, which goes on with
    the values that follow. *)
Definition intersection (values : Iterable) (others : list Iterable) : InternSet :=
  let values := new (to_list values) in
  let others := map set others in
  foldl (λ values value,
           if forallb (λ other, has other value) others then values
           else delete values value)
        values (items values).

(** *** What the sets hold *)

(** The keys of the values of a list. *)
Definition keys (l : list V) : list K := map keyof l.

(** The map interns exactly the values of the set, each under its key. *)
Definition wf (s : InternSet) : Prop :=
  NoDup (items s)
  ∧ ∀ k v, _intern s !! k = Some v ↔ v ∈ items s ∧ keyof v = k.

Lemma wf_empty : wf empty.
Proof.
  split; [apply NoDup_nil_2|]. intros k v. simpl. rewrite lookup_empty.
  split; [done|]. by intros [?%elem_of_nil _].
Qed.

Lemma wf_keys s : wf s → NoDup (keys (items s)).
Proof.
  intros [Hnd Hmap]. apply NoDup_fmap_2_strong; [|done].
  intros v w Hv Hw Heq.
  assert (_intern s !! keyof v = Some v) as Hv' by (by apply Hmap).
  assert (_intern s !! keyof v = Some w) as Hw' by (by apply Hmap).
  congruence.
Qed.

Lemma has_keys s value : wf s → has s value = true ↔ keyof value ∈ keys (items s).
Proof.
  intros [Hnd Hmap]. unfold has, intern_get, Set_has, keys.
  rewrite bool_decide_eq_true.
  destruct (_intern s !! keyof value) as [v|] eqn:Hlk.
  - apply Hmap in Hlk as [Hin Hk]. split; [|done].
    intros _. apply list_elem_of_fmap. by exists v.
  - split.
    + intros Hin. apply list_elem_of_fmap. by exists value.
    + intros (w & Hk & Hin)%list_elem_of_fmap.
      assert (_intern s !! keyof value = Some w) as Hw by (by apply Hmap).
      congruence.
Qed.

Lemma add_spec s value : wf s →
  wf (add s value)
  ∧ (∃ new_, items (add s value) = items s ++ new_
             ∧ (new_ = [] ∨ new_ = [value]))
  ∧ ∀ k, k ∈ keys (items (add s value)) ↔ k ∈ keys (items s) ∨ k = keyof value.
Proof.
  intros Hwf. pose proof Hwf as [Hnd Hmap]. unfold add, intern_set, Set_add, Set_has.
  destruct (_intern s !! keyof value) as [v|] eqn:Hlk; cbn [fst snd items _intern].
  - pose proof Hlk as [Hin Hk]%Hmap. rewrite bool_decide_eq_true_2 by done.
    split; [done|]. split; [exists []; rewrite app_nil_r; auto|].
    intros k. split; [auto|]. intros [? | ->]; [done|].
    apply list_elem_of_fmap. by exists v.
  - assert (value ∉ items s) as Hnot.
    { intros Hin. assert (_intern s !! keyof value = Some value) as Hv by (by apply Hmap).
      congruence. }
    rewrite bool_decide_eq_false_2 by done. split; [|split].
    + split.
      * apply NoDup_app. split; [done|]. split; [|apply NoDup_singleton].
        by intros w Hw ->%list_elem_of_singleton.
      * intros k v. cbn [items _intern]. rewrite elem_of_app, list_elem_of_singleton.
        destruct (decide (k = keyof value)) as [->|Hne].
        -- rewrite lookup_insert_eq. split.
           ++ intros [= <-]. auto.
           ++ intros [[Hin| ->] Hk]; [|done].
              assert (_intern s !! keyof value = Some v) as Hv by (by apply Hmap).
              congruence.
        -- rewrite lookup_insert_ne by done. rewrite Hmap. split.
           ++ intros [? ?]. auto.
           ++ intros [[? | ->] Hk]; [done|]. by destruct Hne.
    + exists [value]. auto.
    + intros k. unfold keys. rewrite map_app, elem_of_app. simpl.
      by rewrite list_elem_of_singleton.
Qed.

(** Adding the values of a list, one after the other. *)
Lemma fill_spec l : ∀ s, wf s →
  wf (foldl add s l)
  ∧ (∀ k, k ∈ keys (items (foldl add s l)) ↔ k ∈ keys (items s) ∨ k ∈ keys l)
  ∧ (∀ v, v ∈ items (foldl add s l) → v ∈ items s ∨ v ∈ l).
Proof.
  induction l as [|x l IH]; intros s Hwf; simpl.
  - split; [done|]. split; [|auto]. intros k. split; [auto|].
    by intros [?|?%elem_of_nil].
  - destruct (add_spec s x Hwf) as (Hwf' & (new_ & Hitems & Hnew) & Hkeys).
    destruct (IH _ Hwf') as (Hwf'' & Hkeys' & Hin'). split; [done|]. split.
    + intros k. rewrite Hkeys', Hkeys, elem_of_cons. tauto.
    + intros v Hv. apply Hin' in Hv as [Hv|Hv]; [|right; by right].
      rewrite Hitems, elem_of_app in Hv. destruct Hv as [?|Hv]; [by left|].
      destruct Hnew as [->| ->]; [by apply elem_of_nil in Hv|].
      apply list_elem_of_singleton in Hv as ->. right. by left.
Qed.

Lemma new_spec l :
  wf (new l) ∧ (∀ k, k ∈ keys (items (new l)) ↔ k ∈ keys l)
  ∧ (∀ v, v ∈ items (new l) → v ∈ l).
Proof.
  destruct (fill_spec l empty wf_empty) as (Hwf & Hkeys & Hin).
  split; [done|]. split.
  - intros k. rewrite (Hkeys k). simpl. split; [|auto].
    by intros [?%elem_of_nil|?].
  - intros v Hv. by destruct (Hin v Hv) as [?%elem_of_nil|?].
Qed.

(** X11.  [union(...others)] holds one value for each key met in the
    others, a value of one of them: no two of its values share a key, each of
    its values comes from one of the others, and [has] accepts exactly the
    values whose key is the key of a value of one of the others. *)
Theorem union_spec (others : list Iterable) :
  NoDup (keys (items (union others)))
  ∧ (∀ v, v ∈ items (union others) → v ∈ concat (map to_list others))
  ∧ (∀ value, has (union others) value = true
              ↔ keyof value ∈ keys (concat (map to_list others))).
Proof.
  unfold union.
  assert (∀ s, wf s →
    wf (foldl (λ set other, foldl add set (to_list other)) s others)
    ∧ (∀ k, k ∈ keys (items (foldl (λ set other, foldl add set (to_list other)) s others))
            ↔ k ∈ keys (items s) ∨ k ∈ keys (concat (map to_list others)))
    ∧ (∀ v, v ∈ items (foldl (λ set other, foldl add set (to_list other)) s others)
            → v ∈ items s ∨ v ∈ concat (map to_list others))) as Hall.
  { induction others as [|other others IH]; intros s Hwf; simpl.
    - split; [done|]. split; [|auto]. intros k. split; [auto|].
      by intros [?|?%elem_of_nil].
    - destruct (fill_spec (to_list other) s Hwf) as (Hwf' & Hkeys & Hin).
      destruct (IH _ Hwf') as (Hwf'' & Hkeys' & Hin'). split; [done|]. split.
      + intros k. rewrite Hkeys', Hkeys. unfold keys. rewrite map_app, elem_of_app.
        tauto.
      + intros v Hv. rewrite elem_of_app.
        apply Hin' in Hv as [Hv|Hv]; [|tauto].
        apply Hin in Hv. tauto. }
  destruct (Hall empty wf_empty) as (Hwf & Hkeys & Hin).
  split; [by apply wf_keys|]. split.
  - intros v Hv. by destruct (Hin v Hv) as [?%elem_of_nil|?].
  - intros value. rewrite has_keys by done. rewrite Hkeys. simpl.
    split; [|auto]. by intros [?%elem_of_nil|?].
Qed.

Lemma delete_spec s v : wf s → v ∈ items s →
  wf (delete s v) ∧ items (delete s v) = filter (λ w, w ≠ v) (items s).
Proof.
  intros [Hnd Hmap] Hin. unfold delete, intern_delete.
  assert (_intern s !! keyof v = Some v) as -> by (by apply Hmap).
  cbn [fst snd]. split; [|done]. split; cbn [items _intern].
  - by apply NoDup_filter.
  - intros k w. unfold Set_delete. rewrite list_elem_of_filter.
    destruct (decide (k = keyof v)) as [->|Hne].
    + rewrite lookup_delete_eq. split; [done|]. intros [[Hwv Hw] Hk].
      assert (_intern s !! keyof v = Some w) as Hw' by (by apply Hmap).
      assert (_intern s !! keyof v = Some v) as Hv' by (by apply Hmap).
      congruence.
    + rewrite lookup_delete_ne by done. rewrite Hmap. split.
      * intros [Hw Hk]. split; [|done]. split; [|done]. intros ->. by destruct Hne.
      * intros [[_ Hw] Hk]. done.
Qed.

(** The loop of [intersection] over the values [rest] still to visit. *)
Lemma intersection_loop (keep : V → bool) rest : ∀ s,
  wf s → NoDup rest → (∀ v, v ∈ rest → v ∈ items s) →
  let s' := foldl (λ values value, if keep value then values else delete values value)
                  s rest in
  wf s' ∧ items s' = filter (λ w, keep w = true ∨ w ∉ rest) (items s).
Proof.
  induction rest as [|v rest IH]; intros s Hwf Hnd Hin; simpl.
  - split; [done|]. clear. induction (items s) as [|w l IHl]; [done|].
    rewrite filter_cons_True by (right; apply not_elem_of_nil). by rewrite <- IHl.
  - apply NoDup_cons in Hnd as [Hv Hnd].
    destruct (keep v) eqn:Hkeep.
    + destruct (IH s Hwf Hnd) as [Hwf' Hitems].
      { intros w Hw. apply Hin. by right. }
      split; [done|]. rewrite Hitems. apply list_filter_iff. intros w.
      rewrite not_elem_of_cons. split; [|tauto].
      intros [?|Hw]; [by left|]. destruct (decide (w = v)) as [->|]; [by left|by right].
    + destruct (delete_spec s v Hwf) as [Hwf' Hdel]; [apply Hin; by left|].
      destruct (IH (delete s v) Hwf' Hnd) as [Hwf'' Hitems].
      { intros w Hw. rewrite Hdel. apply list_elem_of_filter. split.
        - by intros ->.
        - apply Hin. by right. }
      split; [done|]. rewrite Hitems, Hdel. rewrite list_filter_filter.
      apply list_filter_iff. intros w. rewrite not_elem_of_cons. split.
      * intros [[?|?] ?]; [by left|by right].
      * intros [Hk|[Hne Hw]].
        -- split; [by left|]. intros ->. congruence.
        -- split; [by right|done].
Qed.

(** X12.  [intersection(values, ...others)] keeps, of the values of the
    first argument (one per key), those whose key every one of the others
    holds: no two of its values share a key, and [has] accepts exactly the
    values whose key is the key of a value of [values] and of a value of each
    of the others.  An [InternSet] among the others must intern its values as
    the methods of the class leave them. *)
Theorem intersection_spec (values : Iterable) (others : list Iterable) :
  (∀ s, ISet s ∈ others → wf s) →
  NoDup (keys (items (intersection values others)))
  ∧ (∀ v, v ∈ items (intersection values others) → v ∈ to_list values)
  ∧ (∀ value, has (intersection values others) value = true
              ↔ keyof value ∈ keys (to_list values)
                ∧ ∀ other, other ∈ others → keyof value ∈ keys (to_list other)).
Proof.
  intros Hothers.
  pose (s0 := new (to_list values)).
  pose (keep := λ value, forallb (λ other, has other value) (map set others)).
  change (intersection values others)
    with (foldl (λ values value, if keep value then values else delete values value)
                s0 (items s0)).
  destruct (new_spec (to_list values)) as (Hwf0 & Hkeys0 & Hin0).
  fold s0 in Hwf0, Hkeys0, Hin0.
  destruct (intersection_loop keep (items s0) s0) as [Hwf Hitems];
    [done|by destruct Hwf0|done|].
  assert (∀ w, keep w = true ↔ ∀ other, other ∈ others → keyof w ∈ keys (to_list other))
    as Hkeep.
  { intros w. unfold keep. rewrite forallb_forall. split.
    - intros Hall other Hother.
      specialize (Hall (set other)). rewrite has_keys in Hall.
      + destruct other as [l|s]; simpl in *.
        * apply new_spec. apply Hall. apply in_map_iff. exists (IArray l).
          split; [done|]. by apply list_elem_of_In.
        * apply Hall. apply in_map_iff. exists (ISet s).
          split; [done|]. by apply list_elem_of_In.
      + destruct other as [l|s]; simpl; [apply new_spec|by apply Hothers].
    - intros Hall s (other & <- & Hother%list_elem_of_In)%in_map_iff.
      rewrite has_keys.
      + destruct other as [l|s]; simpl; [apply new_spec|]; by apply (Hall _ Hother).
      + destruct other as [l|s]; simpl; [apply new_spec|by apply Hothers]. }
  split; [by apply wf_keys|]. split.
  - intros v Hv. rewrite Hitems in Hv. apply list_elem_of_filter in Hv as [_ Hv].
    by apply Hin0.
  - intros value. rewrite has_keys by done. rewrite Hitems. unfold keys at 1.
    rewrite list_elem_of_fmap. split.
    + intros (w & Hk & [[Hw|Hw] Hin]%list_elem_of_filter); [|done].
      rewrite Hk. split.
      * apply Hkeys0. apply list_elem_of_fmap. by exists w.
      * by apply Hkeep.
    + intros [Hv Hall]. apply Hkeys0 in Hv. apply list_elem_of_fmap in Hv as (w & Hk & Hw).
      exists w. split; [done|]. apply list_elem_of_filter. split; [|done].
      left. apply Hkeep. by rewrite <- Hk.
Qed.

End WithValues.

(** Ids in arrays; a number is its own key. *)
Definition sample_values : @Iterable nat nat _ _ := IArray [1; 2; 3; 2].

Definition sample_others : list (@Iterable nat nat _ _) :=
  [IArray [3; 1]; IArray [1; 4]].

Example intersection_runs :
  items (intersection (λ n : nat, n) sample_values sample_others) = [1]
  ∧ items (union (λ n : nat, n) (sample_values :: sample_others)) = [1; 2; 3; 4].
Proof. split; vm_compute; reflexivity. Qed.

Lemma intersection_spec_witness :
  NoDup (keys (λ n : nat, n)
           (items (intersection (λ n : nat, n) sample_values sample_others)))
  ∧ (∀ v, v ∈ items (intersection (λ n : nat, n) sample_values sample_others) →
          v ∈ to_list sample_values)
  ∧ (∀ value, has (λ n : nat, n)
                (intersection (λ n : nat, n) sample_values sample_others) value = true
              ↔ value ∈ keys (λ n : nat, n) (to_list sample_values)
                ∧ ∀ other, other ∈ sample_others →
                           value ∈ keys (λ n : nat, n) (to_list other)).
Proof.
  apply (intersection_spec (λ n : nat, n) sample_values sample_others).
  intros s Hs. unfold sample_others in Hs.
  repeat (apply elem_of_cons in Hs as [Hs|Hs]; [discriminate Hs|]).
  by apply elem_of_nil in Hs.
Defined.

End InternSet.

(** ** vega-selections: the operations that resolve a selection *)

Module SelectionOps.

Import SelectionId.

(** *** Enumerated values: [E_union] and [E_intersect] *)

Section Enumerated.
(** The values of an enumerated field.  Two values are [===] when they are
    the same value and not [NaN]. *)
Context {V : Type} `{EqDecision V}.
Variable is_nan : V → bool.

Definition strict_equal (a b : V) : bool := negb (is_nan a) && bool_decide (a = b).

(** [array.indexOf(x)] *)
Fixpoint indexOf_from (array : list V) (x : V) (i : nat) : Z :=
  match array with
  | [] => (-1)%Z
  | y :: array' => if strict_equal y x then Z.of_nat i else indexOf_from array' x (S i)
  end.

Definition indexOf (array : list V) (x : V) : Z := indexOf_from array x 0.

(** [E_union: function (base, value)]: the values are pushed onto [base]
    itself, which is returned. *)
Definition E_union (base value : list V) : list V :=
  if Nat.eqb (length base) 0 then value
  else foldl (λ base v, if (indexOf base v <? 0)%Z then base ++ [v] else base) base value.

(** [E_intersect: function (base, value)] *)
Definition E_intersect (base value : list V) : list V :=
  if Nat.eqb (length base) 0 then value
  else filter (λ v, (0 ≤ indexOf value v)%Z) base.

Lemma indexOf_from_found array x : ∀ i,
  (indexOf_from array x i < 0)%Z ↔ (is_nan x = true ∨ x ∉ array).
Proof.
  induction array as [|y array IH]; intros i; simpl.
  - split; [intros _; right; apply not_elem_of_nil|lia].
  - unfold strict_equal. destruct (is_nan y) eqn:Hy; simpl.
    + rewrite IH, not_elem_of_cons. split; [|tauto].
      intros [?|?]; [by left|]. destruct (decide (x = y)) as [->|]; [by left|by right].
    + destruct (decide (y = x)) as [->|Hne].
      * rewrite bool_decide_eq_true_2 by done. split; [lia|].
        intros [?|Hnot]; [congruence|]. exfalso. apply Hnot. by left.
      * rewrite bool_decide_eq_false_2 by done. rewrite IH, not_elem_of_cons.
        split; [|tauto]. intros [?|?]; [by left|]. right. split; [congruence|done].
Qed.

(** X13.  [E_union(base, value)] with a non-empty [base] appends to [base],
    in order, each value of [value] that [base] does not hold yet ([NaN]
    always counts as new): where [value] has no [NaN], the result starts with
    [base], holds exactly the values of the two arrays and, when [base] has no
    duplicate, has none either.  With an empty [base] the result is the array
    [value] as it is. *)
Theorem E_union_spec (base value : list V) :
  Forall (λ v, is_nan v = false) value →
  (base = [] → E_union base value = value)
  ∧ (base ≠ [] →
     (∃ new_, E_union base value = base ++ new_)
     ∧ (∀ x, x ∈ E_union base value ↔ x ∈ base ∨ x ∈ value)
     ∧ (NoDup base → NoDup (E_union base value))).
Proof.
  intros Hnan. unfold E_union. split; [by intros ->|].
  intros Hne.
  assert (Nat.eqb (length base) 0 = false) as -> by (by destruct base).
  clear Hne. revert base. induction Hnan as [|v value Hv _ IH]; intros base; simpl.
  - split; [exists []; by rewrite app_nil_r|]. split; [|done].
    intros x. split; [auto|]. by intros [?|?%elem_of_nil].
  - destruct (Z.ltb_spec (indexOf base v) 0) as [Hnew|Hold]; unfold indexOf in *.
    + apply indexOf_from_found in Hnew as [?|Hnew]; [congruence|].
      destruct (IH (base ++ [v])) as ((new_ & Hpre) & Hmem & Hnd).
      split; [exists (v :: new_); by rewrite Hpre, <- app_assoc|]. split.
      * intros x. rewrite Hmem, elem_of_app, list_elem_of_singleton, elem_of_cons. tauto.
      * intros Hb. apply Hnd. apply NoDup_app. split; [done|].
        split; [|apply NoDup_singleton]. by intros w Hw ->%list_elem_of_singleton.
    + assert (v ∈ base) as Hin.
      { destruct (decide (v ∈ base)) as [|Hnot]; [done|].
        assert (indexOf_from base v 0 < 0)%Z by (apply indexOf_from_found; by right). lia. }
      destruct (IH base) as (Hpre & Hmem & Hnd).
      split; [done|]. split; [|done].
      intros x. rewrite Hmem, elem_of_cons. split; [tauto|].
      intros [?|[->|?]]; auto.
Qed.

(** X14.  [E_intersect(base, value)] with a non-empty [base] returns, in
    the order of [base], the values of [base] that [value] holds too, [NaN]
    left out; with an empty [base] it returns [value] as it is, so that an
    empty array stands for no restriction, not for no value. *)
Theorem E_intersect_spec (base value : list V) :
  (base = [] → E_intersect base value = value)
  ∧ (base ≠ [] →
     E_intersect base value
     = filter (λ v, is_nan v = false ∧ v ∈ value) base).
Proof.
  unfold E_intersect. split; [by intros ->|].
  intros Hne.
  assert (Nat.eqb (length base) 0 = false) as -> by (by destruct base).
  apply list_filter_iff. intros x. unfold indexOf.
  pose proof (indexOf_from_found value x 0) as Hfound.
  destruct (is_nan x) eqn:Hx.
  - split; [|by intros [? _]]. intros Hge.
    assert (indexOf_from value x 0 < 0)%Z by (apply Hfound; by left). lia.
  - split.
    + intros Hge. split; [done|].
      destruct (decide (x ∈ value)) as [|Hnot]; [done|].
      assert (indexOf_from value x 0 < 0)%Z by (apply Hfound; by right). lia.
    + intros [_ Hin]. destruct (Z.lt_ge_cases (indexOf_from value x 0) 0) as [Hlt|]; [|done].
      apply Hfound in Hlt as [?|?]; done.
Qed.

End Enumerated.

(** *** Ranges: [R_union] and [R_intersect] *)

Section Ranges.
(** [vega-util] [toNumber]. *)
Variable toNumber : Val → Val.

(** [a[i]], and [a[i] = x] on an array that holds [a[i]]. *)
Definition at_ (a : list Val) (i : nat) : Val := nth i a VUndefined.

Definition set_at (a : list Val) (i : nat) (x : Val) : list Val :=
  if Nat.ltb i (length a) then <[i := x]> a
  else a ++ replicate (i - length a) VUndefined ++ [x].

(** The first statements of both functions: the bounds of [value], put in
    order. *)
Definition bounds (value : list Val) : Val * Val :=
  let lo := toNumber (at_ value 0) in
  let hi := toNumber (at_ value 1) in
  if js_gt lo hi then (at_ value 1, at_ value 0) else (lo, hi).

(** [R_union: function (base, value)]: [base] is widened in place. *)
Definition R_union (base value : list Val) : list Val :=
  let (lo, hi) := bounds value in
  if Nat.eqb (length base) 0 then [lo; hi]
  else
    let base := if js_gt (at_ base 0) lo then set_at base 0 lo else base in
    let base := if js_lt (at_ base 1) hi then set_at base 1 hi else base in
    base.

(** [R_intersect: function (base, value)] *)
Definition R_intersect (base value : list Val) : list Val :=
  let (lo, hi) := bounds value in
  if Nat.eqb (length base) 0 then [lo; hi]
  else if js_lt hi (at_ base 0) || js_lt (at_ base 1) lo then []
  else
    let base := if js_lt (at_ base 0) lo then set_at base 0 lo else base in
    let base := if js_gt (at_ base 1) hi then set_at base 1 hi else base in
    base.

(** A number lies in a range [[lo, hi]]; no number lies in the empty
    array. *)
Definition within (x : Z) (range : list Val) : Prop :=
  match range with
  | [VNum lo; VNum hi] => (lo ≤ x ≤ hi)%Z
  | _ => False
  end.

Lemma bounds_num a b :
  (∀ z, toNumber (VNum z) = VNum z) →
  bounds [VNum a; VNum b] = (VNum (Z.min a b), VNum (Z.max a b)).
Proof.
  intros Hnum. unfold bounds, at_, js_gt, js_lt. simpl. rewrite !Hnum. simpl.
  destruct (Z.ltb_spec b a); do 2 f_equal; lia.
Qed.

(** X15.  On ranges of numbers, [R_union(base, value)] with [base = [c, d]],
    [c <= d], returns the smallest range that holds both: [value] is read in
    either order, and a number lies in the result exactly when it lies
    between the smaller of the lower bounds and the larger of the upper
    ones. *)
Theorem R_union_spec (a b c d : Z) :
  (∀ z, toNumber (VNum z) = VNum z) → (c ≤ d)%Z →
  R_union [VNum c; VNum d] [VNum a; VNum b]
  = [VNum (Z.min c (Z.min a b)); VNum (Z.max d (Z.max a b))]
  ∧ ∀ x, within x (R_union [VNum c; VNum d] [VNum a; VNum b])
         ↔ (Z.min c (Z.min a b) ≤ x ≤ Z.max d (Z.max a b))%Z.
Proof.
  intros Hnum Hcd.
  assert (R_union [VNum c; VNum d] [VNum a; VNum b]
          = [VNum (Z.min c (Z.min a b)); VNum (Z.max d (Z.max a b))]) as ->.
  { unfold R_union. rewrite (bounds_num a b Hnum). simpl.
    unfold js_gt, js_lt, at_, set_at. simpl.
    destruct (Z.ltb_spec (Z.min a b) c); simpl;
      destruct (Z.ltb_spec d (Z.max a b)); simpl;
      (f_equal; [f_equal|do 2 f_equal]; lia). }
  split; [done|]. intros x. reflexivity.
Qed.

(** X16.  On ranges of numbers, [R_intersect(base, value)] with
    [base = [c, d]], [c <= d], returns the range the two have in common, the
    empty array when they have none: a number lies in the result exactly when
    it lies in [base] and in [value], read in either order. *)
Theorem R_intersect_spec (a b c d : Z) :
  (∀ z, toNumber (VNum z) = VNum z) → (c ≤ d)%Z →
  ∀ x, within x (R_intersect [VNum c; VNum d] [VNum a; VNum b])
       ↔ (c ≤ x ≤ d)%Z ∧ (Z.min a b ≤ x ≤ Z.max a b)%Z.
Proof.
  intros Hnum Hcd x. unfold R_intersect. rewrite (bounds_num a b Hnum). simpl.
  unfold js_gt, js_lt, at_, set_at. simpl.
  destruct (Z.ltb_spec (Z.max a b) c); simpl; [lia|].
  destruct (Z.ltb_spec d (Z.min a b)); simpl; [lia|].
  destruct (Z.ltb_spec c (Z.min a b)); simpl;
    destruct (Z.ltb_spec (Z.max a b) d); simpl; lia.
Qed.

End Ranges.

Lemma E_union_spec_witness :
  ([1; 2] = [] → E_union (λ _ : nat, false) [1; 2] [2; 5; 5] = [2; 5; 5])
  ∧ ([1; 2] ≠ [] →
     (∃ new_, E_union (λ _ : nat, false) [1; 2] [2; 5; 5] = [1; 2] ++ new_)
     ∧ (∀ x, x ∈ E_union (λ _ : nat, false) [1; 2] [2; 5; 5]
             ↔ x ∈ [1; 2] ∨ x ∈ [2; 5; 5])
     ∧ (NoDup [1; 2] → NoDup (E_union (λ _ : nat, false) [1; 2] [2; 5; 5]))).
Proof.
  apply (E_union_spec (λ _ : nat, false) [1; 2] [2; 5; 5]).
  repeat (apply Forall_cons; split; [reflexivity|]). apply Forall_nil_2.
Defined.

Example E_union_runs :
  E_union (λ _ : nat, false) [1; 2] [2; 5; 5] = [1; 2; 5]
  ∧ E_intersect (λ _ : nat, false) [1; 2; 5] [5; 1] = [1; 5]
  ∧ E_intersect (λ _ : nat, false) (E_intersect (λ _ : nat, false) [1] [2]) [3] = [3].
Proof. repeat split; vm_compute; reflexivity. Qed.

Lemma R_union_spec_witness :
  R_union (λ v, v) [VNum 2; VNum 5] [VNum 9; VNum 4]
  = [VNum (Z.min 2 (Z.min 9 4)); VNum (Z.max 5 (Z.max 9 4))]
  ∧ ∀ x, within x (R_union (λ v, v) [VNum 2; VNum 5] [VNum 9; VNum 4])
         ↔ (Z.min 2 (Z.min 9 4) ≤ x ≤ Z.max 5 (Z.max 9 4))%Z.
Proof.
  apply (R_union_spec (λ v, v) 9 4 2 5); [reflexivity|lia].
Defined.

Lemma R_intersect_spec_witness :
  within 4 (R_intersect (λ v, v) [VNum 2; VNum 5] [VNum 9; VNum 4])
  ↔ (2 ≤ 4 ≤ 5)%Z ∧ (Z.min 9 4 ≤ 4 ≤ Z.max 9 4)%Z.
Proof.
  apply (R_intersect_spec (λ v, v) 9 4 2 5); [reflexivity|lia].
Defined.

End SelectionOps.

(** ** vega-selections: [selectionVisitor] *)

Module SelectionVisitor.

(** [vega-expression]'s node type of a literal. *)
Definition Literal : string := "Literal".

Definition DataPrefix : string := ":".
Definition IndexPrefix : string := "@".

(** An argument of the call under visit: [type], and [value] coerced to a
    string where the node has one. *)
Record Node := { n_type : string; n_value : option string }.

(** [x + ''] of a value that may be [undefined]. *)
Definition to_string (v : option string) : string := default "undefined" v.

Section WithScope.
(** The data sets of the scope and the references they hand out:
    [scope.getData(name)], [dataset.indataRef(scope, field)] and
    [dataset.tuplesRef()]. *)
Variable Dataset : Type.
Variable Ref : Type.
Variable getData : string → option Dataset.
Variable indataRef : Dataset → string → Ref.
Variable tuplesRef : Dataset → Ref.

(** A method called on [scope.getData(data)]. *)
Definition on_data {A} (data : string) (method : Dataset → A) : result A :=
  match getData data with
  | Some d => Ok (method d)
  | None => Throw "TypeError: Cannot read properties of undefined"
  end.

(** [function selectionVisitor(name, args, scope, params)]: the outcome, and
    [params] as the call leaves it. *)
Definition selectionVisitor (name : string) (args : list Node)
    (params : gmap string Ref) : result unit * gmap string Ref :=
  match args with
  | [] => (Throw "TypeError: Cannot read properties of undefined (reading 'type')", params)
  | first :: _ =>
    if negb (String.eqb (n_type first) Literal)
    then (error "First argument to selection functions must be a string literal.", params)
    else
      let data := to_string (n_value first) in
      let op := if Nat.leb 2 (length args)
                then n_value (List.last args first) else None in
      let field := "unit" in
      let indexName := IndexPrefix +:+ field in
      let dataName := DataPrefix +:+ data in
      let indexed :=
        if bool_decide (op = Some Selection.Intersect)
           && negb (bool_decide (is_Some (params !! indexName)))
        then match on_data data (λ d, indataRef d field) with
             | Ok r => Ok (<[indexName := r]> params)
             | Throw e => Throw e
             end
        else Ok params in
      match indexed with
      | Throw e => (Throw e, params)
      | Ok params =>
        if negb (bool_decide (is_Some (params !! dataName)))
        then match on_data data tuplesRef with
             | Ok r => (Ok tt, <[dataName := r]> params)
             | Throw e => (Throw e, params)
             end
        else (Ok tt, params)
      end
  end.

(** X17.  [selectionVisitor] only ever adds to [params]: whatever it returns
    or throws, every entry [params] held is still there with the same
    reference, and a new entry is named [':' + data] or ['@unit'].  When it
    returns, [params] holds an entry [':' + data], and an entry ['@unit'] if
    the last of two or more arguments has the value ['intersect'].  When the
    first argument is not a literal it throws and [params] is as it was. *)
Theorem selectionVisitor_registers (name : string) (first : Node) (rest : list Node)
    (params : gmap string Ref) :
  let args := first :: rest in
  let r := selectionVisitor name args params in
  let data := to_string (n_value first) in
  (∀ k ref, params !! k = Some ref → snd r !! k = Some ref)
  ∧ (∀ k, is_Some (snd r !! k) →
          is_Some (params !! k) ∨ k = DataPrefix +:+ data ∨ k = IndexPrefix +:+ "unit")
  ∧ (fst r = Ok tt →
     is_Some (snd r !! (DataPrefix +:+ data))
     ∧ (rest ≠ [] → n_value (List.last args first) = Some Selection.Intersect →
        is_Some (snd r !! (IndexPrefix +:+ "unit"))))
  ∧ (n_type first ≠ Literal →
     r = (Throw "First argument to selection functions must be a string literal.",
          params)).
Proof.
  intros args r data. subst r args. unfold selectionVisitor.
  destruct (String.eqb_spec (n_type first) Literal) as [Hlit|Hlit]; cbn [negb].
  2:{ split; [done|]. split; [auto|]. split; [done|]. done. }
  fold data.
  set (indexName := IndexPrefix +:+ "unit"). set (dataName := DataPrefix +:+ data).
  set (op := if Nat.leb 2 (length (first :: rest)) then _ else None).
  assert (rest ≠ [] → op = n_value (List.last (first :: rest) first)) as Hop.
  { intros Hne. subst op. destruct rest; [done|reflexivity]. }
  assert (∀ (p : gmap string Ref) k' r',
            (∀ k ref, params !! k = Some ref → p !! k = Some ref) →
            p !! k' = None →
            ∀ k ref, params !! k = Some ref → <[k' := r']> p !! k = Some ref) as Hkeep.
  { intros p k' r' Hp Hnone k ref Hk. destruct (decide (k = k')) as [->|Hne].
    - rewrite (Hp _ _ Hk) in Hnone. discriminate Hnone.
    - rewrite lookup_insert_ne by done. by apply Hp. }
  destruct (bool_decide (op = Some Selection.Intersect)) eqn:Hopb; cbn [andb].
  - apply bool_decide_eq_true in Hopb.
    destruct (params !! indexName) as [ri|] eqn:Hidx.
    + rewrite bool_decide_eq_true_2 by eauto. cbn [negb].
      destruct (params !! dataName) as [rd|] eqn:Hdata.
      * rewrite bool_decide_eq_true_2 by eauto. cbn [negb fst snd].
        split; [done|]. split; [auto|]. split; [eauto|]. intros Hne. contradiction.
      * rewrite bool_decide_eq_false_2 by (by intros [? ?]). cbn [negb].
        unfold on_data. destruct (getData data) as [d|]; cbn [fst snd].
        -- split; [by apply Hkeep|]. split.
           ++ intros k [ref Hk]. destruct (decide (k = dataName)) as [->|Hne]; [auto|].
              rewrite lookup_insert_ne in Hk by done. eauto.
           ++ split; [|intros Hne; contradiction]. intros _.
              rewrite lookup_insert_eq. split; [eauto|]. intros _ _.
              destruct (decide (indexName = dataName)) as [Heq|Hne].
              ** rewrite Heq, lookup_insert_eq. eauto.
              ** rewrite lookup_insert_ne by done. eauto.
        -- split; [done|]. split; [auto|]. split; [done|]. intros Hne. contradiction.
    + rewrite bool_decide_eq_false_2 by (by intros [? ?]). cbn [negb].
      unfold on_data. destruct (getData data) as [d|]; cbn [fst snd].
      2:{ split; [done|]. split; [auto|]. split; [done|]. intros Hne. contradiction. }
      set (p1 := <[indexName := indataRef d "unit"]> params).
      assert (∀ k ref, params !! k = Some ref → p1 !! k = Some ref) as Hp1
        by (by apply Hkeep).
      assert (∀ k, is_Some (p1 !! k) → is_Some (params !! k) ∨ k = indexName) as Hdom1.
      { intros k [ref Hk]. subst p1. destruct (decide (k = indexName)) as [->|Hne]; [auto|].
        rewrite lookup_insert_ne in Hk by done. eauto. }
      destruct (p1 !! dataName) as [rd|] eqn:Hdata.
      * rewrite bool_decide_eq_true_2 by eauto. cbn [negb fst snd].
        split; [done|]. split; [intros k Hk; destruct (Hdom1 k Hk); auto|].
        split; [|intros Hne; contradiction]. intros _. split; [eauto|]. intros _ _.
        subst p1. rewrite lookup_insert_eq. eauto.
      * rewrite bool_decide_eq_false_2 by (by intros [? ?]). cbn [negb fst snd].
        split; [by apply Hkeep|]. split.
        -- intros k [ref Hk]. destruct (decide (k = dataName)) as [->|Hne]; [auto|].
           rewrite lookup_insert_ne in Hk by done.
           destruct (Hdom1 k) as [?|?]; eauto.
        -- split; [|intros Hne; contradiction]. intros _.
           rewrite lookup_insert_eq. split; [eauto|]. intros _ _.
           destruct (decide (indexName = dataName)) as [Heq|Hne].
           ++ rewrite Heq, lookup_insert_eq. eauto.
           ++ rewrite lookup_insert_ne by done. subst p1.
              rewrite lookup_insert_eq. eauto.
  - apply bool_decide_eq_false in Hopb.
    destruct (params !! dataName) as [rd|] eqn:Hdata.
    + rewrite bool_decide_eq_true_2 by eauto. cbn [negb fst snd].
      split; [done|]. split; [auto|]. split; [|intros Hne; contradiction].
      intros _. split; [eauto|]. intros Hrest Hlast. rewrite <- Hop in Hlast by done.
      contradiction.
    + rewrite bool_decide_eq_false_2 by (by intros [? ?]). cbn [negb].
      unfold on_data. destruct (getData data) as [d|]; cbn [fst snd].
      * split; [by apply Hkeep|]. split.
        -- intros k [ref Hk]. destruct (decide (k = dataName)) as [->|Hne]; [auto|].
           rewrite lookup_insert_ne in Hk by done. eauto.
        -- split; [|intros Hne; contradiction]. intros _.
           rewrite lookup_insert_eq. split; [eauto|]. intros Hrest Hlast.
           rewrite <- Hop in Hlast by done. contradiction.
      * split; [done|]. split; [auto|]. split; [done|]. intros Hne. contradiction.
Qed.

End WithScope.

End SelectionVisitor.
